(** * bf-dnc: brute force versus divide and conquer

    A shallow embedding of the three demonstration programs of the
    repository (matrix_multiply.cpp, factorial.cpp and the prime-number
    program) together with the properties their description states.

    Conventions of the embedding.
    - [long long] values are integers of [Z] kept in the signed 64-bit range
      by [wrap64]; [unsigned long long] values are kept in range by
      [wrapu64].  Sizes and loop counters of type [int] are integers of
      [Z]: in the matrix program a counter stays between [0] and the size;
      in the other two programs an operation that would leave the range of
      [int] fails.
    - A matrix [long long**] is the address of an array of row pointers in
      the heap; every row is the address of an array of cells.  Arrays that
      come from [new] start with undefined elements, and an undefined
      element cannot be read.  [matrixMultiplyDivideConquer_junk] is the
      divide-and-conquer multiplication when such an element holds a value
      instead, whatever it is.
    - The numbers that [initializeRandomMatrix] draws come from outside
      the program: they are an argument of its embedding.
    - A computation either fails (an access outside an array, a read of an
      undefined element, a release of something not allocated) or returns a
      value and the next heap. *)

From stdpp Require Import gmap list.
From Stdlib Require Import ZArith Lia Znumtheory.
From Equations Require Import Equations.

Open Scope Z_scope.

(** ** Machine integers *)

Definition wrap64 (x : Z) : Z := (x + 2 ^ 63) mod 2 ^ 64 - 2 ^ 63.
Definition wrapu64 (x : Z) : Z := x mod 2 ^ 64.
Definition int64 (x : Z) : Prop := - 2 ^ 63 <= x < 2 ^ 63.

(** ** The heap *)

Definition loc := positive.
Bind Scope positive_scope with loc.

(** A block is an array; [None] is an element that was never written. *)
Abbreviation block T := (list (option T)).
Abbreviation store T := (gmap loc (block T)).

Record heap := Heap {
  ptrs : store loc;   (* arrays of row pointers, [long long*[]] *)
  ints : store Z      (* arrays of cells, [long long[]] *)
}.

Definition zidx {T} (l : list T) (i : Z) : option T :=
  if decide (0 <= i) then l !! Z.to_nat i else None.

Definition zupd {T} (l : list T) (i : Z) (x : T) : list T :=
  <[Z.to_nat i := x]> l.

Definition blk_alloc {T} (s : store T) (n : Z) : option (loc * store T) :=
  if decide (0 <= n) then
    let l := fresh (dom s) in
    Some (l, <[l := replicate (Z.to_nat n) None]> s)
  else None.

Definition blk_free {T} (s : store T) (l : loc) : option (store T) :=
  match s !! l with
  | Some _ => Some (delete l s)
  | None => None
  end.

Definition blk_read {T} (s : store T) (l : loc) (i : Z) : option T :=
  b ← s !! l; x ← zidx b i; x.

Definition blk_write {T} (s : store T) (l : loc) (i : Z) (x : T)
  : option (store T) :=
  b ← s !! l;
  if decide (0 <= i < Z.of_nat (length b))
  then Some (<[l := zupd b i (Some x)]> s)
  else None.

(** ** Computations on the heap *)

Definition M (A : Type) : Type := heap -> option (A * heap).

Definition ret {A} (a : A) : M A := fun h => Some (a, h).
Definition bind {A B} (m : M A) (k : A -> M B) : M B :=
  fun h => match m h with
           | Some (a, h') => k a h'
           | None => None
           end.

Declare Scope heap_scope.
Delimit Scope heap_scope with heap.
Notation "'do' x <- m ; k" := (bind m (fun x => k))
  (at level 10, x name, m at level 100, k at level 200) : heap_scope.
Notation "m ;; k" := (bind m (fun _ => k))
  (at level 100, k at level 200, right associativity) : heap_scope.
Open Scope heap_scope.

(** [new long long*[n]] and [new long long[n]] *)
Definition new_rows (n : Z) : M loc := fun h =>
  match blk_alloc (ptrs h) n with
  | Some (l, s) => Some (l, Heap s (ints h))
  | None => None
  end.
Definition new_cells (n : Z) : M loc := fun h =>
  match blk_alloc (ints h) n with
  | Some (l, s) => Some (l, Heap (ptrs h) s)
  | None => None
  end.

(** [delete[]] on an array of row pointers and on an array of cells *)
Definition delete_rows (X : loc) : M unit := fun h =>
  match blk_free (ptrs h) X with
  | Some s => Some (tt, Heap s (ints h))
  | None => None
  end.
Definition delete_cells (r : loc) : M unit := fun h =>
  match blk_free (ints h) r with
  | Some s => Some (tt, Heap (ptrs h) s)
  | None => None
  end.

(** [X[i]] as a value and [X[i] = r] *)
Definition get_row (X : loc) (i : Z) : M loc := fun h =>
  match blk_read (ptrs h) X i with
  | Some r => Some (r, h)
  | None => None
  end.
Definition set_row (X : loc) (i : Z) (r : loc) : M unit := fun h =>
  match blk_write (ptrs h) X i r with
  | Some s => Some (tt, Heap s (ints h))
  | None => None
  end.

(** [r[j]] as a value and [r[j] = v] *)
Definition get_cell (r : loc) (j : Z) : M Z := fun h =>
  match blk_read (ints h) r j with
  | Some v => Some (v, h)
  | None => None
  end.
Definition set_cell (r : loc) (j : Z) (v : Z) : M unit := fun h =>
  match blk_write (ints h) r j v with
  | Some s => Some (tt, Heap (ptrs h) s)
  | None => None
  end.

(** [X[i][j]] as a value and [X[i][j] = v] *)
Definition mread (X : loc) (i j : Z) : M Z :=
  do r <- get_row X i; get_cell r j.
Definition mwrite (X : loc) (i j : Z) (v : Z) : M unit :=
  do r <- get_row X i; set_cell r j v.

(** [for (int i = lo; i < hi; i++) body(i)] *)
Fixpoint for_from (cnt : nat) (i : Z) (body : Z -> M unit) : M unit :=
  match cnt with
  | O => ret tt
  | S c => body i;; for_from c (i + 1) body
  end.
Definition for_ (lo hi : Z) (body : Z -> M unit) : M unit :=
  for_from (Z.to_nat (hi - lo)) lo body.

(** The same loop when the body may [return] a value from the function:
    [Some v] leaves the loops, [None] goes on. *)
Fixpoint for_ret_from {R} (cnt : nat) (i : Z) (body : Z -> M (option R))
  : M (option R) :=
  match cnt with
  | O => ret None
  | S c => do r <- body i;
           match r with
           | Some v => ret (Some v)
           | None => for_ret_from c (i + 1) body
           end
  end.
Definition for_ret {R} (lo hi : Z) (body : Z -> M (option R)) : M (option R) :=
  for_ret_from (Z.to_nat (hi - lo)) lo body.

(** ** matrix_multiply.cpp *)

Definition matrixMultiplyBruteForce (A B C : loc) (n : Z) : M unit :=
  for_ 0 n (fun i =>
    for_ 0 n (fun j =>
      mwrite C i j 0;;
      for_ 0 n (fun k =>
        do a <- mread A i k;
        if decide (a <> 0) then
          do b <- mread B k j;
          if decide (b <> 0) then
            do c <- mread C i j;
            mwrite C i j (wrap64 (c + wrap64 (a * b)))
          else ret tt
        else ret tt))).

Definition addMatrix (A B C : loc) (n : Z) : M unit :=
  for_ 0 n (fun i =>
    for_ 0 n (fun j =>
      do a <- mread A i j;
      do b <- mread B i j;
      mwrite C i j (wrap64 (a + b)))).

Definition subtractMatrix (A B C : loc) (n : Z) : M unit :=
  for_ 0 n (fun i =>
    for_ 0 n (fun j =>
      do a <- mread A i j;
      do b <- mread B i j;
      mwrite C i j (wrap64 (a - b)))).

(** The row allocation loops of [matrixMultiplyDivideConquer]: one statement
    [X[i] = new long long[half]] for every matrix of the list, in order. *)
Fixpoint new_row_each (Xs : list loc) (i half : Z) : M unit :=
  match Xs with
  | [] => ret tt
  | X :: Xs' => (do r <- new_cells half; set_row X i r);;
                new_row_each Xs' i half
  end.

(** [delete[] X[i]] for every matrix of the list, in order. *)
Fixpoint delete_row_each (Xs : list loc) (i : Z) : M unit :=
  match Xs with
  | [] => ret tt
  | X :: Xs' => (do r <- get_row X i; delete_cells r);;
                delete_row_each Xs' i
  end.

(** [delete[] X] for every matrix of the list, in order. *)
Fixpoint delete_rows_each (Xs : list loc) : M unit :=
  match Xs with
  | [] => ret tt
  | X :: Xs' => delete_rows X;; delete_rows_each Xs'
  end.

(** One level of [matrixMultiplyDivideConquer]; [self] stands for the
    recursive calls. *)
Definition divide_conquer_step (self : loc -> loc -> loc -> Z -> M unit)
    (A B C : loc) (n : Z) : M unit :=
  if decide (n <= 2) then matrixMultiplyBruteForce A B C n
  else
    let half := n ÷ 2 in
    (* Allocate submatrices *)
    do A11 <- new_rows half; do A12 <- new_rows half;
    do A21 <- new_rows half; do A22 <- new_rows half;
    do B11 <- new_rows half; do B12 <- new_rows half;
    do B21 <- new_rows half; do B22 <- new_rows half;
    for_ 0 half (fun i =>
      new_row_each [A11; A12; A21; A22; B11; B12; B21; B22] i half);;
    (* Split matrices *)
    for_ 0 half (fun i =>
      for_ 0 half (fun j =>
        (do v <- mread A i j; mwrite A11 i j v);;
        (do v <- mread A i (j + half); mwrite A12 i j v);;
        (do v <- mread A (i + half) j; mwrite A21 i j v);;
        (do v <- mread A (i + half) (j + half); mwrite A22 i j v);;
        (do v <- mread B i j; mwrite B11 i j v);;
        (do v <- mread B i (j + half); mwrite B12 i j v);;
        (do v <- mread B (i + half) j; mwrite B21 i j v);;
        (do v <- mread B (i + half) (j + half); mwrite B22 i j v)));;
    (* Allocate temporary matrices *)
    do temp1 <- new_rows half; do temp2 <- new_rows half;
    do P1 <- new_rows half; do P2 <- new_rows half;
    do P3 <- new_rows half; do P4 <- new_rows half;
    do P5 <- new_rows half; do P6 <- new_rows half;
    do P7 <- new_rows half;
    for_ 0 half (fun i =>
      new_row_each [temp1; temp2; P1; P2; P3; P4; P5; P6; P7] i half);;
    (* Calculate P1 to P7 *)
    subtractMatrix B12 B22 temp1 half;;
    self A11 temp1 P1 half;;
    addMatrix A11 A12 temp1 half;;
    self temp1 B22 P2 half;;
    addMatrix A21 A22 temp1 half;;
    self temp1 B11 P3 half;;
    subtractMatrix B21 B11 temp1 half;;
    self A22 temp1 P4 half;;
    addMatrix A11 A22 temp1 half;;
    addMatrix B11 B22 temp2 half;;
    self temp1 temp2 P5 half;;
    subtractMatrix A12 A22 temp1 half;;
    addMatrix B21 B22 temp2 half;;
    self temp1 temp2 P6 half;;
    subtractMatrix A11 A21 temp1 half;;
    addMatrix B11 B12 temp2 half;;
    self temp1 temp2 P7 half;;
    (* Combine results *)
    for_ 0 half (fun i =>
      for_ 0 half (fun j =>
        (do p5 <- mread P5 i j; do p4 <- mread P4 i j;
         do p2 <- mread P2 i j; do p6 <- mread P6 i j;
         mwrite C i j (wrap64 (wrap64 (wrap64 (p5 + p4) - p2) + p6)));;
        (do p1 <- mread P1 i j; do p2 <- mread P2 i j;
         mwrite C i (j + half) (wrap64 (p1 + p2)));;
        (do p3 <- mread P3 i j; do p4 <- mread P4 i j;
         mwrite C (i + half) j (wrap64 (p3 + p4)));;
        (do p5 <- mread P5 i j; do p1 <- mread P1 i j;
         do p3 <- mread P3 i j; do p7 <- mread P7 i j;
         mwrite C (i + half) (j + half)
                (wrap64 (wrap64 (wrap64 (p5 + p1) - p3) - p7)))));;
    (* Clean up allocated memory *)
    for_ 0 half (fun i =>
      delete_row_each [A11; A12; A21; A22; B11; B12; B21; B22;
                       temp1; temp2; P1; P2; P3; P4; P5; P6; P7] i);;
    delete_rows_each [A11; A12; A21; A22; B11; B12; B21; B22;
                      temp1; temp2; P1; P2; P3; P4; P5; P6; P7].

(** The recursion halves [n], so [depth] levels are enough for every
    [n < 2 ^ depth]; [matrixMultiplyDivideConquer] starts with
    [Z.to_nat n] levels (see [matrixMultiplyDivideConquer_unfold]). *)
Fixpoint divide_conquer_rec (depth : nat) (A B C : loc) (n : Z) : M unit :=
  match depth with
  | O => matrixMultiplyBruteForce A B C n
  | S d => divide_conquer_step (divide_conquer_rec d) A B C n
  end.

Definition matrixMultiplyDivideConquer (A B C : loc) (n : Z) : M unit :=
  divide_conquer_rec (Z.to_nat n) A B C n.

(** ** [matrixMultiplyDivideConquer] when new arrays hold values *)

(** [new long long[n]] does not initialise its elements.  [new_cells] takes
    that to the letter: an element that was never written cannot be read,
    and a call that reads one does not return.  On a machine the element
    holds whatever the memory held.  The definitions below are
    [matrixMultiplyDivideConquer] read that way: [junk h j] is the value
    found in the element [j] of an array of cells allocated in the heap [h],
    and nothing is known of it.  The text is the one of
    [divide_conquer_step], with [new_cells_junk junk] for [new_cells]. *)
Definition new_cells_junk (junk : heap -> Z -> Z) (n : Z) : M loc := fun h =>
  match blk_alloc (ints h) n with
  | Some (l, _) =>
      Some (l, Heap (ptrs h)
                    (<[l := (fun j => Some (junk h j)) <$> seqZ 0 n]> (ints h)))
  | None => None
  end.

Fixpoint new_row_each_junk (junk : heap -> Z -> Z) (Xs : list loc) (i half : Z)
  : M unit :=
  match Xs with
  | [] => ret tt
  | X :: Xs' => (do r <- new_cells_junk junk half; set_row X i r);;
                new_row_each_junk junk Xs' i half
  end.

Definition divide_conquer_step_junk (junk : heap -> Z -> Z)
    (self : loc -> loc -> loc -> Z -> M unit) (A B C : loc) (n : Z) : M unit :=
  if decide (n <= 2) then matrixMultiplyBruteForce A B C n
  else
    let half := n ÷ 2 in
    (* Allocate submatrices *)
    do A11 <- new_rows half; do A12 <- new_rows half;
    do A21 <- new_rows half; do A22 <- new_rows half;
    do B11 <- new_rows half; do B12 <- new_rows half;
    do B21 <- new_rows half; do B22 <- new_rows half;
    for_ 0 half (fun i =>
      new_row_each_junk junk [A11; A12; A21; A22; B11; B12; B21; B22] i half);;
    (* Split matrices *)
    for_ 0 half (fun i =>
      for_ 0 half (fun j =>
        (do v <- mread A i j; mwrite A11 i j v);;
        (do v <- mread A i (j + half); mwrite A12 i j v);;
        (do v <- mread A (i + half) j; mwrite A21 i j v);;
        (do v <- mread A (i + half) (j + half); mwrite A22 i j v);;
        (do v <- mread B i j; mwrite B11 i j v);;
        (do v <- mread B i (j + half); mwrite B12 i j v);;
        (do v <- mread B (i + half) j; mwrite B21 i j v);;
        (do v <- mread B (i + half) (j + half); mwrite B22 i j v)));;
    (* Allocate temporary matrices *)
    do temp1 <- new_rows half; do temp2 <- new_rows half;
    do P1 <- new_rows half; do P2 <- new_rows half;
    do P3 <- new_rows half; do P4 <- new_rows half;
    do P5 <- new_rows half; do P6 <- new_rows half;
    do P7 <- new_rows half;
    for_ 0 half (fun i =>
      new_row_each_junk junk [temp1; temp2; P1; P2; P3; P4; P5; P6; P7] i half);;
    (* Calculate P1 to P7 *)
    subtractMatrix B12 B22 temp1 half;;
    self A11 temp1 P1 half;;
    addMatrix A11 A12 temp1 half;;
    self temp1 B22 P2 half;;
    addMatrix A21 A22 temp1 half;;
    self temp1 B11 P3 half;;
    subtractMatrix B21 B11 temp1 half;;
    self A22 temp1 P4 half;;
    addMatrix A11 A22 temp1 half;;
    addMatrix B11 B22 temp2 half;;
    self temp1 temp2 P5 half;;
    subtractMatrix A12 A22 temp1 half;;
    addMatrix B21 B22 temp2 half;;
    self temp1 temp2 P6 half;;
    subtractMatrix A11 A21 temp1 half;;
    addMatrix B11 B12 temp2 half;;
    self temp1 temp2 P7 half;;
    (* Combine results *)
    for_ 0 half (fun i =>
      for_ 0 half (fun j =>
        (do p5 <- mread P5 i j; do p4 <- mread P4 i j;
         do p2 <- mread P2 i j; do p6 <- mread P6 i j;
         mwrite C i j (wrap64 (wrap64 (wrap64 (p5 + p4) - p2) + p6)));;
        (do p1 <- mread P1 i j; do p2 <- mread P2 i j;
         mwrite C i (j + half) (wrap64 (p1 + p2)));;
        (do p3 <- mread P3 i j; do p4 <- mread P4 i j;
         mwrite C (i + half) j (wrap64 (p3 + p4)));;
        (do p5 <- mread P5 i j; do p1 <- mread P1 i j;
         do p3 <- mread P3 i j; do p7 <- mread P7 i j;
         mwrite C (i + half) (j + half)
                (wrap64 (wrap64 (wrap64 (p5 + p1) - p3) - p7)))));;
    (* Clean up allocated memory *)
    for_ 0 half (fun i =>
      delete_row_each [A11; A12; A21; A22; B11; B12; B21; B22;
                       temp1; temp2; P1; P2; P3; P4; P5; P6; P7] i);;
    delete_rows_each [A11; A12; A21; A22; B11; B12; B21; B22;
                      temp1; temp2; P1; P2; P3; P4; P5; P6; P7].

(** As many levels as [matrixMultiplyDivideConquer] (see
    [matrixMultiplyDivideConquer_junk_unfold]). *)
Fixpoint divide_conquer_rec_junk (junk : heap -> Z -> Z) (depth : nat)
    (A B C : loc) (n : Z) : M unit :=
  match depth with
  | O => matrixMultiplyBruteForce A B C n
  | S d => divide_conquer_step_junk junk (divide_conquer_rec_junk junk d) A B C n
  end.

Definition matrixMultiplyDivideConquer_junk (junk : heap -> Z -> Z)
    (A B C : loc) (n : Z) : M unit :=
  divide_conquer_rec_junk junk (Z.to_nat n) A B C n.

Definition verifyMatrices (A B : loc) (n : Z) : M bool :=
  do r <- for_ret 0 n (fun i =>
            for_ret 0 n (fun j =>
              do a <- mread A i j;
              do b <- mread B i j;
              if decide (a <> b) then ret (Some false) else ret None));
  match r with
  | Some b => ret b
  | None => ret true
  end.

(** [initializeRandomMatrix]: the numbers come from outside the program.
    [dis k] is the value of the call number [k] of [dis(gen)] in a run of
    the function, counted from [0]; the iteration [(i, j)] of the loops
    makes the call number [i * n + j].  What the library promises of
    [std::uniform_int_distribution<>(1, 10)] is that [1 <= dis k <= 10]. *)
Definition initializeRandomMatrix (dis : Z -> Z) (matrix : loc) (n : Z) : M unit :=
  for_ 0 n (fun i =>
    for_ 0 n (fun j =>
      mwrite matrix i j (dis (i * n + j)))).

(** One test case of [main]: the body of its loop without the clock and
    the output, for the size [n]; the value is [resultsMatch], which is
    printed as [Yes] or [No].  [disA] and [disB] are the numbers drawn by
    the two calls of [initializeRandomMatrix]. *)
Definition matrix_test (iterations : Z) (disA disB : Z -> Z) (n : Z) : M bool :=
  (* Allocate matrices *)
  do A <- new_rows n; do B <- new_rows n;
  do C1 <- new_rows n; do C2 <- new_rows n;
  for_ 0 n (fun j => new_row_each [A; B; C1; C2] j n);;
  (* Initialize test matrices with random values *)
  initializeRandomMatrix disA A n;;
  initializeRandomMatrix disB B n;;
  (* Measure brute force *)
  for_ 0 iterations (fun iter => matrixMultiplyBruteForce A B C1 n);;
  (* Measure divide and conquer *)
  for_ 0 iterations (fun iter => matrixMultiplyDivideConquer A B C2 n);;
  (* Verify results *)
  do resultsMatch <- verifyMatrices C1 C2 n;
  (* Clean up *)
  for_ 0 n (fun j => delete_row_each [A; B; C1; C2] j);;
  delete_rows_each [A; B; C1; C2];;
  ret resultsMatch.

(** The loop of [main] over the test sizes; [draws c] is the sequence of
    numbers drawn by the call number [c] of [initializeRandomMatrix]. *)
Fixpoint matrix_tests (iterations : Z) (testSizes : list Z)
    (draws : nat -> Z -> Z) (call : nat) : M (list bool) :=
  match testSizes with
  | [] => ret []
  | n :: rest =>
    do resultsMatch <- matrix_test iterations (draws call) (draws (S call)) n;
    do out <- matrix_tests iterations rest draws (S (S call));
    ret (resultsMatch :: out)
  end.

Definition matrix_main (draws : nat -> Z -> Z) : M (list bool) :=
  matrix_tests 10 [2; 4; 8; 128] draws 0.

(** * factorial.cpp and the prime-number program *)

(** ** Operations on [int]

    The two programs count with [int].  An [int] operation whose result
    is outside the range of the type is undefined: the computation fails
    there, and so does a division by zero. *)

Definition INT_MAX : Z := 2 ^ 31 - 1.
Definition INT_MIN : Z := - 2 ^ 31.
Definition int (x : Z) : Prop := INT_MIN <= x <= INT_MAX.

(** ** factorial.cpp *)

(** The loop [for (int i = 2; i <= n; i++) result *= i], from the
    iteration of [i] on; [result] is an [unsigned long long]. *)
Equations? factorial_loop (n i result : Z) : option Z
  by wf (Z.to_nat (n + 1 - i)) lt :=
  factorial_loop n i result with decide (i <= n) => {
    | right _ := Some result
    | left _ :=
      let result := wrapu64 (result * i) in
      if decide (INT_MAX < i + 1) then None
      else factorial_loop n (i + 1) result }.
Proof. lia. Qed.

Definition factorialBruteForce (n : Z) : option Z :=
  if decide (n <= 1) then Some 1 else factorial_loop n 2 1.

(** [static unsigned long long memo[100] = {0}]: the array lives as long as
    the program, so a call takes the array it finds and returns the array
    it leaves.  An index outside the array fails. *)
Definition memo_init : list Z := replicate 100 0.

Definition memo_get (memo : list Z) (k : Z) : option Z :=
  if decide (0 <= k) then memo !! Z.to_nat k else None.

Definition memo_set (memo : list Z) (k v : Z) : option (list Z) :=
  if decide (0 <= k < Z.of_nat (length memo))
  then Some (<[Z.to_nat k := v]> memo) else None.

Equations? factorialDivideConquer (n : Z) (memo : list Z) : option (Z * list Z)
  by wf (Z.to_nat n) lt :=
  factorialDivideConquer n memo with decide (n <= 1) => {
    | left _ := Some (1, memo)
    | right _ :=
      match memo_get memo n with
      | None => None
      | Some v =>
        if decide (v <> 0) then Some (v, memo)
        else
          match factorialDivideConquer (n - 1) memo with
          | None => None
          | Some (r, memo) =>
            match memo_set memo n (wrapu64 (n * r)) with
            | None => None
            | Some memo =>
              match memo_get memo n with
              | None => None
              | Some v => Some (v, memo)
              end
            end
          end
      end }.
Proof. lia. Qed.

(** [main] of factorial.cpp without the clock: for every test case, the
    loop [for (int iter = 0; iter < NUM_ITERATIONS; iter++)
    result = f(n)] for each of the two functions, and the two results that
    are printed.  The array of [factorialDivideConquer] goes from a call to
    the next. *)
Fixpoint factorial_repeat (cnt : nat) (f : list Z -> option (Z * list Z))
    (result : Z) (memo : list Z) : option (Z * list Z) :=
  match cnt with
  | O => Some (result, memo)
  | S c =>
    match f memo with
    | None => None
    | Some (r, memo) => factorial_repeat c f r memo
    end
  end.

Definition factorial_test (iterations n : Z) (memo : list Z)
  : option ((Z * Z) * list Z) :=
  match factorial_repeat (Z.to_nat iterations)
          (fun memo => match factorialBruteForce n with
                       | Some r => Some (r, memo)
                       | None => None
                       end) 0 memo with
  | None => None
  | Some (resultBF, memo) =>
    match factorial_repeat (Z.to_nat iterations)
            (factorialDivideConquer n) 0 memo with
    | None => None
    | Some (resultDC, memo) => Some ((resultBF, resultDC), memo)
    end
  end.

Fixpoint factorial_tests (iterations : Z) (testCases : list Z) (memo : list Z)
  : option (list (Z * Z) * list Z) :=
  match testCases with
  | [] => Some ([], memo)
  | n :: rest =>
    match factorial_test iterations n memo with
    | None => None
    | Some (out, memo) =>
      match factorial_tests iterations rest memo with
      | None => None
      | Some (outs, memo) => Some (out :: outs, memo)
      end
    end
  end.

Definition factorial_main : option (list (Z * Z) * list Z) :=
  factorial_tests 1000000 [5; 10; 15; 20] memo_init.

(** ** The prime-number program *)

(** The loop [for (int i = 5; i < n; i += 2) if (n % i == 0) return false]
    followed by [return true], from the iteration of [i] on. *)
Equations? brute_force_loop (n i : Z) : option bool
  by wf (Z.to_nat (n - i)) lt :=
  brute_force_loop n i with decide (i < n) => {
    | right _ := Some true
    | left _ :=
      if decide (i = 0) then None
      else if decide (Z.rem n i = 0) then Some false
      else if decide (INT_MAX < i + 2) then None
      else brute_force_loop n (i + 2) }.
Proof. lia. Qed.

Definition isPrimeBruteForce (n : Z) : option bool :=
  if decide (n <= 1) then Some false
  else if decide (n <= 3) then Some true
  else if decide (Z.rem n 2 = 0 \/ Z.rem n 3 = 0) then Some false
  else brute_force_loop n 5.

(** The loop [for (int i = 5; i <= sqrtN; i += 6)
    if (n % i == 0 || n % (i + 2) == 0) return false] followed by
    [return true]; the second test is made only when the first fails. *)
Equations? divide_conquer_loop (n sqrtN i : Z) : option bool
  by wf (Z.to_nat (sqrtN + 1 - i)) lt :=
  divide_conquer_loop n sqrtN i with decide (i <= sqrtN) => {
    | right _ := Some true
    | left _ :=
      if decide (i = 0) then None
      else if decide (Z.rem n i = 0) then Some false
      else if decide (INT_MAX < i + 2) then None
      else if decide (i + 2 = 0) then None
      else if decide (Z.rem n (i + 2) = 0) then Some false
      else if decide (INT_MAX < i + 6) then None
      else divide_conquer_loop n sqrtN (i + 6) }.
Proof. lia. Qed.

(** [static_cast<int>(std::sqrt(n))] is the integer square root of [n]: an
    [int] converts to a [double] exactly, the square root of a [double] is
    correctly rounded, and the square root of an [int] that is not a
    square is farther from the next integer than the rounding can
    bridge. *)
Definition isPrimeDivideConquer (n : Z) : option bool :=
  if decide (n <= 1) then Some false
  else if decide (n <= 3) then Some true
  else if decide (Z.rem n 2 = 0 \/ Z.rem n 3 = 0) then Some false
  else
    let sqrtN := Z.sqrt n in
    divide_conquer_loop n sqrtN 5.

(** The loop [for (int i = 2; i <= n; i++) if (isPrime(i)) count++], the
    same in both counting functions, from the iteration of [i] on. *)
Equations? count_loop (isPrime : Z -> option bool) (n i count : Z) : option Z
  by wf (Z.to_nat (n + 1 - i)) lt :=
  count_loop isPrime n i count with decide (i <= n) => {
    | right _ := Some count
    | left _ :=
      match isPrime i with
      | None => None
      | Some true =>
        if decide (INT_MAX < count + 1) then None
        else if decide (INT_MAX < i + 1) then None
        else count_loop isPrime n (i + 1) (count + 1)
      | Some false =>
        if decide (INT_MAX < i + 1) then None
        else count_loop isPrime n (i + 1) count
      end }.
Proof. all: lia. Qed.

Definition countPrimesBruteForce (n : Z) : option Z :=
  count_loop isPrimeBruteForce n 2 0.

Definition countPrimesDivideConquer (n : Z) : option Z :=
  count_loop isPrimeDivideConquer n 2 0.

(** [main] of the prime-number program without the clock: for every
    range, the loop [for (int iter = 0; iter < NUM_ITERATIONS; iter++)
    count = f(range)] for each of the two counting functions, and the two
    counts that are printed. *)
Fixpoint count_repeat (cnt : nat) (f : option Z) (count : Z) : option Z :=
  match cnt with
  | O => Some count
  | S c =>
    match f with
    | None => None
    | Some r => count_repeat c f r
    end
  end.

Definition prime_test (iterations range : Z) : option (Z * Z) :=
  match count_repeat (Z.to_nat iterations) (countPrimesBruteForce range) 0 with
  | None => None
  | Some countBF =>
    match count_repeat (Z.to_nat iterations)
            (countPrimesDivideConquer range) 0 with
    | None => None
    | Some countDC => Some (countBF, countDC)
    end
  end.

Fixpoint prime_tests (iterations : Z) (testRanges : list Z)
  : option (list (Z * Z)) :=
  match testRanges with
  | [] => Some []
  | range :: rest =>
    match prime_test iterations range with
    | None => None
    | Some out =>
      match prime_tests iterations rest with
      | None => None
      | Some outs => Some (out :: outs)
      end
    end
  end.

Definition prime_main : option (list (Z * Z)) :=
  prime_tests 10 [1000; 5000; 10000].

(** * Verification of matrix_multiply.cpp *)

(** ** What can be observed of a heap *)

(** The row pointer [X[i]], the cell [r[j]], the length of the row [r] and
    the element [X[i][j]]. *)
Definition row_of (h : heap) (X : loc) (i : Z) : option loc :=
  blk_read (ptrs h) X i.
Definition rd (h : heap) (r : loc) (j : Z) : option Z :=
  blk_read (ints h) r j.
Definition rowlen (h : heap) (r : loc) : option Z :=
  (fun b => Z.of_nat (length b)) <$> ints h !! r.
Definition cell (h : heap) (X : loc) (i j : Z) : option Z :=
  r ← row_of h X i; rd h r j.

(** A matrix as a function from indices to entries. *)
Definition mat := Z -> Z -> Z.

(** [X] holds the [n x n] matrix [f]. *)
Definition rep (h : heap) (X : loc) (n : Z) (f : mat) : Prop :=
  forall i j, 0 <= i < n -> 0 <= j < n -> cell h X i j = Some (f i j).

(** [X] can receive an [n x n] matrix: its first [n] row pointers lead to
    [n] different rows with room for [n] cells. *)
Definition dest (h : heap) (X : loc) (n : Z) : Prop :=
  (forall i, 0 <= i < n ->
     exists r len, row_of h X i = Some r /\ rowlen h r = Some len /\ n <= len) /\
  (forall i i' r, 0 <= i < n -> 0 <= i' < n ->
     row_of h X i = Some r -> row_of h X i' = Some r -> i = i').

(** No row of [X] is a row of [Y]. *)
Definition sep (h : heap) (X Y : loc) (n : Z) : Prop :=
  forall i i' r, 0 <= i < n -> 0 <= i' < n ->
    row_of h X i = Some r -> row_of h Y i' = Some r -> False.

(** The cells of the leading [n x n] part of [X]. *)
Definition win (h : heap) (X : loc) (n : Z) (r : loc) (j : Z) : Prop :=
  0 <= j < n /\ exists i, 0 <= i < n /\ row_of h X i = Some r.

(** [pres PX W h h']: everything allocated in [h] is still there in [h'];
    arrays of row pointers are the same except those in [PX]; rows have
    their length, and their cells are the same except those in [W]. *)
Definition pres (PX : loc -> Prop) (W : loc -> Z -> Prop) (h h' : heap) : Prop :=
  (forall X b, ptrs h !! X = Some b -> ~ PX X -> ptrs h' !! X = Some b) /\
  (forall r len, rowlen h r = Some len -> rowlen h' r = Some len) /\
  (forall r j, is_Some (rowlen h r) -> ~ W r j -> rd h' r j = rd h r j).

Definition nobody : loc -> Prop := fun _ => False.
Definition nothing : loc -> Z -> Prop := fun _ _ => False.

(** ** Blocks *)

Section blocks.
Context {T : Type}.
Implicit Types (s : store T) (b : block T) (l : loc).

Lemma zidx_zupd_eq b i x :
  0 <= i < Z.of_nat (length b) -> zidx (zupd b i x) i = Some x.
Proof.
  intros Hi. unfold zidx, zupd. rewrite decide_True by lia.
  apply list_lookup_insert_eq. lia.
Qed.

Lemma zidx_zupd_ne b i j x : i <> j -> 0 <= i -> zidx (zupd b i x) j = zidx b j.
Proof.
  intros Hne Hi. unfold zidx, zupd. destruct (decide (0 <= j)); [|done].
  apply list_lookup_insert_ne. lia.
Qed.

Lemma length_zupd b i x : length (zupd b i x) = length b.
Proof. apply length_insert. Qed.

Lemma zidx_replicate n i (x : option T) :
  0 <= i < n -> zidx (replicate (Z.to_nat n) x) i = Some x.
Proof.
  intros Hi. unfold zidx. rewrite decide_True by lia.
  apply lookup_replicate_2. lia.
Qed.

Lemma blk_alloc_Some s n :
  0 <= n ->
  exists l, s !! l = None /\
    blk_alloc s n = Some (l, <[l := replicate (Z.to_nat n) None]> s).
Proof.
  intros Hn. exists (fresh (dom s)). split.
  - apply not_elem_of_dom, is_fresh.
  - unfold blk_alloc. by rewrite decide_True.
Qed.

Lemma blk_alloc_inv s n l s' :
  blk_alloc s n = Some (l, s') ->
  0 <= n /\ s !! l = None /\ s' = <[l := replicate (Z.to_nat n) None]> s.
Proof.
  unfold blk_alloc. destruct (decide (0 <= n)); [|done].
  intros [= <- <-]. split; [done|]. split; [|done].
  apply not_elem_of_dom, is_fresh.
Qed.

Lemma blk_write_inv s l i x s' :
  blk_write s l i x = Some s' ->
  exists b, s !! l = Some b /\ 0 <= i < Z.of_nat (length b) /\
            s' = <[l := zupd b i (Some x)]> s.
Proof.
  unfold blk_write. destruct (s !! l) as [b|]; simpl; [|done].
  destruct (decide (0 <= i < Z.of_nat (length b))); [|done].
  intros [= <-]. eauto.
Qed.

Lemma blk_write_Some s l i x b :
  s !! l = Some b -> 0 <= i < Z.of_nat (length b) ->
  blk_write s l i x = Some (<[l := zupd b i (Some x)]> s).
Proof.
  intros Hl Hi. unfold blk_write. rewrite Hl. simpl. by rewrite decide_True.
Qed.

Lemma blk_read_write s l i x b l' j :
  s !! l = Some b -> 0 <= i < Z.of_nat (length b) ->
  blk_read (<[l := zupd b i (Some x)]> s) l' j =
  if decide (l' = l /\ j = i) then Some x else blk_read s l' j.
Proof.
  intros Hl Hi. unfold blk_read. destruct (decide (l' = l)) as [->|Hne].
  - rewrite lookup_insert_eq, Hl. simpl.
    destruct (decide (j = i)) as [->|Hji].
    + rewrite decide_True by done. by rewrite zidx_zupd_eq.
    + rewrite decide_False by tauto. rewrite zidx_zupd_ne by lia. done.
  - rewrite lookup_insert_ne by done. by rewrite decide_False by tauto.
Qed.
End blocks.

(** ** The monad *)

Lemma bind_Some {A B} (m : M A) (k : A -> M B) h a h1 :
  m h = Some (a, h1) -> bind m k h = k a h1.
Proof. intros Hm. unfold bind. by rewrite Hm. Qed.

Lemma bind_inv {A B} (m : M A) (k : A -> M B) h b h' :
  bind m k h = Some (b, h') ->
  exists a h1, m h = Some (a, h1) /\ k a h1 = Some (b, h').
Proof.
  unfold bind. destruct (m h) as [[a h1]|]; [|done]. eauto.
Qed.

Lemma ret_inv {A} (a b : A) h h' : ret a h = Some (b, h') -> b = a /\ h' = h.
Proof. by intros [= -> ->]. Qed.

(** Pointwise equality of computations. *)
Definition meq {A} (m1 m2 : M A) : Prop := forall h, m1 h = m2 h.

Lemma bind_meq {A B} (m1 m2 : M A) (k1 k2 : A -> M B) :
  meq m1 m2 -> (forall a, meq (k1 a) (k2 a)) -> meq (bind m1 k1) (bind m2 k2).
Proof.
  intros Hm Hk h. unfold bind. rewrite Hm.
  destruct (m2 h) as [[a h1]|]; [apply Hk|done].
Qed.

Lemma meq_refl {A} (m : M A) : meq m m.
Proof. by intros h. Qed.

(** ** Primitive accesses, in terms of what can be observed *)

(** [h'] is [h] after [r[j] = v]. *)
Definition wrote (h : heap) (r : loc) (j v : Z) (h' : heap) : Prop :=
  ptrs h' = ptrs h /\
  (forall r', rowlen h' r' = rowlen h r') /\
  (forall r' j', rd h' r' j' =
                 if decide (r' = r /\ j' = j) then Some v else rd h r' j').

Lemma rowlen_Some h r len :
  rowlen h r = Some len <->
  exists b, ints h !! r = Some b /\ len = Z.of_nat (length b).
Proof.
  unfold rowlen. destruct (ints h !! r) as [b|]; simpl; split.
  - intros [= <-]. eauto.
  - intros (b' & [= <-] & ->). done.
  - done.
  - by intros (b' & ? & _).
Qed.

Lemma rowlen_None h r : rowlen h r = None <-> ints h !! r = None.
Proof. unfold rowlen. destruct (ints h !! r); simpl; split; done. Qed.

Lemma rd_rowlen h r j v : rd h r j = Some v -> exists len, rowlen h r = Some len /\ 0 <= j < len.
Proof.
  unfold rd, blk_read, rowlen. destruct (ints h !! r) as [b|]; simpl; [|done].
  unfold zidx. destruct (decide (0 <= j)); [|done].
  destruct (b !! Z.to_nat j) as [x|] eqn:Hb; simpl; [|done].
  intros _. apply lookup_lt_Some in Hb. eexists. split; [done|]. lia.
Qed.

Lemma set_cell_inv r j v h u h' :
  set_cell r j v h = Some (u, h') ->
  (exists len, rowlen h r = Some len /\ 0 <= j < len) /\ wrote h r j v h'.
Proof.
  unfold set_cell. destruct (blk_write (ints h) r j v) as [s|] eqn:Hw; [|done].
  intros [= _ <-]. apply blk_write_inv in Hw as (b & Hb & Hj & ->). split.
  - exists (Z.of_nat (length b)). split; [|done]. apply rowlen_Some. eauto.
  - split; [done|]. split.
    + intros r'. unfold rowlen. simpl. destruct (decide (r' = r)) as [->|].
      * rewrite lookup_insert_eq, Hb. simpl. by rewrite length_zupd.
      * by rewrite lookup_insert_ne.
    + intros r' j'. unfold rd. simpl. by apply blk_read_write.
Qed.

Lemma set_cell_Some r j v h len :
  rowlen h r = Some len -> 0 <= j < len ->
  exists h', set_cell r j v h = Some (tt, h') /\ wrote h r j v h'.
Proof.
  intros (b & Hb & ->)%rowlen_Some Hj.
  destruct (set_cell r j v h) as [[[] h']|] eqn:Hs.
  - exists h'. split; [done|]. by apply set_cell_inv in Hs as [_ ?].
  - unfold set_cell in Hs. by rewrite (blk_write_Some _ _ _ _ b) in Hs.
Qed.

Lemma get_row_eq X i h :
  get_row X i h = (fun r => (r, h)) <$> row_of h X i.
Proof. unfold get_row, row_of. by destruct (blk_read _ _ _). Qed.

Lemma get_cell_eq r j h : get_cell r j h = (fun v => (v, h)) <$> rd h r j.
Proof. unfold get_cell, rd. by destruct (blk_read _ _ _). Qed.

Lemma mread_eq X i j h : mread X i j h = (fun v => (v, h)) <$> cell h X i j.
Proof.
  unfold mread, bind, cell. rewrite get_row_eq.
  destruct (row_of h X i) as [r|]; simpl; [|done]. apply get_cell_eq.
Qed.

Lemma mread_Some X i j h v : cell h X i j = Some v -> mread X i j h = Some (v, h).
Proof. intros Hc. by rewrite mread_eq, Hc. Qed.

Lemma mread_inv X i j h v h' :
  mread X i j h = Some (v, h') -> cell h X i j = Some v /\ h' = h.
Proof.
  rewrite mread_eq. destruct (cell h X i j); simpl; [|done]. by intros [= -> ->].
Qed.

Lemma mwrite_inv X i j v h u h' :
  mwrite X i j v h = Some (u, h') ->
  exists r len, row_of h X i = Some r /\ rowlen h r = Some len /\ 0 <= j < len /\
                wrote h r j v h'.
Proof.
  unfold mwrite. intros (r & h1 & Hr & Hs)%bind_inv.
  rewrite get_row_eq in Hr. destruct (row_of h X i) as [r'|] eqn:Hrow; [|done].
  simpl in Hr. injection Hr as -> ->.
  apply set_cell_inv in Hs as [(len & ? & ?) ?]. eauto 10.
Qed.

Lemma mwrite_Some X i j v h r len :
  row_of h X i = Some r -> rowlen h r = Some len -> 0 <= j < len ->
  exists h', mwrite X i j v h = Some (tt, h') /\ wrote h r j v h'.
Proof.
  intros Hr Hl Hj. destruct (set_cell_Some r j v h len Hl Hj) as (h' & Hs & Hw).
  exists h'. split; [|done]. unfold mwrite, bind.
  rewrite get_row_eq, Hr. simpl. done.
Qed.

Lemma wrote_row_of h r j v h' X i : wrote h r j v h' -> row_of h' X i = row_of h X i.
Proof. intros (Hp & _). unfold row_of. by rewrite Hp. Qed.

Lemma wrote_cell h r j v h' X i j' :
  wrote h r j v h' ->
  cell h' X i j' =
  if decide (row_of h X i = Some r /\ j' = j) then Some v else cell h X i j'.
Proof.
  intros Hw. unfold cell. rewrite (wrote_row_of _ _ _ _ _ _ _ Hw).
  destruct Hw as (_ & _ & Hrd).
  destruct (row_of h X i) as [r'|]; cbn [mbind option_bind].
  - rewrite Hrd.
    destruct (decide (r' = r /\ j' = j)) as [[-> ->]|Hne].
    + by rewrite decide_True.
    + rewrite decide_False; [done|]. intros [[= ->] ->]. tauto.
  - rewrite decide_False; [done|]. by intros [? _].
Qed.

Lemma wrote_pres h r j v h' (W : loc -> Z -> Prop) :
  wrote h r j v h' -> W r j -> pres nobody W h h'.
Proof.
  intros (Hp & Hl & Hrd) HW. split; [|split].
  - intros X b Hb _. by rewrite Hp.
  - intros r' len. by rewrite Hl.
  - intros r' j' _ HnW. rewrite Hrd. rewrite decide_False; [done|].
    intros [-> ->]. done.
Qed.

(** ** Loops *)

Lemma for_from_spec (I : Z -> heap -> Prop) body cnt lo h :
  I lo h ->
  (forall i hk, lo <= i < lo + Z.of_nat cnt -> I i hk ->
     exists hk', body i hk = Some (tt, hk') /\ I (i + 1) hk') ->
  exists h', for_from cnt lo body h = Some (tt, h') /\ I (lo + Z.of_nat cnt) h'.
Proof.
  revert lo h. induction cnt as [|c IH]; intros lo h H0 Hstep.
  - exists h. split; [done|]. by replace (lo + Z.of_nat 0) with lo by lia.
  - destruct (Hstep lo h) as (h1 & Hb & H1); [lia|done|].
    destruct (IH (lo + 1) h1) as (h' & Hf & Hh'); [done| |].
    + intros i hk Hi. apply Hstep. lia.
    + exists h'. split.
      * simpl. by rewrite (bind_Some _ _ _ _ _ Hb).
      * by replace (lo + Z.of_nat (S c)) with (lo + 1 + Z.of_nat c) by lia.
Qed.

Lemma for_spec (I : Z -> heap -> Prop) lo hi body h :
  lo <= hi -> I lo h ->
  (forall i hk, lo <= i < hi -> I i hk ->
     exists hk', body i hk = Some (tt, hk') /\ I (i + 1) hk') ->
  exists h', for_ lo hi body h = Some (tt, h') /\ I hi h'.
Proof.
  intros Hle H0 Hstep. unfold for_.
  destruct (for_from_spec I body (Z.to_nat (hi - lo)) lo h) as (h' & Hf & Hh');
    [done| |].
  - intros i hk Hi. apply Hstep. lia.
  - exists h'. split; [done|].
    by replace (lo + Z.of_nat (Z.to_nat (hi - lo))) with hi in Hh' by lia.
Qed.

Lemma for_from_inv (I : Z -> heap -> Prop) body cnt lo h u h' :
  for_from cnt lo body h = Some (u, h') ->
  I lo h ->
  (forall i hk v hk', lo <= i < lo + Z.of_nat cnt -> I i hk ->
     body i hk = Some (v, hk') -> I (i + 1) hk') ->
  I (lo + Z.of_nat cnt) h'.
Proof.
  revert lo h. induction cnt as [|c IH]; intros lo h Hf H0 Hstep.
  - apply ret_inv in Hf as [_ ->]. by replace (lo + Z.of_nat 0) with lo by lia.
  - simpl in Hf. apply bind_inv in Hf as (v & h1 & Hb & Hf).
    replace (lo + Z.of_nat (S c)) with (lo + 1 + Z.of_nat c) by lia.
    apply (IH (lo + 1) h1); [done| |].
    + apply (Hstep lo h v); [lia|done..].
    + intros i hk w hk' Hi. apply Hstep. lia.
Qed.

Lemma for_inv (I : Z -> heap -> Prop) lo hi body h u h' :
  lo <= hi ->
  for_ lo hi body h = Some (u, h') ->
  I lo h ->
  (forall i hk v hk', lo <= i < hi -> I i hk ->
     body i hk = Some (v, hk') -> I (i + 1) hk') ->
  I hi h'.
Proof.
  intros Hle Hf H0 Hstep. unfold for_ in Hf.
  replace hi with (lo + Z.of_nat (Z.to_nat (hi - lo))) by lia.
  apply (for_from_inv I body _ lo h u h' Hf H0).
  intros i hk v hk' Hi. apply Hstep. lia.
Qed.

Lemma for_empty lo hi body h : hi <= lo -> for_ lo hi body h = Some (tt, h).
Proof. intros Hle. unfold for_. by replace (Z.to_nat (hi - lo)) with O by lia. Qed.

(** ** Preservation *)

Lemma pres_refl PX W h : pres PX W h h.
Proof. split; [|split]; eauto. Qed.

Lemma pres_trans PX W h1 h2 h3 :
  pres PX W h1 h2 -> pres PX W h2 h3 -> pres PX W h1 h3.
Proof.
  intros (Hp1 & Hl1 & Hr1) (Hp2 & Hl2 & Hr2). split; [|split].
  - eauto.
  - eauto.
  - intros r j [len Hlen] HW. rewrite Hr2, Hr1; eauto.
Qed.

Lemma pres_mono (PX PX' : loc -> Prop) (W W' : loc -> Z -> Prop) h h' :
  (forall X, PX X -> PX' X) -> (forall r j, W r j -> W' r j) ->
  pres PX W h h' -> pres PX' W' h h'.
Proof.
  intros HPX HW (Hp & Hl & Hr). split; [|split]; [|done|]; naive_solver.
Qed.

Lemma pres_row_of PX W h h' X i r :
  pres PX W h h' -> ~ PX X -> row_of h X i = Some r -> row_of h' X i = Some r.
Proof.
  intros (Hp & _) HX. unfold row_of, blk_read.
  destruct (ptrs h !! X) as [b|] eqn:Hb; [|done]. by rewrite (Hp X b Hb HX).
Qed.

Lemma pres_row_of_eq PX W h h' X i :
  pres PX W h h' -> ~ PX X -> is_Some (ptrs h !! X) ->
  row_of h' X i = row_of h X i.
Proof.
  intros (Hp & _) HX [b Hb]. unfold row_of, blk_read.
  by rewrite (Hp X b Hb HX), Hb.
Qed.

Lemma row_of_Some_ptrs h X i r : row_of h X i = Some r -> is_Some (ptrs h !! X).
Proof. unfold row_of, blk_read. destruct (ptrs h !! X); [eauto|done]. Qed.

Lemma cell_Some h X i j v :
  cell h X i j = Some v <-> exists r, row_of h X i = Some r /\ rd h r j = Some v.
Proof.
  unfold cell. destruct (row_of h X i) as [r|]; simpl; split.
  - eauto.
  - by intros (r' & [= <-] & ?).
  - done.
  - by intros (r' & ? & _).
Qed.

Lemma pres_cell PX W h h' X i j v :
  pres PX W h h' -> ~ PX X ->
  (forall r, row_of h X i = Some r -> ~ W r j) ->
  cell h X i j = Some v -> cell h' X i j = Some v.
Proof.
  intros Hpres HX HW (r & Hr & Hv)%cell_Some. apply cell_Some. exists r.
  split; [by eapply pres_row_of|].
  destruct Hpres as (_ & _ & Hrd). rewrite Hrd; [done| |by apply HW].
  apply rd_rowlen in Hv as (len & -> & _). eauto.
Qed.

Lemma rep_pres PX h h' X n f :
  pres PX nothing h h' -> ~ PX X -> rep h X n f -> rep h' X n f.
Proof.
  intros Hp HX Hrep i j Hi Hj. eapply pres_cell; eauto.
Qed.

Lemma rep_pres_sep PX h h' D X n m f :
  pres PX (win h D m) h h' -> ~ PX X -> n <= m -> sep h D X m ->
  rep h X n f -> rep h' X n f.
Proof.
  intros Hp HX Hnm Hsep Hrep i j Hi Hj. eapply pres_cell; eauto.
  intros r Hr (_ & i' & Hi' & Hr'). eapply (Hsep i' i r); eauto. lia.
Qed.

Lemma dest_pres PX W h h' X n :
  pres PX W h h' -> ~ PX X -> dest h X n -> dest h' X n.
Proof.
  intros Hp HX [Hrows Hinj]. split.
  - intros i Hi. destruct (Hrows i Hi) as (r & len & Hr & Hl & Hn).
    exists r, len. split; [by eapply pres_row_of|]. split; [|done].
    by apply Hp.
  - intros i i' r Hi Hi'.
    destruct (Hrows i Hi) as (r1 & ? & Hr1 & _).
    destruct (Hrows i' Hi') as (r2 & ? & Hr2 & _).
    rewrite (pres_row_of _ _ _ _ _ _ _ Hp HX Hr1).
    rewrite (pres_row_of _ _ _ _ _ _ _ Hp HX Hr2).
    intros [= E1] [= E2]. subst r1 r2. by apply (Hinj i i' r).
Qed.

Lemma sep_pres PX W h h' X Y n :
  pres PX W h h' -> ~ PX X -> ~ PX Y ->
  is_Some (ptrs h !! X) -> is_Some (ptrs h !! Y) ->
  sep h X Y n -> sep h' X Y n.
Proof.
  intros Hp HX HY HXa HYa Hsep i i' r Hi Hi'.
  rewrite (pres_row_of_eq _ _ _ _ _ _ Hp HX HXa).
  rewrite (pres_row_of_eq _ _ _ _ _ _ Hp HY HYa).
  by apply Hsep.
Qed.

(** ** Arithmetic modulo 2^64 *)

Definition eqm64 (x y : Z) : Prop := x mod 2 ^ 64 = y mod 2 ^ 64.

#[local] Instance eqm64_equiv : Equivalence eqm64.
Proof.
  split; unfold eqm64; [intros x|intros x y|intros x y z]; congruence.
Qed.

#[local] Instance eqm64_add : Proper (eqm64 ==> eqm64 ==> eqm64) Z.add.
Proof.
  intros x x' Hx y y' Hy. unfold eqm64 in *.
  rewrite (Z.add_mod x), (Z.add_mod x') by lia. by rewrite Hx, Hy.
Qed.

#[local] Instance eqm64_sub : Proper (eqm64 ==> eqm64 ==> eqm64) Z.sub.
Proof.
  intros x x' Hx y y' Hy. unfold eqm64 in *.
  rewrite (Zminus_mod x), (Zminus_mod x'). by rewrite Hx, Hy.
Qed.

#[local] Instance eqm64_mul : Proper (eqm64 ==> eqm64 ==> eqm64) Z.mul.
Proof.
  intros x x' Hx y y' Hy. unfold eqm64 in *.
  rewrite (Z.mul_mod x), (Z.mul_mod x') by lia. by rewrite Hx, Hy.
Qed.

Lemma wrap64_eqm x : eqm64 (wrap64 x) x.
Proof.
  unfold eqm64, wrap64.
  rewrite Zminus_mod, Z.mod_mod by lia. rewrite <- Zminus_mod.
  f_equal. lia.
Qed.

Lemma wrap64_range x : int64 (wrap64 x).
Proof.
  unfold int64, wrap64. pose proof (Z.mod_pos_bound (x + 2 ^ 63) (2 ^ 64)). lia.
Qed.

Lemma wrap64_id x : int64 x -> wrap64 x = x.
Proof.
  unfold int64, wrap64. intros Hx. rewrite Z.mod_small; lia.
Qed.

Lemma wrap64_congr x y : eqm64 x y -> wrap64 x = wrap64 y.
Proof.
  unfold eqm64, wrap64. intros Hxy. f_equal.
  rewrite (Z.add_mod x), (Z.add_mod y) by lia. by rewrite Hxy.
Qed.

#[local] Instance wrap64_proper : Proper (eqm64 ==> eq) wrap64.
Proof. intros x y. apply wrap64_congr. Qed.

Lemma eqm64_int64 x y : eqm64 x y -> int64 x -> int64 y -> x = y.
Proof.
  intros Hxy Hx Hy. rewrite <- (wrap64_id x), <- (wrap64_id y) by done.
  by apply wrap64_congr.
Qed.

(** ** The mathematical operations on matrices *)

Fixpoint bigsum (n : nat) (f : Z -> Z) : Z :=
  match n with
  | O => 0
  | S m => bigsum m f + f (Z.of_nat m)
  end.

(** The sum over [k] of [A[i][k] * B[k][j]], in 64-bit arithmetic. *)
Definition mat_prod (n : Z) (A B : mat) : mat :=
  fun i j => bigsum (Z.to_nat n) (fun k => A i k * B k j).
Definition mmul (n : Z) (A B : mat) : mat :=
  fun i j => wrap64 (mat_prod n A B i j).
Definition madd (A B : mat) : mat := fun i j => wrap64 (A i j + B i j).
Definition msub (A B : mat) : mat := fun i j => wrap64 (A i j - B i j).

(** ** Loops that fill a matrix cell by cell *)

Definition only (h : heap) (X : loc) (i j : Z) (r : loc) (j' : Z) : Prop :=
  j' = j /\ row_of h X i = Some r.

Lemma dest_allocated h X n : 0 < n -> dest h X n -> is_Some (ptrs h !! X).
Proof.
  intros Hn [Hrows _]. destruct (Hrows 0) as (r & _ & Hr & _); [lia|].
  by eapply row_of_Some_ptrs.
Qed.

Lemma only_win h X n i j r j' :
  0 <= i < n -> 0 <= j < n -> only h X i j r j' -> win h X n r j'.
Proof. intros Hi Hj [-> Hr]. split; [done|]. eauto. Qed.

Lemma elementwise_spec n C h (body : Z -> Z -> M unit) (v : mat) :
  dest h C n ->
  (forall i j hk, 0 <= i < n -> 0 <= j < n -> pres nobody (win h C n) h hk ->
     exists hk', body i j hk = Some (tt, hk') /\
                 pres nobody (only h C i j) hk hk' /\
                 cell hk' C i j = Some (v i j)) ->
  exists h', for_ 0 n (fun i => for_ 0 n (fun j => body i j)) h = Some (tt, h') /\
             pres nobody (win h C n) h h' /\ rep h' C n v.
Proof.
  intros HC Hbody. destruct (decide (n <= 0)) as [Hn|Hn].
  { exists h. split; [by apply for_empty|]. split; [apply pres_refl|].
    intros i j ?. lia. }
  assert (HCa : is_Some (ptrs h !! C)) by (apply (dest_allocated h C n); [lia|done]).
  set (I := fun (i j : Z) (hk : heap) =>
    pres nobody (win h C n) h hk /\
    forall i' j', 0 <= i' < n -> 0 <= j' < n -> i' < i \/ (i' = i /\ j' < j) ->
      cell hk C i' j' = Some (v i' j')).
  destruct (for_spec (fun i => I i 0) 0 n
              (fun i => for_ 0 n (fun j => body i j)) h) as (h' & Hf & Hp & Hv);
    [lia| | |].
  - split; [apply pres_refl|]. intros i' j' ? ? ?. lia.
  - intros i hk Hi HI.
    destruct (for_spec (fun j => I i j) 0 n (fun j => body i j) hk)
      as (hk' & Hf & Hp & Hv); [lia|done| |].
    + intros j hj Hj [Hp Hv].
      destruct (Hbody i j hj Hi Hj Hp) as (hj' & Hb & Hp' & Hc).
      exists hj'. split; [done|]. split.
      * eapply pres_trans; [done|]. eapply pres_mono; [done| |done].
        intros r j'. by apply only_win.
      * intros i' j' Hi' Hj' Hdone.
        destruct (decide (i' = i /\ j' = j)) as [[-> ->]|Hne]; [done|].
        eapply pres_cell; [done|by intros []| |apply Hv; [done..|lia]].
        intros r Hr [-> Hr'].
        rewrite (pres_row_of_eq _ _ _ _ _ _ Hp) in Hr; [|by intros []|done].
        destruct HC as [_ Hinj]. specialize (Hinj i' i r Hi' Hi Hr Hr'). lia.
    + exists hk'. split; [done|]. split; [done|].
      intros i' j' Hi' Hj' Hdone. apply Hv; [done..|lia].
  - exists h'. split; [done|]. split; [done|].
    intros i j Hi Hj. apply Hv; [done..|lia].
Qed.

Lemma elementwise_frame n C h (body : Z -> Z -> M unit) u h' :
  is_Some (ptrs h !! C) ->
  (forall i j hk w hk', 0 <= i < n -> 0 <= j < n ->
     body i j hk = Some (w, hk') -> pres nobody (only hk C i j) hk hk') ->
  for_ 0 n (fun i => for_ 0 n (fun j => body i j)) h = Some (u, h') ->
  pres nobody (win h C n) h h'.
Proof.
  intros HCa Hbody Hf. destruct (decide (n <= 0)) as [Hn|Hn].
  { rewrite for_empty in Hf by done. injection Hf as _ <-. apply pres_refl. }
  eapply (for_inv (fun _ hk => pres nobody (win h C n) h hk) 0 n);
    [lia|exact Hf|apply pres_refl|].
  intros i hk w hk' Hi Hp Hfi.
  eapply (for_inv (fun _ hj => pres nobody (win h C n) h hj) 0 n);
    [lia|exact Hfi|done|].
  intros j hj w' hj' Hj Hp' Hb. simpl in *. eapply pres_trans; [done|].
  eapply pres_mono; [done| |]. 2:{ eapply Hbody; [| |exact Hb]; done. }
  intros r j' [-> Hr]. apply (only_win h C n i j); [done..|]. split; [done|].
  by rewrite <- (pres_row_of_eq _ _ _ _ _ _ Hp'); [|by intros []|].
Qed.

(** ** Specifications of the operations on matrices *)

(** [op] computes [F] on [n x n] matrices: from operands that hold [fa] and
    [fb] and a destination separate from them, it returns, changes nothing
    but the destination, and leaves [F fa fb] there. *)
Definition binop_ok (op : loc -> loc -> loc -> Z -> M unit)
    (F : mat -> mat -> mat) (n : Z) : Prop :=
  forall h A B C fa fb,
    rep h A n fa -> rep h B n fb -> dest h C n -> sep h C A n -> sep h C B n ->
    exists h', op A B C n h = Some (tt, h') /\
               pres nobody (win h C n) h h' /\ rep h' C n (F fa fb).

(** Whenever [op] returns, only cells of the leading [m x m] part of the
    destination may have changed. *)
Definition frames (op : loc -> loc -> loc -> Z -> M unit) (n m : Z) : Prop :=
  forall h A B C u h',
    is_Some (ptrs h !! C) -> op A B C n h = Some (u, h') ->
    pres nobody (win h C m) h h'.

Definition pointwise (g : Z -> Z -> Z) (A B C : loc) (n : Z) : M unit :=
  for_ 0 n (fun i =>
    for_ 0 n (fun j =>
      do a <- mread A i j;
      do b <- mread B i j;
      mwrite C i j (g a b))).

Lemma mwrite_dest h C n i j v :
  dest h C n -> 0 <= i < n -> 0 <= j < n ->
  exists h' r, mwrite C i j v h = Some (tt, h') /\
               row_of h C i = Some r /\ wrote h r j v h'.
Proof.
  intros [Hrows _] Hi Hj. destruct (Hrows i Hi) as (r & len & Hr & Hl & Hn).
  destruct (mwrite_Some C i j v h r len) as (h' & Hw & Hwr); [done..|lia|].
  eauto.
Qed.

Lemma mwrite_only h C i j v u h' :
  mwrite C i j v h = Some (u, h') -> pres nobody (only h C i j) h h'.
Proof.
  intros (r & len & Hr & _ & _ & Hw)%mwrite_inv.
  eapply wrote_pres; [done|]. by split.
Qed.

Lemma mwrite_in_dest h hk C n i j v :
  dest h C n -> pres nobody (win h C n) h hk -> 0 <= i < n -> 0 <= j < n ->
  exists hk', mwrite C i j v hk = Some (tt, hk') /\
              pres nobody (only h C i j) hk hk' /\
              cell hk' C i j = Some v.
Proof.
  intros HC Hp Hi Hj.
  assert (HCa : is_Some (ptrs h !! C)) by (apply (dest_allocated h C n); [lia|done]).
  assert (HCk : dest hk C n) by (eapply dest_pres; [done|by intros []|done]).
  destruct (mwrite_dest hk C n i j v HCk Hi Hj) as (hk' & r & Hw & Hr & Hwr).
  exists hk'. split; [done|]. split.
  - eapply wrote_pres; [done|]. split; [done|].
    by rewrite <- (pres_row_of_eq _ _ _ _ _ _ Hp); [|by intros []|].
  - rewrite (wrote_cell _ _ _ _ _ _ _ _ Hwr). by rewrite decide_True.
Qed.

Lemma pointwise_ok g n : binop_ok (pointwise g) (fun fa fb i j => g (fa i j) (fb i j)) n.
Proof.
  intros h A B C fa fb HA HB HC HsA HsB. apply elementwise_spec; [done|].
  intros i j hk Hi Hj Hp.
  assert (HAk : rep hk A n fa) by (eapply rep_pres_sep; [done|by intros []|lia|done..]).
  assert (HBk : rep hk B n fb) by (eapply rep_pres_sep; [done|by intros []|lia|done..]).
  rewrite (bind_Some _ _ _ _ _ (mread_Some _ _ _ _ _ (HAk i j Hi Hj))).
  rewrite (bind_Some _ _ _ _ _ (mread_Some _ _ _ _ _ (HBk i j Hi Hj))).
  by apply (mwrite_in_dest h hk C n).
Qed.

Lemma pointwise_frames g n : frames (pointwise g) n n.
Proof.
  intros h A B C u h' HCa. apply elementwise_frame; [done|].
  intros i j hk w hk' Hi Hj (a & h1 & [_ ->]%mread_inv & Hb)%bind_inv.
  apply bind_inv in Hb as (b & h2 & [_ ->]%mread_inv & Hw).
  by eapply mwrite_only.
Qed.

Lemma addMatrix_ok n : binop_ok addMatrix madd n.
Proof. apply (pointwise_ok (fun a b => wrap64 (a + b))). Qed.

Lemma subtractMatrix_ok n : binop_ok subtractMatrix msub n.
Proof. apply (pointwise_ok (fun a b => wrap64 (a - b))). Qed.

Lemma addMatrix_frames n : frames addMatrix n n.
Proof. apply (pointwise_frames (fun a b => wrap64 (a + b))). Qed.

Lemma subtractMatrix_frames n : frames subtractMatrix n n.
Proof. apply (pointwise_frames (fun a b => wrap64 (a - b))). Qed.

(** *** Brute force *)

Lemma bigsum_succ k f :
  0 <= k -> bigsum (Z.to_nat (k + 1)) f = bigsum (Z.to_nat k) f + f k.
Proof.
  intros Hk. replace (Z.to_nat (k + 1)) with (S (Z.to_nat k)) by lia.
  simpl. by rewrite Z2Nat.id.
Qed.

Lemma wrap64_acc s a b : wrap64 (wrap64 s + wrap64 (a * b)) = wrap64 (s + a * b).
Proof. apply wrap64_congr. by rewrite !wrap64_eqm. Qed.

(** The body of the loop over [k]. *)
Definition accumulate (A B C : loc) (i j k : Z) : M unit :=
  do a <- mread A i k;
  if decide (a <> 0) then
    do b <- mread B k j;
    if decide (b <> 0) then
      do c <- mread C i j;
      mwrite C i j (wrap64 (c + wrap64 (a * b)))
    else ret tt
  else ret tt.

Lemma accumulate_only A B C i j k h u h' :
  accumulate A B C i j k h = Some (u, h') -> pres nobody (only h C i j) h h'.
Proof.
  unfold accumulate. intros (a & h1 & [_ ->]%mread_inv & Hb)%bind_inv.
  destruct (decide (a <> 0)).
  - apply bind_inv in Hb as (b & h2 & [_ ->]%mread_inv & Hb).
    destruct (decide (b <> 0)).
    + apply bind_inv in Hb as (c & h3 & [_ ->]%mread_inv & Hb).
      by eapply mwrite_only.
    + apply ret_inv in Hb as [_ ->]. apply pres_refl.
  - apply ret_inv in Hb as [_ ->]. apply pres_refl.
Qed.

Lemma pres_only_trans h X i j h1 h2 h3 :
  is_Some (ptrs h !! X) ->
  pres nobody (only h X i j) h h1 ->
  pres nobody (only h X i j) h1 h2 -> pres nobody (only h1 X i j) h2 h3 ->
  pres nobody (only h X i j) h1 h3.
Proof.
  intros HX H01 H12 H23. eapply pres_trans; [done|].
  eapply pres_mono; [done| |done].
  intros r j' [-> Hr]. split; [done|].
  by rewrite <- (pres_row_of_eq _ _ _ _ _ _ H01); [|by intros []|].
Qed.

(** The triple loop without the test for zero factors. *)
Definition matrixMultiplyUnconditional (A B C : loc) (n : Z) : M unit :=
  for_ 0 n (fun i =>
    for_ 0 n (fun j =>
      mwrite C i j 0;;
      for_ 0 n (fun k =>
        do a <- mread A i k;
        do b <- mread B k j;
        do c <- mread C i j;
        mwrite C i j (wrap64 (c + wrap64 (a * b)))))).

(** A triple loop whose innermost body adds [fa i k * fb k j] to
    [C[i][j]] computes the product. *)
Lemma triple_loop_ok n (step : loc -> loc -> loc -> Z -> Z -> Z -> M unit) :
  (forall h hx A B C fa fb i j k s,
     rep hx A n fa -> rep hx B n fb -> dest h C n ->
     pres nobody (win h C n) h hx ->
     0 <= i < n -> 0 <= j < n -> 0 <= k < n ->
     cell hx C i j = Some (wrap64 s) ->
     exists hx', step A B C i j k hx = Some (tt, hx') /\
                 pres nobody (only h C i j) hx hx' /\
                 cell hx' C i j = Some (wrap64 (s + fa i k * fb k j))) ->
  binop_ok (fun A B C n =>
    for_ 0 n (fun i => for_ 0 n (fun j =>
      mwrite C i j 0;; for_ 0 n (fun k => step A B C i j k)))) (mmul n) n.
Proof.
  intros Hstep h A B C fa fb HA HB HC HsA HsB. apply elementwise_spec; [done|].
  intros i j hk Hi Hj Hp.
  destruct (mwrite_in_dest h hk C n i j 0 HC Hp Hi Hj) as (h1 & Hw & Hp1 & Hc1).
  rewrite (bind_Some _ _ _ _ _ Hw).
  set (f := fun k => fa i k * fb k j).
  destruct (for_spec (fun k hx =>
              pres nobody (only h C i j) hk hx /\
              cell hx C i j = Some (wrap64 (bigsum (Z.to_nat k) f)))
              0 n (fun k => step A B C i j k) h1) as (h2 & Hf & Hp2 & Hc2);
    [lia|done| |].
  - intros k hx Hk [Hpx Hcx].
    assert (Hphx : pres nobody (win h C n) h hx).
    { eapply pres_trans; [done|]. eapply pres_mono; [done| |done].
      intros r j'. by apply only_win. }
    assert (HAx : rep hx A n fa)
      by (eapply rep_pres_sep; [done|by intros []|lia|done..]).
    assert (HBx : rep hx B n fb)
      by (eapply rep_pres_sep; [done|by intros []|lia|done..]).
    destruct (Hstep h hx A B C fa fb i j k _ HAx HBx HC Hphx Hi Hj Hk Hcx)
      as (hx' & Hs & Hpx' & Hcx').
    exists hx'. split; [done|]. split; [by eapply pres_trans|].
    rewrite Hcx'. by rewrite bigsum_succ by lia.
  - exists h2. by rewrite Hf.
Qed.

Lemma matrixMultiplyBruteForce_ok n : binop_ok matrixMultiplyBruteForce (mmul n) n.
Proof.
  apply (triple_loop_ok n (fun A B C i j k => accumulate A B C i j k)).
  intros h hx A B C fa fb i j k s HA HB HC Hp Hi Hj Hk Hc. unfold accumulate.
  rewrite (bind_Some _ _ _ _ _ (mread_Some _ _ _ _ _ (HA i k Hi Hk))).
  destruct (decide (fa i k <> 0)) as [Ha|Ha].
  - rewrite (bind_Some _ _ _ _ _ (mread_Some _ _ _ _ _ (HB k j Hk Hj))).
    destruct (decide (fb k j <> 0)) as [Hb|Hb].
    + rewrite (bind_Some _ _ _ _ _ (mread_Some _ _ _ _ _ Hc)).
      rewrite <- wrap64_acc. by apply (mwrite_in_dest h hx C n).
    + exists hx. split; [done|]. split; [apply pres_refl|].
      rewrite Hc. do 2 f_equal. lia.
  - exists hx. split; [done|]. split; [apply pres_refl|].
    rewrite Hc. do 2 f_equal. lia.
Qed.

Lemma matrixMultiplyUnconditional_ok n :
  binop_ok matrixMultiplyUnconditional (mmul n) n.
Proof.
  apply (triple_loop_ok n (fun A B C i j k =>
    do a <- mread A i k; do b <- mread B k j; do c <- mread C i j;
    mwrite C i j (wrap64 (c + wrap64 (a * b))))).
  intros h hx A B C fa fb i j k s HA HB HC Hp Hi Hj Hk Hc.
  rewrite (bind_Some _ _ _ _ _ (mread_Some _ _ _ _ _ (HA i k Hi Hk))).
  rewrite (bind_Some _ _ _ _ _ (mread_Some _ _ _ _ _ (HB k j Hk Hj))).
  rewrite (bind_Some _ _ _ _ _ (mread_Some _ _ _ _ _ Hc)).
  rewrite <- wrap64_acc. by apply (mwrite_in_dest h hx C n).
Qed.

Lemma matrixMultiplyBruteForce_frames n : frames matrixMultiplyBruteForce n n.
Proof.
  intros h A B C u h' HCa. apply elementwise_frame; [done|].
  intros i j hk w hk' Hi Hj (w1 & h1 & Hw & Hf)%bind_inv.
  pose proof (mwrite_only _ _ _ _ _ _ _ Hw) as Hp1.
  assert (HCk : is_Some (ptrs hk !! C)).
  { apply mwrite_inv in Hw as (r & _ & Hr & _). by eapply row_of_Some_ptrs. }
  eapply pres_trans; [done|].
  destruct (decide (n <= 0)) as [Hn|Hn]; [lia|].
  eapply (for_inv (fun _ hx => pres nobody (only hk C i j) h1 hx) 0 n);
    [lia|exact Hf|apply pres_refl|].
  intros k hx w2 hx' Hk Hpx Hacc. simpl in *. eapply pres_trans; [done|].
  eapply pres_mono; [done| |by eapply accumulate_only].
  intros r j' [-> Hr]. split; [done|].
  rewrite <- (pres_row_of_eq _ _ _ _ _ _ (pres_trans _ _ _ _ _ Hp1 Hpx));
    [done|by intros []|done].
Qed.

(** ** Loops that write several cells in every round *)

(** A target [(D, rho, kappa, e)] stands for the statement
    [D[rho i][kappa j] = e i j] of round [(i, j)]. *)
Definition target : Type := loc * (Z -> Z) * (Z -> Z) * mat.

(** The cells written in round [(i, j)], and in all rounds. *)
Definition tcell (h0 : heap) (tg : list target) (i j : Z) (r : loc) (c : Z) : Prop :=
  exists s D rho kappa e,
    tg !! s = Some (D, rho, kappa, e) /\ row_of h0 D (rho i) = Some r /\ c = kappa j.
Definition twin (h0 : heap) (tg : list target) (m : Z) (r : loc) (c : Z) : Prop :=
  exists i j, 0 <= i < m /\ 0 <= j < m /\ tcell h0 tg i j r c.

(** Every target cell exists, and different statements or rounds write
    different cells. *)
Definition targets_ok (h0 : heap) (tg : list target) (m : Z) : Prop :=
  (forall s D rho kappa e i,
     tg !! s = Some (D, rho, kappa, e) -> 0 <= i < m ->
     exists r len, row_of h0 D (rho i) = Some r /\ rowlen h0 r = Some len /\
                   forall j, 0 <= j < m -> 0 <= kappa j < len) /\
  (forall s s' D D' rho rho' kappa kappa' e e' i i' j j' r,
     tg !! s = Some (D, rho, kappa, e) -> tg !! s' = Some (D', rho', kappa', e') ->
     0 <= i < m -> 0 <= i' < m -> 0 <= j < m -> 0 <= j' < m ->
     row_of h0 D (rho i) = Some r -> row_of h0 D' (rho' i') = Some r ->
     kappa j = kappa' j' -> s = s' /\ i = i' /\ j = j').

Lemma tcell_twin h0 tg m i j r c :
  0 <= i < m -> 0 <= j < m -> tcell h0 tg i j r c -> twin h0 tg m r c.
Proof. intros Hi Hj Ht. exists i, j. done. Qed.

Lemma multiwrite_spec h0 tg m (body : Z -> Z -> M unit) :
  targets_ok h0 tg m ->
  (forall i j hk, 0 <= i < m -> 0 <= j < m -> pres nobody (twin h0 tg m) h0 hk ->
     exists hk', body i j hk = Some (tt, hk') /\
                 pres nobody (tcell h0 tg i j) hk hk' /\
                 forall s D rho kappa e, tg !! s = Some (D, rho, kappa, e) ->
                   cell hk' D (rho i) (kappa j) = Some (e i j)) ->
  exists h', for_ 0 m (fun i => for_ 0 m (fun j => body i j)) h0 = Some (tt, h') /\
             pres nobody (twin h0 tg m) h0 h' /\
             forall s D rho kappa e i j,
               tg !! s = Some (D, rho, kappa, e) -> 0 <= i < m -> 0 <= j < m ->
               cell h' D (rho i) (kappa j) = Some (e i j).
Proof.
  intros [Hrows Hinj] Hbody. destruct (decide (m <= 0)) as [Hm|Hm].
  { exists h0. split; [by apply for_empty|]. split; [apply pres_refl|].
    intros; lia. }
  set (I := fun (i j : Z) (hk : heap) =>
    pres nobody (twin h0 tg m) h0 hk /\
    forall s D rho kappa e i' j', tg !! s = Some (D, rho, kappa, e) ->
      0 <= i' < m -> 0 <= j' < m -> i' < i \/ (i' = i /\ j' < j) ->
      cell hk D (rho i') (kappa j') = Some (e i' j')).
  destruct (for_spec (fun i => I i 0) 0 m
              (fun i => for_ 0 m (fun j => body i j)) h0) as (h' & Hf & Hp & Hv);
    [lia| | |].
  - split; [apply pres_refl|]. intros; lia.
  - intros i hk Hi HI.
    destruct (for_spec (fun j => I i j) 0 m (fun j => body i j) hk)
      as (hk' & Hf & Hp & Hv); [lia|done| |].
    + intros j hj Hj [Hp Hv].
      destruct (Hbody i j hj Hi Hj Hp) as (hj' & Hb & Hp' & Hc).
      exists hj'. split; [done|]. split.
      * eapply pres_trans; [done|]. eapply pres_mono; [done| |done].
        intros r c. by apply tcell_twin.
      * intros s D rho kappa e i' j' Hs Hi' Hj' Hdone.
        destruct (decide (i' = i /\ j' = j)) as [[-> ->]|Hne]; [by eapply Hc|].
        eapply pres_cell; [done|by intros []| |eapply Hv; [done..|lia]].
        intros r Hr (s2 & D2 & rho2 & kappa2 & e2 & Hs2 & Hr2 & Hk2).
        destruct (Hrows s D rho kappa e i' Hs Hi') as (r' & len & Hr' & _).
        rewrite (pres_row_of _ _ _ _ _ _ _ Hp (fun x => x) Hr') in Hr.
        injection Hr as ->.
        destruct (Hinj s s2 D D2 rho rho2 kappa kappa2 e e2 i' i j' j r
                    Hs Hs2 Hi' Hi Hj' Hj Hr' Hr2 Hk2) as (_ & ? & ?).
        tauto.
    + exists hk'. split; [done|]. split; [done|].
      intros s D rho kappa e i' j' Hs Hi' Hj' Hdone.
      eapply Hv; [done..|lia].
  - exists h'. split; [done|]. split; [done|].
    intros s D rho kappa e i j Hs Hi Hj. eapply Hv; [done..|lia].
Qed.

(** The state inside round [(i, j)], after the first [s] statements. *)
Definition round_inv (h0 : heap) (tg : list target) (i j : Z) (s : nat)
    (hs hk : heap) : Prop :=
  pres nobody (tcell h0 tg i j) hs hk /\
  forall s' D rho kappa e, (s' < s)%nat -> tg !! s' = Some (D, rho, kappa, e) ->
    cell hk D (rho i) (kappa j) = Some (e i j).

Lemma round_start h0 tg i j hs : round_inv h0 tg i j 0 hs hs.
Proof. split; [apply pres_refl|]. intros; lia. Qed.

Lemma round_write h0 tg m i j s hs hk D rho kappa e v :
  targets_ok h0 tg m -> pres nobody (twin h0 tg m) h0 hs ->
  0 <= i < m -> 0 <= j < m ->
  round_inv h0 tg i j s hs hk ->
  tg !! s = Some (D, rho, kappa, e) -> v = e i j ->
  exists hk', mwrite D (rho i) (kappa j) v hk = Some (tt, hk') /\
              round_inv h0 tg i j (S s) hs hk'.
Proof.
  intros [Hrows Hinj] Hp0 Hi Hj [Hp Hv] Hs ->.
  destruct (Hrows s D rho kappa e i Hs Hi) as (r & len & Hr & Hl & Hk).
  assert (Hp0k : pres nobody (twin h0 tg m) h0 hk).
  { eapply pres_trans; [done|]. eapply pres_mono; [done| |done].
    intros r' c. by apply tcell_twin. }
  destruct (mwrite_Some D (rho i) (kappa j) (e i j) hk r len) as (hk' & Hw & Hwr).
  { by eapply pres_row_of; [done|intros []|]. }
  { by apply Hp0k. }
  { by apply Hk. }
  exists hk'. split; [done|]. split.
  - eapply pres_trans; [done|]. eapply wrote_pres; [done|].
    exists s, D, rho, kappa, e. done.
  - intros s' D' rho' kappa' e' Hlt Hs'.
    rewrite (wrote_cell _ _ _ _ _ _ _ _ Hwr).
    destruct (decide (s' = s)) as [->|Hne].
    + rewrite Hs in Hs'. injection Hs' as <- <- <- <-.
      rewrite decide_True; [done|]. split; [|done].
      by eapply pres_row_of; [done|intros []|].
    + rewrite decide_False; [apply (Hv s'); [lia|done]|].
      intros [Hr' Hk'].
      destruct (Hrows s' D' rho' kappa' e' i Hs' Hi) as (r2 & len2 & Hr2 & _).
      rewrite (pres_row_of _ _ _ _ _ _ _ Hp0k (fun x => x) Hr2) in Hr'.
      injection Hr' as ->.
      destruct (Hinj s' s D' D rho' rho kappa' kappa e' e i i j j r
                  Hs' Hs Hi Hi Hj Hj Hr2 Hr Hk') as (? & _). done.
Qed.

Lemma round_end h0 tg i j hs hk :
  round_inv h0 tg i j (length tg) hs hk ->
  pres nobody (tcell h0 tg i j) hs hk /\
  forall s D rho kappa e, tg !! s = Some (D, rho, kappa, e) ->
    cell hk D (rho i) (kappa j) = Some (e i j).
Proof.
  intros [Hp Hv]. split; [done|]. intros s D rho kappa e Hs.
  eapply Hv; [|done]. by eapply lookup_lt_Some.
Qed.

(** ** Allocation and release, in terms of what can be observed *)

Lemma new_rows_inv n h X h' :
  new_rows n h = Some (X, h') ->
  0 <= n /\ ptrs h !! X = None /\
  ptrs h' = <[X := replicate (Z.to_nat n) None]> (ptrs h) /\ ints h' = ints h.
Proof.
  unfold new_rows. destruct (blk_alloc (ptrs h) n) as [[l s]|] eqn:Ha; [|done].
  intros [= -> <-]. apply blk_alloc_inv in Ha as (? & ? & ->). done.
Qed.

Lemma new_rows_Some n h : 0 <= n -> exists X h', new_rows n h = Some (X, h').
Proof.
  intros Hn. destruct (blk_alloc_Some (ptrs h) n Hn) as (l & _ & Ha).
  unfold new_rows. rewrite Ha. eauto.
Qed.

Lemma new_cells_inv n h r h' :
  new_cells n h = Some (r, h') ->
  0 <= n /\ ints h !! r = None /\
  ints h' = <[r := replicate (Z.to_nat n) None]> (ints h) /\ ptrs h' = ptrs h.
Proof.
  unfold new_cells. destruct (blk_alloc (ints h) n) as [[l s]|] eqn:Ha; [|done].
  intros [= -> <-]. apply blk_alloc_inv in Ha as (? & ? & ->). done.
Qed.

Lemma new_cells_Some n h : 0 <= n -> exists r h', new_cells n h = Some (r, h').
Proof.
  intros Hn. destruct (blk_alloc_Some (ints h) n Hn) as (l & _ & Ha).
  unfold new_cells. rewrite Ha. eauto.
Qed.

Lemma set_row_inv X i r h u h' :
  set_row X i r h = Some (u, h') ->
  exists b, ptrs h !! X = Some b /\ 0 <= i < Z.of_nat (length b) /\
            ptrs h' = <[X := zupd b i (Some r)]> (ptrs h) /\ ints h' = ints h.
Proof.
  unfold set_row. destruct (blk_write (ptrs h) X i r) as [s|] eqn:Hw; [|done].
  intros [= _ <-]. apply blk_write_inv in Hw as (b & ? & ? & ->). eauto.
Qed.

Lemma set_row_Some X i r h b :
  ptrs h !! X = Some b -> 0 <= i < Z.of_nat (length b) ->
  exists h', set_row X i r h = Some (tt, h').
Proof.
  intros Hb Hi. unfold set_row. rewrite (blk_write_Some _ _ _ _ b) by done. eauto.
Qed.

Lemma delete_cells_inv r h u h' :
  delete_cells r h = Some (u, h') ->
  is_Some (ints h !! r) /\ ints h' = delete r (ints h) /\ ptrs h' = ptrs h.
Proof.
  unfold delete_cells, blk_free. destruct (ints h !! r) as [b|]; [|done].
  intros [= _ <-]. eauto.
Qed.

Lemma delete_cells_Some r h :
  is_Some (ints h !! r) -> exists h', delete_cells r h = Some (tt, h').
Proof. intros [b Hb]. unfold delete_cells, blk_free. rewrite Hb. eauto. Qed.

Lemma delete_rows_inv X h u h' :
  delete_rows X h = Some (u, h') ->
  is_Some (ptrs h !! X) /\ ptrs h' = delete X (ptrs h) /\ ints h' = ints h.
Proof.
  unfold delete_rows, blk_free. destruct (ptrs h !! X) as [b|]; [|done].
  intros [= _ <-]. eauto.
Qed.

Lemma delete_rows_Some X h :
  is_Some (ptrs h !! X) -> exists h', delete_rows X h = Some (tt, h').
Proof. intros [b Hb]. unfold delete_rows, blk_free. rewrite Hb. eauto. Qed.

Lemma row_of_ptrs_eq h h' X i :
  ptrs h' !! X = ptrs h !! X -> row_of h' X i = row_of h X i.
Proof. unfold row_of, blk_read. by intros ->. Qed.

Lemma rd_ints_eq h h' r j : ints h' !! r = ints h !! r -> rd h' r j = rd h r j.
Proof. unfold rd, blk_read. by intros ->. Qed.

Lemma rowlen_ints_eq h h' r : ints h' !! r = ints h !! r -> rowlen h' r = rowlen h r.
Proof. unfold rowlen. by intros ->. Qed.

Lemma pres_of_lookups (PX : loc -> Prop) h h' :
  (forall X, ~ PX X -> is_Some (ptrs h !! X) -> ptrs h' !! X = ptrs h !! X) ->
  (forall r, is_Some (ints h !! r) -> ints h' !! r = ints h !! r) ->
  pres PX nothing h h'.
Proof.
  intros Hp Hi. split; [|split].
  - intros X b Hb HX. rewrite Hp; eauto.
  - intros r len Hl. rewrite (rowlen_ints_eq h h'); [done|].
    apply Hi. apply rowlen_Some in Hl as (b & -> & _). eauto.
  - intros r j [len Hl] _. apply rd_ints_eq, Hi.
    apply rowlen_Some in Hl as (b & -> & _). eauto.
Qed.

Lemma new_rows_pres n h X h' : new_rows n h = Some (X, h') -> pres nobody nothing h h'.
Proof.
  intros (_ & HX & Hp & Hi)%new_rows_inv. apply pres_of_lookups.
  - intros Y _ [b Hb]. rewrite Hp, lookup_insert_ne; [done|]. congruence.
  - intros r _. by rewrite Hi.
Qed.

Lemma new_rows_row_of n h X h' Y i :
  new_rows n h = Some (X, h') ->
  row_of h' Y i = if decide (Y = X) then None else row_of h Y i.
Proof.
  intros (Hn & HX & Hp & Hi)%new_rows_inv. unfold row_of, blk_read. rewrite Hp.
  destruct (decide (Y = X)) as [->|Hne].
  - rewrite lookup_insert_eq. simpl. unfold zidx.
    destruct (decide (0 <= i)); [|done].
    destruct (replicate (Z.to_nat n) None !! Z.to_nat i) as [x|] eqn:Hx; [|done].
    by apply lookup_replicate in Hx as [-> _].
  - by rewrite lookup_insert_ne.
Qed.

(** [X[i] = new long long[m]] *)
Definition new_row (X : loc) (i m : Z) : M unit :=
  do r <- new_cells m; set_row X i r.

Lemma new_row_inv X i m h u h' :
  new_row X i m h = Some (u, h') ->
  exists r b, 0 <= m /\ ints h !! r = None /\ ptrs h !! X = Some b /\
    0 <= i < Z.of_nat (length b) /\
    ints h' = <[r := replicate (Z.to_nat m) None]> (ints h) /\
    ptrs h' = <[X := zupd b i (Some r)]> (ptrs h).
Proof.
  unfold new_row. intros (r & h1 & Hn & Hs)%bind_inv.
  apply new_cells_inv in Hn as (Hm & Hr & Hi1 & Hp1).
  apply set_row_inv in Hs as (b & Hb & Hi & Hp2 & Hi2).
  exists r, b. rewrite Hi2, Hi1, Hp2, <- Hp1. done.
Qed.

Lemma new_row_Some X i m h b :
  0 <= m -> ptrs h !! X = Some b -> 0 <= i < Z.of_nat (length b) ->
  exists h', new_row X i m h = Some (tt, h').
Proof.
  intros Hm Hb Hi. destruct (new_cells_Some m h Hm) as (r & h1 & Hn).
  pose proof Hn as (_ & _ & _ & Hp1)%new_cells_inv.
  destruct (set_row_Some X i r h1 b) as (h' & Hs); [by rewrite Hp1|done|].
  exists h'. unfold new_row. by rewrite (bind_Some _ _ _ _ _ Hn).
Qed.

Lemma new_row_pres X i m h u h' :
  new_row X i m h = Some (u, h') -> pres (fun Y => Y = X) nothing h h'.
Proof.
  intros (r & b & _ & Hr & Hb & _ & Hi & Hp)%new_row_inv. apply pres_of_lookups.
  - intros Y HY _. rewrite Hp, lookup_insert_ne; [done|]. congruence.
  - intros r' [b' Hb']. rewrite Hi, lookup_insert_ne; [done|]. congruence.
Qed.

Lemma new_row_obs X i m h u h' :
  new_row X i m h = Some (u, h') ->
  exists r, rowlen h r = None /\
    (forall Y i', row_of h' Y i' =
                  if decide (Y = X /\ i' = i) then Some r else row_of h Y i') /\
    (forall r', rowlen h' r' = if decide (r' = r) then Some m else rowlen h r') /\
    (forall Y b, ptrs h !! Y = Some b ->
                 exists b', ptrs h' !! Y = Some b' /\ length b' = length b).
Proof.
  intros (r & b & Hm & Hr & Hb & Hi & Hints & Hptrs)%new_row_inv.
  exists r. split; [by apply rowlen_None|]. split; [|split].
  - intros Y i'. unfold row_of. rewrite Hptrs. by apply blk_read_write.
  - intros r'. unfold rowlen. rewrite Hints. destruct (decide (r' = r)) as [->|].
    + rewrite lookup_insert_eq. simpl. rewrite length_replicate. f_equal. lia.
    + by rewrite lookup_insert_ne.
  - intros Y b' Hb'. rewrite Hptrs. destruct (decide (Y = X)) as [->|].
    + rewrite lookup_insert_eq. eexists. split; [done|].
      rewrite length_zupd. congruence.
    + rewrite lookup_insert_ne by done. eauto.
Qed.

(** ** The temporaries of one level of the recursion *)

(** [h] is the heap at the call, [hk] the heap now, [Xs] the matrices
    allocated since the call and [F] the row pointers that have been set:
    they lead to different rows of [half] cells that did not exist in [h]. *)
Record tshape (h hk : heap) (Xs : list loc) (half : Z) (F : loc -> Z -> Prop)
  : Prop := {
  ts_nodup : NoDup Xs;
  ts_arr : forall X, X ∈ Xs ->
    ptrs h !! X = None /\
    exists b, ptrs hk !! X = Some b /\ Z.of_nat (length b) = half;
  ts_in : forall X i, F X i -> X ∈ Xs /\ 0 <= i < half;
  ts_row : forall X i, F X i ->
    exists r, row_of hk X i = Some r /\ rowlen h r = None /\ rowlen hk r = Some half;
  ts_inj : forall X X' i i' r, F X i -> F X' i' ->
    row_of hk X i = Some r -> row_of hk X' i' = Some r -> X = X' /\ i = i'
}.

Definition full (Xs : list loc) (half : Z) (X : loc) (i : Z) : Prop :=
  X ∈ Xs /\ 0 <= i < half.
Definition nowhere : loc -> Z -> Prop := fun _ _ => False.

Lemma tshape_init h half : tshape h h [] half nowhere.
Proof.
  split.
  - constructor.
  - intros X HX. by apply elem_of_nil in HX.
  - intros X i [].
  - intros X i [].
  - intros X X' i i' r [].
Qed.

Lemma tshape_ext h hk Xs half (F F' : loc -> Z -> Prop) :
  (forall X i, F' X i -> F X i) -> tshape h hk Xs half F -> tshape h hk Xs half F'.
Proof.
  intros HF [Hnd Harr Hin Hrow Hinj]. split; eauto.
Qed.

Lemma pres_new_None h hk :
  pres nobody nothing h hk ->
  (forall X, ptrs hk !! X = None -> ptrs h !! X = None) /\
  (forall r, rowlen hk r = None -> rowlen h r = None).
Proof.
  intros (Hp & Hl & _). split.
  - intros X HX. destruct (ptrs h !! X) as [b|] eqn:Hb; [|done].
    rewrite (Hp X b Hb) in HX; [done|by intros []].
  - intros r Hr. destruct (rowlen h r) as [len|] eqn:Hlen; [|done].
    by rewrite (Hl r len Hlen) in Hr.
Qed.

Lemma tshape_new_rows h hk Xs half F X hk' :
  pres nobody nothing h hk -> tshape h hk Xs half F ->
  new_rows half hk = Some (X, hk') ->
  (X ∉ Xs) /\ tshape h hk' (Xs ++ [X]) half F.
Proof.
  intros Hp [Hnd Harr Hin Hrow Hinj] Hnew.
  pose proof Hnew as (Hhalf & HX & Hptrs & Hints)%new_rows_inv.
  assert (HXs : X ∉ Xs).
  { intros HXs. destruct (Harr X HXs) as (_ & b & Hb & _). congruence. }
  assert (Hrow_of : forall Y i, Y ∈ Xs -> row_of hk' Y i = row_of hk Y i).
  { intros Y i HY. rewrite (new_rows_row_of _ _ _ _ _ _ Hnew).
    rewrite decide_False; [done|]. by intros ->. }
  assert (Hlen : forall r, rowlen hk' r = rowlen hk r).
  { intros r. apply rowlen_ints_eq. by rewrite Hints. }
  split; [done|]. split.
  - apply NoDup_app. split; [done|]. split; [|apply NoDup_singleton].
    intros Y HY ->%list_elem_of_singleton. done.
  - intros Y [HY| ->%list_elem_of_singleton]%elem_of_app.
    + destruct (Harr Y HY) as (HhY & b & Hb & Hlb). split; [done|]. exists b.
      split; [|done]. rewrite Hptrs, lookup_insert_ne; [done|]. by intros ->.
    + split; [by apply (pres_new_None h hk Hp)|].
      eexists. rewrite Hptrs, lookup_insert_eq. split; [done|].
      rewrite length_replicate. lia.
  - intros Y i HF. destruct (Hin Y i HF) as [HY Hi]. split; [|done].
    apply elem_of_app. by left.
  - intros Y i HF. destruct (Hin Y i HF) as [HY Hi].
    destruct (Hrow Y i HF) as (r & ? & ? & ?). exists r.
    by rewrite Hrow_of, Hlen.
  - intros Y Y' i i' r HF HF'.
    rewrite !Hrow_of by (by eapply Hin). by apply Hinj.
Qed.

Lemma tshape_new_row h hk Xs half F X i u hk' :
  pres nobody nothing h hk -> tshape h hk Xs half F ->
  X ∈ Xs -> 0 <= i < half ->
  new_row X i half hk = Some (u, hk') ->
  tshape h hk' Xs half (fun Y i' => F Y i' \/ (Y = X /\ i' = i)).
Proof.
  intros Hp [Hnd Harr Hin Hrow Hinj] HX Hi Hnew.
  destruct (new_row_obs _ _ _ _ _ _ Hnew) as (r & Hr & Hrow_of & Hlen & Hb).
  assert (Hhr : rowlen h r = None) by by apply (pres_new_None h hk Hp).
  assert (Hold : forall Y i', F Y i' -> ~ (Y = X /\ i' = i) ->
            exists r', r' <> r /\ row_of hk' Y i' = Some r' /\
                       row_of hk Y i' = Some r' /\
                       rowlen h r' = None /\ rowlen hk' r' = Some half).
  { intros Y i' HF Hne. destruct (Hrow Y i' HF) as (r' & Hr' & Hh' & Hl').
    assert (r' <> r) by congruence.
    exists r'. rewrite Hrow_of, Hlen, !decide_False by done. done. }
  split.
  - done.
  - intros Y HY. destruct (Harr Y HY) as (HhY & b & HbY & Hlb). split; [done|].
    destruct (Hb Y b HbY) as (b' & Hb' & Hlb'). exists b'. split; [done|]. lia.
  - intros Y i' [HF|[-> ->]]; [by apply Hin|done].
  - intros Y i' HF. destruct (decide (Y = X /\ i' = i)) as [[-> ->]|Hne].
    + exists r. rewrite Hrow_of, Hlen, !decide_True by done. done.
    + destruct HF as [HF|?]; [|done].
      destruct (Hold Y i' HF Hne) as (r' & _ & ? & _ & ? & ?). eauto.
  - intros Y Y' i1 i2 r0 HF HF' Hr1 Hr2.
    destruct (decide (Y = X /\ i1 = i)) as [[-> ->]|Hne1];
      destruct (decide (Y' = X /\ i2 = i)) as [[-> ->]|Hne2]; [done|..].
    + destruct HF' as [HF'|?]; [|done].
      destruct (Hold Y' i2 HF' Hne2) as (r' & Hrr & Hr' & _).
      rewrite Hrow_of, decide_True in Hr1 by done. congruence.
    + destruct HF as [HF|?]; [|done].
      destruct (Hold Y i1 HF Hne1) as (r' & Hrr & Hr' & _).
      rewrite Hrow_of, decide_True in Hr2 by done. congruence.
    + destruct HF as [HF|?]; [|done]. destruct HF' as [HF'|?]; [|done].
      destruct (Hold Y i1 HF Hne1) as (r1 & _ & Hr1' & Hk1 & _).
      destruct (Hold Y' i2 HF' Hne2) as (r2 & _ & Hr2' & Hk2 & _).
      apply (Hinj Y Y' i1 i2 r0 HF HF'); congruence.
Qed.

Lemma pres_nobody_of h hk hk' (PX : loc -> Prop) :
  pres nobody nothing h hk -> pres PX nothing hk hk' ->
  (forall X, PX X -> ptrs h !! X = None) ->
  pres nobody nothing h hk'.
Proof.
  intros (Hp1 & Hl1 & Hr1) (Hp2 & Hl2 & Hr2) HPX. split; [|split].
  - intros X b Hb _. apply Hp2; [by apply Hp1; [|intros []]|].
    intros HX. rewrite (HPX X HX) in Hb. done.
  - eauto.
  - intros r j [len Hlen] HW. rewrite Hr2, Hr1; eauto.
Qed.

Definition astate (h hk : heap) (Xs : list loc) (half : Z)
    (F : loc -> Z -> Prop) : Prop :=
  pres nobody nothing h hk /\ tshape h hk Xs half F.

Lemma new_rows_astate h hk Xs half F :
  0 <= half -> astate h hk Xs half F ->
  exists X hk', new_rows half hk = Some (X, hk') /\
                astate h hk' (Xs ++ [X]) half F /\ (X ∉ Xs) /\
                pres nobody nothing hk hk'.
Proof.
  intros Hhalf [Hp Hts]. destruct (new_rows_Some half hk Hhalf) as (X & hk' & Hn).
  exists X, hk'. split; [done|].
  pose proof (new_rows_pres _ _ _ _ Hn) as Hp'.
  destruct (tshape_new_rows _ _ _ _ _ _ _ Hp Hts Hn) as [HX Hts'].
  split; [|done]. split; [|done]. by eapply pres_trans.
Qed.

Lemma new_row_astate h hk Xs half F X i :
  astate h hk Xs half F -> X ∈ Xs -> 0 <= i < half ->
  exists hk', new_row X i half hk = Some (tt, hk') /\
              astate h hk' Xs half (fun Y i' => F Y i' \/ (Y = X /\ i' = i)) /\
              pres (fun Y => Y = X) nothing hk hk'.
Proof.
  intros [Hp Hts] HX Hi. destruct (ts_arr _ _ _ _ _ Hts X HX) as (HhX & b & Hb & Hlb).
  destruct (new_row_Some X i half hk b) as (hk' & Hn); [lia|done|lia|].
  exists hk'. split; [done|]. pose proof (new_row_pres _ _ _ _ _ _ Hn) as Hp'.
  split; [|done]. split.
  - eapply pres_nobody_of; [done..|]. by intros Y ->.
  - by eapply tshape_new_row.
Qed.

Lemma new_row_each_spec h Xs half Ys i : forall hk F,
  0 <= i < half -> (forall Y, Y ∈ Ys -> Y ∈ Xs) -> astate h hk Xs half F ->
  exists hk', new_row_each Ys i half hk = Some (tt, hk') /\
              astate h hk' Xs half (fun Y i' => F Y i' \/ (Y ∈ Ys /\ i' = i)) /\
              pres (fun Y => Y ∈ Ys) nothing hk hk'.
Proof.
  induction Ys as [|Y Ys IH]; intros hk F Hi HYs [Hp Hts].
  - exists hk. split; [done|]. split; [|apply pres_refl]. split; [done|].
    eapply tshape_ext; [|done]. intros X i' [?|[HX _]]; [done|].
    by apply elem_of_nil in HX.
  - destruct (new_row_astate h hk Xs half F Y i) as (hk1 & Hn & Hst1 & Hp1);
      [done|apply HYs; by left|done|].
    destruct (IH hk1 (fun Y0 i' => F Y0 i' \/ (Y0 = Y /\ i' = i)) Hi)
      as (hk' & He & [Hp' Hts'] & Hpp); [|done|].
    { intros Z HZ. apply HYs. by right. }
    exists hk'. split; [|split; [split|]].
    + simpl. by rewrite (bind_Some _ _ _ _ _ Hn).
    + done.
    + eapply tshape_ext; [|done]. simpl.
      intros X i' [?|[[->|?]%elem_of_cons ->]]; tauto.
    + eapply pres_trans; (eapply pres_mono; [| |done]); simpl;
        [intros ? ->; by left|done|intros ? ?; by right|done].
Qed.

Lemma fill_rows_spec h hk Xs half F Ys :
  0 <= half -> (forall Y, Y ∈ Ys -> Y ∈ Xs) -> astate h hk Xs half F ->
  exists hk', for_ 0 half (fun i => new_row_each Ys i half) hk = Some (tt, hk') /\
              astate h hk' Xs half
                (fun Y i' => F Y i' \/ (Y ∈ Ys /\ 0 <= i' < half)) /\
              pres (fun Y => Y ∈ Ys) nothing hk hk'.
Proof.
  intros Hhalf HYs Hst.
  destruct (for_spec (fun i hx =>
      astate h hx Xs half (fun Y i' => F Y i' \/ (Y ∈ Ys /\ 0 <= i' < i)) /\
      pres (fun Y => Y ∈ Ys) nothing hk hx)
      0 half (fun i => new_row_each Ys i half) hk) as (hk' & Hf & Hst' & Hp');
    [done| | |by eauto].
  - split; [|apply pres_refl]. destruct Hst as [Hp Hts]. split; [done|].
    eapply tshape_ext; [|done]. intros X i' [?|[_ ?]]; [done|lia].
  - intros i hx Hi [Hstx Hpx].
    destruct (new_row_each_spec h Xs half Ys i hx _ Hi HYs Hstx)
      as (hx' & He & [Hp' Hts'] & Hpp).
    exists hx'. split; [done|]. split; [|by eapply pres_trans].
    split; [done|]. eapply tshape_ext; [|done]. simpl.
    intros X i' [?|[? ?]]; [tauto|].
    destruct (decide (i' = i)); [tauto|]. left. right. split; [done|lia].
Qed.

Lemma tshape_pres h hk hk' Xs half F W :
  tshape h hk Xs half F -> pres nobody W hk hk' -> tshape h hk' Xs half F.
Proof.
  intros [Hnd Harr Hin Hrow Hinj] Hp.
  assert (Hrow_of : forall X i, X ∈ Xs -> row_of hk' X i = row_of hk X i).
  { intros X i HX. destruct (Harr X HX) as (_ & b & Hb & _).
    eapply pres_row_of_eq; [done|by intros []|by eauto]. }
  split.
  - done.
  - intros X HX. destruct (Harr X HX) as (? & b & Hb & ?). split; [done|].
    exists b. split; [|done]. by apply Hp; [|intros []].
  - done.
  - intros X i HF. destruct (Hrow X i HF) as (r & ? & ? & ?). exists r.
    rewrite Hrow_of by (by eapply Hin). split; [done|]. split; [done|].
    by apply Hp.
  - intros X X' i i' r HF HF'. rewrite !Hrow_of by (by eapply Hin).
    by apply Hinj.
Qed.

(** *** Release *)

(** [h'] is [hk] as far as the contents of [h] go. *)
Definition agree_old (h hk h' : heap) : Prop :=
  (forall X, is_Some (ptrs h !! X) -> ptrs h' !! X = ptrs hk !! X) /\
  (forall r, is_Some (rowlen h r) -> ints h' !! r = ints hk !! r).

Lemma agree_old_pres W h hk h' :
  pres nobody W h hk -> agree_old h hk h' -> pres nobody W h h'.
Proof.
  intros (Hp & Hl & Hr) [Ha1 Ha2]. split; [|split].
  - intros X b Hb HX. rewrite Ha1 by eauto. by apply Hp.
  - intros r len Hlen. rewrite (rowlen_ints_eq hk h') by (apply Ha2; eauto).
    by apply Hl.
  - intros r j Hlen HW. rewrite (rd_ints_eq hk h') by (by apply Ha2).
    by apply Hr.
Qed.

(** The heap [hx] is [hk] without the rows in [D]. *)
Definition released (hk : heap) (D : loc -> Z -> Prop) (hx : heap) : Prop :=
  ptrs hx = ptrs hk /\
  (forall X i r, D X i -> row_of hk X i = Some r -> ints hx !! r = None) /\
  (forall r, (forall X i, D X i -> row_of hk X i <> Some r) ->
             ints hx !! r = ints hk !! r).

Lemma released_ext hk (D D' : loc -> Z -> Prop) hx :
  (forall X i, D X i <-> D' X i) -> released hk D hx -> released hk D' hx.
Proof.
  intros HD (Hp & Hdel & Hkeep). split; [done|]. split.
  - intros X i r HDX. apply Hdel. by apply HD.
  - intros r Hr. apply Hkeep. intros X i HDX. apply Hr. by apply HD.
Qed.

Lemma delete_row_each_spec h hk Xs half Ys i : forall hx (D : loc -> Z -> Prop),
  tshape h hk Xs half (full Xs half) -> 0 <= i < half ->
  NoDup Ys -> (forall Y, Y ∈ Ys -> Y ∈ Xs /\ ~ D Y i) ->
  (forall X i', D X i' -> full Xs half X i') ->
  released hk D hx ->
  exists hx', delete_row_each Ys i hx = Some (tt, hx') /\
              released hk (fun X i' => D X i' \/ (X ∈ Ys /\ i' = i)) hx'.
Proof.
  induction Ys as [|Y Ys IH]; intros hx D Hts Hi Hnd HYs HD Hrel.
  - exists hx. split; [done|]. eapply released_ext; [|done].
    intros X i'. split; [tauto|]. intros [?|[HX _]]; [done|].
    by apply elem_of_nil in HX.
  - apply NoDup_cons in Hnd as [HY Hnd].
    destruct (HYs Y) as [HYX HYD]; [by left|].
    destruct (ts_row _ _ _ _ _ Hts Y i) as (r & Hr & Hhr & Hkr); [done|].
    destruct Hrel as (Hp & Hdel & Hkeep).
    assert (Hxr : ints hx !! r = ints hk !! r).
    { apply Hkeep. intros X i' HDX HrX.
      destruct (ts_inj _ _ _ _ _ Hts X Y i' i r) as [-> ->]; [by apply HD|done..]. }
    destruct (delete_cells_Some r hx) as (hx1 & Hdc).
    { rewrite Hxr. apply rowlen_Some in Hkr as (b & -> & _). eauto. }
    pose proof Hdc as (_ & Hi1 & Hp1)%delete_cells_inv.
    destruct (IH hx1 (fun X i' => D X i' \/ (X = Y /\ i' = i))) as (hx' & He & Hrel');
      [done..| | | |].
    + intros Z HZ. destruct (HYs Z) as [? ?]; [by right|]. split; [done|].
      intros [?|[-> _]]; done.
    + intros X i' [?|[-> ->]]; [by apply HD|done].
    + split; [congruence|]. split.
      * intros X i' r' [HDX|[-> ->]] HrX; rewrite Hi1.
        -- rewrite lookup_delete_ne; [by eapply Hdel|]. intros <-.
           destruct (ts_inj _ _ _ _ _ Hts X Y i' i r) as [-> ->];
             [by apply HD|done..].
        -- rewrite Hr in HrX. injection HrX as <-. apply lookup_delete_eq.
      * intros r' Hr'. rewrite Hi1, lookup_delete_ne.
        -- apply Hkeep. intros X i' HDX. apply Hr'. by left.
        -- intros <-. apply (Hr' Y i); [by right|done].
    + exists hx'. split.
      * simpl. unfold bind at 1. unfold bind at 1.
        rewrite get_row_eq, (row_of_ptrs_eq hk hx) by (by rewrite Hp).
        rewrite Hr. simpl. by rewrite Hdc.
      * eapply released_ext; [|done]. simpl. intros X i'.
        rewrite elem_of_cons. tauto.
Qed.

Lemma delete_rows_each_spec Ys : forall hx,
  NoDup Ys -> (forall Y, Y ∈ Ys -> is_Some (ptrs hx !! Y)) ->
  exists hx', delete_rows_each Ys hx = Some (tt, hx') /\ ints hx' = ints hx /\
              forall X, ptrs hx' !! X = if decide (X ∈ Ys) then None else ptrs hx !! X.
Proof.
  induction Ys as [|Y Ys IH]; intros hx Hnd HYs.
  - exists hx. split; [done|]. split; [done|]. intros X.
    rewrite decide_False; [done|]. apply not_elem_of_nil.
  - apply NoDup_cons in Hnd as [HY Hnd].
    destruct (delete_rows_Some Y hx) as (hx1 & Hd); [apply HYs; by left|].
    pose proof Hd as (_ & Hp1 & Hi1)%delete_rows_inv.
    destruct (IH hx1 Hnd) as (hx' & He & Hi' & Hp').
    { intros Z HZ. rewrite Hp1, lookup_delete_ne; [apply HYs; by right|].
      by intros <-. }
    exists hx'. split; [|split].
    + simpl. by rewrite (bind_Some _ _ _ _ _ Hd).
    + congruence.
    + intros X. rewrite Hp'. destruct (decide (X = Y)) as [->|Hne].
      * rewrite (decide_True (P := Y ∈ Y :: Ys)) by by left.
        rewrite decide_False by done. rewrite Hp1. apply lookup_delete_eq.
      * rewrite Hp1, lookup_delete_ne by done.
        destruct (decide (X ∈ Ys)).
        -- rewrite decide_True; [done|by right].
        -- rewrite decide_False; [done|]. by intros [?|?]%elem_of_cons.
Qed.

Lemma release_spec h hk Xs half :
  0 <= half -> tshape h hk Xs half (full Xs half) ->
  exists h', (for_ 0 half (fun i => delete_row_each Xs i);;
              delete_rows_each Xs) hk = Some (tt, h') /\
             agree_old h hk h'.
Proof.
  intros Hhalf Hts.
  destruct (for_spec (fun i hx =>
      released hk (fun X i' => X ∈ Xs /\ 0 <= i' < i) hx)
      0 half (fun i => delete_row_each Xs i) hk) as (h1 & Hf & Hrel); [done| | |].
  - split; [done|]. split; [intros X i r [_ ?]; lia|]. done.
  - intros i hx Hi Hrel.
    destruct (delete_row_each_spec h hk Xs half Xs i hx
                (fun X i' => X ∈ Xs /\ 0 <= i' < i) Hts Hi) as (hx' & Hd & Hrel');
      [apply (ts_nodup _ _ _ _ _ Hts)| | |done|].
    + intros Y HY. split; [done|]. intros [_ ?]. lia.
    + intros X i' [? ?]. split; [done|lia].
    + exists hx'. split; [done|]. eapply released_ext; [|done]. simpl.
      intros X i'. split; [intros [[? ?]|[? ->]]; split; try done; lia|].
      intros [? ?]. destruct (decide (i' = i)); [by right|]. left. split; [done|lia].
  - destruct Hrel as (Hp1 & Hdel & Hkeep).
    destruct (delete_rows_each_spec Xs h1) as (h' & Hd & Hi' & Hp');
      [apply (ts_nodup _ _ _ _ _ Hts)| |].
    + intros Y HY. rewrite Hp1.
      destruct (ts_arr _ _ _ _ _ Hts Y HY) as (_ & b & -> & _). eauto.
    + exists h'. split; [by rewrite (bind_Some _ _ _ _ _ Hf)|]. split.
      * intros X [b Hb]. rewrite Hp', Hp1. rewrite decide_False; [done|].
        intros HX. destruct (ts_arr _ _ _ _ _ Hts X HX) as (? & _). congruence.
      * intros r [len Hlen]. rewrite Hi'. apply Hkeep.
        intros X i [HX Hi] Hr.
        destruct (ts_row _ _ _ _ _ Hts X i) as (r' & Hr' & Hh & _); [done|].
        congruence.
Qed.

(** ** One level of the recursion *)

Definition quad (A : mat) (p q : Z) : mat := fun i j => A (i + p) (j + q).

Definition assemble (half : Z) (C11 C12 C21 C22 : mat) : mat :=
  fun i j =>
    if decide (i < half)
    then if decide (j < half) then C11 i j else C12 i (j - half)
    else if decide (j < half) then C21 (i - half) j
         else C22 (i - half) (j - half).

(** What one level computes when the recursive calls compute [rec]; every
    addition and subtraction is the one of the machine. *)
Definition strassen_level (rec : mat -> mat -> mat) (half : Z) (A B : mat) : mat :=
  let A11 := quad A 0 0 in let A12 := quad A 0 half in
  let A21 := quad A half 0 in let A22 := quad A half half in
  let B11 := quad B 0 0 in let B12 := quad B 0 half in
  let B21 := quad B half 0 in let B22 := quad B half half in
  let P1 := rec A11 (msub B12 B22) in
  let P2 := rec (madd A11 A12) B22 in
  let P3 := rec (madd A21 A22) B11 in
  let P4 := rec A22 (msub B21 B11) in
  let P5 := rec (madd A11 A22) (madd B11 B22) in
  let P6 := rec (msub A12 A22) (madd B21 B22) in
  let P7 := rec (msub A11 A21) (madd B11 B12) in
  assemble half
    (fun i j => wrap64 (wrap64 (wrap64 (P5 i j + P4 i j) - P2 i j) + P6 i j))
    (fun i j => wrap64 (P1 i j + P2 i j))
    (fun i j => wrap64 (P3 i j + P4 i j))
    (fun i j => wrap64 (wrap64 (wrap64 (P5 i j + P1 i j) - P3 i j) - P7 i j)).

(** The contents of the temporaries: [None] for a matrix that holds nothing
    known yet. *)
Definition holds (hk : heap) (half : Z) (X : loc) (v : option mat) : Prop :=
  match v with
  | Some f => rep hk X half f
  | None => True
  end.
Definition tenv (hk : heap) (Xs : list loc) (half : Z) (vals : list (option mat))
  : Prop := Forall2 (holds hk half) Xs vals.

Definition tstate (h hk : heap) (Xs : list loc) (half : Z)
    (vals : list (option mat)) : Prop :=
  astate h hk Xs half (full Xs half) /\ tenv hk Xs half vals.

Lemma pres_new_window h hk hk' (W : loc -> Z -> Prop) :
  pres nobody nothing h hk -> pres nobody W hk hk' ->
  (forall r j, W r j -> rowlen h r = None) ->
  pres nobody nothing h hk'.
Proof.
  intros (Hp1 & Hl1 & Hr1) (Hp2 & Hl2 & Hr2) HW. split; [|split].
  - intros X b Hb HX. apply Hp2; [|done]. by apply Hp1.
  - eauto.
  - intros r j [len Hlen] _. rewrite Hr2, Hr1; eauto.
    intros HWr. rewrite (HW r j HWr) in Hlen. done.
Qed.

Lemma tshape_elem_of h hk Xs half F a X :
  tshape h hk Xs half F -> Xs !! a = Some X -> X ∈ Xs.
Proof. intros _ Ha. by eapply list_elem_of_lookup_2. Qed.

Lemma tshape_dest h hk Xs half X :
  tshape h hk Xs half (full Xs half) -> X ∈ Xs -> dest hk X half.
Proof.
  intros Hts HX. split.
  - intros i Hi. destruct (ts_row _ _ _ _ _ Hts X i) as (r & Hr & _ & Hl); [done|].
    exists r, half. split; [done|]. split; [done|lia].
  - intros i i' r Hi Hi' Hr Hr'.
    by destruct (ts_inj _ _ _ _ _ Hts X X i i' r) as [_ ?].
Qed.

Lemma tshape_sep h hk Xs half X Y :
  tshape h hk Xs half (full Xs half) -> X ∈ Xs -> Y ∈ Xs -> X <> Y ->
  sep hk X Y half.
Proof.
  intros Hts HX HY Hne i i' r Hi Hi' Hr Hr'.
  by destruct (ts_inj _ _ _ _ _ Hts X Y i i' r) as [? _].
Qed.

Lemma tshape_win_new h hk Xs half X r j :
  tshape h hk Xs half (full Xs half) -> X ∈ Xs -> win hk X half r j ->
  rowlen h r = None.
Proof.
  intros Hts HX (_ & i & Hi & Hr).
  destruct (ts_row _ _ _ _ _ Hts X i) as (r' & Hr' & Hh & _); [done|]. congruence.
Qed.

Lemma tstate_op op F h hk Xs half vals d s1 s2 D S1 S2 f1 f2 :
  binop_ok op F half -> tstate h hk Xs half vals ->
  Xs !! d = Some D -> Xs !! s1 = Some S1 -> Xs !! s2 = Some S2 ->
  vals !! s1 = Some (Some f1) -> vals !! s2 = Some (Some f2) ->
  d <> s1 -> d <> s2 ->
  exists hk', op S1 S2 D half hk = Some (tt, hk') /\
              tstate h hk' Xs half (<[d := Some (F f1 f2)]> vals).
Proof.
  intros Hop [[Hp Hts] Henv] Hd Hs1 Hs2 Hv1 Hv2 Hne1 Hne2.
  pose proof (ts_nodup _ _ _ _ _ Hts) as Hnd.
  assert (HD : D ∈ Xs) by by eapply list_elem_of_lookup_2.
  assert (HS1 : S1 ∈ Xs) by by eapply list_elem_of_lookup_2.
  assert (HS2 : S2 ∈ Xs) by by eapply list_elem_of_lookup_2.
  assert (Hother : forall a X, Xs !! a = Some X -> a <> d -> X <> D).
  { intros a X Ha Hne ->. apply Hne. by eapply NoDup_lookup. }
  destruct (Hop hk S1 S2 D f1 f2) as (hk' & Hrun & Hp' & HD').
  - by apply (Forall2_lookup_lr _ _ _ _ _ _ Henv Hs1 Hv1).
  - by apply (Forall2_lookup_lr _ _ _ _ _ _ Henv Hs2 Hv2).
  - by eapply tshape_dest.
  - eapply tshape_sep; eauto. intros ->. by eapply (Hother s1 S1).
  - eapply tshape_sep; eauto. intros ->. by eapply (Hother s2 S2).
  - exists hk'. split; [done|]. split; [split|].
    + eapply pres_new_window; [done..|]. intros r j. by eapply tshape_win_new.
    + by eapply tshape_pres.
    + apply Forall2_same_length_lookup_2.
      { rewrite length_insert. by eapply Forall2_length. }
      intros a X v Ha Hv. destruct (decide (a = d)) as [->|Hne].
      * apply list_lookup_insert_Some in Hv as [(_ & <- & _)|[? _]]; [|done].
        rewrite Hd in Ha. by injection Ha as <-.
      * rewrite list_lookup_insert_ne in Hv by done.
        pose proof (Forall2_lookup_lr _ _ _ _ _ _ Henv Ha Hv) as HX.
        destruct v as [f|]; [|done]. simpl in *.
        eapply rep_pres_sep; [done|by intros []|lia| |done].
        eapply tshape_sep; eauto; [by eapply list_elem_of_lookup_2|].
        intros ->. by eapply (Hother a X).
Qed.

Lemma tenv_pres PX hk hk' Xs half vals :
  pres PX nothing hk hk' -> (forall X, X ∈ Xs -> ~ PX X) ->
  tenv hk Xs half vals -> tenv hk' Xs half vals.
Proof.
  intros Hp HPX Henv. apply Forall2_same_length_lookup_2.
  { by eapply Forall2_length. }
  intros a X v Ha Hv. pose proof (Forall2_lookup_lr _ _ _ _ _ _ Henv Ha Hv) as HX.
  destruct v as [f|]; [|done]. simpl in *. eapply rep_pres; [done| |done].
  apply HPX. by eapply list_elem_of_lookup_2.
Qed.

Lemma tenv_nothing hk Xs half : tenv hk Xs half (replicate (length Xs) None).
Proof.
  apply Forall2_same_length_lookup_2; [by rewrite length_replicate|].
  intros a X v _ [-> _]%lookup_replicate. done.
Qed.

Lemma tenv_app hk Xs Ys half vals vals' :
  tenv hk Xs half vals -> tenv hk Ys half vals' ->
  tenv hk (Xs ++ Ys) half (vals ++ vals').
Proof. apply Forall2_app. Qed.

Lemma round_pres h0 tg m i j s hs hx :
  0 <= i < m -> 0 <= j < m ->
  pres nobody (twin h0 tg m) h0 hs -> round_inv h0 tg i j s hs hx ->
  pres nobody (twin h0 tg m) h0 hx.
Proof.
  intros Hi Hj Hp [Hp' _]. eapply pres_trans; [done|].
  eapply pres_mono; [done| |done]. intros r c. by apply tcell_twin.
Qed.

Lemma round_rep h0 tg m i j s hs hx X n f :
  (forall i' r c, 0 <= i' < n -> row_of h0 X i' = Some r -> ~ twin h0 tg m r c) ->
  0 <= i < m -> 0 <= j < m ->
  pres nobody (twin h0 tg m) h0 hs -> round_inv h0 tg i j s hs hx ->
  rep h0 X n f -> rep hx X n f.
Proof.
  intros HX Hi Hj Hp Hinv Hrep i' j' Hi' Hj'.
  eapply pres_cell;
    [exact (round_pres h0 tg m i j s hs hx Hi Hj Hp Hinv)|by intros []|
    |by apply Hrep].
  intros r Hr. exact (HX i' r j' Hi' Hr).
Qed.

(** Rows that existed at the call, and rows allocated since. *)
Definition oldrows (h hk : heap) (X : loc) (n : Z) : Prop :=
  forall i r, 0 <= i < n -> row_of hk X i = Some r -> is_Some (rowlen h r).
Definition newrows (h hk : heap) (X : loc) (n : Z) : Prop :=
  forall i r, 0 <= i < n -> row_of hk X i = Some r -> rowlen h r = None.

Lemma rep_oldrows W h hk X n f :
  0 < n -> rep h X n f -> pres nobody W h hk -> oldrows h hk X n.
Proof.
  intros Hn Hrep Hp i r Hi Hr.
  assert (Hc : cell h X i 0 = Some (f i 0)) by (apply Hrep; lia).
  apply cell_Some in Hc as (r' & Hr' & Hv).
  rewrite (pres_row_of _ _ _ _ _ _ _ Hp (fun x => x) Hr') in Hr.
  injection Hr as <-. apply rd_rowlen in Hv as (len & -> & _). eauto.
Qed.

Lemma dest_oldrows W h hk X n :
  dest h X n -> pres nobody W h hk -> oldrows h hk X n.
Proof.
  intros [Hrows _] Hp i r Hi Hr.
  destruct (Hrows i Hi) as (r' & len & Hr' & Hl & _).
  rewrite (pres_row_of _ _ _ _ _ _ _ Hp (fun x => x) Hr') in Hr.
  injection Hr as <-. eauto.
Qed.

Lemma tshape_newrows h hk Xs half X :
  tshape h hk Xs half (full Xs half) -> X ∈ Xs -> newrows h hk X half.
Proof.
  intros Hts HX i r Hi Hr.
  destruct (ts_row _ _ _ _ _ Hts X i) as (r' & Hr' & Hh & _); [done|]. congruence.
Qed.

(** Targets among the temporaries, each written at [(i, j)]. *)
Definition plain_targets (Xs : list loc) (tg : list target) : Prop :=
  forall s D rho kappa e, tg !! s = Some (D, rho, kappa, e) ->
    Xs !! s = Some D /\ (forall i, rho i = i) /\ (forall j, kappa j = j).

Lemma targets_tmp h hk Xs half tg :
  tshape h hk Xs half (full Xs half) -> plain_targets Xs tg ->
  targets_ok hk tg half /\ (forall r c, twin hk tg half r c -> rowlen h r = None).
Proof.
  intros Hts Htg. split; [split|].
  - intros s D rho kappa e i Hs Hi. destruct (Htg _ _ _ _ _ Hs) as (HD & Hrho & Hk).
    destruct (ts_row _ _ _ _ _ Hts D i) as (r & Hr & _ & Hl).
    { split; [by eapply list_elem_of_lookup_2|done]. }
    exists r, half. rewrite Hrho. split; [done|]. split; [done|].
    intros j Hj. rewrite Hk. done.
  - intros s s' D D' rho rho' kappa kappa' e e' i i' j j' r Hs Hs' Hi Hi' Hj Hj'.
    destruct (Htg _ _ _ _ _ Hs) as (HD & Hrho & Hk).
    destruct (Htg _ _ _ _ _ Hs') as (HD' & Hrho' & Hk').
    rewrite Hrho, Hrho', Hk, Hk'. intros Hr Hr' ->.
    destruct (ts_inj _ _ _ _ _ Hts D D' i i' r) as [-> ->]; [| |done..|].
    + split; [by eapply list_elem_of_lookup_2|done].
    + split; [by eapply list_elem_of_lookup_2|done].
    + split; [|done]. eapply NoDup_lookup; [apply (ts_nodup _ _ _ _ _ Hts)|done..].
  - intros r c (i & j & Hi & Hj & s & D & rho & kappa & e & Hs & Hr & _).
    destruct (Htg _ _ _ _ _ Hs) as (HD & Hrho & Hk). rewrite Hrho in Hr.
    apply (tshape_newrows h hk Xs half D Hts
             (list_elem_of_lookup_2 _ _ _ HD) i r Hi Hr).
Qed.

(** The four statements that write the quadrants of [C]. *)
Definition quadrant_targets (C : loc) (half : Z) (c11 c12 c21 c22 : mat)
  : list target :=
  [(C, fun i => i, fun j => j, c11);
   (C, fun i => i, fun j => j + half, c12);
   (C, fun i => i + half, fun j => j, c21);
   (C, fun i => i + half, fun j => j + half, c22)].

Lemma targets_quadrants hk C n half c11 c12 c21 c22 :
  n = 2 * half -> dest hk C n ->
  targets_ok hk (quadrant_targets C half c11 c12 c21 c22) half /\
  (forall r c, twin hk (quadrant_targets C half c11 c12 c21 c22) half r c ->
               win hk C n r c).
Proof.
  intros Hn [Hrows Hinj]. split; [split|].
  - intros s D rho kappa e i Hs Hi.
    assert (D = C /\ 0 <= rho i < n /\ forall j, 0 <= j < half -> 0 <= kappa j < n)
      as (-> & Hri & Hkj).
    { destruct s as [|[|[|[|s]]]]; simpl in Hs; try done;
        injection Hs as <- <- <- <-; (split; [done|]); split; intros; lia. }
    destruct (Hrows (rho i) Hri) as (r & len & Hr & Hl & Hlen).
    exists r, len. split; [done|]. split; [done|]. intros j Hj.
    specialize (Hkj j Hj). lia.
  - intros s s' D D' rho rho' kappa kappa' e e' i i' j j' r Hs Hs' Hi Hi' Hj Hj' Hr Hr' Hk.
    destruct s as [|[|[|[|s]]]]; simpl in Hs; try done;
      injection Hs as <- <- <- <-;
      destruct s' as [|[|[|[|s']]]]; simpl in Hs'; try done;
      injection Hs' as <- <- <- <-;
      match goal with
      | Ha : row_of hk C ?a = Some r, Hb : row_of hk C ?b = Some r |- _ =>
          assert (a = b) by (apply (Hinj a b r); [lia|lia|done..])
      end; first [lia | split; [done|lia]].
  - intros r c (i & j & Hi & Hj & s & D & rho & kappa & e & Hs & Hr & ->).
    destruct s as [|[|[|[|s]]]]; simpl in Hs; try done;
      injection Hs as <- <- <- <-; (split; [lia|]); eexists; (split; [|done]); lia.
Qed.

Lemma round_copy h0 tg m i j s hs hx D rho kappa e X a b n f :
  targets_ok h0 tg m -> pres nobody (twin h0 tg m) h0 hs ->
  0 <= i < m -> 0 <= j < m ->
  round_inv h0 tg i j s hs hx ->
  tg !! s = Some (D, rho, kappa, e) ->
  rep h0 X n f ->
  (forall i' r c, 0 <= i' < n -> row_of h0 X i' = Some r -> ~ twin h0 tg m r c) ->
  0 <= a < n -> 0 <= b < n -> f a b = e i j ->
  exists hx', (do v <- mread X a b; mwrite D (rho i) (kappa j) v) hx = Some (tt, hx') /\
              round_inv h0 tg i j (S s) hs hx'.
Proof.
  intros Hok Hps Hi Hj Hinv Hs HX Hold Ha Hb Hv.
  pose proof (round_rep h0 tg m i j s hs hx X n f Hold Hi Hj Hps Hinv HX) as Hrep.
  rewrite (bind_Some _ _ _ _ _ (mread_Some _ _ _ _ _ (Hrep a b Ha Hb))).
  by eapply round_write.
Qed.

Ltac alloc_rows Hst X hk :=
  let Hn := fresh "Hn" in
  let Hst' := fresh "Hst" in
  destruct (new_rows_astate _ _ _ _ _ ltac:(eassumption) Hst)
    as (X & hk & Hn & Hst' & _ & _);
  rewrite (bind_Some _ _ _ _ _ Hn); cbv beta;
  clear Hn Hst; simpl app in Hst'; rename Hst' into Hst.

Ltac alloc_rows_keep Hst Hpp X hk :=
  let Hn := fresh "Hn" in
  let Hst' := fresh "Hst" in
  let Hp' := fresh "Hp" in
  destruct (new_rows_astate _ _ _ _ _ ltac:(eassumption) Hst)
    as (X & hk & Hn & Hst' & _ & Hp');
  rewrite (bind_Some _ _ _ _ _ Hn); cbv beta;
  apply (pres_trans _ _ _ _ _ Hpp) in Hp';
  clear Hn Hst Hpp; simpl app in Hst'; rename Hst' into Hst; rename Hp' into Hpp.

Ltac op_step Hop Hst d s1 s2 :=
  let hk' := fresh "hk" in
  let Hrun := fresh "Hrun" in
  let Hst' := fresh "Hst" in
  destruct (tstate_op _ _ _ _ _ _ _ d s1 s2 _ _ _ _ _ Hop Hst
              eq_refl eq_refl eq_refl eq_refl eq_refl ltac:(lia) ltac:(lia))
    as (hk' & Hrun & Hst');
  rewrite (bind_Some _ _ _ _ _ Hrun);
  clear Hrun Hst; cbn [insert list_insert] in Hst'; rename Hst' into Hst.

Lemma agree_old_cell h hk h' X i j :
  agree_old h hk h' -> is_Some (ptrs h !! X) ->
  (forall r, row_of hk X i = Some r -> is_Some (rowlen h r)) ->
  cell h' X i j = cell hk X i j.
Proof.
  intros [Hp Hi] HX Hr. unfold cell.
  rewrite (row_of_ptrs_eq hk h') by (by apply Hp).
  destruct (row_of hk X i) as [r|] eqn:Hrow; [|done]. simpl.
  apply rd_ints_eq, Hi. by apply Hr.
Qed.

Lemma win_pres h hk X n r j :
  pres nobody nothing h hk -> is_Some (ptrs h !! X) ->
  win hk X n r j -> win h X n r j.
Proof.
  intros Hp HX (Hj & i & Hi & Hr). split; [done|]. exists i. split; [done|].
  by rewrite <- (pres_row_of_eq _ _ _ _ _ _ Hp); [|intros []|].
Qed.

(** When the goal runs a statement and then the rest, [round_stmt] runs
    the statement with [tac] and the fact [Hw] about its final write. *)
Ltac round_stmt hx' Hw tac :=
  match goal with
  | |- exists x, bind ?m ?k ?hx = Some (tt, x) /\ _ =>
      let Hs := fresh "Hs" in
      assert (Hs : m hx = Some (tt, hx')); [tac; exact Hw|];
      rewrite (bind_Some m k hx _ _ Hs); clear Hs
  end.

Lemma divide_conquer_step_ok self F n half :
  2 < n -> n = 2 * half -> binop_ok self F half ->
  binop_ok (divide_conquer_step self) (strassen_level F half) n.
Proof.
  intros Hn2 Hn Hself h A B C fa fb HA HB HC HsA HsB.
  assert (Hhalf : 0 < half) by lia. assert (Hhalf0 : 0 <= half) by lia.
  unfold divide_conquer_step. rewrite decide_False by lia.
  replace (n ÷ 2) with half by (rewrite Hn, Z.mul_comm, Z.quot_mul; lia).
  cbv zeta.
  pose proof (conj (pres_refl nobody nothing h) (tshape_init h half)) as Hst.
  change (astate h h [] half nowhere) in Hst.
  alloc_rows Hst A11 h1. alloc_rows Hst A12 h2.
  alloc_rows Hst A21 h3. alloc_rows Hst A22 h4.
  alloc_rows Hst B11 h5. alloc_rows Hst B12 h6.
  alloc_rows Hst B21 h7. alloc_rows Hst B22 h8.
  clear h1 h2 h3 h4 h5 h6 h7.
  (* the rows of the quadrants *)
  destruct (fill_rows_spec h h8 _ half nowhere _ Hhalf0 (fun Y H => H) Hst)
    as (h9 & Hfill & [Hp9 Hts9] & _).
  rewrite (bind_Some _ _ _ _ _ Hfill). clear Hfill Hst h8.
  set (Xs := [A11; A12; A21; A22; B11; B12; B21; B22]) in *.
  assert (Hts : tshape h h9 Xs half (full Xs half)).
  { eapply tshape_ext; [|done]. intros X i HF. by right. }
  clear Hts9.
  (* the split *)
  set (tg := [(A11, fun i : Z => i, fun j : Z => j, quad fa 0 0);
              (A12, fun i : Z => i, fun j : Z => j, quad fa 0 half);
              (A21, fun i : Z => i, fun j : Z => j, quad fa half 0);
              (A22, fun i : Z => i, fun j : Z => j, quad fa half half);
              (B11, fun i : Z => i, fun j : Z => j, quad fb 0 0);
              (B12, fun i : Z => i, fun j : Z => j, quad fb 0 half);
              (B21, fun i : Z => i, fun j : Z => j, quad fb half 0);
              (B22, fun i : Z => i, fun j : Z => j, quad fb half half)] : list target).
  assert (Hplain : plain_targets Xs tg).
  { intros s D rho kappa e Hs.
    do 8 (destruct s as [|s]; [by injection Hs as <- <- <- <-|]). done. }
  destruct (targets_tmp h h9 Xs half tg Hts Hplain) as [Hok Hnew].
  assert (HA9 : rep h9 A n fa) by (eapply rep_pres; [done|by intros []|done]).
  assert (HB9 : rep h9 B n fb) by (eapply rep_pres; [done|by intros []|done]).
  assert (Hold : forall X f, rep h X n f ->
            forall i' r c, 0 <= i' < n -> row_of h9 X i' = Some r ->
                           ~ twin h9 tg half r c).
  { intros X f HX i' r c Hi' Hr Htw. apply Hnew in Htw.
    destruct (rep_oldrows _ h h9 X n f ltac:(lia) HX Hp9 i' r Hi' Hr). congruence. }
  match goal with
  | |- context [bind (for_ 0 half (fun i => for_ 0 half (fun j => @?b i j))) _] =>
      destruct (multiwrite_spec h9 tg half b Hok) as (h10 & Hsplit & Hp10 & Hcells)
  end.
  { intros i j hs Hi Hj Hps. pose proof (round_start h9 tg i j hs) as Hinv0.
    destruct (round_copy h9 tg half i j 0 hs hs _ _ _ _ A i j n fa
                Hok Hps Hi Hj Hinv0 eq_refl HA9 (Hold A fa HA))
      as (hx1 & Hw1 & Hinv1); [lia|lia|unfold quad; f_equal; lia|].
    cbv beta in Hw1. rewrite (bind_Some _ _ _ _ _ Hw1).
    destruct (round_copy h9 tg half i j 1 hs hx1 _ _ _ _ A i (j + half) n fa
                Hok Hps Hi Hj Hinv1 eq_refl HA9 (Hold A fa HA))
      as (hx2 & Hw2 & Hinv2); [lia|lia|unfold quad; f_equal; lia|].
    cbv beta in Hw2. rewrite (bind_Some _ _ _ _ _ Hw2).
    destruct (round_copy h9 tg half i j 2 hs hx2 _ _ _ _ A (i + half) j n fa
                Hok Hps Hi Hj Hinv2 eq_refl HA9 (Hold A fa HA))
      as (hx3 & Hw3 & Hinv3); [lia|lia|unfold quad; f_equal; lia|].
    cbv beta in Hw3. rewrite (bind_Some _ _ _ _ _ Hw3).
    destruct (round_copy h9 tg half i j 3 hs hx3 _ _ _ _ A (i + half) (j + half) n fa
                Hok Hps Hi Hj Hinv3 eq_refl HA9 (Hold A fa HA))
      as (hx4 & Hw4 & Hinv4); [lia|lia|unfold quad; f_equal; lia|].
    cbv beta in Hw4. rewrite (bind_Some _ _ _ _ _ Hw4).
    destruct (round_copy h9 tg half i j 4 hs hx4 _ _ _ _ B i j n fb
                Hok Hps Hi Hj Hinv4 eq_refl HB9 (Hold B fb HB))
      as (hx5 & Hw5 & Hinv5); [lia|lia|unfold quad; f_equal; lia|].
    cbv beta in Hw5. rewrite (bind_Some _ _ _ _ _ Hw5).
    destruct (round_copy h9 tg half i j 5 hs hx5 _ _ _ _ B i (j + half) n fb
                Hok Hps Hi Hj Hinv5 eq_refl HB9 (Hold B fb HB))
      as (hx6 & Hw6 & Hinv6); [lia|lia|unfold quad; f_equal; lia|].
    cbv beta in Hw6. rewrite (bind_Some _ _ _ _ _ Hw6).
    destruct (round_copy h9 tg half i j 6 hs hx6 _ _ _ _ B (i + half) j n fb
                Hok Hps Hi Hj Hinv6 eq_refl HB9 (Hold B fb HB))
      as (hx7 & Hw7 & Hinv7); [lia|lia|unfold quad; f_equal; lia|].
    cbv beta in Hw7. rewrite (bind_Some _ _ _ _ _ Hw7).
    destruct (round_copy h9 tg half i j 7 hs hx7 _ _ _ _ B (i + half) (j + half) n fb
                Hok Hps Hi Hj Hinv7 eq_refl HB9 (Hold B fb HB))
      as (hx8 & Hw8 & Hinv8); [lia|lia|unfold quad; f_equal; lia|].
    cbv beta in Hw8. exists hx8. split; [done|]. by apply round_end. }
  rewrite (bind_Some _ _ _ _ _ Hsplit). clear Hsplit.
  assert (Hp10' : pres nobody nothing h h10) by (by eapply pres_new_window).
  assert (Hst : astate h h10 Xs half (full Xs half))
    by (split; [done|by eapply tshape_pres]).
  assert (Henv : tenv h10 Xs half
            [Some (quad fa 0 0); Some (quad fa 0 half);
             Some (quad fa half 0); Some (quad fa half half);
             Some (quad fb 0 0); Some (quad fb 0 half);
             Some (quad fb half 0); Some (quad fb half half)]).
  { pose proof (fun s D e Hs i j =>
      Hcells s D (fun i : Z => i) (fun j : Z => j) e i j Hs) as Hc.
    cbv beta in Hc.
    constructor; [intros i j; exact (Hc 0%nat A11 _ eq_refl i j)|].
    constructor; [intros i j; exact (Hc 1%nat A12 _ eq_refl i j)|].
    constructor; [intros i j; exact (Hc 2%nat A21 _ eq_refl i j)|].
    constructor; [intros i j; exact (Hc 3%nat A22 _ eq_refl i j)|].
    constructor; [intros i j; exact (Hc 4%nat B11 _ eq_refl i j)|].
    constructor; [intros i j; exact (Hc 5%nat B12 _ eq_refl i j)|].
    constructor; [intros i j; exact (Hc 6%nat B21 _ eq_refl i j)|].
    constructor; [intros i j; exact (Hc 7%nat B22 _ eq_refl i j)|].
    constructor. }
  clear Hcells Hp10 Hold Hnew Hok Hplain HA9 HB9 Hts Hp9 h9. clear tg.
  (* the temporaries and the seven products *)
  assert (Hpp : pres nobody nothing h10 h10) by apply pres_refl.
  alloc_rows_keep Hst Hpp temp1 h11. alloc_rows_keep Hst Hpp temp2 h12.
  alloc_rows_keep Hst Hpp P1 h13. alloc_rows_keep Hst Hpp P2 h14.
  alloc_rows_keep Hst Hpp P3 h15. alloc_rows_keep Hst Hpp P4 h16.
  alloc_rows_keep Hst Hpp P5 h17. alloc_rows_keep Hst Hpp P6 h18.
  alloc_rows_keep Hst Hpp P7 h19.
  clear h11 h12 h13 h14 h15 h16 h17 h18.
  set (Ys := [temp1; temp2; P1; P2; P3; P4; P5; P6; P7]) in *.
  destruct (fill_rows_spec h h19 (Xs ++ Ys) half (full Xs half) Ys Hhalf0) 
    as (h20 & Hfill & [Hp20 Hts20] & Hpp20); [|done|].
  { intros Y HY. apply elem_of_app. by right. }
  rewrite (bind_Some _ _ _ _ _ Hfill). clear Hfill.
  assert (Hts : tshape h h20 (Xs ++ Ys) half (full (Xs ++ Ys) half)).
  { eapply tshape_ext; [|done]. intros X i [[HX|HX]%elem_of_app Hi].
    - by left.
    - by right. }
  assert (Henv20 : tenv h20 (Xs ++ Ys) half
            ([Some (quad fa 0 0); Some (quad fa 0 half);
              Some (quad fa half 0); Some (quad fa half half);
              Some (quad fb 0 0); Some (quad fb 0 half);
              Some (quad fb half 0); Some (quad fb half half)]
             ++ replicate (length Ys) None)).
  { apply tenv_app; [|apply tenv_nothing].
    eapply tenv_pres; [exact Hpp20| |].
    - intros X HX HY.
      pose proof (ts_nodup _ _ _ _ _ Hts) as Hnd.
      apply NoDup_app in Hnd as (_ & Hdis & _). by apply (Hdis X).
    - eapply tenv_pres; [exact Hpp|by intros ? ? []|done]. }
  assert (Hst20 : tstate h h20 (Xs ++ Ys) half
            ([Some (quad fa 0 0); Some (quad fa 0 half);
              Some (quad fa half 0); Some (quad fa half half);
              Some (quad fb 0 0); Some (quad fb 0 half);
              Some (quad fb half 0); Some (quad fb half half)]
             ++ replicate (length Ys) None)) by done.
  clear Henv20 Hts Hts20 Hp20 Hpp20 Hpp Hst Henv Hp10' h19 h10.
  subst Xs Ys. simpl app in Hst20. simpl replicate in Hst20.
  pose proof (subtractMatrix_ok half) as Hsub.
  pose proof (addMatrix_ok half) as Hadd.
  op_step Hsub Hst20 8%nat 5%nat 7%nat. op_step Hself Hst20 10%nat 0%nat 8%nat.
  op_step Hadd Hst20 8%nat 0%nat 1%nat. op_step Hself Hst20 11%nat 8%nat 7%nat.
  op_step Hadd Hst20 8%nat 2%nat 3%nat. op_step Hself Hst20 12%nat 8%nat 4%nat.
  op_step Hsub Hst20 8%nat 6%nat 4%nat. op_step Hself Hst20 13%nat 3%nat 8%nat.
  op_step Hadd Hst20 8%nat 0%nat 3%nat. op_step Hadd Hst20 9%nat 4%nat 7%nat.
  op_step Hself Hst20 14%nat 8%nat 9%nat.
  op_step Hsub Hst20 8%nat 1%nat 3%nat. op_step Hadd Hst20 9%nat 6%nat 7%nat.
  op_step Hself Hst20 15%nat 8%nat 9%nat.
  op_step Hsub Hst20 8%nat 0%nat 2%nat. op_step Hadd Hst20 9%nat 4%nat 5%nat.
  op_step Hself Hst20 16%nat 8%nat 9%nat.
  clear hk hk0 hk1 hk2 hk3 hk4 hk5 hk6 hk7 hk8 hk9 hk10 hk11 hk12 hk13 hk14 h20.
  rename hk15 into hk. destruct Hst20 as [[Hp Hts] Henv].
  (* the combination *)
  unfold strassen_level.
  set (Xs := [A11; A12; A21; A22; B11; B12; B21; B22; temp1; temp2;
              P1; P2; P3; P4; P5; P6; P7]) in *.
  pose proof (Forall2_lookup_lr _ _ _ 10%nat P1 _ Henv eq_refl eq_refl) as HP1.
  pose proof (Forall2_lookup_lr _ _ _ 11%nat P2 _ Henv eq_refl eq_refl) as HP2.
  pose proof (Forall2_lookup_lr _ _ _ 12%nat P3 _ Henv eq_refl eq_refl) as HP3.
  pose proof (Forall2_lookup_lr _ _ _ 13%nat P4 _ Henv eq_refl eq_refl) as HP4.
  pose proof (Forall2_lookup_lr _ _ _ 14%nat P5 _ Henv eq_refl eq_refl) as HP5.
  pose proof (Forall2_lookup_lr _ _ _ 15%nat P6 _ Henv eq_refl eq_refl) as HP6.
  pose proof (Forall2_lookup_lr _ _ _ 16%nat P7 _ Henv eq_refl eq_refl) as HP7.
  cbn [holds] in HP1, HP2, HP3, HP4, HP5, HP6, HP7. clear Henv.
  set (p1 := F (quad fa 0 0) (msub (quad fb 0 half) (quad fb half half))) in *.
  set (p2 := F (madd (quad fa 0 0) (quad fa 0 half)) (quad fb half half)) in *.
  set (p3 := F (madd (quad fa half 0) (quad fa half half)) (quad fb 0 0)) in *.
  set (p4 := F (quad fa half half) (msub (quad fb half 0) (quad fb 0 0))) in *.
  set (p5 := F (madd (quad fa 0 0) (quad fa half half))
               (madd (quad fb 0 0) (quad fb half half))) in *.
  set (p6 := F (msub (quad fa 0 half) (quad fa half half))
               (madd (quad fb half 0) (quad fb half half))) in *.
  set (p7 := F (msub (quad fa 0 0) (quad fa half 0))
               (madd (quad fb 0 0) (quad fb 0 half))) in *.
  set (c11 := fun i j => wrap64 (wrap64 (wrap64 (p5 i j + p4 i j) - p2 i j) + p6 i j)).
  set (c12 := fun i j => wrap64 (p1 i j + p2 i j)).
  set (c21 := fun i j => wrap64 (p3 i j + p4 i j)).
  set (c22 := fun i j => wrap64 (wrap64 (wrap64 (p5 i j + p1 i j) - p3 i j) - p7 i j)).
  set (tg := quadrant_targets C half c11 c12 c21 c22).
  assert (HCa : is_Some (ptrs h !! C)) by (apply (dest_allocated h C n); [lia|done]).
  assert (HCk : dest hk C n) by (eapply dest_pres; [done|by intros []|done]).
  destruct (targets_quadrants hk C n half c11 c12 c21 c22 Hn HCk) as [Hok Htwin].
  fold tg in Hok, Htwin.
  assert (Hread : forall X f, X ∈ Xs -> rep hk X half f ->
            forall i j s hs hx, 0 <= i < half -> 0 <= j < half ->
              pres nobody (twin hk tg half) hk hs ->
              round_inv hk tg i j s hs hx -> cell hx X i j = Some (f i j)).
  { intros X f HX Hrep i j s hs hx Hi Hj Hps Hinv.
    apply (round_rep hk tg half i j s hs hx X half f); try done.
    intros i' r c Hi' Hr (_ & i2 & Hi2 & Hr2)%Htwin.
    pose proof (tshape_newrows h hk Xs half X Hts HX i' r Hi' Hr) as Hnew.
    destruct (dest_oldrows _ h hk C n HC Hp i2 r Hi2 Hr2). congruence. }
  assert (HXs : forall a X, Xs !! a = Some X -> X ∈ Xs)
    by (intros a X; apply list_elem_of_lookup_2).
  pose proof (fun i j s hs hx => Hread P1 p1 (HXs 10%nat P1 eq_refl) HP1 i j s hs hx) as R1.
  pose proof (fun i j s hs hx => Hread P2 p2 (HXs 11%nat P2 eq_refl) HP2 i j s hs hx) as R2.
  pose proof (fun i j s hs hx => Hread P3 p3 (HXs 12%nat P3 eq_refl) HP3 i j s hs hx) as R3.
  pose proof (fun i j s hs hx => Hread P4 p4 (HXs 13%nat P4 eq_refl) HP4 i j s hs hx) as R4.
  pose proof (fun i j s hs hx => Hread P5 p5 (HXs 14%nat P5 eq_refl) HP5 i j s hs hx) as R5.
  pose proof (fun i j s hs hx => Hread P6 p6 (HXs 15%nat P6 eq_refl) HP6 i j s hs hx) as R6.
  pose proof (fun i j s hs hx => Hread P7 p7 (HXs 16%nat P7 eq_refl) HP7 i j s hs hx) as R7.
  clear Hread.
  match goal with
  | |- context [bind (for_ 0 half (fun i => for_ 0 half (fun j => @?b i j))) _] =>
      destruct (multiwrite_spec hk tg half b Hok) as (h21 & Hcomb & Hp21 & Hcells)
  end.
  { intros i j hs Hi Hj Hps. pose proof (round_start hk tg i j hs) as Hinv0.
    destruct (round_write hk tg half i j 0 hs hs C (fun i => i) (fun j => j) c11
                (c11 i j) Hok Hps Hi Hj Hinv0 eq_refl eq_refl)
      as (hx1 & Hw1 & Hinv1).
    round_stmt hx1 Hw1 ltac:(
      rewrite (bind_Some _ _ _ _ _ (mread_Some _ _ _ _ _ (R5 i j _ hs hs Hi Hj Hps Hinv0)));
      rewrite (bind_Some _ _ _ _ _ (mread_Some _ _ _ _ _ (R4 i j _ hs hs Hi Hj Hps Hinv0)));
      rewrite (bind_Some _ _ _ _ _ (mread_Some _ _ _ _ _ (R2 i j _ hs hs Hi Hj Hps Hinv0)));
      rewrite (bind_Some _ _ _ _ _ (mread_Some _ _ _ _ _ (R6 i j _ hs hs Hi Hj Hps Hinv0)))).
    destruct (round_write hk tg half i j 1 hs hx1 C (fun i => i) (fun j => j + half) c12
                (c12 i j) Hok Hps Hi Hj Hinv1 eq_refl eq_refl)
      as (hx2 & Hw2 & Hinv2).
    round_stmt hx2 Hw2 ltac:(
      rewrite (bind_Some _ _ _ _ _ (mread_Some _ _ _ _ _ (R1 i j _ hs hx1 Hi Hj Hps Hinv1)));
      rewrite (bind_Some _ _ _ _ _ (mread_Some _ _ _ _ _ (R2 i j _ hs hx1 Hi Hj Hps Hinv1)))).
    destruct (round_write hk tg half i j 2 hs hx2 C (fun i => i + half) (fun j => j) c21
                (c21 i j) Hok Hps Hi Hj Hinv2 eq_refl eq_refl)
      as (hx3 & Hw3 & Hinv3).
    round_stmt hx3 Hw3 ltac:(
      rewrite (bind_Some _ _ _ _ _ (mread_Some _ _ _ _ _ (R3 i j _ hs hx2 Hi Hj Hps Hinv2)));
      rewrite (bind_Some _ _ _ _ _ (mread_Some _ _ _ _ _ (R4 i j _ hs hx2 Hi Hj Hps Hinv2)))).
    destruct (round_write hk tg half i j 3 hs hx3 C (fun i => i + half)
                (fun j => j + half) c22
                (c22 i j) Hok Hps Hi Hj Hinv3 eq_refl eq_refl)
      as (hx4 & Hw4 & Hinv4).
    exists hx4. split; [|by apply round_end].
    rewrite (bind_Some _ _ _ _ _ (mread_Some _ _ _ _ _ (R5 i j _ hs hx3 Hi Hj Hps Hinv3))).
    rewrite (bind_Some _ _ _ _ _ (mread_Some _ _ _ _ _ (R1 i j _ hs hx3 Hi Hj Hps Hinv3))).
    rewrite (bind_Some _ _ _ _ _ (mread_Some _ _ _ _ _ (R3 i j _ hs hx3 Hi Hj Hps Hinv3))).
    rewrite (bind_Some _ _ _ _ _ (mread_Some _ _ _ _ _ (R7 i j _ hs hx3 Hi Hj Hps Hinv3))).
    exact Hw4. }
  rewrite (bind_Some _ _ _ _ _ Hcomb). clear Hcomb R1 R2 R3 R4 R5 R6 R7.
  (* the release *)
  destruct (release_spec h h21 Xs half Hhalf0) as (h' & Hrel & Hag).
  { by eapply tshape_pres. }
  exists h'. split; [exact Hrel|].
  assert (Hp21' : pres nobody (win h C n) h h21).
  { eapply pres_trans.
    - eapply pres_mono; [done| |exact Hp]. by intros ? ? [].
    - eapply pres_mono; [done| |exact Hp21].
      intros r c Htw. by eapply win_pres; [| |apply Htwin]. }
  split; [by eapply agree_old_pres|].
  intros i j Hi Hj.
  rewrite (agree_old_cell h h21 h' C i j Hag HCa).
  2:{ intros r Hr. by apply (dest_oldrows _ h h21 C n HC Hp21' i). }
  unfold assemble.
  destruct (decide (i < half)), (decide (j < half)).
  - exact (Hcells 0%nat C (fun i => i) (fun j => j) c11 i j eq_refl ltac:(lia) ltac:(lia)).
  - pose proof (Hcells 1%nat C (fun i => i) (fun j => j + half) c12 i (j - half)
                  eq_refl ltac:(lia) ltac:(lia)) as Hc. cbv beta in Hc.
    by replace (j - half + half) with j in Hc by lia.
  - pose proof (Hcells 2%nat C (fun i => i + half) (fun j => j) c21 (i - half) j
                  eq_refl ltac:(lia) ltac:(lia)) as Hc. cbv beta in Hc.
    by replace (i - half + half) with i in Hc by lia.
  - pose proof (Hcells 3%nat C (fun i => i + half) (fun j => j + half) c22
                  (i - half) (j - half) eq_refl ltac:(lia) ltac:(lia)) as Hc.
    cbv beta in Hc.
    replace (j - half + half) with j in Hc by lia.
    by replace (i - half + half) with i in Hc by lia.
Qed.

(** ** Algebra of the seven products *)

Definition padd (A B : mat) : mat := fun i j => A i j + B i j.
Definition psub (A B : mat) : mat := fun i j => A i j - B i j.
Definition meqm (A B : mat) : Prop := forall i j, eqm64 (A i j) (B i j).

Lemma bigsum_ext n f g :
  (forall k, 0 <= k < Z.of_nat n -> f k = g k) -> bigsum n f = bigsum n g.
Proof.
  induction n as [|n IH]; intros Hfg; [done|]. simpl.
  rewrite IH, Hfg; [done|lia|]. intros k Hk. apply Hfg. lia.
Qed.

Lemma bigsum_eqm n f g :
  (forall k, eqm64 (f k) (g k)) -> eqm64 (bigsum n f) (bigsum n g).
Proof.
  intros Hfg. induction n as [|n IH]; [done|]. simpl. by rewrite IH, Hfg.
Qed.

Lemma bigsum_add n f g :
  bigsum n (fun k => f k + g k) = bigsum n f + bigsum n g.
Proof. induction n as [|n IH]; simpl; lia. Qed.

Lemma bigsum_sub n f g :
  bigsum n (fun k => f k - g k) = bigsum n f - bigsum n g.
Proof. induction n as [|n IH]; simpl; lia. Qed.

Lemma bigsum_app n m f :
  bigsum (n + m) f = bigsum n f + bigsum m (fun k => f (k + Z.of_nat n)).
Proof.
  induction m as [|m IH].
  - rewrite Nat.add_0_r. simpl. lia.
  - rewrite Nat.add_succ_r. simpl. rewrite IH.
    replace (Z.of_nat (n + m)) with (Z.of_nat m + Z.of_nat n) by lia. lia.
Qed.

Lemma mat_prod_meqm n A A' B B' i j :
  meqm A A' -> meqm B B' -> eqm64 (mat_prod n A B i j) (mat_prod n A' B' i j).
Proof.
  intros HA HB. unfold mat_prod. apply bigsum_eqm. intros k.
  by rewrite (HA i k), (HB k j).
Qed.

Lemma mat_prod_padd_l n A A' B i j :
  mat_prod n (padd A A') B i j = mat_prod n A B i j + mat_prod n A' B i j.
Proof.
  unfold mat_prod, padd. rewrite <- bigsum_add. apply bigsum_ext. intros; lia.
Qed.

Lemma mat_prod_psub_l n A A' B i j :
  mat_prod n (psub A A') B i j = mat_prod n A B i j - mat_prod n A' B i j.
Proof.
  unfold mat_prod, psub. rewrite <- bigsum_sub. apply bigsum_ext. intros; lia.
Qed.

Lemma mat_prod_padd_r n A B B' i j :
  mat_prod n A (padd B B') i j = mat_prod n A B i j + mat_prod n A B' i j.
Proof.
  unfold mat_prod, padd. rewrite <- bigsum_add. apply bigsum_ext. intros; lia.
Qed.

Lemma mat_prod_psub_r n A B B' i j :
  mat_prod n A (psub B B') i j = mat_prod n A B i j - mat_prod n A B' i j.
Proof.
  unfold mat_prod, psub. rewrite <- bigsum_sub. apply bigsum_ext. intros; lia.
Qed.

(** The product of two matrices of size [2 * half], by blocks. *)
Lemma mat_prod_blocks half A B i j p q :
  0 <= half ->
  mat_prod (2 * half) A B (i + p) (j + q) =
  mat_prod half (quad A p 0) (quad B 0 q) i j +
  mat_prod half (quad A p half) (quad B half q) i j.
Proof.
  intros Hhalf. unfold mat_prod, quad.
  replace (Z.to_nat (2 * half)) with (Z.to_nat half + Z.to_nat half)%nat by lia.
  rewrite bigsum_app. f_equal; apply bigsum_ext; intros k Hk.
  - by rewrite !Z.add_0_r.
  - by rewrite Z2Nat.id by lia.
Qed.

Lemma madd_meqm A B : meqm (madd A B) (padd A B).
Proof. intros i j. apply wrap64_eqm. Qed.

Lemma msub_meqm A B : meqm (msub A B) (psub A B).
Proof. intros i j. apply wrap64_eqm. Qed.

Lemma meqm_refl A : meqm A A.
Proof. by intros i j. Qed.

(** [F] multiplies matrices of size [n], modulo 2^64. *)
Definition computes (F : mat -> mat -> mat) (n : Z) : Prop :=
  forall A B i j, 0 <= i < n -> 0 <= j < n ->
    eqm64 (F A B i j) (mat_prod n A B i j).

Lemma mmul_computes n : computes (mmul n) n.
Proof. intros A B i j _ _. apply wrap64_eqm. Qed.

(** The combinations of the seven products, computed with integers. *)
Section seven_products.
Variables (half : Z) (A B : mat) (i j : Z).
Hypothesis Hhalf : 0 <= half.

Let A11 := quad A 0 0.
Let A12 := quad A 0 half.
Let A21 := quad A half 0.
Let A22 := quad A half half.
Let B11 := quad B 0 0.
Let B12 := quad B 0 half.
Let B21 := quad B half 0.
Let B22 := quad B half half.
Let P1 := mat_prod half A11 (psub B12 B22) i j.
Let P2 := mat_prod half (padd A11 A12) B22 i j.
Let P3 := mat_prod half (padd A21 A22) B11 i j.
Let P4 := mat_prod half A22 (psub B21 B11) i j.
Let P5 := mat_prod half (padd A11 A22) (padd B11 B22) i j.
Let P6 := mat_prod half (psub A12 A22) (padd B21 B22) i j.
Let P7 := mat_prod half (psub A11 A21) (padd B11 B12) i j.

Lemma seven_products_11 : P5 + P4 - P2 + P6 = mat_prod (2 * half) A B (i + 0) (j + 0).
Proof.
  rewrite mat_prod_blocks by done. subst P1 P2 P3 P4 P5 P6 P7.
  rewrite ?mat_prod_padd_l, ?mat_prod_psub_l, ?mat_prod_padd_r, ?mat_prod_psub_r.
  rewrite ?mat_prod_padd_l, ?mat_prod_psub_l. fold A11 A12 B11 B21. lia.
Qed.

Lemma seven_products_12 : P1 + P2 = mat_prod (2 * half) A B (i + 0) (j + half).
Proof.
  rewrite mat_prod_blocks by done. subst P1 P2 P3 P4 P5 P6 P7.
  rewrite ?mat_prod_padd_l, ?mat_prod_psub_l, ?mat_prod_padd_r, ?mat_prod_psub_r.
  rewrite ?mat_prod_padd_l, ?mat_prod_psub_l. fold A11 A12 B12 B22. lia.
Qed.

Lemma seven_products_21 : P3 + P4 = mat_prod (2 * half) A B (i + half) (j + 0).
Proof.
  rewrite mat_prod_blocks by done. subst P1 P2 P3 P4 P5 P6 P7.
  rewrite ?mat_prod_padd_l, ?mat_prod_psub_l, ?mat_prod_padd_r, ?mat_prod_psub_r.
  rewrite ?mat_prod_padd_l, ?mat_prod_psub_l. fold A21 A22 B11 B21. lia.
Qed.

Lemma seven_products_22 :
  P5 + P1 - P3 - P7 = mat_prod (2 * half) A B (i + half) (j + half).
Proof.
  rewrite mat_prod_blocks by done. subst P1 P2 P3 P4 P5 P6 P7.
  rewrite ?mat_prod_padd_l, ?mat_prod_psub_l, ?mat_prod_padd_r, ?mat_prod_psub_r.
  rewrite ?mat_prod_padd_l, ?mat_prod_psub_l. fold A21 A22 B12 B22. lia.
Qed.
End seven_products.

(** ** The algorithm as it is described *)


(** One level of the description, over given recursive calls. *)
Definition described_level (rec : mat -> mat -> mat) (half : Z) (A B : mat) : mat :=
  let A11 := quad A 0 0 in let A12 := quad A 0 half in
  let A21 := quad A half 0 in let A22 := quad A half half in
  let B11 := quad B 0 0 in let B12 := quad B 0 half in
  let B21 := quad B half 0 in let B22 := quad B half half in
  let P1 := rec A11 (msub B12 B22) in
  let P2 := rec (madd A11 A12) B22 in
  let P3 := rec (madd A21 A22) B11 in
  let P4 := rec A22 (msub B21 B11) in
  let P5 := rec (madd A11 A22) (madd B11 B22) in
  let P6 := rec (msub A12 A22) (madd B21 B22) in
  let P7 := rec (msub A11 A21) (madd B11 B12) in
  assemble half
    (fun i j => wrap64 (P5 i j + P4 i j - P2 i j + P6 i j))
    (fun i j => wrap64 (P1 i j + P2 i j))
    (fun i j => wrap64 (P3 i j + P4 i j))
    (fun i j => wrap64 (P5 i j + P1 i j - P3 i j - P7 i j)).



(** Sizes that halve exactly down to the base case. *)
Inductive reducible : Z -> Prop :=
| reducible_base n : n <= 2 -> reducible n
| reducible_half n : 2 < n -> Z.rem n 2 = 0 -> reducible (n ÷ 2) -> reducible n.

Lemma reducible_even n : 2 < n -> Z.rem n 2 = 0 -> n = 2 * (n ÷ 2) /\ 0 < n ÷ 2.
Proof.
  intros Hn Hrem. pose proof (Z.quot_rem' n 2) as Hq. split; [lia|].
  apply Z.quot_str_pos. lia.
Qed.

Lemma reducible_pow2 k : reducible (2 ^ Z.of_nat k).
Proof.
  induction k as [|k IH]; [by apply reducible_base|].
  destruct (decide (2 ^ Z.of_nat (S k) <= 2)) as [Hle|Hgt];
    [by apply reducible_base|].
  assert (Hpow : 2 ^ Z.of_nat (S k) = 2 ^ Z.of_nat k * 2).
  { rewrite Nat2Z.inj_succ, Z.pow_succ_r by lia. lia. }
  apply reducible_half; [lia| |].
  - rewrite Hpow. apply Z.rem_mul. lia.
  - rewrite Hpow, Z.quot_mul by lia. done.
Qed.

Lemma described_level_computes F half :
  0 < half -> computes F half -> computes (described_level F half) (2 * half).
Proof.
  intros Hhalf HF A B i j Hi Hj. unfold described_level, assemble.
  assert (HP : forall X Y X' Y' i j, 0 <= i < half -> 0 <= j < half ->
            meqm X X' -> meqm Y Y' ->
            eqm64 (F X Y i j) (mat_prod half X' Y' i j)).
  { intros X Y X' Y' i' j' Hi' Hj' HX HY. rewrite (HF X Y i' j' Hi' Hj').
    by apply mat_prod_meqm. }
  destruct (decide (i < half)), (decide (j < half)); rewrite wrap64_eqm.
  - rewrite (HP _ _ _ _ i j ltac:(lia) ltac:(lia)
               (madd_meqm _ _) (madd_meqm _ _)).
    rewrite (HP _ _ _ _ i j ltac:(lia) ltac:(lia)
               (meqm_refl _) (msub_meqm _ _)).
    rewrite (HP _ _ _ _ i j ltac:(lia) ltac:(lia)
               (madd_meqm _ _) (meqm_refl _)).
    rewrite (HP _ _ _ _ i j ltac:(lia) ltac:(lia)
               (msub_meqm _ _) (madd_meqm _ _)).
    rewrite seven_products_11 by lia. by rewrite !Z.add_0_r.
  - rewrite (HP _ _ _ _ i (j - half) ltac:(lia) ltac:(lia)
               (meqm_refl _) (msub_meqm _ _)).
    rewrite (HP _ _ _ _ i (j - half) ltac:(lia) ltac:(lia)
               (madd_meqm _ _) (meqm_refl _)).
    rewrite seven_products_12 by lia. rewrite Z.add_0_r.
    by replace (j - half + half) with j by lia.
  - rewrite (HP _ _ _ _ (i - half) j ltac:(lia) ltac:(lia)
               (madd_meqm _ _) (meqm_refl _)).
    rewrite (HP _ _ _ _ (i - half) j ltac:(lia) ltac:(lia)
               (meqm_refl _) (msub_meqm _ _)).
    rewrite seven_products_21 by lia. rewrite Z.add_0_r.
    by replace (i - half + half) with i by lia.
  - rewrite (HP _ _ _ _ (i - half) (j - half) ltac:(lia) ltac:(lia)
               (madd_meqm _ _) (madd_meqm _ _)).
    rewrite (HP _ _ _ _ (i - half) (j - half) ltac:(lia) ltac:(lia)
               (meqm_refl _) (msub_meqm _ _)).
    rewrite (HP _ _ _ _ (i - half) (j - half) ltac:(lia) ltac:(lia)
               (madd_meqm _ _) (meqm_refl _)).
    rewrite (HP _ _ _ _ (i - half) (j - half) ltac:(lia) ltac:(lia)
               (msub_meqm _ _) (madd_meqm _ _)).
    rewrite seven_products_22 by lia.
    replace (j - half + half) with j by lia.
    by replace (i - half + half) with i by lia.
Qed.

Lemma assemble_ext half c11 c12 c21 c22 d11 d12 d21 d22 i j :
  (forall i j, c11 i j = d11 i j) -> (forall i j, c12 i j = d12 i j) ->
  (forall i j, c21 i j = d21 i j) -> (forall i j, c22 i j = d22 i j) ->
  assemble half c11 c12 c21 c22 i j = assemble half d11 d12 d21 d22 i j.
Proof. intros H11 H12 H21 H22. unfold assemble. repeat case_decide; auto. Qed.

(** The nested roundings of the code amount to one rounding. *)
Lemma strassen_level_described F half A B i j :
  strassen_level F half A B i j = described_level F half A B i j.
Proof.
  unfold strassen_level, described_level. apply assemble_ext; intros i' j';
    try done; apply wrap64_congr; by rewrite !wrap64_eqm.
Qed.

(** The function computed by [divide_conquer_rec]. *)
Fixpoint strassen_depth (d : nat) (n : Z) : mat -> mat -> mat :=
  match d with
  | O => mmul n
  | S d' => if decide (n <= 2) then mmul n
            else strassen_level (strassen_depth d' (n ÷ 2)) (n ÷ 2)
  end.

Lemma assemble_int64 half c11 c12 c21 c22 i j :
  (forall i j, int64 (c11 i j)) -> (forall i j, int64 (c12 i j)) ->
  (forall i j, int64 (c21 i j)) -> (forall i j, int64 (c22 i j)) ->
  int64 (assemble half c11 c12 c21 c22 i j).
Proof. intros H11 H12 H21 H22. unfold assemble. repeat case_decide; auto. Qed.

Lemma described_level_int64 F half A B i j : int64 (described_level F half A B i j).
Proof.
  unfold described_level. apply assemble_int64; intros; apply wrap64_range.
Qed.

Lemma computes_mmul F n A B i j :
  computes F n -> int64 (F A B i j) -> 0 <= i < n -> 0 <= j < n ->
  F A B i j = mmul n A B i j.
Proof.
  intros HF Hint Hi Hj. unfold mmul. rewrite <- (HF A B i j Hi Hj).
  by rewrite wrap64_id.
Qed.

Lemma strassen_depth_computes d : forall n, reducible n -> computes (strassen_depth d n) n.
Proof.
  induction d as [|d IH]; intros n Hred; simpl; [apply mmul_computes|].
  destruct (decide (n <= 2)); [apply mmul_computes|].
  destruct Hred as [n Hn|n Hn Hrem Hred]; [lia|].
  destruct (reducible_even n Hn Hrem) as [Heq Hhalf].
  intros A B i j Hi Hj. rewrite strassen_level_described.
  rewrite Heq at 3. apply described_level_computes; [done|by apply IH|lia..].
Qed.

Lemma strassen_depth_int64 d n A B i j : int64 (strassen_depth d n A B i j).
Proof.
  destruct d as [|d]; simpl; [apply wrap64_range|].
  destruct (decide (n <= 2)); [apply wrap64_range|].
  rewrite strassen_level_described. apply described_level_int64.
Qed.

Lemma strassen_depth_mmul d n A B i j :
  reducible n -> 0 <= i < n -> 0 <= j < n ->
  strassen_depth d n A B i j = mmul n A B i j.
Proof.
  intros Hred Hi Hj. apply computes_mmul; [|apply strassen_depth_int64|done..].
  by apply strassen_depth_computes.
Qed.




(** ** The recursion *)

Lemma rep_ext h X n f g :
  (forall i j, 0 <= i < n -> 0 <= j < n -> f i j = g i j) ->
  rep h X n f -> rep h X n g.
Proof. intros Hfg Hrep i j Hi Hj. rewrite <- Hfg by done. by apply Hrep. Qed.

Lemma binop_ok_ext op F G n :
  (forall A B i j, 0 <= i < n -> 0 <= j < n -> F A B i j = G A B i j) ->
  binop_ok op F n -> binop_ok op G n.
Proof.
  intros HFG Hop h A B C fa fb HA HB HC HsA HsB.
  destruct (Hop h A B C fa fb HA HB HC HsA HsB) as (h' & Hrun & Hp & Hrep).
  exists h'. split; [done|]. split; [done|]. eapply rep_ext; [|done].
  intros i j. apply HFG.
Qed.

Lemma divide_conquer_rec_ok d : forall n,
  reducible n -> binop_ok (divide_conquer_rec d) (strassen_depth d n) n.
Proof.
  induction d as [|d IH]; intros n Hred; simpl.
  - apply matrixMultiplyBruteForce_ok.
  - destruct (decide (n <= 2)) as [Hn|Hn].
    + intros h A B C. unfold divide_conquer_step. rewrite decide_True by done.
      apply matrixMultiplyBruteForce_ok.
    + destruct Hred as [n Hn'|n Hn' Hrem Hred]; [lia|].
      destruct (reducible_even n Hn' Hrem) as [Heq Hhalf].
      apply divide_conquer_step_ok; [done|done|by apply IH].
Qed.

Lemma matrixMultiplyDivideConquer_ok n :
  reducible n -> binop_ok matrixMultiplyDivideConquer (mmul n) n.
Proof.
  intros Hred. eapply binop_ok_ext; [|by apply (divide_conquer_rec_ok (Z.to_nat n))].
  intros A B i j Hi Hj. by apply strassen_depth_mmul.
Qed.

(** *** The depth of the recursion is enough *)

Lemma divide_conquer_step_meq s1 s2 A B C n :
  (forall A B C, meq (s1 A B C (n ÷ 2)) (s2 A B C (n ÷ 2))) ->
  meq (divide_conquer_step s1 A B C n) (divide_conquer_step s2 A B C n).
Proof.
  intros Hs. unfold divide_conquer_step.
  destruct (decide (n <= 2)); [apply meq_refl|]. cbv zeta.
  repeat (apply bind_meq; [first [apply Hs | apply meq_refl]|intros ?]).
  apply meq_refl.
Qed.

Lemma divide_conquer_rec_depth d1 : forall d2 n A B C,
  n <= Z.of_nat d1 + 2 -> n <= Z.of_nat d2 + 2 ->
  meq (divide_conquer_rec d1 A B C n) (divide_conquer_rec d2 A B C n).
Proof.
  assert (Hbase : forall d n A B C, n <= 2 ->
            meq (divide_conquer_rec d A B C n) (matrixMultiplyBruteForce A B C n)).
  { intros [|d] n A B C Hn; simpl; [apply meq_refl|].
    unfold divide_conquer_step. rewrite decide_True by done. apply meq_refl. }
  induction d1 as [|d1 IH]; intros d2 n A B C H1 H2.
  - intros h. rewrite !Hbase by lia. done.
  - destruct d2 as [|d2]; [intros h; rewrite !Hbase by lia; done|].
    simpl. apply divide_conquer_step_meq. intros A' B' C'.
    destruct (decide (n <= 2)).
    + pose proof (Z.quot_le_mono n 2 2 ltac:(lia) ltac:(done)) as Hq.
      change (2 ÷ 2) with 1 in Hq.
      intros h. rewrite !Hbase by lia. done.
    + pose proof (Z.quot_rem' n 2). pose proof (Z.rem_bound_pos n 2).
      apply IH; lia.
Qed.

(** [matrixMultiplyDivideConquer] satisfies the recursive equation of the
    source: its recursive calls never run out of depth. *)
Lemma matrixMultiplyDivideConquer_unfold A B C n :
  meq (matrixMultiplyDivideConquer A B C n)
      (divide_conquer_step matrixMultiplyDivideConquer A B C n).
Proof.
  unfold matrixMultiplyDivideConquer at 1.
  destruct (Z.to_nat n) as [|d] eqn:Hd.
  - intros h. simpl. unfold divide_conquer_step. by rewrite decide_True by lia.
  - simpl. apply divide_conquer_step_meq. intros A' B' C'.
    unfold matrixMultiplyDivideConquer.
    pose proof (Z.quot_rem' n 2). pose proof (Z.rem_bound_pos n 2).
    apply divide_conquer_rec_depth; lia.
Qed.

(** ** What a call may change *)

(** The state inside a call, as far as the heap [h] at the call goes:
    its contents are kept outside [W], and the matrices [Xs] and their
    rows did not exist in [h]. *)
Definition jinv (h : heap) (W : loc -> Z -> Prop) (Xs : list loc) (hk : heap)
  : Prop :=
  pres nobody W h hk /\
  forall X, X ∈ Xs ->
    ptrs h !! X = None /\ is_Some (ptrs hk !! X) /\
    forall i r, row_of hk X i = Some r -> rowlen h r = None.

Lemma jinv_start h W : jinv h W [] h.
Proof. split; [apply pres_refl|]. intros X HX. by apply elem_of_nil in HX. Qed.

Lemma pres_step_new W h hk hk' :
  pres nobody W h hk ->
  (forall X, is_Some (ptrs h !! X) -> ptrs hk' !! X = ptrs hk !! X) ->
  (forall r, is_Some (rowlen h r) -> ints hk' !! r = ints hk !! r) ->
  pres nobody W h hk'.
Proof.
  intros (Hp & Hl & Hr) Hptrs Hints. split; [|split].
  - intros X b Hb HX. rewrite Hptrs by eauto. by apply Hp.
  - intros r len Hlen. rewrite (rowlen_ints_eq hk hk') by (apply Hints; eauto).
    by apply Hl.
  - intros r j Hlen HW. rewrite (rd_ints_eq hk hk') by (by apply Hints).
    by apply Hr.
Qed.

Lemma pres_ptrs_None W h hk X : pres nobody W h hk -> ptrs hk !! X = None -> ptrs h !! X = None.
Proof.
  intros (Hp & _) HX. destruct (ptrs h !! X) as [b|] eqn:Hb; [|done].
  rewrite (Hp X b Hb) in HX; [done|by intros []].
Qed.

Lemma pres_rowlen_None W h hk r : pres nobody W h hk -> rowlen hk r = None -> rowlen h r = None.
Proof.
  intros (_ & Hl & _) Hr. destruct (rowlen h r) as [len|] eqn:Hlen; [|done].
  by rewrite (Hl r len Hlen) in Hr.
Qed.

Lemma jinv_new_rows h W Xs hk m X hk' :
  jinv h W Xs hk -> new_rows m hk = Some (X, hk') -> jinv h W (X :: Xs) hk'.
Proof.
  intros [Hp HXs] Hnew.
  pose proof Hnew as (_ & HX & Hptrs & Hints)%new_rows_inv.
  pose proof (pres_ptrs_None _ _ _ _ Hp HX) as HhX. split.
  - apply (pres_step_new W h hk hk' Hp).
    + intros Y [b Hb]. rewrite Hptrs, lookup_insert_ne; [done|]. congruence.
    + intros r _. by rewrite Hints.
  - intros Y [->|HY]%elem_of_cons.
    + split; [done|]. split; [rewrite Hptrs, lookup_insert_eq; eauto|].
      intros i r. rewrite (new_rows_row_of _ _ _ _ _ _ Hnew).
      by rewrite decide_True.
    + destruct (HXs Y HY) as (HhY & [b Hb] & Hrows).
      assert (Y <> X) by congruence.
      split; [done|]. split; [rewrite Hptrs, lookup_insert_ne; eauto|].
      intros i r. rewrite (new_rows_row_of _ _ _ _ _ _ Hnew).
      rewrite decide_False by done. apply Hrows.
Qed.

Lemma jinv_new_row h W Xs hk X i m u hk' :
  jinv h W Xs hk -> X ∈ Xs -> new_row X i m hk = Some (u, hk') ->
  jinv h W Xs hk'.
Proof.
  intros [Hp HXs] HX Hnew.
  destruct (new_row_obs _ _ _ _ _ _ Hnew) as (r & Hr & Hrow_of & Hlen & Hb).
  pose proof Hnew as (r' & b & _ & Hr' & HbX & _ & Hints & Hptrs)%new_row_inv.
  pose proof (pres_rowlen_None _ _ _ _ Hp Hr) as Hhr. split.
  - apply (pres_step_new W h hk hk' Hp).
    + intros Y [bY HbY]. rewrite Hptrs, lookup_insert_ne; [done|].
      intros <-. destruct (HXs X HX) as (? & _). congruence.
    + intros r0 [len0 Hlen0]. rewrite Hints, lookup_insert_ne; [done|].
      intros <-. apply rowlen_None in Hr'.
      rewrite (pres_rowlen_None _ _ _ _ Hp Hr') in Hlen0. done.
  - intros Y HY. destruct (HXs Y HY) as (HhY & [bY HbY] & Hrows).
    split; [done|]. split.
    + destruct (Hb Y bY HbY) as (b' & -> & _). eauto.
    + intros i' r0. rewrite Hrow_of. case_decide; [by intros [= <-]|apply Hrows].
Qed.

Lemma jinv_new_row_each h W Xs Ys i m : forall hk u hk',
  jinv h W Xs hk -> (forall Y, Y ∈ Ys -> Y ∈ Xs) ->
  new_row_each Ys i m hk = Some (u, hk') -> jinv h W Xs hk'.
Proof.
  induction Ys as [|Y Ys IH]; intros hk u hk' HJ HYs Hrun.
  - apply ret_inv in Hrun as [_ ->]. done.
  - simpl in Hrun. apply bind_inv in Hrun as (v & h1 & Hnew & Hrun).
    eapply IH; [|intros Z HZ; apply HYs; by right|exact Hrun].
    eapply jinv_new_row; [done|apply HYs; by left|exact Hnew].
Qed.

Lemma jinv_fill h W Xs Ys m hk u hk' :
  jinv h W Xs hk -> (forall Y, Y ∈ Ys -> Y ∈ Xs) ->
  for_ 0 m (fun i => new_row_each Ys i m) hk = Some (u, hk') -> jinv h W Xs hk'.
Proof.
  intros HJ HYs Hrun. destruct (decide (m <= 0)).
  { rewrite for_empty in Hrun by done. by injection Hrun as _ <-. }
  eapply (for_inv (fun _ hx => jinv h W Xs hx) 0 m); [lia|exact Hrun|done|].
  intros i hx v hx' _ HJx Hb. simpl in *. by eapply jinv_new_row_each.
Qed.

(** A write into a temporary. *)
Lemma jinv_write_new h W Xs hk D i j v u hk' :
  jinv h W Xs hk -> D ∈ Xs -> mwrite D i j v hk = Some (u, hk') ->
  jinv h W Xs hk'.
Proof.
  intros [Hp HXs] HD (r & len & Hr & Hlen & Hj & Hp' & Hl' & Hrd')%mwrite_inv.
  destruct (HXs D HD) as (_ & _ & Hrows). pose proof (Hrows i r Hr) as Hhr.
  split.
  - destruct Hp as (Hp1 & Hp2 & Hp3). split; [|split].
    + intros X b Hb HX. rewrite Hp'. by apply Hp1.
    + intros r0 len0 Hl0. rewrite Hl'. by apply Hp2.
    + intros r0 j0 Hl0 HW. rewrite Hrd'. rewrite decide_False; [by apply Hp3|].
      intros [-> _]. destruct Hl0. congruence.
  - intros X HX. destruct (HXs X HX) as (? & ? & HrX). rewrite Hp'.
    split; [done|]. split; [done|]. intros i0 r0.
    rewrite (row_of_ptrs_eq hk hk') by (by rewrite Hp'). apply HrX.
Qed.

(** A write into the destination. *)
Lemma jinv_write_dest h C m Xs hk i j v u hk' :
  jinv h (win h C m) Xs hk -> is_Some (ptrs h !! C) ->
  0 <= i < m -> 0 <= j < m ->
  mwrite C i j v hk = Some (u, hk') -> jinv h (win h C m) Xs hk'.
Proof.
  intros [Hp HXs] HC Hi Hj (r & len & Hr & Hlen & Hjl & Hp' & Hl' & Hrd')%mwrite_inv.
  split.
  - pose proof Hp as (Hp1 & Hp2 & Hp3). split; [|split].
    + intros X b Hb HX. rewrite Hp'. by apply Hp1.
    + intros r0 len0 Hl0. rewrite Hl'. by apply Hp2.
    + intros r0 j0 Hl0 HW. rewrite Hrd'. rewrite decide_False; [by apply Hp3|].
      intros [-> ->]. apply HW. split; [done|]. exists i. split; [done|].
      by rewrite <- (pres_row_of_eq _ _ _ _ _ _ Hp); [|intros []|].
  - intros X HX. destruct (HXs X HX) as (? & ? & HrX). rewrite Hp'.
    split; [done|]. split; [done|]. intros i0 r0.
    rewrite (row_of_ptrs_eq hk hk') by (by rewrite Hp'). apply HrX.
Qed.

(** An operation whose destination is a temporary. *)
Lemma jinv_op h W Xs hk op m m' S1 S2 D u hk' :
  frames op m m' -> jinv h W Xs hk -> D ∈ Xs ->
  op S1 S2 D m hk = Some (u, hk') -> jinv h W Xs hk'.
Proof.
  intros Hop [Hp HXs] HD Hrun. destruct (HXs D HD) as (_ & HDk & HDrows).
  pose proof (Hop hk S1 S2 D u hk' HDk Hrun) as Hp'. split.
  - destruct Hp as (Hp1 & Hp2 & Hp3). destruct Hp' as (Hq1 & Hq2 & Hq3).
    split; [|split].
    + intros X b Hb HX. apply Hq1; [|done]. by apply Hp1.
    + eauto.
    + intros r j [len Hlen] HW. rewrite Hq3, Hp3; eauto.
      intros (_ & i & _ & Hr). rewrite (HDrows i r Hr) in Hlen. done.
  - intros X HX. destruct (HXs X HX) as (? & HXk & HrX).
    split; [done|]. split.
    + destruct HXk as [b Hb]. destruct Hp' as (Hq1 & _).
      rewrite (Hq1 X b Hb); [eauto|by intros []].
    + intros i r. rewrite (pres_row_of_eq _ _ _ _ _ _ Hp'); [apply HrX|by intros []|done].
Qed.

Lemma jinv_read h W Xs hk X i j v hk' :
  jinv h W Xs hk -> mread X i j hk = Some (v, hk') -> jinv h W Xs hk'.
Proof. by intros HJ [_ ->]%mread_inv. Qed.

(** The release leaves nothing of [h] changed. *)
Definition kinv (h : heap) (W : loc -> Z -> Prop) (Xs : list loc) (hk : heap)
  : Prop :=
  pres nobody W h hk /\
  forall X, X ∈ Xs ->
    ptrs h !! X = None /\ forall i r, row_of hk X i = Some r -> rowlen h r = None.

Lemma jinv_kinv h W Xs hk : jinv h W Xs hk -> kinv h W Xs hk.
Proof. intros [Hp HXs]. split; [done|]. intros X HX. by destruct (HXs X HX) as (? & _ & ?). Qed.

Lemma kinv_sub h W Xs Ys hk :
  (forall Y, Y ∈ Ys -> Y ∈ Xs) -> kinv h W Xs hk -> kinv h W Ys hk.
Proof. intros HYs [Hp HXs]. split; [done|]. intros Y HY. by apply HXs, HYs. Qed.

Lemma kinv_delete_row_each h W Xs Ys i : forall hk u hk',
  kinv h W Xs hk -> (forall Y, Y ∈ Ys -> Y ∈ Xs) ->
  delete_row_each Ys i hk = Some (u, hk') -> kinv h W Xs hk'.
Proof.
  induction Ys as [|Y Ys IH]; intros hk u hk' HK HYs Hrun.
  - apply ret_inv in Hrun as [_ ->]. done.
  - simpl in Hrun. apply bind_inv in Hrun as (v & h1 & Hdel & Hrun).
    eapply IH; [|intros Z HZ; apply HYs; by right|exact Hrun].
    apply bind_inv in Hdel as (r & h0 & Hget & Hdel).
    rewrite get_row_eq in Hget.
    destruct (row_of hk Y i) as [r'|] eqn:Hr; [|done]. injection Hget as <- <-.
    apply delete_cells_inv in Hdel as (_ & Hints & Hptrs).
    destruct HK as [Hp HXs]. destruct (HXs Y) as (_ & HrY); [apply HYs; by left|].
    pose proof (HrY i r' Hr) as Hnew. split.
    + apply (pres_step_new W h hk h1 Hp).
      * intros X _. by rewrite Hptrs.
      * intros r0 [len Hlen]. rewrite Hints, lookup_delete_ne; [done|].
        intros <-. congruence.
    + intros X HX. destruct (HXs X HX) as (? & HrX). split; [done|].
      intros i0 r0. rewrite (row_of_ptrs_eq hk h1) by (by rewrite Hptrs).
      apply HrX.
Qed.

Lemma kinv_delete_rows_each h W Ys : forall hk u hk',
  pres nobody W h hk -> (forall Y, Y ∈ Ys -> ptrs h !! Y = None) ->
  delete_rows_each Ys hk = Some (u, hk') -> pres nobody W h hk'.
Proof.
  induction Ys as [|Y Ys IH]; intros hk u hk' Hp HYs Hrun.
  - apply ret_inv in Hrun as [_ ->]. done.
  - simpl in Hrun. apply bind_inv in Hrun as (v & h1 & Hdel & Hrun).
    eapply IH; [|intros Z HZ; apply HYs; by right|exact Hrun].
    apply delete_rows_inv in Hdel as (_ & Hptrs & Hints).
    apply (pres_step_new W h hk h1 Hp).
    + intros X [b Hb]. rewrite Hptrs, lookup_delete_ne; [done|].
      intros <-. rewrite HYs in Hb; [done|by left].
    + intros r _. by rewrite Hints.
Qed.

Lemma kinv_release h W Xs m hk u h' :
  kinv h W Xs hk ->
  (for_ 0 m (fun i => delete_row_each Xs i);; delete_rows_each Xs) hk = Some (u, h') ->
  pres nobody W h h'.
Proof.
  intros HK (v & h1 & Hloop & Hdel)%bind_inv.
  assert (HK1 : kinv h W Xs h1).
  { destruct (decide (m <= 0)).
    { rewrite for_empty in Hloop by done. by injection Hloop as _ <-. }
    eapply (for_inv (fun _ hx => kinv h W Xs hx) 0 m); [lia|exact Hloop|done|].
    intros i hx w hx' _ HKx Hb. simpl in *. by eapply kinv_delete_row_each. }
  destruct HK1 as [Hp1 HXs]. eapply kinv_delete_rows_each; [done| |exact Hdel].
  intros Y HY. by destruct (HXs Y HY).
Qed.

Ltac in_list := solve [repeat constructor].
Ltac sub_list :=
  let Y := fresh "Y" in
  let HY := fresh "HY" in
  intros Y HY;
  repeat (apply elem_of_cons in HY as [->|HY]; [in_list|]);
  by apply elem_of_nil in HY.

Ltac inv_new_rows HJ Hrun X :=
  let hk := fresh "hk" in
  let Hn := fresh "Hn" in
  apply bind_inv in Hrun as (X & hk & Hn & Hrun);
  apply (fun H => jinv_new_rows _ _ _ _ _ _ _ H Hn) in HJ; clear Hn.

Ltac inv_reads Hs :=
  repeat (let v := fresh "v" in let hx := fresh "hx" in
          apply bind_inv in Hs as (v & hx & [_ ->]%mread_inv & Hs)).

(** [X[i][j] = ...] where the right-hand side only reads and [X] is a
    temporary. *)
Ltac inv_stmt_new HJ Hs :=
  inv_reads Hs;
  apply (fun H HD => jinv_write_new _ _ _ _ _ _ _ _ _ _ H HD Hs) in HJ;
  [clear Hs|in_list].

Ltac inv_op HJ Hrun Hop :=
  let hk := fresh "hk" in
  let Hs := fresh "Hs" in
  let u := fresh "u" in
  apply bind_inv in Hrun as (u & hk & Hs & Hrun);
  apply (fun H HD => jinv_op _ _ _ _ _ _ _ _ _ _ _ _ Hop H HD Hs) in HJ;
  [clear Hs|in_list].

Lemma divide_conquer_step_frames self n :
  frames self (n ÷ 2) (n ÷ 2) ->
  frames (divide_conquer_step self) n (if decide (n <= 2) then n else 2 * (n ÷ 2)).
Proof.
  intros Hself h A B C u h' HC Hrun. unfold divide_conquer_step in Hrun.
  destruct (decide (n <= 2)) as [Hn|Hn];
    [by eapply matrixMultiplyBruteForce_frames|].
  cbv zeta in Hrun. set (half := n ÷ 2) in *.
  assert (Hhalf : 0 < half) by (apply Z.quot_str_pos; lia).
  pose proof (jinv_start h (win h C (2 * half))) as HJ.
  inv_new_rows HJ Hrun A11. inv_new_rows HJ Hrun A12.
  inv_new_rows HJ Hrun A21. inv_new_rows HJ Hrun A22.
  inv_new_rows HJ Hrun B11. inv_new_rows HJ Hrun B12.
  inv_new_rows HJ Hrun B21. inv_new_rows HJ Hrun B22.
  apply bind_inv in Hrun as (u1 & hf & Hfill & Hrun).
  apply (fun H HY => jinv_fill _ _ _ _ _ _ _ _ H HY Hfill) in HJ; [|sub_list].
  clear Hfill.
  apply bind_inv in Hrun as (u2 & hs & Hsplit & Hrun).
  assert (HJs : jinv h (win h C (2 * half))
                  [B22; B21; B12; B11; A22; A21; A12; A11] hs).
  { eapply (for_inv (fun _ hx => jinv h (win h C (2 * half))
              [B22; B21; B12; B11; A22; A21; A12; A11] hx) 0 half);
      [lia|exact Hsplit|done|].
    intros i hx w hx' Hi HJx Hfi. cbv beta in Hfi.
    eapply (for_inv (fun _ hx => jinv h (win h C (2 * half))
              [B22; B21; B12; B11; A22; A21; A12; A11] hx) 0 half);
      [lia|exact Hfi|done|].
    clear Hfi. intros j hy w' hy' Hj HJy Hb. cbv beta in Hb.
    do 7 (let Hs := fresh "Hs" in
          apply bind_inv in Hb as (? & ? & Hs & Hb); inv_stmt_new HJy Hs).
    inv_stmt_new HJy Hb. exact HJy. }
  clear HJ Hsplit. rename HJs into HJ.
  inv_new_rows HJ Hrun temp1. inv_new_rows HJ Hrun temp2.
  inv_new_rows HJ Hrun P1. inv_new_rows HJ Hrun P2.
  inv_new_rows HJ Hrun P3. inv_new_rows HJ Hrun P4.
  inv_new_rows HJ Hrun P5. inv_new_rows HJ Hrun P6.
  inv_new_rows HJ Hrun P7.
  apply bind_inv in Hrun as (u3 & hf2 & Hfill & Hrun).
  apply (fun H HY => jinv_fill _ _ _ _ _ _ _ _ H HY Hfill) in HJ; [|sub_list].
  clear Hfill.
  pose proof (subtractMatrix_frames half) as Hsub.
  pose proof (addMatrix_frames half) as Hadd.
  inv_op HJ Hrun Hsub. inv_op HJ Hrun Hself.
  inv_op HJ Hrun Hadd. inv_op HJ Hrun Hself.
  inv_op HJ Hrun Hadd. inv_op HJ Hrun Hself.
  inv_op HJ Hrun Hsub. inv_op HJ Hrun Hself.
  inv_op HJ Hrun Hadd. inv_op HJ Hrun Hadd. inv_op HJ Hrun Hself.
  inv_op HJ Hrun Hsub. inv_op HJ Hrun Hadd. inv_op HJ Hrun Hself.
  inv_op HJ Hrun Hsub. inv_op HJ Hrun Hadd. inv_op HJ Hrun Hself.
  apply bind_inv in Hrun as (uc & hc & Hcomb & Hrun).
  set (Xs := [P7; P6; P5; P4; P3; P2; P1; temp2; temp1;
              B22; B21; B12; B11; A22; A21; A12; A11]) in *.
  eapply kinv_release; [|exact Hrun].
  apply (kinv_sub h _ Xs); [subst Xs; sub_list|]. apply jinv_kinv.
  eapply (for_inv (fun _ hx => jinv h (win h C (2 * half)) Xs hx) 0 half);
    [lia|exact Hcomb|done|].
  intros i hx w hx' Hi HJx Hfi. cbv beta in Hfi.
  eapply (for_inv (fun _ hx => jinv h (win h C (2 * half)) Xs hx) 0 half);
    [lia|exact Hfi|done|].
  clear Hfi. intros j hy w' hy' Hj HJy Hb. cbv beta in Hb.
  do 3 (let Hs := fresh "Hs" in
        apply bind_inv in Hb as (? & ? & Hs & Hb); inv_reads Hs;
        eapply jinv_write_dest in Hs; [|exact HJy|exact HC|lia|lia];
        clear HJy; rename Hs into HJy).
  inv_reads Hb.
  eapply jinv_write_dest in Hb; [exact Hb|exact HJy|exact HC|lia|lia].
Qed.

(** The part of the destination that a call of size [n] writes. *)
Definition span (n : Z) : Z := if decide (n <= 2) then n else 2 * (n ÷ 2).

Lemma span_le n : span n <= n.
Proof.
  unfold span. destruct (decide (n <= 2)); [done|].
  pose proof (Z.quot_rem' n 2). pose proof (Z.rem_bound_pos n 2). lia.
Qed.

Lemma frames_weaken op n m m' : m <= m' -> frames op n m -> frames op n m'.
Proof.
  intros Hm Hop h A B C u h' HC Hrun.
  eapply pres_mono; [done| |by eapply Hop].
  intros r j ([Hj1 Hj2] & i & [Hi1 Hi2] & Hr). split; [lia|].
  exists i. split; [lia|done].
Qed.

Lemma divide_conquer_rec_frames d : forall n, frames (divide_conquer_rec d) n n.
Proof.
  induction d as [|d IH]; intros n; simpl.
  - apply matrixMultiplyBruteForce_frames.
  - eapply frames_weaken; [apply (span_le n)|].
    apply divide_conquer_step_frames, IH.
Qed.

Lemma matrixMultiplyDivideConquer_frames n :
  frames matrixMultiplyDivideConquer n (span n).
Proof.
  intros h A B C u h' HC Hrun. rewrite matrixMultiplyDivideConquer_unfold in Hrun.
  eapply divide_conquer_step_frames; [|done|exact Hrun].
  apply divide_conquer_rec_frames.
Qed.

(** ** The divide-and-conquer multiplication when new arrays hold values *)

(** [op] is safe on [n x n] matrices: from operands that can be read and a
    destination separate from them, it returns and changes nothing but the
    destination; a destination that could be read can still be read. *)
Definition safe_ok (op : loc -> loc -> loc -> Z -> M unit) (n : Z) : Prop :=
  forall h A B C fa fb,
    rep h A n fa -> rep h B n fb -> dest h C n -> sep h C A n -> sep h C B n ->
    exists h', op A B C n h = Some (tt, h') /\
               pres nobody (win h C n) h h' /\
               (forall fc, rep h C n fc -> exists fc', rep h' C n fc').

Lemma binop_ok_safe op F n : binop_ok op F n -> safe_ok op n.
Proof.
  intros Hop h A B C fa fb HA HB HC HsA HsB.
  destruct (Hop h A B C fa fb HA HB HC HsA HsB) as (h' & Hrun & Hp & Hrep).
  exists h'. split; [done|]. split; [done|]. intros fc _. eauto.
Qed.

Section junk.
Variable junk : heap -> Z -> Z.

(** [X[i] = new long long[m]] *)
Definition new_row_junk (X : loc) (i m : Z) : M unit :=
  do r <- new_cells_junk junk m; set_row X i r.

Lemma new_cells_junk_inv n h r h' :
  new_cells_junk junk n h = Some (r, h') ->
  0 <= n /\ ints h !! r = None /\
  ints h' = <[r := (fun j => Some (junk h j)) <$> seqZ 0 n]> (ints h) /\
  ptrs h' = ptrs h.
Proof.
  unfold new_cells_junk.
  destruct (blk_alloc (ints h) n) as [[l s]|] eqn:Ha; [|done].
  intros [= -> <-]. apply blk_alloc_inv in Ha as (? & ? & _). done.
Qed.

Lemma new_cells_junk_Some n h :
  0 <= n -> exists r h', new_cells_junk junk n h = Some (r, h').
Proof.
  intros Hn. destruct (blk_alloc_Some (ints h) n Hn) as (l & _ & Ha).
  unfold new_cells_junk. rewrite Ha. eauto.
Qed.

Lemma new_row_junk_inv X i m h u h' :
  new_row_junk X i m h = Some (u, h') ->
  exists r b, 0 <= m /\ ints h !! r = None /\ ptrs h !! X = Some b /\
    0 <= i < Z.of_nat (length b) /\
    ints h' = <[r := (fun j => Some (junk h j)) <$> seqZ 0 m]> (ints h) /\
    ptrs h' = <[X := zupd b i (Some r)]> (ptrs h).
Proof.
  unfold new_row_junk. intros (r & h1 & Hn & Hs)%bind_inv.
  apply new_cells_junk_inv in Hn as (Hm & Hr & Hi1 & Hp1).
  apply set_row_inv in Hs as (b & Hb & Hi & Hp2 & Hi2).
  exists r, b. rewrite Hi2, Hi1, Hp2, <- Hp1. done.
Qed.

Lemma new_row_junk_Some X i m h b :
  0 <= m -> ptrs h !! X = Some b -> 0 <= i < Z.of_nat (length b) ->
  exists h', new_row_junk X i m h = Some (tt, h').
Proof.
  intros Hm Hb Hi. destruct (new_cells_junk_Some m h Hm) as (r & h1 & Hn).
  pose proof Hn as (_ & _ & _ & Hp1)%new_cells_junk_inv.
  destruct (set_row_Some X i r h1 b) as (h' & Hs); [by rewrite Hp1|done|].
  exists h'. unfold new_row_junk. by rewrite (bind_Some _ _ _ _ _ Hn).
Qed.

Lemma new_row_junk_pres X i m h u h' :
  new_row_junk X i m h = Some (u, h') -> pres (fun Y => Y = X) nothing h h'.
Proof.
  intros (r & b & _ & Hr & Hb & _ & Hi & Hp)%new_row_junk_inv.
  apply pres_of_lookups.
  - intros Y HY _. rewrite Hp, lookup_insert_ne; [done|]. congruence.
  - intros r' [b' Hb']. rewrite Hi, lookup_insert_ne; [done|]. congruence.
Qed.

Lemma new_row_junk_obs X i m h u h' :
  new_row_junk X i m h = Some (u, h') ->
  exists r, rowlen h r = None /\
    (forall Y i', row_of h' Y i' =
                  if decide (Y = X /\ i' = i) then Some r else row_of h Y i') /\
    (forall r', rowlen h' r' = if decide (r' = r) then Some m else rowlen h r') /\
    (forall Y b, ptrs h !! Y = Some b ->
                 exists b', ptrs h' !! Y = Some b' /\ length b' = length b).
Proof.
  intros (r & b & Hm & Hr & Hb & Hi & Hints & Hptrs)%new_row_junk_inv.
  exists r. split; [by apply rowlen_None|]. split; [|split].
  - intros Y i'. unfold row_of. rewrite Hptrs. by apply blk_read_write.
  - intros r'. unfold rowlen. rewrite Hints. destruct (decide (r' = r)) as [->|].
    + rewrite lookup_insert_eq. simpl. rewrite length_fmap, length_seqZ.
      f_equal. lia.
    + by rewrite lookup_insert_ne.
  - intros Y b' Hb'. rewrite Hptrs. destruct (decide (Y = X)) as [->|].
    + rewrite lookup_insert_eq. eexists. split; [done|].
      rewrite length_zupd. congruence.
    + rewrite lookup_insert_ne by done. eauto.
Qed.

(** Every cell of the new row can be read, and the cells that could be
    read are the same. *)
Lemma new_row_junk_filled X i m h u h' j :
  new_row_junk X i m h = Some (u, h') -> 0 <= j < m -> is_Some (cell h' X i j).
Proof.
  intros (r & b & Hm & Hr & Hb & Hi & Hints & Hptrs)%new_row_junk_inv Hj.
  exists (junk h (0 + Z.of_nat (Z.to_nat j))). apply cell_Some. exists r. split.
  - unfold row_of. rewrite Hptrs, (blk_read_write _ _ _ _ _ _ _ Hb Hi).
    by rewrite decide_True.
  - unfold rd, blk_read. rewrite Hints, lookup_insert_eq. cbn.
    unfold zidx. rewrite decide_True by lia.
    rewrite list_lookup_fmap, lookup_seqZ_lt by lia. done.
Qed.

Lemma new_row_junk_keeps X i m h u h' Y i' j :
  new_row_junk X i m h = Some (u, h') -> ~ (Y = X /\ i' = i) ->
  is_Some (cell h Y i' j) -> cell h' Y i' j = cell h Y i' j.
Proof.
  intros Hrun Hne [v Hv]. apply cell_Some in Hv as (r' & Hr' & Hv).
  pose proof Hrun as (r & b & Hm & Hr & Hb & Hi & Hints & Hptrs)%new_row_junk_inv.
  pose proof Hrun as (r0 & _ & Hrow & _)%new_row_junk_obs.
  unfold cell. rewrite Hrow, decide_False by done. rewrite Hr'. simpl.
  apply rd_ints_eq. rewrite Hints, lookup_insert_ne; [done|]. intros <-.
  apply rd_rowlen in Hv as (len & Hlen & _). apply rowlen_None in Hr. congruence.
Qed.

Lemma tshape_new_row_junk h hk Xs half F X i u hk' :
  pres nobody nothing h hk -> tshape h hk Xs half F ->
  X ∈ Xs -> 0 <= i < half ->
  new_row_junk X i half hk = Some (u, hk') ->
  tshape h hk' Xs half (fun Y i' => F Y i' \/ (Y = X /\ i' = i)).
Proof.
  intros Hp [Hnd Harr Hin Hrow Hinj] HX Hi Hnew.
  destruct (new_row_junk_obs _ _ _ _ _ _ Hnew) as (r & Hr & Hrow_of & Hlen & Hb).
  assert (Hhr : rowlen h r = None) by by apply (pres_new_None h hk Hp).
  assert (Hold : forall Y i', F Y i' -> ~ (Y = X /\ i' = i) ->
            exists r', r' <> r /\ row_of hk' Y i' = Some r' /\
                       row_of hk Y i' = Some r' /\
                       rowlen h r' = None /\ rowlen hk' r' = Some half).
  { intros Y i' HF Hne. destruct (Hrow Y i' HF) as (r' & Hr' & Hh' & Hl').
    assert (r' <> r) by congruence.
    exists r'. rewrite Hrow_of, Hlen, !decide_False by done. done. }
  split.
  - done.
  - intros Y HY. destruct (Harr Y HY) as (HhY & b & HbY & Hlb). split; [done|].
    destruct (Hb Y b HbY) as (b' & Hb' & Hlb'). exists b'. split; [done|]. lia.
  - intros Y i' [HF|[-> ->]]; [by apply Hin|done].
  - intros Y i' HF. destruct (decide (Y = X /\ i' = i)) as [[-> ->]|Hne].
    + exists r. rewrite Hrow_of, Hlen, !decide_True by done. done.
    + destruct HF as [HF|?]; [|done].
      destruct (Hold Y i' HF Hne) as (r' & _ & ? & _ & ? & ?). eauto.
  - intros Y Y' i1 i2 r0 HF HF' Hr1 Hr2.
    destruct (decide (Y = X /\ i1 = i)) as [[-> ->]|Hne1];
      destruct (decide (Y' = X /\ i2 = i)) as [[-> ->]|Hne2]; [done|..].
    + destruct HF' as [HF'|?]; [|done].
      destruct (Hold Y' i2 HF' Hne2) as (r' & Hrr & Hr' & _).
      rewrite Hrow_of, decide_True in Hr1 by done. congruence.
    + destruct HF as [HF|?]; [|done].
      destruct (Hold Y i1 HF Hne1) as (r' & Hrr & Hr' & _).
      rewrite Hrow_of, decide_True in Hr2 by done. congruence.
    + destruct HF as [HF|?]; [|done]. destruct HF' as [HF'|?]; [|done].
      destruct (Hold Y i1 HF Hne1) as (r1 & _ & Hr1' & Hk1 & _).
      destruct (Hold Y' i2 HF' Hne2) as (r2 & _ & Hr2' & Hk2 & _).
      apply (Hinj Y Y' i1 i2 r0 HF HF'); congruence.
Qed.

Lemma new_row_junk_astate h hk Xs half F X i :
  astate h hk Xs half F -> X ∈ Xs -> 0 <= i < half ->
  exists hk', new_row_junk X i half hk = Some (tt, hk') /\
              astate h hk' Xs half (fun Y i' => F Y i' \/ (Y = X /\ i' = i)) /\
              pres (fun Y => Y = X) nothing hk hk'.
Proof.
  intros [Hp Hts] HX Hi. destruct (ts_arr _ _ _ _ _ Hts X HX) as (HhX & b & Hb & Hlb).
  destruct (new_row_junk_Some X i half hk b) as (hk' & Hn); [lia|done|lia|].
  exists hk'. split; [done|]. pose proof (new_row_junk_pres _ _ _ _ _ _ Hn) as Hp'.
  split; [|done]. split.
  - eapply pres_nobody_of; [done..|]. by intros Y ->.
  - by eapply tshape_new_row_junk.
Qed.

Lemma new_row_each_junk_spec h Xs half Ys i : forall hk F,
  0 <= i < half -> NoDup Ys -> (forall Y, Y ∈ Ys -> Y ∈ Xs) ->
  astate h hk Xs half F ->
  exists hk', new_row_each_junk junk Ys i half hk = Some (tt, hk') /\
              astate h hk' Xs half (fun Y i' => F Y i' \/ (Y ∈ Ys /\ i' = i)) /\
              pres (fun Y => Y ∈ Ys) nothing hk hk' /\
              (forall Y j, Y ∈ Ys -> 0 <= j < half -> is_Some (cell hk' Y i j)) /\
              (forall Y i' j, ~ (Y ∈ Ys /\ i' = i) -> is_Some (cell hk Y i' j) ->
                 cell hk' Y i' j = cell hk Y i' j).
Proof.
  induction Ys as [|Y Ys IH]; intros hk F Hi Hnd HYs [Hp Hts].
  - exists hk. split; [done|]. split; [|split; [apply pres_refl|split]].
    + split; [done|]. eapply tshape_ext; [|done]. intros X i' [?|[HX _]]; [done|].
      by apply elem_of_nil in HX.
    + intros Y j HY. by apply elem_of_nil in HY.
    + done.
  - apply NoDup_cons in Hnd as [HY Hnd].
    destruct (new_row_junk_astate h hk Xs half F Y i) as (hk1 & Hn & Hst1 & Hp1);
      [done|apply HYs; by left|done|].
    destruct (IH hk1 (fun Y0 i' => F Y0 i' \/ (Y0 = Y /\ i' = i)) Hi Hnd)
      as (hk' & He & [Hp' Hts'] & Hpp & Hnew & Hkeep); [|done|].
    { intros Z HZ. apply HYs. by right. }
    exists hk'. split; [|split; [split|split; [|split]]].
    + simpl. by rewrite (bind_Some _ _ _ _ _ Hn).
    + done.
    + eapply tshape_ext; [|done]. simpl.
      intros X i' [?|[[->|?]%elem_of_cons ->]]; tauto.
    + eapply pres_trans; (eapply pres_mono; [| |done]); simpl;
        [intros ? ->; by left|done|intros ? ?; by right|done].
    + intros Z j [->|HZ]%elem_of_cons Hj; [|by apply Hnew].
      pose proof (new_row_junk_filled _ _ _ _ _ _ j Hn Hj) as Hs.
      rewrite Hkeep; [done| |done]. by intros [? _].
    + intros Z i' j Hne Hs.
      assert (Hs1 : cell hk1 Z i' j = cell hk Z i' j).
      { eapply new_row_junk_keeps; [done| |done].
        intros [-> ->]. apply Hne. split; [by left|done]. }
      rewrite Hkeep, Hs1; [done| |by rewrite Hs1].
      intros [? ->]. apply Hne. split; [by right|done].
Qed.

Lemma fill_rows_junk_spec h hk Xs half F Ys :
  0 <= half -> NoDup Ys -> (forall Y, Y ∈ Ys -> Y ∈ Xs) ->
  astate h hk Xs half F ->
  exists hk', for_ 0 half (fun i => new_row_each_junk junk Ys i half) hk
                = Some (tt, hk') /\
              astate h hk' Xs half
                (fun Y i' => F Y i' \/ (Y ∈ Ys /\ 0 <= i' < half)) /\
              pres (fun Y => Y ∈ Ys) nothing hk hk' /\
              (forall Y i j, Y ∈ Ys -> 0 <= i < half -> 0 <= j < half ->
                 is_Some (cell hk' Y i j)).
Proof.
  intros Hhalf Hnd HYs Hst.
  destruct (for_spec (fun i hx =>
      astate h hx Xs half (fun Y i' => F Y i' \/ (Y ∈ Ys /\ 0 <= i' < i)) /\
      pres (fun Y => Y ∈ Ys) nothing hk hx /\
      (forall Y i' j, Y ∈ Ys -> 0 <= i' < i -> 0 <= j < half ->
         is_Some (cell hx Y i' j)))
      0 half (fun i => new_row_each_junk junk Ys i half) hk)
    as (hk' & Hf & Hst' & Hp' & Hfilled); [done| | |by eauto].
  - split; [|split; [apply pres_refl|intros; lia]].
    destruct Hst as [Hp Hts]. split; [done|].
    eapply tshape_ext; [|done]. intros X i' [?|[_ ?]]; [done|lia].
  - intros i hx Hi (Hstx & Hpx & Hfx).
    destruct (new_row_each_junk_spec h Xs half Ys i hx _ Hi Hnd HYs Hstx)
      as (hx' & He & [Hp' Hts'] & Hpp & Hnew & Hkeep).
    exists hx'. split; [done|]. split; [|split; [by eapply pres_trans|]].
    + split; [done|]. eapply tshape_ext; [|done]. simpl.
      intros X i' [?|[? ?]]; [tauto|].
      destruct (decide (i' = i)); [tauto|]. left. right. split; [done|lia].
    + intros Y i' j HY Hi' Hj. destruct (decide (i' = i)) as [->|Hne].
      * by apply Hnew.
      * rewrite Hkeep; [apply Hfx; [done|lia|done]|by intros [_ ?]|].
        apply Hfx; [done|lia|done].
Qed.

(** What can be read holds some matrix. *)
Lemma tenv_filled hk Ys half :
  (forall Y i j, Y ∈ Ys -> 0 <= i < half -> 0 <= j < half ->
     is_Some (cell hk Y i j)) ->
  tenv hk Ys half ((fun Y => Some (fun i j => default 0 (cell hk Y i j))) <$> Ys).
Proof.
  intros Hf. apply Forall2_fmap_r, Forall_Forall2_diag, Forall_forall.
  intros Y HY i j Hi Hj. destruct (Hf Y i j HY Hi Hj) as [v Hv]. by rewrite Hv.
Qed.

Lemma tstate_safe_op op h hk Xs half vals d s1 s2 D S1 S2 f1 f2 fd :
  safe_ok op half -> tstate h hk Xs half vals ->
  Xs !! d = Some D -> Xs !! s1 = Some S1 -> Xs !! s2 = Some S2 ->
  vals !! s1 = Some (Some f1) -> vals !! s2 = Some (Some f2) ->
  vals !! d = Some (Some fd) ->
  d <> s1 -> d <> s2 ->
  exists hk' fd', op S1 S2 D half hk = Some (tt, hk') /\
                  tstate h hk' Xs half (<[d := Some fd']> vals).
Proof.
  intros Hop [[Hp Hts] Henv] Hd Hs1 Hs2 Hv1 Hv2 Hvd Hne1 Hne2.
  pose proof (ts_nodup _ _ _ _ _ Hts) as Hnd.
  assert (HD : D ∈ Xs) by by eapply list_elem_of_lookup_2.
  assert (HS1 : S1 ∈ Xs) by by eapply list_elem_of_lookup_2.
  assert (HS2 : S2 ∈ Xs) by by eapply list_elem_of_lookup_2.
  assert (Hother : forall a X, Xs !! a = Some X -> a <> d -> X <> D).
  { intros a X Ha Hne ->. apply Hne. by eapply NoDup_lookup. }
  destruct (Hop hk S1 S2 D f1 f2) as (hk' & Hrun & Hp' & HD').
  - by apply (Forall2_lookup_lr _ _ _ _ _ _ Henv Hs1 Hv1).
  - by apply (Forall2_lookup_lr _ _ _ _ _ _ Henv Hs2 Hv2).
  - by eapply tshape_dest.
  - eapply tshape_sep; eauto. intros ->. by eapply (Hother s1 S1).
  - eapply tshape_sep; eauto. intros ->. by eapply (Hother s2 S2).
  - destruct (HD' fd) as [fd' Hfd'].
    { by apply (Forall2_lookup_lr _ _ _ _ _ _ Henv Hd Hvd). }
    exists hk', fd'. split; [done|]. split; [split|].
    + eapply pres_new_window; [done..|]. intros r j. by eapply tshape_win_new.
    + by eapply tshape_pres.
    + apply Forall2_same_length_lookup_2.
      { rewrite length_insert. by eapply Forall2_length. }
      intros a X v Ha Hv. destruct (decide (a = d)) as [->|Hne].
      * apply list_lookup_insert_Some in Hv as [(_ & <- & _)|[? _]]; [|done].
        rewrite Hd in Ha. by injection Ha as <-.
      * rewrite list_lookup_insert_ne in Hv by done.
        pose proof (Forall2_lookup_lr _ _ _ _ _ _ Henv Ha Hv) as HX.
        destruct v as [f|]; [|done]. simpl in *.
        eapply rep_pres_sep; [done|by intros []|lia| |done].
        eapply tshape_sep; eauto; [by eapply list_elem_of_lookup_2|].
        intros ->. by eapply (Hother a X).
Qed.

Ltac safe_step Hop Hst d s1 s2 q :=
  let hk' := fresh "hk" in
  let Hrun := fresh "Hrun" in
  let Hst' := fresh "Hst" in
  destruct (tstate_safe_op _ _ _ _ _ _ d s1 s2 _ _ _ _ _ _ Hop Hst
              eq_refl eq_refl eq_refl eq_refl eq_refl eq_refl
              ltac:(lia) ltac:(lia))
    as (hk' & q & Hrun & Hst');
  rewrite (bind_Some _ _ _ _ _ Hrun);
  clear Hrun Hst; cbn [insert list_insert] in Hst'; rename Hst' into Hst.

Lemma divide_conquer_step_junk_safe self n :
  safe_ok self (n ÷ 2) -> safe_ok (divide_conquer_step_junk junk self) n.
Proof.
  intros Hself h A B C fa fb HA HB HC HsA HsB.
  unfold divide_conquer_step_junk. destruct (decide (n <= 2)) as [Hn2|Hn2].
  { by apply (binop_ok_safe _ _ _ (matrixMultiplyBruteForce_ok n) h A B C fa fb). }
  cbv zeta.
  assert (exists half, half = n ÷ 2 /\ 0 < half /\ 2 * half <= n)
    as (half & Heq & Hhalf & Hm).
  { exists (n ÷ 2). pose proof (Z.quot_rem' n 2).
    pose proof (Z.rem_bound_pos n 2 ltac:(lia) ltac:(lia)). lia. }
  rewrite <- Heq in *. clear Heq.
  assert (Hhalf0 : 0 <= half) by lia.
  pose proof (conj (pres_refl nobody nothing h) (tshape_init h half)) as Hst.
  change (astate h h [] half nowhere) in Hst.
  alloc_rows Hst A11 h1. alloc_rows Hst A12 h2.
  alloc_rows Hst A21 h3. alloc_rows Hst A22 h4.
  alloc_rows Hst B11 h5. alloc_rows Hst B12 h6.
  alloc_rows Hst B21 h7. alloc_rows Hst B22 h8.
  clear h1 h2 h3 h4 h5 h6 h7.
  (* the rows of the quadrants *)
  destruct (fill_rows_junk_spec h h8 _ half nowhere _ Hhalf0
              (ts_nodup _ _ _ _ _ (proj2 Hst)) (fun Y H => H) Hst)
    as (h9 & Hfill & [Hp9 Hts9] & _).
  rewrite (bind_Some _ _ _ _ _ Hfill). clear Hfill Hst h8.
  set (Xs := [A11; A12; A21; A22; B11; B12; B21; B22]) in *.
  assert (Hts : tshape h h9 Xs half (full Xs half)).
  { eapply tshape_ext; [|done]. intros X i HF. by right. }
  clear Hts9.
  (* the split *)
  set (tg := [(A11, fun i : Z => i, fun j : Z => j, quad fa 0 0);
              (A12, fun i : Z => i, fun j : Z => j, quad fa 0 half);
              (A21, fun i : Z => i, fun j : Z => j, quad fa half 0);
              (A22, fun i : Z => i, fun j : Z => j, quad fa half half);
              (B11, fun i : Z => i, fun j : Z => j, quad fb 0 0);
              (B12, fun i : Z => i, fun j : Z => j, quad fb 0 half);
              (B21, fun i : Z => i, fun j : Z => j, quad fb half 0);
              (B22, fun i : Z => i, fun j : Z => j, quad fb half half)] : list target).
  assert (Hplain : plain_targets Xs tg).
  { intros s D rho kappa e Hs.
    do 8 (destruct s as [|s]; [by injection Hs as <- <- <- <-|]). done. }
  destruct (targets_tmp h h9 Xs half tg Hts Hplain) as [Hok Hnew].
  assert (HA9 : rep h9 A n fa) by (eapply rep_pres; [done|by intros []|done]).
  assert (HB9 : rep h9 B n fb) by (eapply rep_pres; [done|by intros []|done]).
  assert (Hold : forall X f, rep h X n f ->
            forall i' r c, 0 <= i' < n -> row_of h9 X i' = Some r ->
                           ~ twin h9 tg half r c).
  { intros X f HX i' r c Hi' Hr Htw. apply Hnew in Htw.
    destruct (rep_oldrows _ h h9 X n f ltac:(lia) HX Hp9 i' r Hi' Hr). congruence. }
  match goal with
  | |- context [bind (for_ 0 half (fun i => for_ 0 half (fun j => @?b i j))) _] =>
      destruct (multiwrite_spec h9 tg half b Hok) as (h10 & Hsplit & Hp10 & Hcells)
  end.
  { intros i j hs Hi Hj Hps. pose proof (round_start h9 tg i j hs) as Hinv0.
    destruct (round_copy h9 tg half i j 0 hs hs _ _ _ _ A i j n fa
                Hok Hps Hi Hj Hinv0 eq_refl HA9 (Hold A fa HA))
      as (hx1 & Hw1 & Hinv1); [lia|lia|unfold quad; f_equal; lia|].
    cbv beta in Hw1. rewrite (bind_Some _ _ _ _ _ Hw1).
    destruct (round_copy h9 tg half i j 1 hs hx1 _ _ _ _ A i (j + half) n fa
                Hok Hps Hi Hj Hinv1 eq_refl HA9 (Hold A fa HA))
      as (hx2 & Hw2 & Hinv2); [lia|lia|unfold quad; f_equal; lia|].
    cbv beta in Hw2. rewrite (bind_Some _ _ _ _ _ Hw2).
    destruct (round_copy h9 tg half i j 2 hs hx2 _ _ _ _ A (i + half) j n fa
                Hok Hps Hi Hj Hinv2 eq_refl HA9 (Hold A fa HA))
      as (hx3 & Hw3 & Hinv3); [lia|lia|unfold quad; f_equal; lia|].
    cbv beta in Hw3. rewrite (bind_Some _ _ _ _ _ Hw3).
    destruct (round_copy h9 tg half i j 3 hs hx3 _ _ _ _ A (i + half) (j + half) n fa
                Hok Hps Hi Hj Hinv3 eq_refl HA9 (Hold A fa HA))
      as (hx4 & Hw4 & Hinv4); [lia|lia|unfold quad; f_equal; lia|].
    cbv beta in Hw4. rewrite (bind_Some _ _ _ _ _ Hw4).
    destruct (round_copy h9 tg half i j 4 hs hx4 _ _ _ _ B i j n fb
                Hok Hps Hi Hj Hinv4 eq_refl HB9 (Hold B fb HB))
      as (hx5 & Hw5 & Hinv5); [lia|lia|unfold quad; f_equal; lia|].
    cbv beta in Hw5. rewrite (bind_Some _ _ _ _ _ Hw5).
    destruct (round_copy h9 tg half i j 5 hs hx5 _ _ _ _ B i (j + half) n fb
                Hok Hps Hi Hj Hinv5 eq_refl HB9 (Hold B fb HB))
      as (hx6 & Hw6 & Hinv6); [lia|lia|unfold quad; f_equal; lia|].
    cbv beta in Hw6. rewrite (bind_Some _ _ _ _ _ Hw6).
    destruct (round_copy h9 tg half i j 6 hs hx6 _ _ _ _ B (i + half) j n fb
                Hok Hps Hi Hj Hinv6 eq_refl HB9 (Hold B fb HB))
      as (hx7 & Hw7 & Hinv7); [lia|lia|unfold quad; f_equal; lia|].
    cbv beta in Hw7. rewrite (bind_Some _ _ _ _ _ Hw7).
    destruct (round_copy h9 tg half i j 7 hs hx7 _ _ _ _ B (i + half) (j + half) n fb
                Hok Hps Hi Hj Hinv7 eq_refl HB9 (Hold B fb HB))
      as (hx8 & Hw8 & Hinv8); [lia|lia|unfold quad; f_equal; lia|].
    cbv beta in Hw8. exists hx8. split; [done|]. by apply round_end. }
  rewrite (bind_Some _ _ _ _ _ Hsplit). clear Hsplit.
  assert (Hp10' : pres nobody nothing h h10) by (by eapply pres_new_window).
  assert (Hst : astate h h10 Xs half (full Xs half))
    by (split; [done|by eapply tshape_pres]).
  assert (Henv : tenv h10 Xs half
            [Some (quad fa 0 0); Some (quad fa 0 half);
             Some (quad fa half 0); Some (quad fa half half);
             Some (quad fb 0 0); Some (quad fb 0 half);
             Some (quad fb half 0); Some (quad fb half half)]).
  { pose proof (fun s D e Hs i j =>
      Hcells s D (fun i : Z => i) (fun j : Z => j) e i j Hs) as Hc.
    cbv beta in Hc.
    constructor; [intros i j; exact (Hc 0%nat A11 _ eq_refl i j)|].
    constructor; [intros i j; exact (Hc 1%nat A12 _ eq_refl i j)|].
    constructor; [intros i j; exact (Hc 2%nat A21 _ eq_refl i j)|].
    constructor; [intros i j; exact (Hc 3%nat A22 _ eq_refl i j)|].
    constructor; [intros i j; exact (Hc 4%nat B11 _ eq_refl i j)|].
    constructor; [intros i j; exact (Hc 5%nat B12 _ eq_refl i j)|].
    constructor; [intros i j; exact (Hc 6%nat B21 _ eq_refl i j)|].
    constructor; [intros i j; exact (Hc 7%nat B22 _ eq_refl i j)|].
    constructor. }
  clear Hcells Hp10 Hold Hnew Hok Hplain HA9 HB9 Hts Hp9 h9. clear tg.
  (* the temporaries and the seven products *)
  assert (Hpp : pres nobody nothing h10 h10) by apply pres_refl.
  alloc_rows_keep Hst Hpp temp1 h11. alloc_rows_keep Hst Hpp temp2 h12.
  alloc_rows_keep Hst Hpp P1 h13. alloc_rows_keep Hst Hpp P2 h14.
  alloc_rows_keep Hst Hpp P3 h15. alloc_rows_keep Hst Hpp P4 h16.
  alloc_rows_keep Hst Hpp P5 h17. alloc_rows_keep Hst Hpp P6 h18.
  alloc_rows_keep Hst Hpp P7 h19.
  clear h11 h12 h13 h14 h15 h16 h17 h18.
  set (Ys := [temp1; temp2; P1; P2; P3; P4; P5; P6; P7]) in *.
  assert (HndY : NoDup Ys).
  { pose proof (ts_nodup _ _ _ _ _ (proj2 Hst) : NoDup (Xs ++ Ys)) as Hnd.
    by apply NoDup_app in Hnd as (_ & _ & ?). }
  destruct (fill_rows_junk_spec h h19 (Xs ++ Ys) half (full Xs half) Ys Hhalf0 HndY)
    as (h20 & Hfill & [Hp20 Hts20] & Hpp20 & Hfilled); [|done|].
  { intros Y HY. apply elem_of_app. by right. }
  rewrite (bind_Some _ _ _ _ _ Hfill). clear Hfill.
  assert (Hts : tshape h h20 (Xs ++ Ys) half (full (Xs ++ Ys) half)).
  { eapply tshape_ext; [|done]. intros X i [[HX|HX]%elem_of_app Hi].
    - by left.
    - by right. }
  assert (Henv20 : tenv h20 (Xs ++ Ys) half
            ([Some (quad fa 0 0); Some (quad fa 0 half);
              Some (quad fa half 0); Some (quad fa half half);
              Some (quad fb 0 0); Some (quad fb 0 half);
              Some (quad fb half 0); Some (quad fb half half)]
             ++ ((fun Y => Some (fun i j => default 0 (cell h20 Y i j))) <$> Ys))).
  { apply tenv_app; [|by apply tenv_filled].
    eapply tenv_pres; [exact Hpp20| |].
    - intros X HX HY.
      pose proof (ts_nodup _ _ _ _ _ Hts) as Hnd.
      apply NoDup_app in Hnd as (_ & Hdis & _). by apply (Hdis X).
    - eapply tenv_pres; [exact Hpp|by intros ? ? []|done]. }
  assert (Hst20 : tstate h h20 (Xs ++ Ys) half
            ([Some (quad fa 0 0); Some (quad fa 0 half);
              Some (quad fa half 0); Some (quad fa half half);
              Some (quad fb 0 0); Some (quad fb 0 half);
              Some (quad fb half 0); Some (quad fb half half)]
             ++ ((fun Y => Some (fun i j => default 0 (cell h20 Y i j))) <$> Ys)))
    by done.
  clear Henv20 Hts Hts20 Hp20 Hpp20 Hpp Hst Henv Hp10' Hfilled HndY h19 h10.
  subst Xs Ys. cbn [app fmap list_fmap] in Hst20.
  pose proof (subtractMatrix_ok half) as Hsub.
  pose proof (addMatrix_ok half) as Hadd.
  op_step Hsub Hst20 8%nat 5%nat 7%nat. safe_step Hself Hst20 10%nat 0%nat 8%nat p1.
  op_step Hadd Hst20 8%nat 0%nat 1%nat. safe_step Hself Hst20 11%nat 8%nat 7%nat p2.
  op_step Hadd Hst20 8%nat 2%nat 3%nat. safe_step Hself Hst20 12%nat 8%nat 4%nat p3.
  op_step Hsub Hst20 8%nat 6%nat 4%nat. safe_step Hself Hst20 13%nat 3%nat 8%nat p4.
  op_step Hadd Hst20 8%nat 0%nat 3%nat. op_step Hadd Hst20 9%nat 4%nat 7%nat.
  safe_step Hself Hst20 14%nat 8%nat 9%nat p5.
  op_step Hsub Hst20 8%nat 1%nat 3%nat. op_step Hadd Hst20 9%nat 6%nat 7%nat.
  safe_step Hself Hst20 15%nat 8%nat 9%nat p6.
  op_step Hsub Hst20 8%nat 0%nat 2%nat. op_step Hadd Hst20 9%nat 4%nat 5%nat.
  safe_step Hself Hst20 16%nat 8%nat 9%nat p7.
  clear hk hk0 hk1 hk2 hk3 hk4 hk5 hk6 hk7 hk8 hk9 hk10 hk11 hk12 hk13 hk14 h20.
  rename hk15 into hk. destruct Hst20 as [[Hp Hts] Henv].
  (* the combination *)
  set (Xs := [A11; A12; A21; A22; B11; B12; B21; B22; temp1; temp2;
              P1; P2; P3; P4; P5; P6; P7]) in *.
  pose proof (Forall2_lookup_lr _ _ _ 10%nat P1 _ Henv eq_refl eq_refl) as HP1.
  pose proof (Forall2_lookup_lr _ _ _ 11%nat P2 _ Henv eq_refl eq_refl) as HP2.
  pose proof (Forall2_lookup_lr _ _ _ 12%nat P3 _ Henv eq_refl eq_refl) as HP3.
  pose proof (Forall2_lookup_lr _ _ _ 13%nat P4 _ Henv eq_refl eq_refl) as HP4.
  pose proof (Forall2_lookup_lr _ _ _ 14%nat P5 _ Henv eq_refl eq_refl) as HP5.
  pose proof (Forall2_lookup_lr _ _ _ 15%nat P6 _ Henv eq_refl eq_refl) as HP6.
  pose proof (Forall2_lookup_lr _ _ _ 16%nat P7 _ Henv eq_refl eq_refl) as HP7.
  cbn [holds] in HP1, HP2, HP3, HP4, HP5, HP6, HP7. clear Henv.
  set (c11 := fun i j => wrap64 (wrap64 (wrap64 (p5 i j + p4 i j) - p2 i j) + p6 i j)).
  set (c12 := fun i j => wrap64 (p1 i j + p2 i j)).
  set (c21 := fun i j => wrap64 (p3 i j + p4 i j)).
  set (c22 := fun i j => wrap64 (wrap64 (wrap64 (p5 i j + p1 i j) - p3 i j) - p7 i j)).
  set (tg := quadrant_targets C half c11 c12 c21 c22).
  assert (HCa : is_Some (ptrs h !! C)) by (apply (dest_allocated h C n); [lia|done]).
  assert (HCk : dest hk C (2 * half)).
  { assert (HCn : dest hk C n) by (eapply dest_pres; [done|by intros []|done]).
    destruct HCn as [Hrows Hinj]. split.
    - intros i Hi. destruct (Hrows i) as (r & len & Hr & Hl & Hlen); [lia|].
      exists r, len. split; [done|]. split; [done|lia].
    - intros i i' r Hi Hi'. apply Hinj; lia. }
  destruct (targets_quadrants hk C (2 * half) half c11 c12 c21 c22 eq_refl HCk)
    as [Hok Htwin].
  fold tg in Hok, Htwin.
  assert (Hread : forall X f, X ∈ Xs -> rep hk X half f ->
            forall i j s hs hx, 0 <= i < half -> 0 <= j < half ->
              pres nobody (twin hk tg half) hk hs ->
              round_inv hk tg i j s hs hx -> cell hx X i j = Some (f i j)).
  { intros X f HX Hrep i j s hs hx Hi Hj Hps Hinv.
    apply (round_rep hk tg half i j s hs hx X half f); try done.
    intros i' r c Hi' Hr (_ & i2 & Hi2 & Hr2)%Htwin.
    pose proof (tshape_newrows h hk Xs half X Hts HX i' r Hi' Hr) as Hnew.
    destruct (dest_oldrows _ h hk C n HC Hp i2 r ltac:(lia) Hr2). congruence. }
  assert (HXs : forall a X, Xs !! a = Some X -> X ∈ Xs)
    by (intros a X; apply list_elem_of_lookup_2).
  pose proof (fun i j s hs hx => Hread P1 p1 (HXs 10%nat P1 eq_refl) HP1 i j s hs hx) as R1.
  pose proof (fun i j s hs hx => Hread P2 p2 (HXs 11%nat P2 eq_refl) HP2 i j s hs hx) as R2.
  pose proof (fun i j s hs hx => Hread P3 p3 (HXs 12%nat P3 eq_refl) HP3 i j s hs hx) as R3.
  pose proof (fun i j s hs hx => Hread P4 p4 (HXs 13%nat P4 eq_refl) HP4 i j s hs hx) as R4.
  pose proof (fun i j s hs hx => Hread P5 p5 (HXs 14%nat P5 eq_refl) HP5 i j s hs hx) as R5.
  pose proof (fun i j s hs hx => Hread P6 p6 (HXs 15%nat P6 eq_refl) HP6 i j s hs hx) as R6.
  pose proof (fun i j s hs hx => Hread P7 p7 (HXs 16%nat P7 eq_refl) HP7 i j s hs hx) as R7.
  clear Hread.
  match goal with
  | |- context [bind (for_ 0 half (fun i => for_ 0 half (fun j => @?b i j))) _] =>
      destruct (multiwrite_spec hk tg half b Hok) as (h21 & Hcomb & Hp21 & Hcells)
  end.
  { intros i j hs Hi Hj Hps. pose proof (round_start hk tg i j hs) as Hinv0.
    destruct (round_write hk tg half i j 0 hs hs C (fun i => i) (fun j => j) c11
                (c11 i j) Hok Hps Hi Hj Hinv0 eq_refl eq_refl)
      as (hx1 & Hw1 & Hinv1).
    round_stmt hx1 Hw1 ltac:(
      rewrite (bind_Some _ _ _ _ _ (mread_Some _ _ _ _ _ (R5 i j _ hs hs Hi Hj Hps Hinv0)));
      rewrite (bind_Some _ _ _ _ _ (mread_Some _ _ _ _ _ (R4 i j _ hs hs Hi Hj Hps Hinv0)));
      rewrite (bind_Some _ _ _ _ _ (mread_Some _ _ _ _ _ (R2 i j _ hs hs Hi Hj Hps Hinv0)));
      rewrite (bind_Some _ _ _ _ _ (mread_Some _ _ _ _ _ (R6 i j _ hs hs Hi Hj Hps Hinv0)))).
    destruct (round_write hk tg half i j 1 hs hx1 C (fun i => i) (fun j => j + half) c12
                (c12 i j) Hok Hps Hi Hj Hinv1 eq_refl eq_refl)
      as (hx2 & Hw2 & Hinv2).
    round_stmt hx2 Hw2 ltac:(
      rewrite (bind_Some _ _ _ _ _ (mread_Some _ _ _ _ _ (R1 i j _ hs hx1 Hi Hj Hps Hinv1)));
      rewrite (bind_Some _ _ _ _ _ (mread_Some _ _ _ _ _ (R2 i j _ hs hx1 Hi Hj Hps Hinv1)))).
    destruct (round_write hk tg half i j 2 hs hx2 C (fun i => i + half) (fun j => j) c21
                (c21 i j) Hok Hps Hi Hj Hinv2 eq_refl eq_refl)
      as (hx3 & Hw3 & Hinv3).
    round_stmt hx3 Hw3 ltac:(
      rewrite (bind_Some _ _ _ _ _ (mread_Some _ _ _ _ _ (R3 i j _ hs hx2 Hi Hj Hps Hinv2)));
      rewrite (bind_Some _ _ _ _ _ (mread_Some _ _ _ _ _ (R4 i j _ hs hx2 Hi Hj Hps Hinv2)))).
    destruct (round_write hk tg half i j 3 hs hx3 C (fun i => i + half)
                (fun j => j + half) c22
                (c22 i j) Hok Hps Hi Hj Hinv3 eq_refl eq_refl)
      as (hx4 & Hw4 & Hinv4).
    exists hx4. split; [|by apply round_end].
    rewrite (bind_Some _ _ _ _ _ (mread_Some _ _ _ _ _ (R5 i j _ hs hx3 Hi Hj Hps Hinv3))).
    rewrite (bind_Some _ _ _ _ _ (mread_Some _ _ _ _ _ (R1 i j _ hs hx3 Hi Hj Hps Hinv3))).
    rewrite (bind_Some _ _ _ _ _ (mread_Some _ _ _ _ _ (R3 i j _ hs hx3 Hi Hj Hps Hinv3))).
    rewrite (bind_Some _ _ _ _ _ (mread_Some _ _ _ _ _ (R7 i j _ hs hx3 Hi Hj Hps Hinv3))).
    exact Hw4. }
  rewrite (bind_Some _ _ _ _ _ Hcomb). clear Hcomb R1 R2 R3 R4 R5 R6 R7.
  (* the release *)
  destruct (release_spec h h21 Xs half Hhalf0) as (h' & Hrel & Hag).
  { by eapply tshape_pres. }
  exists h'. split; [exact Hrel|].
  assert (Hp21' : pres nobody (win h C (2 * half)) h h21).
  { eapply pres_trans.
    - eapply pres_mono; [done| |exact Hp]. by intros ? ? [].
    - eapply pres_mono; [done| |exact Hp21].
      intros r c Htw. by eapply win_pres; [| |apply Htwin]. }
  split.
  { eapply agree_old_pres; [|done]. eapply pres_mono; [done| |exact Hp21'].
    intros r c (Hc & i & Hi & Hr). split; [lia|]. exists i. split; [lia|done]. }
  intros fc HCr. exists (fun i j => default 0 (cell h' C i j)).
  intros i j Hi Hj.
  rewrite (agree_old_cell h h21 h' C i j Hag HCa).
  2:{ intros r Hr. apply (dest_oldrows _ h h21 C n HC Hp21' i); [lia|done]. }
  assert (Hs : is_Some (cell h21 C i j)); [|by destruct Hs as [v ->]].
  destruct (decide (i < 2 * half /\ j < 2 * half)) as [[Hi' Hj']|Hout].
  - destruct (decide (i < half)), (decide (j < half)).
    + pose proof (Hcells 0%nat C (fun i => i) (fun j => j) c11 i j eq_refl
                    ltac:(lia) ltac:(lia)) as Hc. by eauto.
    + pose proof (Hcells 1%nat C (fun i => i) (fun j => j + half) c12 i (j - half)
                    eq_refl ltac:(lia) ltac:(lia)) as Hc. cbv beta in Hc.
      replace (j - half + half) with j in Hc by lia. by eauto.
    + pose proof (Hcells 2%nat C (fun i => i + half) (fun j => j) c21 (i - half) j
                    eq_refl ltac:(lia) ltac:(lia)) as Hc. cbv beta in Hc.
      replace (i - half + half) with i in Hc by lia. by eauto.
    + pose proof (Hcells 3%nat C (fun i => i + half) (fun j => j + half) c22
                    (i - half) (j - half) eq_refl ltac:(lia) ltac:(lia)) as Hc.
      cbv beta in Hc.
      replace (j - half + half) with j in Hc by lia.
      replace (i - half + half) with i in Hc by lia. by eauto.
  - exists (fc i j). eapply pres_cell; [exact Hp21'|by intros []| |by apply HCr].
    intros r Hr (Hc & i2 & Hi2 & Hr2).
    assert (i2 = i) by (apply (proj2 HC i2 i r); [lia|lia|done..]). lia.
Qed.

Lemma divide_conquer_rec_junk_safe depth :
  forall n, safe_ok (divide_conquer_rec_junk junk depth) n.
Proof.
  induction depth as [|d IH]; intros n.
  - apply (binop_ok_safe _ _ _ (matrixMultiplyBruteForce_ok n)).
  - apply divide_conquer_step_junk_safe, IH.
Qed.

Lemma matrixMultiplyDivideConquer_junk_safe n :
  safe_ok (matrixMultiplyDivideConquer_junk junk) n.
Proof. apply divide_conquer_rec_junk_safe. Qed.

(** *** The depth of the recursion is enough *)

Lemma divide_conquer_step_junk_meq s1 s2 A B C n :
  (forall A B C, meq (s1 A B C (n ÷ 2)) (s2 A B C (n ÷ 2))) ->
  meq (divide_conquer_step_junk junk s1 A B C n)
      (divide_conquer_step_junk junk s2 A B C n).
Proof.
  intros Hs. unfold divide_conquer_step_junk.
  destruct (decide (n <= 2)); [apply meq_refl|]. cbv zeta.
  repeat (apply bind_meq; [first [apply Hs | apply meq_refl]|intros ?]).
  apply meq_refl.
Qed.

Lemma divide_conquer_rec_junk_depth d1 : forall d2 n A B C,
  n <= Z.of_nat d1 + 2 -> n <= Z.of_nat d2 + 2 ->
  meq (divide_conquer_rec_junk junk d1 A B C n)
      (divide_conquer_rec_junk junk d2 A B C n).
Proof.
  assert (Hbase : forall d n A B C, n <= 2 ->
            meq (divide_conquer_rec_junk junk d A B C n)
                (matrixMultiplyBruteForce A B C n)).
  { intros [|d] n A B C Hn; simpl; [apply meq_refl|].
    unfold divide_conquer_step_junk. rewrite decide_True by done. apply meq_refl. }
  induction d1 as [|d1 IH]; intros d2 n A B C H1 H2.
  - intros h. rewrite !Hbase by lia. done.
  - destruct d2 as [|d2]; [intros h; rewrite !Hbase by lia; done|].
    simpl. apply divide_conquer_step_junk_meq. intros A' B' C'.
    destruct (decide (n <= 2)).
    + pose proof (Z.quot_le_mono n 2 2 ltac:(lia) ltac:(done)) as Hq.
      change (2 ÷ 2) with 1 in Hq.
      intros h. rewrite !Hbase by lia. done.
    + pose proof (Z.quot_rem' n 2). pose proof (Z.rem_bound_pos n 2).
      apply IH; lia.
Qed.

(** [matrixMultiplyDivideConquer_junk] satisfies the recursive equation of
    the source: its recursive calls never run out of depth. *)
Lemma matrixMultiplyDivideConquer_junk_unfold A B C n :
  meq (matrixMultiplyDivideConquer_junk junk A B C n)
      (divide_conquer_step_junk junk (matrixMultiplyDivideConquer_junk junk) A B C n).
Proof.
  unfold matrixMultiplyDivideConquer_junk at 1.
  destruct (Z.to_nat n) as [|d] eqn:Hd.
  - intros h. simpl. unfold divide_conquer_step_junk. by rewrite decide_True by lia.
  - simpl. apply divide_conquer_step_junk_meq. intros A' B' C'.
    unfold matrixMultiplyDivideConquer_junk.
    pose proof (Z.quot_rem' n 2). pose proof (Z.rem_bound_pos n 2).
    apply divide_conquer_rec_junk_depth; lia.
Qed.
End junk.

(** ** The two readings of [new long long[n]] agree *)

(** [hj] is [hs] with values in cells that [hs] cannot read: the same arrays
    of row pointers, the same rows, and the value of [hs] in every cell that
    [hs] can read. *)
Definition cells_le (bs bj : block Z) : Prop :=
  Forall2 (fun x y : option Z => forall v, x = Some v -> y = Some v) bs bj.

Definition refines (hs hj : heap) : Prop :=
  ptrs hs = ptrs hj /\
  (forall r, ints hs !! r = None <-> ints hj !! r = None) /\
  (forall r bs bj, ints hs !! r = Some bs -> ints hj !! r = Some bj ->
     cells_le bs bj).

(** Whenever [m] returns, [mj] returns the same value, from heaps that
    refine to heaps that refine. *)
Definition sim {A} (m mj : M A) : Prop :=
  forall hs hj a hs', refines hs hj -> m hs = Some (a, hs') ->
    exists hj', mj hj = Some (a, hj') /\ refines hs' hj'.

Lemma cells_le_refl b : cells_le b b.
Proof. apply Forall_Forall2_diag, Forall_forall. done. Qed.

Lemma refines_refl h : refines h h.
Proof.
  split; [done|]. split; [done|]. intros r bs bj Hs Hj.
  assert (bs = bj) as -> by congruence. apply cells_le_refl.
Qed.

Lemma refines_dom hs hj : refines hs hj -> dom (ints hs) = dom (ints hj).
Proof.
  intros (_ & Hd & _). apply set_eq. intros r. rewrite !elem_of_dom.
  rewrite <- !not_eq_None_Some. by rewrite Hd.
Qed.

Lemma refines_cell hs hj X i j v :
  refines hs hj -> cell hs X i j = Some v -> cell hj X i j = Some v.
Proof.
  intros (Hp & Hd & Hc) (r & Hr & Hv)%cell_Some. apply cell_Some. exists r.
  split; [unfold row_of in *; by rewrite <- Hp|].
  unfold rd, blk_read in *.
  destruct (ints hs !! r) as [bs|] eqn:Hs; [|done]. simpl in Hv.
  destruct (ints hj !! r) as [bj|] eqn:Hj; [|by apply Hd in Hj; congruence].
  simpl. specialize (Hc r bs bj Hs Hj).
  unfold zidx in *. destruct (decide (0 <= j)); [|done].
  destruct (bs !! Z.to_nat j) as [x|] eqn:Hx; [|done]. simpl in Hv. subst x.
  destruct (Forall2_lookup_l _ _ _ _ _ Hc Hx) as (y & -> & Hy).
  simpl. by apply Hy.
Qed.

Lemma refines_rep hs hj X n f : refines hs hj -> rep hs X n f -> rep hj X n f.
Proof. intros Hr HX i j Hi Hj. eapply refines_cell; [done|]. by apply HX. Qed.

Lemma sim_ret {A} (a : A) : sim (ret a) (ret a).
Proof. intros hs hj b hs' Hr [-> ->]%ret_inv. by exists hj. Qed.

Lemma sim_bind {A B} (m mj : M A) (k kj : A -> M B) :
  sim m mj -> (forall a, sim (k a) (kj a)) -> sim (bind m k) (bind mj kj).
Proof.
  intros Hm Hk hs hj b hs' Hr (a & h1 & Hrun & Hrest)%bind_inv.
  destruct (Hm hs hj a h1 Hr Hrun) as (hj1 & Hj1 & Hr1).
  destruct (Hk a h1 hj1 b hs' Hr1 Hrest) as (hj' & Hj' & Hr').
  exists hj'. split; [|done]. by rewrite (bind_Some _ _ _ _ _ Hj1).
Qed.

Lemma sim_for lo hi (body bodyj : Z -> M unit) :
  (forall i, sim (body i) (bodyj i)) -> sim (for_ lo hi body) (for_ lo hi bodyj).
Proof.
  intros Hb. unfold for_. generalize (Z.to_nat (hi - lo)) as cnt. intros cnt.
  revert lo. induction cnt as [|c IH]; intros lo; simpl.
  - apply sim_ret.
  - apply sim_bind; [apply Hb|]. intros _. apply IH.
Qed.

Lemma sim_new_rows n : sim (new_rows n) (new_rows n).
Proof.
  intros hs hj X hs' (Hp & Hd & Hc). unfold new_rows, blk_alloc. rewrite <- Hp.
  destruct (decide (0 <= n)); [|done]. intros [= <- <-].
  eexists. split; [done|]. split; [cbn; by rewrite Hp|]. done.
Qed.

Lemma sim_new_cells junk n : sim (new_cells n) (new_cells_junk junk n).
Proof.
  intros hs hj r hs' Hr. pose proof (refines_dom hs hj Hr) as Hdom.
  destruct Hr as (Hp & Hd & Hc).
  unfold new_cells, new_cells_junk, blk_alloc. rewrite <- Hdom.
  destruct (decide (0 <= n)); [|done]. intros [= <- <-].
  eexists. split; [done|]. split; [done|]. cbn. split.
  - intros r. destruct (decide (r = fresh (dom (ints hs)))) as [->|Hne].
    + by rewrite !lookup_insert_eq.
    + by rewrite !lookup_insert_ne.
  - intros r bs bj. destruct (decide (r = fresh (dom (ints hs)))) as [->|Hne].
    + rewrite !lookup_insert_eq. intros [= <-] [= <-].
      apply Forall2_replicate_l; [by rewrite length_fmap, length_seqZ|].
      apply Forall_forall. done.
    + rewrite !lookup_insert_ne by done. apply Hc.
Qed.

Lemma sim_delete_rows X : sim (delete_rows X) (delete_rows X).
Proof.
  intros hs hj u hs' (Hp & Hd & Hc). unfold delete_rows, blk_free. rewrite <- Hp.
  destruct (ptrs hs !! X); [|done]. intros [= <- <-].
  eexists. split; [done|]. done.
Qed.

Lemma sim_delete_cells r : sim (delete_cells r) (delete_cells r).
Proof.
  intros hs hj u hs' (Hp & Hd & Hc). unfold delete_cells, blk_free.
  destruct (ints hs !! r) as [bs|] eqn:Hs; [|done]. intros [= <- <-].
  destruct (ints hj !! r) as [bj|] eqn:Hj; [|by apply Hd in Hj; congruence].
  eexists. split; [done|]. split; [done|]. cbn. split.
  - intros r'. destruct (decide (r' = r)) as [->|Hne].
    + by rewrite !lookup_delete_eq.
    + by rewrite !lookup_delete_ne.
  - intros r' bs' bj'. destruct (decide (r' = r)) as [->|Hne].
    + by rewrite lookup_delete_eq.
    + rewrite !lookup_delete_ne by done. apply Hc.
Qed.

Lemma sim_get_row X i : sim (get_row X i) (get_row X i).
Proof.
  intros hs hj r hs' Hr. pose proof Hr as (Hp & _). unfold get_row. rewrite <- Hp.
  destruct (blk_read (ptrs hs) X i); [|done]. intros [= <- <-]. by exists hj.
Qed.

Lemma sim_set_row X i r : sim (set_row X i r) (set_row X i r).
Proof.
  intros hs hj u hs' (Hp & Hd & Hc). unfold set_row. rewrite <- Hp.
  destruct (blk_write (ptrs hs) X i r); [|done]. intros [= <- <-].
  eexists. split; [done|]. done.
Qed.

Lemma sim_mread X i j : sim (mread X i j) (mread X i j).
Proof.
  intros hs hj v hs' Hr [Hc ->]%mread_inv. exists hj. split; [|done].
  apply mread_Some. by eapply refines_cell.
Qed.

Lemma sim_set_cell r j v : sim (set_cell r j v) (set_cell r j v).
Proof.
  intros hs hj u hs' (Hp & Hd & Hc). unfold set_cell, blk_write.
  destruct (ints hs !! r) as [bs|] eqn:Hs; [|done]. simpl.
  destruct (ints hj !! r) as [bj|] eqn:Hj; [|by apply Hd in Hj; congruence].
  simpl. pose proof (Hc r bs bj Hs Hj) as Hle.
  rewrite <- (Forall2_length _ _ _ Hle).
  destruct (decide (0 <= j < Z.of_nat (length bs))); [|done]. intros [= <- <-].
  eexists. split; [done|]. split; [done|]. cbn. split.
  - intros r'. destruct (decide (r' = r)) as [->|Hne].
    + by rewrite !lookup_insert_eq.
    + by rewrite !lookup_insert_ne.
  - intros r' bs' bj'. destruct (decide (r' = r)) as [->|Hne].
    + rewrite !lookup_insert_eq. intros [= <-] [= <-].
      by apply Forall2_insert.
    + rewrite !lookup_insert_ne by done. apply Hc.
Qed.

Lemma sim_mwrite X i j v : sim (mwrite X i j v) (mwrite X i j v).
Proof. apply sim_bind; [apply sim_get_row|]. intros r. apply sim_set_cell. Qed.

Ltac sim_step :=
  first [ apply sim_ret | apply sim_mread | apply sim_mwrite
        | apply sim_new_rows | apply sim_new_cells | apply sim_set_row
        | apply sim_get_row | apply sim_delete_cells | apply sim_delete_rows
        | apply sim_for; intros ?
        | apply sim_bind; [|intros ?]
        | match goal with
          | |- sim (if decide ?P then _ else _) _ => destruct (decide P)
          end ].

Lemma sim_pointwise g A B C n : sim (pointwise g A B C n) (pointwise g A B C n).
Proof. unfold pointwise. repeat sim_step. Qed.

Lemma sim_matrixMultiplyBruteForce A B C n :
  sim (matrixMultiplyBruteForce A B C n) (matrixMultiplyBruteForce A B C n).
Proof. unfold matrixMultiplyBruteForce. repeat sim_step. Qed.

Lemma sim_new_row_each junk Xs i half :
  sim (new_row_each Xs i half) (new_row_each_junk junk Xs i half).
Proof. induction Xs as [|X Xs IH]; simpl; repeat sim_step. apply IH. Qed.

Lemma sim_delete_row_each Xs i : sim (delete_row_each Xs i) (delete_row_each Xs i).
Proof. induction Xs as [|X Xs IH]; simpl; repeat sim_step. apply IH. Qed.

Lemma sim_delete_rows_each Xs : sim (delete_rows_each Xs) (delete_rows_each Xs).
Proof. induction Xs as [|X Xs IH]; simpl; repeat sim_step. apply IH. Qed.

Lemma sim_divide_conquer_step junk self selfj A B C n :
  (forall A B C, sim (self A B C (n ÷ 2)) (selfj A B C (n ÷ 2))) ->
  sim (divide_conquer_step self A B C n)
      (divide_conquer_step_junk junk selfj A B C n).
Proof.
  intros Hself. unfold divide_conquer_step, divide_conquer_step_junk.
  destruct (decide (n <= 2)); [apply sim_matrixMultiplyBruteForce|]. cbv zeta.
  repeat (apply sim_bind;
    [first [ apply Hself | apply sim_new_rows
           | apply (sim_pointwise (fun a b => wrap64 (a + b)))
           | apply (sim_pointwise (fun a b => wrap64 (a - b)))
           | apply sim_for; intros ?;
             first [ apply sim_new_row_each | apply sim_delete_row_each
                   | repeat sim_step ] ]
    |intros ?]).
  apply sim_delete_rows_each.
Qed.

Lemma sim_divide_conquer_rec junk depth : forall A B C n,
  sim (divide_conquer_rec depth A B C n) (divide_conquer_rec_junk junk depth A B C n).
Proof.
  induction depth as [|d IH]; intros A B C n; simpl.
  - apply sim_matrixMultiplyBruteForce.
  - apply sim_divide_conquer_step. intros A' B' C'. apply IH.
Qed.

(** Where [matrixMultiplyDivideConquer] returns with unreadable new cells,
    it returns with any values in them, and every cell that can be read
    afterwards holds the same value. *)
Lemma matrixMultiplyDivideConquer_junk_agrees junk A B C n h u h' :
  matrixMultiplyDivideConquer A B C n h = Some (u, h') ->
  exists hj, matrixMultiplyDivideConquer_junk junk A B C n h = Some (u, hj) /\
             refines h' hj.
Proof.
  intros Hrun.
  apply (sim_divide_conquer_rec junk (Z.to_nat n) A B C n h h u h'
           (refines_refl h) Hrun).
Qed.

(** ** The comparison *)

Lemma for_ret_from_search {R} (body : Z -> M (option R)) h (P : Z -> Prop) (v : R) cnt :
  forall lo,
    (forall i, lo <= i < lo + Z.of_nat cnt ->
       (body i h = Some (None, h) /\ P i) \/ (body i h = Some (Some v, h) /\ ~ P i)) ->
    (for_ret_from cnt lo body h = Some (None, h) /\
     forall i, lo <= i < lo + Z.of_nat cnt -> P i) \/
    (for_ret_from cnt lo body h = Some (Some v, h) /\
     exists i, lo <= i < lo + Z.of_nat cnt /\ ~ P i).
Proof.
  induction cnt as [|cnt IH]; intros lo Hbody.
  - left. split; [done|]. intros; lia.
  - destruct (Hbody lo) as [[Hb HP]|[Hb HP]]; [lia|..].
    + destruct (IH (lo + 1)) as [[Hf Hall]|[Hf (i & Hi & HnP)]].
      * intros i Hi. apply Hbody. lia.
      * left. split; [simpl; by rewrite (bind_Some _ _ _ _ _ Hb)|].
        intros i Hi. destruct (decide (i = lo)) as [->|]; [done|].
        apply Hall. lia.
      * right. split; [simpl; by rewrite (bind_Some _ _ _ _ _ Hb)|].
        exists i. split; [lia|done].
    + right. split; [simpl; by rewrite (bind_Some _ _ _ _ _ Hb)|].
      exists lo. split; [lia|done].
Qed.

Lemma for_ret_search {R} (body : Z -> M (option R)) h (P : Z -> Prop) (v : R) n :
  (forall i, 0 <= i < n ->
     (body i h = Some (None, h) /\ P i) \/ (body i h = Some (Some v, h) /\ ~ P i)) ->
  (for_ret 0 n body h = Some (None, h) /\ forall i, 0 <= i < n -> P i) \/
  (for_ret 0 n body h = Some (Some v, h) /\ exists i, 0 <= i < n /\ ~ P i).
Proof.
  intros Hbody. unfold for_ret.
  destruct (for_ret_from_search body h P v (Z.to_nat (n - 0)) 0) as [[Hf H]|[Hf H]].
  - intros i Hi. apply Hbody. lia.
  - left. split; [done|]. intros i Hi. apply H. lia.
  - right. split; [done|]. destruct H as (i & Hi & HP). exists i. split; [lia|done].
Qed.

Lemma verifyMatrices_spec h A B n fa fb :
  rep h A n fa -> rep h B n fb ->
  exists b, verifyMatrices A B n h = Some (b, h) /\
            (b = true <->
             forall i j, 0 <= i < n -> 0 <= j < n -> fa i j = fb i j).
Proof.
  intros HA HB. unfold verifyMatrices.
  destruct (for_ret_search
    (fun i => for_ret 0 n (fun j =>
       do a <- mread A i j; do b <- mread B i j;
       if decide (a <> b) then ret (Some false) else ret None))
    h (fun i => forall j, 0 <= j < n -> fa i j = fb i j) false n)
    as [[Hf Hall]|[Hf (i & Hi & Hne)]].
  - intros i Hi.
    destruct (for_ret_search
      (fun j => do a <- mread A i j; do b <- mread B i j;
                if decide (a <> b) then ret (Some false) else ret None)
      h (fun j => fa i j = fb i j) false n) as [[Hf Hall]|[Hf (j & Hj & Hne)]].
    + intros j Hj.
      rewrite (bind_Some _ _ _ _ _ (mread_Some _ _ _ _ _ (HA i j Hi Hj))).
      rewrite (bind_Some _ _ _ _ _ (mread_Some _ _ _ _ _ (HB i j Hi Hj))).
      destruct (decide (fa i j <> fb i j)); [by right|left].
      split; [done|]. by destruct (decide (fa i j = fb i j)).
    + left. done.
    + right. split; [done|]. intros Hall. apply Hne. by apply Hall.
  - exists true. rewrite (bind_Some _ _ _ _ _ Hf). split; [done|].
    split; [|done]. intros _ i j Hi Hj. by apply Hall.
  - exists false. rewrite (bind_Some _ _ _ _ _ Hf). split; [done|].
    split; [done|]. intros Hall. destruct Hne. intros j Hj. by apply Hall.
Qed.

(** ** Checking the layout of a concrete heap *)

Definition zrange (n : Z) : list Z := Z.of_nat <$> seq 0 (Z.to_nat n).

Lemma elem_of_zrange n i : 0 <= i < n -> i ∈ zrange n.
Proof.
  intros Hi. unfold zrange. apply list_elem_of_fmap. exists (Z.to_nat i).
  split; [lia|]. apply elem_of_seq. lia.
Qed.

Definition all_in (n : Z) (P : Z -> bool) : bool := forallb P (zrange n).

Lemma all_in_spec n P i : all_in n P = true -> 0 <= i < n -> P i = true.
Proof.
  unfold all_in. rewrite forallb_forall. intros H Hi. apply H.
  apply list_elem_of_In. by apply elem_of_zrange.
Qed.

Definition rep_check (h : heap) (X : loc) (n : Z) (f : mat) : bool :=
  all_in n (fun i => all_in n (fun j =>
    bool_decide (cell h X i j = Some (f i j)))).

Definition dest_check (h : heap) (X : loc) (n : Z) : bool :=
  all_in n (fun i =>
    match row_of h X i with
    | Some r => match rowlen h r with
                | Some len => bool_decide (n <= len)
                | None => false
                end
    | None => false
    end) &&
  all_in n (fun i => all_in n (fun i' =>
    bool_decide (row_of h X i = row_of h X i' -> i = i'))).

Definition sep_check (h : heap) (X Y : loc) (n : Z) : bool :=
  all_in n (fun i => all_in n (fun i' =>
    bool_decide (row_of h X i <> row_of h Y i' \/ row_of h X i = None))).

Lemma rep_check_sound h X n f : rep_check h X n f = true -> rep h X n f.
Proof.
  intros H i j Hi Hj.
  pose proof (all_in_spec _ _ j (all_in_spec _ _ i H Hi) Hj) as Hb.
  by apply bool_decide_eq_true in Hb.
Qed.

Lemma dest_check_sound h X n : dest_check h X n = true -> dest h X n.
Proof.
  intros [H1 H2]%andb_prop. split.
  - intros i Hi. pose proof (all_in_spec _ _ i H1 Hi) as Hb. cbv beta in Hb.
    destruct (row_of h X i) as [r|]; [|done].
    destruct (rowlen h r) as [len|] eqn:Hlen; [|done].
    apply bool_decide_eq_true in Hb. by exists r, len.
  - intros i i' r Hi Hi' Hr Hr'.
    pose proof (all_in_spec _ _ i' (all_in_spec _ _ i H2 Hi) Hi') as Hb.
    apply bool_decide_eq_true in Hb. apply Hb. congruence.
Qed.

Lemma sep_check_sound h X Y n : sep_check h X Y n = true -> sep h X Y n.
Proof.
  intros H i i' r Hi Hi' Hr Hr'.
  pose proof (all_in_spec _ _ i' (all_in_spec _ _ i H Hi) Hi') as Hb.
  apply bool_decide_eq_true in Hb. destruct Hb; congruence.
Qed.

(** ** Sample heaps *)

(** Three 4 x 4 matrices at the addresses 1, 2 and 3: the first two hold
    1, 2, ..., 16 by rows, the third was never written. *)
Definition sample4 : heap :=
  Heap (list_to_map
          [(1%positive, Some <$> [10; 11; 12; 13]%positive);
           (2%positive, Some <$> [20; 21; 22; 23]%positive);
           (3%positive, Some <$> [30; 31; 32; 33]%positive)])
       (list_to_map
          [(10%positive, Some <$> [1; 2; 3; 4]);
           (11%positive, Some <$> [5; 6; 7; 8]);
           (12%positive, Some <$> [9; 10; 11; 12]);
           (13%positive, Some <$> [13; 14; 15; 16]);
           (20%positive, Some <$> [1; 2; 3; 4]);
           (21%positive, Some <$> [5; 6; 7; 8]);
           (22%positive, Some <$> [9; 10; 11; 12]);
           (23%positive, Some <$> [13; 14; 15; 16]);
           (30%positive, replicate 4 None);
           (31%positive, replicate 4 None);
           (32%positive, replicate 4 None);
           (33%positive, replicate 4 None)]).

Definition counting4 : mat := fun i j => 4 * i + j + 1.

Definition counting6 : mat := fun i j => 6 * i + j + 1.

(** Three 6 x 6 matrices: two that hold 1 to 36 and one that was never
    written. *)
Definition sample6 : heap :=
  Heap (list_to_map
          [(1%positive, Some <$> [10; 11; 12; 13; 14; 15]%positive);
           (2%positive, Some <$> [20; 21; 22; 23; 24; 25]%positive);
           (3%positive, Some <$> [30; 31; 32; 33; 34; 35]%positive)])
       (list_to_map
          [(10%positive, Some <$> [1; 2; 3; 4; 5; 6]);
           (11%positive, Some <$> [7; 8; 9; 10; 11; 12]);
           (12%positive, Some <$> [13; 14; 15; 16; 17; 18]);
           (13%positive, Some <$> [19; 20; 21; 22; 23; 24]);
           (14%positive, Some <$> [25; 26; 27; 28; 29; 30]);
           (15%positive, Some <$> [31; 32; 33; 34; 35; 36]);
           (20%positive, Some <$> [1; 2; 3; 4; 5; 6]);
           (21%positive, Some <$> [7; 8; 9; 10; 11; 12]);
           (22%positive, Some <$> [13; 14; 15; 16; 17; 18]);
           (23%positive, Some <$> [19; 20; 21; 22; 23; 24]);
           (24%positive, Some <$> [25; 26; 27; 28; 29; 30]);
           (25%positive, Some <$> [31; 32; 33; 34; 35; 36]);
           (30%positive, replicate 6 None);
           (31%positive, replicate 6 None);
           (32%positive, replicate 6 None);
           (33%positive, replicate 6 None);
           (34%positive, replicate 6 None);
           (35%positive, replicate 6 None)]).

(** Three 3 x 3 matrices at the addresses 1, 2 and 3: the first two hold
    ones, the third holds zeros. *)
Definition sample3 : heap :=
  Heap (list_to_map
          [(1%positive, Some <$> [10; 11; 12]%positive);
           (2%positive, Some <$> [20; 21; 22]%positive);
           (3%positive, Some <$> [30; 31; 32]%positive)])
       (list_to_map
          [(10%positive, Some <$> [1; 1; 1]);
           (11%positive, Some <$> [1; 1; 1]);
           (12%positive, Some <$> [1; 1; 1]);
           (20%positive, Some <$> [1; 1; 1]);
           (21%positive, Some <$> [1; 1; 1]);
           (22%positive, Some <$> [1; 1; 1]);
           (30%positive, Some <$> [0; 0; 0]);
           (31%positive, Some <$> [0; 0; 0]);
           (32%positive, Some <$> [0; 0; 0])]).

Example sample4_brute_force :
  (fun r => cell r.2 3 3 3) <$> matrixMultiplyBruteForce 1 2 3 4 sample4 = Some (Some 600).
Proof. vm_compute. reflexivity. Qed.

Example sample4_divide_conquer :
  (fun r => cell r.2 3 3 3) <$> matrixMultiplyDivideConquer 1 2 3 4 sample4 = Some (Some 600).
Proof. vm_compute. reflexivity. Qed.

Example sample4_layout :
  rep_check sample4 1 4 counting4 && rep_check sample4 2 4 counting4 &&
  dest_check sample4 3 4 && sep_check sample4 3 1 4 && sep_check sample4 3 2 4 = true.
Proof. vm_compute. reflexivity. Qed.

(** ** More facts for the statements below *)

Definition identity_matrix : mat := fun i j => if decide (i = j) then 1 else 0.

Lemma bigsum_pick m f j :
  (forall k, k <> j -> f k = 0) ->
  bigsum m f = if decide (0 <= j < Z.of_nat m) then f j else 0.
Proof.
  intros Hf. induction m as [|m IH]; simpl.
  - rewrite decide_False; [done|lia].
  - rewrite IH. destruct (decide (j = Z.of_nat m)) as [->|Hne].
    + rewrite decide_False by lia. rewrite decide_True by lia. lia.
    + rewrite (Hf (Z.of_nat m)) by done.
      destruct (decide (0 <= j < Z.of_nat m)).
      * rewrite decide_True by lia. lia.
      * rewrite decide_False by lia. lia.
Qed.

Lemma mat_prod_identity_r n A i j :
  0 <= j < n -> mat_prod n A identity_matrix i j = A i j.
Proof.
  intros Hj. unfold mat_prod. rewrite (bigsum_pick _ _ j).
  - rewrite decide_True by lia. unfold identity_matrix.
    rewrite decide_True by done. lia.
  - intros k Hk. unfold identity_matrix. rewrite decide_False by done. lia.
Qed.

Lemma mat_prod_identity_l n A i j :
  0 <= i < n -> mat_prod n identity_matrix A i j = A i j.
Proof.
  intros Hi. unfold mat_prod. rewrite (bigsum_pick _ _ i).
  - rewrite decide_True by lia. unfold identity_matrix.
    rewrite decide_True by done. lia.
  - intros k Hk. unfold identity_matrix. rewrite decide_False by done. lia.
Qed.

Lemma pres_cell_eq W h h' X i j r :
  pres nobody W h h' -> row_of h X i = Some r -> is_Some (rowlen h r) ->
  ~ W r j -> cell h' X i j = cell h X i j.
Proof.
  intros Hp Hrow Hlen HW. unfold cell.
  rewrite (pres_row_of _ _ _ _ _ _ _ Hp (fun x => x) Hrow), Hrow. simpl.
  by apply Hp.
Qed.

Lemma binop_ok_run h h' op F n A B C fa fb :
  binop_ok op F n -> rep h A n fa -> rep h B n fb -> dest h C n ->
  sep h C A n -> sep h C B n ->
  op A B C n h = Some (tt, h') -> rep h' C n (F fa fb).
Proof.
  intros Hop HA HB HC HsA HsB Hrun.
  destruct (Hop h A B C fa fb HA HB HC HsA HsB) as (h2 & Hrun2 & _ & Hrep).
  rewrite Hrun in Hrun2. by injection Hrun2 as <-.
Qed.

(** For an odd size above 2 the last row and the last column of the
    destination are as they were before the call. *)
Lemma odd_size_keeps_last_row_and_column n h A B C u h' :
  2 < n -> Z.rem n 2 = 1 -> dest h C n ->
  matrixMultiplyDivideConquer A B C n h = Some (u, h') ->
  forall i j, 0 <= i < n -> 0 <= j < n -> i = n - 1 \/ j = n - 1 ->
    cell h' C i j = cell h C i j.
Proof.
  intros Hn Hodd HC Hrun i j Hi Hj Hlast.
  assert (HCa : is_Some (ptrs h !! C)) by (apply (dest_allocated h C n); [lia|done]).
  pose proof (matrixMultiplyDivideConquer_frames n h A B C u h' HCa Hrun) as Hp.
  assert (Hspan : span n = n - 1).
  { unfold span. rewrite decide_False by lia. pose proof (Z.quot_rem' n 2). lia. }
  rewrite Hspan in Hp. destruct HC as [Hrows Hinj].
  destruct (Hrows i Hi) as (r & len & Hr & Hlen & _).
  eapply pres_cell_eq; [done|done|eauto|].
  intros (Hj' & i' & Hi' & Hr'). specialize (Hinj i i' r Hi ltac:(lia) Hr Hr'). lia.
Qed.

(** ** The statements about matrix_multiply.cpp *)

(** C1: for square matrices whose size is a power of two, or halves exactly
    down to the base case, [matrixMultiplyDivideConquer] returns and leaves
    in the destination the same matrix as [matrixMultiplyBruteForce]. *)
Theorem divide_conquer_matches_brute_force n h A B C fa fb :
  (exists k : nat, n = 2 ^ Z.of_nat k) \/ reducible n ->
  rep h A n fa -> rep h B n fb -> dest h C n -> sep h C A n -> sep h C B n ->
  exists h1 h2 c,
    matrixMultiplyBruteForce A B C n h = Some (tt, h1) /\
    matrixMultiplyDivideConquer A B C n h = Some (tt, h2) /\
    rep h1 C n c /\ rep h2 C n c.
Proof.
  intros Hsize HA HB HC HsA HsB.
  assert (Hred : reducible n).
  { destruct Hsize as [[k ->]|?]; [apply reducible_pow2|done]. }
  destruct (matrixMultiplyBruteForce_ok n h A B C fa fb) as (h1 & Hbf & _ & H1);
    [done..|].
  destruct (matrixMultiplyDivideConquer_ok n Hred h A B C fa fb)
    as (h2 & Hdc & _ & H2); [done..|].
  by exists h1, h2, (mmul n fa fb).
Qed.

Lemma divide_conquer_matches_brute_force_witness :
  exists h1 h2 c,
    matrixMultiplyBruteForce 1 2 3 4 sample4 = Some (tt, h1) /\
    matrixMultiplyDivideConquer 1 2 3 4 sample4 = Some (tt, h2) /\
    rep h1 3 4 c /\ rep h2 3 4 c.
Proof.
  apply (divide_conquer_matches_brute_force 4 sample4 1 2 3 counting4 counting4).
  - left. by exists 2%nat.
  - apply rep_check_sound. vm_compute. reflexivity.
  - apply rep_check_sound. vm_compute. reflexivity.
  - apply dest_check_sound. vm_compute. reflexivity.
  - apply sep_check_sound. vm_compute. reflexivity.
  - apply sep_check_sound. vm_compute. reflexivity.
Defined.



(** The equation of a level tells the function from
    [matrixMultiplyBruteForce], which is not a level over itself: on three
    rows and columns it writes the whole destination, and a level over it
    writes the first two only. *)
Example brute_force_is_not_a_level_over_itself :
  matrixMultiplyBruteForce 1 2 3 3 sample3 <>
  divide_conquer_step matrixMultiplyBruteForce 1 2 3 3 sample3.
Proof. vm_compute. intros H. discriminate H. Qed.

(** C3: [matrixMultiplyBruteForce] returns and leaves in [C[i][j]] the sum
    over [k] of [A[i][k] * B[k][j]], computed in 64-bit arithmetic (the sum
    itself whenever it fits in 64 bits); the loop that does not skip zero
    factors leaves the same matrix. *)
Theorem brute_force_computes_product n h A B C fa fb :
  rep h A n fa -> rep h B n fb -> dest h C n -> sep h C A n -> sep h C B n ->
  exists h1 h2,
    matrixMultiplyBruteForce A B C n h = Some (tt, h1) /\
    matrixMultiplyUnconditional A B C n h = Some (tt, h2) /\
    rep h1 C n (fun i j => wrap64 (mat_prod n fa fb i j)) /\
    rep h2 C n (fun i j => wrap64 (mat_prod n fa fb i j)) /\
    (forall i j, 0 <= i < n -> 0 <= j < n -> int64 (mat_prod n fa fb i j) ->
       cell h1 C i j = Some (mat_prod n fa fb i j)).
Proof.
  intros HA HB HC HsA HsB.
  destruct (matrixMultiplyBruteForce_ok n h A B C fa fb) as (h1 & Hbf & _ & H1);
    [done..|].
  destruct (matrixMultiplyUnconditional_ok n h A B C fa fb) as (h2 & Hun & _ & H2);
    [done..|].
  exists h1, h2. split; [done|]. split; [done|]. split; [done|]. split; [done|].
  intros i j Hi Hj Hint. rewrite (H1 i j Hi Hj). unfold mmul.
  by rewrite wrap64_id.
Qed.

Lemma brute_force_computes_product_witness :
  exists h1 h2,
    matrixMultiplyBruteForce 1 2 3 4 sample4 = Some (tt, h1) /\
    matrixMultiplyUnconditional 1 2 3 4 sample4 = Some (tt, h2) /\
    rep h1 3 4 (fun i j => wrap64 (mat_prod 4 counting4 counting4 i j)) /\
    rep h2 3 4 (fun i j => wrap64 (mat_prod 4 counting4 counting4 i j)) /\
    (forall i j, 0 <= i < 4 -> 0 <= j < 4 ->
       int64 (mat_prod 4 counting4 counting4 i j) ->
       cell h1 3 i j = Some (mat_prod 4 counting4 counting4 i j)).
Proof.
  apply (brute_force_computes_product 4 sample4 1 2 3 counting4 counting4).
  - apply rep_check_sound. vm_compute. reflexivity.
  - apply rep_check_sound. vm_compute. reflexivity.
  - apply dest_check_sound. vm_compute. reflexivity.
  - apply sep_check_sound. vm_compute. reflexivity.
  - apply sep_check_sound. vm_compute. reflexivity.
Defined.

(** The heap after the computation [m], for concrete runs. *)
Definition heap_after {A} (m : M A) (h : heap) : heap :=
  match m h with
  | Some (_, h') => h'
  | None => h
  end.

Definition ones : mat := fun _ _ => 1.

(** C4: [matrixMultiplyDivideConquer] does not check the size.  For the size
    3 and two matrices of ones, it returns without a failure, its result
    differs from that of [matrixMultiplyBruteForce] (2 instead of 3 at the
    top left), and the last row and the last column of the destination are
    what they were before the call. *)
Theorem odd_size_is_truncated :
  exists n h A B C fa fb h1 h2,
    2 < n /\ Z.rem n 2 = 1 /\
    rep h A n fa /\ rep h B n fb /\ dest h C n /\ sep h C A n /\ sep h C B n /\
    matrixMultiplyBruteForce A B C n h = Some (tt, h1) /\
    matrixMultiplyDivideConquer A B C n h = Some (tt, h2) /\
    (exists i j, 0 <= i < n /\ 0 <= j < n /\ cell h2 C i j <> cell h1 C i j) /\
    (forall i j, 0 <= i < n -> 0 <= j < n -> i = n - 1 \/ j = n - 1 ->
       cell h2 C i j = cell h C i j).
Proof.
  exists 3, sample3, 1%positive, 2%positive, 3%positive, ones, ones.
  exists (heap_after (matrixMultiplyBruteForce 1 2 3 3) sample3).
  exists (heap_after (matrixMultiplyDivideConquer 1 2 3 3) sample3).
  assert (HC : dest sample3 3 3)
    by (apply dest_check_sound; vm_compute; reflexivity).
  assert (Hdc : matrixMultiplyDivideConquer 1 2 3 3 sample3 =
                Some (tt, heap_after (matrixMultiplyDivideConquer 1 2 3 3) sample3))
    by (vm_compute; reflexivity).
  split; [lia|]. split; [reflexivity|].
  split; [apply rep_check_sound; vm_compute; reflexivity|].
  split; [apply rep_check_sound; vm_compute; reflexivity|].
  split; [done|].
  split; [apply sep_check_sound; vm_compute; reflexivity|].
  split; [apply sep_check_sound; vm_compute; reflexivity|].
  split; [vm_compute; reflexivity|]. split; [done|]. split.
  - exists 0, 0. split; [lia|]. split; [lia|]. vm_compute. discriminate.
  - by apply (odd_size_keeps_last_row_and_column 3 sample3 1 2 3 tt).
Qed.

(** A 4 x 4 matrix at the address 1, the identity matrix at the address 2
    and a matrix that was never written at the address 3. *)
Definition sample4_identity : heap :=
  Heap (list_to_map
          [(1%positive, Some <$> [10; 11; 12; 13]%positive);
           (2%positive, Some <$> [20; 21; 22; 23]%positive);
           (3%positive, Some <$> [30; 31; 32; 33]%positive)])
       (list_to_map
          [(10%positive, Some <$> [1; 2; 3; 4]);
           (11%positive, Some <$> [5; 6; 7; 8]);
           (12%positive, Some <$> [9; 10; 11; 12]);
           (13%positive, Some <$> [13; 14; 15; 16]);
           (20%positive, Some <$> [1; 0; 0; 0]);
           (21%positive, Some <$> [0; 1; 0; 0]);
           (22%positive, Some <$> [0; 0; 1; 0]);
           (23%positive, Some <$> [0; 0; 0; 1]);
           (30%positive, replicate 4 None);
           (31%positive, replicate 4 None);
           (32%positive, replicate 4 None);
           (33%positive, replicate 4 None)]).

(** The same with 3 x 3 matrices, the third one filled with zeros. *)
Definition sample3_identity : heap :=
  Heap (list_to_map
          [(1%positive, Some <$> [10; 11; 12]%positive);
           (2%positive, Some <$> [20; 21; 22]%positive);
           (3%positive, Some <$> [30; 31; 32]%positive)])
       (list_to_map
          [(10%positive, Some <$> [1; 2; 3]);
           (11%positive, Some <$> [4; 5; 6]);
           (12%positive, Some <$> [7; 8; 9]);
           (20%positive, Some <$> [1; 0; 0]);
           (21%positive, Some <$> [0; 1; 0]);
           (22%positive, Some <$> [0; 0; 1]);
           (30%positive, Some <$> [0; 0; 0]);
           (31%positive, Some <$> [0; 0; 0]);
           (32%positive, Some <$> [0; 0; 0])]).

Definition counting3 : mat := fun i j => 3 * i + j + 1.

(** C5, as stated, fails: for the size 3, the product of a matrix and the
    identity matrix by [matrixMultiplyDivideConquer] is not the matrix. *)
Lemma identity_product_fails_at_size_3 :
  rep sample3_identity 1 3 counting3 /\
  rep sample3_identity 2 3 identity_matrix /\
  dest sample3_identity 3 3 /\
  sep sample3_identity 3 1 3 /\ sep sample3_identity 3 2 3 /\
  (forall i j, 0 <= i < 3 -> 0 <= j < 3 -> int64 (counting3 i j)) /\
  ~ exists h', matrixMultiplyDivideConquer 1 2 3 3 sample3_identity = Some (tt, h') /\
               rep h' 3 3 counting3.
Proof.
  split; [apply rep_check_sound; vm_compute; reflexivity|].
  split; [apply rep_check_sound; vm_compute; reflexivity|].
  split; [apply dest_check_sound; vm_compute; reflexivity|].
  split; [apply sep_check_sound; vm_compute; reflexivity|].
  split; [apply sep_check_sound; vm_compute; reflexivity|].
  split; [intros i j Hi Hj; unfold counting3, int64; lia|].
  intros (h' & Hrun & Hrep).
  assert (Hc : (fun r => cell r.2 3 2 2) <$>
               matrixMultiplyDivideConquer 1 2 3 3 sample3_identity = Some (Some 0))
    by (vm_compute; reflexivity).
  rewrite Hrun in Hc. simpl in Hc. rewrite (Hrep 2 2) in Hc by lia.
  vm_compute in Hc. discriminate.
Qed.

(** C5, amended: with entries in the 64-bit range, the product of a matrix
    and the identity matrix, on either side, is the matrix: for every size
    with [matrixMultiplyBruteForce], and for the sizes that halve exactly
    down to the base case with [matrixMultiplyDivideConquer]. *)
Theorem identity_product_returns_operand n h A I C fa :
  (forall i j, 0 <= i < n -> 0 <= j < n -> int64 (fa i j)) ->
  rep h A n fa -> rep h I n identity_matrix ->
  dest h C n -> sep h C A n -> sep h C I n ->
  (exists h1, matrixMultiplyBruteForce A I C n h = Some (tt, h1) /\ rep h1 C n fa) /\
  (exists h1, matrixMultiplyBruteForce I A C n h = Some (tt, h1) /\ rep h1 C n fa) /\
  (reducible n ->
   (exists h2, matrixMultiplyDivideConquer A I C n h = Some (tt, h2) /\ rep h2 C n fa) /\
   (exists h2, matrixMultiplyDivideConquer I A C n h = Some (tt, h2) /\ rep h2 C n fa)).
Proof.
  intros Hint HA HI HC HsA HsI.
  assert (Hr : forall i j, 0 <= i < n -> 0 <= j < n ->
            mmul n fa identity_matrix i j = fa i j).
  { intros i j Hi Hj. unfold mmul. rewrite mat_prod_identity_r by done.
    apply wrap64_id. by apply Hint. }
  assert (Hl : forall i j, 0 <= i < n -> 0 <= j < n ->
            mmul n identity_matrix fa i j = fa i j).
  { intros i j Hi Hj. unfold mmul. rewrite mat_prod_identity_l by done.
    apply wrap64_id. by apply Hint. }
  assert (Hgen : forall op, binop_ok op (mmul n) n ->
            (exists h1, op A I C n h = Some (tt, h1) /\ rep h1 C n fa) /\
            (exists h1, op I A C n h = Some (tt, h1) /\ rep h1 C n fa)).
  { intros op Hop. split.
    - destruct (Hop h A I C fa identity_matrix) as (h1 & Hrun & _ & Hrep); [done..|].
      exists h1. split; [done|]. exact (rep_ext _ _ _ _ _ Hr Hrep).
    - destruct (Hop h I A C identity_matrix fa) as (h1 & Hrun & _ & Hrep); [done..|].
      exists h1. split; [done|]. exact (rep_ext _ _ _ _ _ Hl Hrep). }
  destruct (Hgen _ (matrixMultiplyBruteForce_ok n)) as [H1 H2].
  split; [done|]. split; [done|]. intros Hred.
  by apply Hgen, matrixMultiplyDivideConquer_ok.
Qed.

Lemma identity_product_returns_operand_witness :
  (exists h1, matrixMultiplyBruteForce 1 2 3 4 sample4_identity = Some (tt, h1) /\
              rep h1 3 4 counting4) /\
  (exists h1, matrixMultiplyBruteForce 2 1 3 4 sample4_identity = Some (tt, h1) /\
              rep h1 3 4 counting4) /\
  (reducible 4 ->
   (exists h2, matrixMultiplyDivideConquer 1 2 3 4 sample4_identity = Some (tt, h2) /\
               rep h2 3 4 counting4) /\
   (exists h2, matrixMultiplyDivideConquer 2 1 3 4 sample4_identity = Some (tt, h2) /\
               rep h2 3 4 counting4)).
Proof.
  apply (identity_product_returns_operand 4 sample4_identity 1 2 3 counting4).
  - intros i j Hi Hj. unfold counting4, int64. lia.
  - apply rep_check_sound. vm_compute. reflexivity.
  - apply rep_check_sound. vm_compute. reflexivity.
  - apply dest_check_sound. vm_compute. reflexivity.
  - apply sep_check_sound. vm_compute. reflexivity.
  - apply sep_check_sound. vm_compute. reflexivity.
Defined.

(** C6: [addMatrix] leaves [A[i][j] + B[i][j]] and [subtractMatrix] leaves
    [A[i][j] - B[i][j]] in the destination, in 64-bit arithmetic (the sum
    and the difference themselves whenever they fit in 64 bits); adding [B]
    and then subtracting [B] from the result gives [A] back. *)
Theorem add_subtract_round_trip n h A B T R fa fb :
  (forall i j, 0 <= i < n -> 0 <= j < n -> int64 (fa i j)) ->
  rep h A n fa -> rep h B n fb ->
  dest h T n -> sep h T A n -> sep h T B n ->
  dest h R n -> sep h R T n -> sep h R B n ->
  (exists h1 h2,
     addMatrix A B T n h = Some (tt, h1) /\
     rep h1 T n (fun i j => wrap64 (fa i j + fb i j)) /\
     (forall i j, 0 <= i < n -> 0 <= j < n -> int64 (fa i j + fb i j) ->
        cell h1 T i j = Some (fa i j + fb i j)) /\
     subtractMatrix T B R n h1 = Some (tt, h2) /\
     rep h2 R n fa) /\
  (exists h3,
     subtractMatrix A B T n h = Some (tt, h3) /\
     rep h3 T n (fun i j => wrap64 (fa i j - fb i j)) /\
     (forall i j, 0 <= i < n -> 0 <= j < n -> int64 (fa i j - fb i j) ->
        cell h3 T i j = Some (fa i j - fb i j))).
Proof.
  intros Hint HA HB HT HTA HTB HR HRT HRB. split.
  - destruct (addMatrix_ok n h A B T fa fb) as (h1 & Hadd & Hp1 & HT1); [done..|].
    destruct (decide (n <= 0)) as [Hn|Hn].
    { exists h1. destruct (subtractMatrix_ok n h1 T B R (madd fa fb) fb)
        as (h2 & Hsub & _ & HR2); try (intros i j; lia).
      - split; intros i; lia.
      - exists h2. split; [done|]. split; [done|].
        split; [intros; lia|]. split; [done|]. intros i j; lia. }
    assert (HTa : is_Some (ptrs h !! T))
      by (apply (dest_allocated h T n); [lia|done]).
    assert (HB1 : rep h1 B n fb)
      by (eapply rep_pres_sep; [done|by intros []|lia|done..]).
    assert (HRa : is_Some (ptrs h !! R))
      by (apply (dest_allocated h R n); [lia|done]).
    assert (HBa : is_Some (ptrs h !! B)).
    { assert (Hc : cell h B 0 0 = Some (fb 0 0)) by (apply HB; lia).
      apply cell_Some in Hc as (r & Hr & _). by eapply row_of_Some_ptrs. }
    destruct (subtractMatrix_ok n h1 T B R (madd fa fb) fb)
      as (h2 & Hsub & _ & HR2); [done..| | | |].
    { eapply dest_pres; [done|by intros []|done]. }
    { eapply sep_pres; [done|by intros []..|done|done|done]. }
    { eapply sep_pres; [done|by intros []..|done|done|done]. }
    exists h1, h2. split; [done|]. split; [done|]. split; [|split; [done|]].
    + intros i j Hi Hj Hfit. rewrite (HT1 i j Hi Hj). unfold madd.
      by rewrite wrap64_id.
    + eapply rep_ext; [|done]. intros i j Hi Hj. unfold msub, madd.
      rewrite <- (wrap64_id (fa i j)) at 2 by (by apply Hint).
      apply wrap64_congr. rewrite wrap64_eqm. unfold eqm64. f_equal. lia.
  - destruct (subtractMatrix_ok n h A B T fa fb) as (h3 & Hsub & _ & HT3); [done..|].
    exists h3. split; [done|]. split; [done|].
    intros i j Hi Hj Hfit. rewrite (HT3 i j Hi Hj). unfold msub.
    by rewrite wrap64_id.
Qed.

Lemma add_subtract_round_trip_witness :
  (exists h1 h2,
     addMatrix 1 2 3 4 sample4 = Some (tt, h1) /\
     rep h1 3 4 (fun i j => wrap64 (counting4 i j + counting4 i j)) /\
     (forall i j, 0 <= i < 4 -> 0 <= j < 4 ->
        int64 (counting4 i j + counting4 i j) ->
        cell h1 3 i j = Some (counting4 i j + counting4 i j)) /\
     subtractMatrix 3 2 1 4 h1 = Some (tt, h2) /\
     rep h2 1 4 counting4) /\
  (exists h3,
     subtractMatrix 1 2 3 4 sample4 = Some (tt, h3) /\
     rep h3 3 4 (fun i j => wrap64 (counting4 i j - counting4 i j)) /\
     (forall i j, 0 <= i < 4 -> 0 <= j < 4 ->
        int64 (counting4 i j - counting4 i j) ->
        cell h3 3 i j = Some (counting4 i j - counting4 i j))).
Proof.
  apply (add_subtract_round_trip 4 sample4 1 2 3 1 counting4 counting4).
  - intros i j Hi Hj. unfold counting4, int64. lia.
  - apply rep_check_sound. vm_compute. reflexivity.
  - apply rep_check_sound. vm_compute. reflexivity.
  - apply dest_check_sound. vm_compute. reflexivity.
  - apply sep_check_sound. vm_compute. reflexivity.
  - apply sep_check_sound. vm_compute. reflexivity.
  - apply dest_check_sound. vm_compute. reflexivity.
  - apply sep_check_sound. vm_compute. reflexivity.
  - apply sep_check_sound. vm_compute. reflexivity.
Defined.

(** C7: on two matrices whose entries can be read, [verifyMatrices] returns,
    leaves the heap as it is, and answers [true] exactly when
    [A[i][j] == B[i][j]] for all [i] and [j] below [n]. *)
Theorem verifyMatrices_true_iff_equal n h A B fa fb :
  rep h A n fa -> rep h B n fb ->
  exists b, verifyMatrices A B n h = Some (b, h) /\
            (b = true <->
             forall i j, 0 <= i < n -> 0 <= j < n -> cell h A i j = cell h B i j).
Proof.
  intros HA HB. destruct (verifyMatrices_spec h A B n fa fb HA HB) as (b & Hrun & Hb).
  exists b. split; [done|]. rewrite Hb. split.
  - intros Heq i j Hi Hj. by rewrite (HA i j), (HB i j), Heq.
  - intros Heq i j Hi Hj. specialize (Heq i j Hi Hj).
    rewrite (HA i j), (HB i j) in Heq by done. by injection Heq.
Qed.

Lemma verifyMatrices_true_iff_equal_witness :
  exists b, verifyMatrices 1 2 4 sample4 = Some (b, sample4) /\
            (b = true <->
             forall i j, 0 <= i < 4 -> 0 <= j < 4 ->
               cell sample4 1 i j = cell sample4 2 i j).
Proof.
  apply (verifyMatrices_true_iff_equal 4 sample4 1 2 counting4 counting4).
  - apply rep_check_sound. vm_compute. reflexivity.
  - apply rep_check_sound. vm_compute. reflexivity.
Defined.

(** At size 6 the level of size 6 adds the products of size 3, whose last
    row and column were never written. *)
Example size_6_reads_unwritten_cells :
  matrixMultiplyDivideConquer 1 2 3 6 sample6 = None /\
  is_Some (matrixMultiplyDivideConquer_junk (fun _ j => j) 1 2 3 6 sample6).
Proof. split; [vm_compute; reflexivity|]. vm_compute. eauto. Qed.

(** C8: the two multiplications write the destination only.  Whenever a call
    returns, for every size, the operands hold what they held, and every
    array of row pointers and every cell of the heap before the call is
    there with its contents, except the cells of the leading [n x n] part
    of [C].  [matrixMultiplyBruteForce] does return; so does
    [matrixMultiplyDivideConquer] for the sizes that halve exactly.  At
    other sizes, 6 for one, a level of the recursion adds products that an
    odd level below left partly unwritten: read with cells that cannot be
    read before they are written, such a call does not return
    ([size_6_reads_unwritten_cells]).  Read with new cells that hold
    values, whatever they are ([matrixMultiplyDivideConquer_junk]), the
    call returns for every size, with the operands and the rest of the heap
    as they were; and where the first reading returns too, every cell it
    can read afterwards holds the same value in the second. *)
Theorem multiplication_writes_only_destination n h A B C fa fb :
  rep h A n fa -> rep h B n fb -> dest h C n -> sep h C A n -> sep h C B n ->
  (exists h1, matrixMultiplyBruteForce A B C n h = Some (tt, h1) /\
              rep h1 A n fa /\ rep h1 B n fb /\ pres nobody (win h C n) h h1) /\
  (forall u h2, matrixMultiplyDivideConquer A B C n h = Some (u, h2) ->
                rep h2 A n fa /\ rep h2 B n fb /\ pres nobody (win h C n) h h2) /\
  (reducible n ->
   exists h2, matrixMultiplyDivideConquer A B C n h = Some (tt, h2)) /\
  (forall junk,
   exists h3, matrixMultiplyDivideConquer_junk junk A B C n h = Some (tt, h3) /\
              rep h3 A n fa /\ rep h3 B n fb /\ pres nobody (win h C n) h h3 /\
              forall u h2, matrixMultiplyDivideConquer A B C n h = Some (u, h2) ->
                           refines h2 h3).
Proof.
  intros HA HB HC HsA HsB. split; [|split; [|split]].
  - destruct (matrixMultiplyBruteForce_ok n h A B C fa fb) as (h1 & Hbf & Hp & _);
      [done..|].
    exists h1. split; [done|].
    split; [by eapply rep_pres_sep; [done|intros []|lia|done..]|].
    split; [by eapply rep_pres_sep; [done|intros []|lia|done..]|done].
  - intros u h2 Hrun. destruct (decide (n <= 0)) as [Hn|Hn].
    { assert (h2 = h) as ->.
      { rewrite matrixMultiplyDivideConquer_unfold in Hrun.
        unfold divide_conquer_step in Hrun. rewrite decide_True in Hrun by lia.
        unfold matrixMultiplyBruteForce in Hrun.
        rewrite for_empty in Hrun by done. by injection Hrun. }
      split; [done|]. split; [done|]. apply pres_refl. }
    assert (HCa : is_Some (ptrs h !! C))
      by (apply (dest_allocated h C n); [lia|done]).
    assert (Hp : pres nobody (win h C n) h h2).
    { eapply (frames_weaken _ n (span n) n); [apply span_le| |done|exact Hrun].
      apply matrixMultiplyDivideConquer_frames. }
    split; [by eapply rep_pres_sep; [done|intros []|lia|done..]|].
    split; [by eapply rep_pres_sep; [done|intros []|lia|done..]|done].
  - intros Hred.
    destruct (matrixMultiplyDivideConquer_ok n Hred h A B C fa fb)
      as (h2 & Hdc & _); [done..|]. eauto.
  - intros junk.
    destruct (matrixMultiplyDivideConquer_junk_safe junk n h A B C fa fb)
      as (h3 & Hrun & Hp & _); [done..|].
    exists h3. split; [done|].
    split; [by eapply rep_pres_sep; [done|intros []|lia|done..]|].
    split; [by eapply rep_pres_sep; [done|intros []|lia|done..]|].
    split; [done|]. intros u h2 Hdc.
    destruct (matrixMultiplyDivideConquer_junk_agrees junk A B C n h u h2 Hdc)
      as (hj & Hj & Href).
    rewrite Hrun in Hj. by injection Hj as _ <-.
Qed.

Lemma multiplication_writes_only_destination_witness :
  (exists h1, matrixMultiplyBruteForce 1 2 3 6 sample6 = Some (tt, h1) /\
              rep h1 1 6 counting6 /\ rep h1 2 6 counting6 /\
              pres nobody (win sample6 3 6) sample6 h1) /\
  (forall u h2, matrixMultiplyDivideConquer 1 2 3 6 sample6 = Some (u, h2) ->
                rep h2 1 6 counting6 /\ rep h2 2 6 counting6 /\
                pres nobody (win sample6 3 6) sample6 h2) /\
  (reducible 6 ->
   exists h2, matrixMultiplyDivideConquer 1 2 3 6 sample6 = Some (tt, h2)) /\
  (forall junk,
   exists h3, matrixMultiplyDivideConquer_junk junk 1 2 3 6 sample6 = Some (tt, h3) /\
              rep h3 1 6 counting6 /\ rep h3 2 6 counting6 /\
              pres nobody (win sample6 3 6) sample6 h3 /\
              forall u h2, matrixMultiplyDivideConquer 1 2 3 6 sample6 = Some (u, h2) ->
                           refines h2 h3).
Proof.
  apply (multiplication_writes_only_destination 6 sample6 1 2 3 counting6 counting6).
  - apply rep_check_sound. vm_compute. reflexivity.
  - apply rep_check_sound. vm_compute. reflexivity.
  - apply dest_check_sound. vm_compute. reflexivity.
  - apply sep_check_sound. vm_compute. reflexivity.
  - apply sep_check_sound. vm_compute. reflexivity.
Defined.

(** * Verification of factorial.cpp *)

(** The product [1 * 2 * ... * k]. *)
Fixpoint product_upto (k : nat) : Z :=
  match k with
  | O => 1
  | S k' => product_upto k' * Z.of_nat (S k')
  end.

(** The invariant of the array: every element is [0] or the factorial of
    its index, modulo [2 ^ 64]. *)
Definition memo_ok (memo : list Z) : Prop :=
  length memo = 100%nat /\
  forall k v, memo !! k = Some v -> v = 0 \/ v = wrapu64 (product_upto k).

(** The arrays a program can meet: the initial one, and the one left by a
    call that returned. *)
Inductive reachable : list Z -> Prop :=
| reachable_init : reachable memo_init
| reachable_call memo n r memo' :
    reachable memo ->
    factorialDivideConquer n memo = Some (r, memo') ->
    reachable memo'.

Lemma product_upto_step i :
  1 <= i ->
  product_upto (Z.to_nat i) = product_upto (Z.to_nat (i - 1)) * i.
Proof.
  intros Hi. replace (Z.to_nat i) with (S (Z.to_nat (i - 1))) by lia.
  cbn [product_upto]. f_equal. lia.
Qed.

Lemma wrapu64_step i :
  1 <= i ->
  wrapu64 (wrapu64 (product_upto (Z.to_nat (i - 1))) * i) =
  wrapu64 (product_upto (Z.to_nat i)).
Proof.
  intros Hi. unfold wrapu64. rewrite Z.mul_mod_idemp_l by lia.
  by rewrite <- product_upto_step.
Qed.

Lemma product_upto_le_1 n : n <= 1 -> wrapu64 (product_upto (Z.to_nat n)) = 1.
Proof.
  intros Hn. destruct (decide (n = 1)) as [->|].
  - reflexivity.
  - replace (Z.to_nat n) with 0%nat by lia. reflexivity.
Qed.

Lemma factorial_loop_spec n i :
  n < INT_MAX -> 1 <= i <= n + 1 ->
  factorial_loop n i (wrapu64 (product_upto (Z.to_nat (i - 1)))) =
  Some (wrapu64 (product_upto (Z.to_nat n))).
Proof.
  intros Hn. remember (Z.to_nat (n + 1 - i)) as k eqn:Hk.
  revert i Hk. induction k as [|k IH]; intros i Hk Hi.
  - rewrite factorial_loop_equation_1.
    destruct (decide (i <= n)); [lia|]. cbn. do 3 f_equal. lia.
  - rewrite factorial_loop_equation_1.
    destruct (decide (i <= n)); [|lia]. cbn.
    destruct (decide (INT_MAX < i + 1)); [lia|].
    rewrite (wrapu64_step i) by lia.
    replace i with (i + 1 - 1) at 2 by lia. apply IH; lia.
Qed.

Lemma factorialBruteForce_spec n :
  n < INT_MAX ->
  factorialBruteForce n = Some (wrapu64 (product_upto (Z.to_nat n))).
Proof.
  intros Hn. unfold factorialBruteForce. destruct (decide (n <= 1)).
  - by rewrite product_upto_le_1.
  - apply (factorial_loop_spec n 2); [done|lia].
Qed.

Lemma memo_ok_init : memo_ok memo_init.
Proof.
  split; [done|]. intros k v Hv. left.
  apply lookup_replicate in Hv as [-> _]. done.
Qed.

Lemma memo_get_Some memo n :
  memo_ok memo -> 0 <= n <= 99 -> exists v, memo_get memo n = Some v.
Proof.
  intros [Hlen _] Hn. unfold memo_get. rewrite decide_True by lia.
  apply lookup_lt_is_Some. lia.
Qed.

Lemma memo_get_None memo n : memo_ok memo -> 99 < n -> memo_get memo n = None.
Proof.
  intros [Hlen _] Hn. unfold memo_get. rewrite decide_True by lia.
  apply lookup_ge_None. lia.
Qed.

Lemma memo_set_ok memo n :
  memo_ok memo -> 0 <= n <= 99 ->
  let v := wrapu64 (product_upto (Z.to_nat n)) in
  exists memo', memo_set memo n v = Some memo' /\ memo_ok memo' /\
                memo_get memo' n = Some v.
Proof.
  intros [Hlen Hok] Hn v. exists (<[Z.to_nat n := v]> memo).
  unfold memo_set, memo_get. rewrite !decide_True by lia.
  split; [done|]. split; [split|].
  - by rewrite length_insert.
  - intros k w. destruct (decide (k = Z.to_nat n)) as [->|Hk].
    + rewrite list_lookup_insert_eq by lia. intros [= <-]. by right.
    + rewrite list_lookup_insert_ne by done. apply Hok.
  - apply list_lookup_insert_eq. lia.
Qed.

(** A call with an index of the array returns the factorial and keeps the
    invariant. *)
Lemma factorialDivideConquer_spec n memo :
  memo_ok memo -> n <= 99 ->
  exists memo',
    factorialDivideConquer n memo =
      Some (wrapu64 (product_upto (Z.to_nat n)), memo') /\
    memo_ok memo'.
Proof.
  generalize (@eq_refl _ (Z.to_nat n)). generalize (Z.to_nat n) at 1 as k.
  intros k. revert n memo.
  induction k as [|k IH]; intros n memo Hk Hok Hn;
    rewrite factorialDivideConquer_equation_1;
    destruct (decide (n <= 1)) as [Hle|Hgt]; try lia.
  - exists memo. by rewrite product_upto_le_1.
  - exists memo. by rewrite product_upto_le_1.
  - cbn. destruct (memo_get_Some memo n Hok) as [v Hv]; [lia|]. rewrite Hv.
    destruct (decide (v <> 0)) as [Hnz|Hz].
    + exists memo. split; [|done]. do 2 f_equal.
      unfold memo_get in Hv. rewrite decide_True in Hv by lia.
      destruct Hok as [_ Hok]. by destruct (Hok _ _ Hv).
    + destruct (IH (n - 1) memo) as (memo1 & -> & Hok1); [lia|done|lia|].
      rewrite Z.mul_comm, wrapu64_step by lia.
      destruct (memo_set_ok memo1 n Hok1) as (memo2 & -> & Hok2 & ->); [lia|].
      by exists memo2.
Qed.

(** An index beyond the array makes the call fail. *)
Lemma factorialDivideConquer_beyond n memo :
  memo_ok memo -> 99 < n -> factorialDivideConquer n memo = None.
Proof.
  intros Hok Hn. rewrite factorialDivideConquer_equation_1.
  destruct (decide (n <= 1)); [lia|]. cbn. by rewrite memo_get_None.
Qed.

Lemma reachable_memo_ok memo : reachable memo -> memo_ok memo.
Proof.
  induction 1 as [|memo n r memo' _ IH Hcall]; [apply memo_ok_init|].
  destruct (decide (n <= 99)) as [Hn|Hn].
  - destruct (factorialDivideConquer_spec n memo IH Hn) as (m & Hm & Hok).
    rewrite Hm in Hcall. by injection Hcall as _ <-.
  - rewrite factorialDivideConquer_beyond in Hcall by (done || lia). done.
Qed.

(** [66!] is a multiple of [2 ^ 64]: the element of index 66 is [0] also
    after it was computed, and is computed again by the next call. *)
Example product_upto_66 : wrapu64 (product_upto 66) = 0.
Proof. vm_compute. reflexivity. Qed.

Example factorialDivideConquer_20 :
  exists memo, factorialDivideConquer 20 memo_init =
                 Some (2432902008176640000, memo) /\
               memo !! 20%nat = Some 2432902008176640000 /\
               memo !! 1%nat = Some 0.
Proof. eexists. vm_compute. done. Qed.

(** C9: in every array a program can meet, an element is [0] or the
    factorial of its index modulo [2 ^ 64]; so for [n <= 99], from every
    such array, [factorialDivideConquer n] returns what
    [factorialBruteForce n] returns, the product [1 * 2 * ... * n] modulo
    [2 ^ 64], which is [1] for [n <= 1]. *)
Theorem factorial_memo_invariant memo n :
  reachable memo -> n <= 99 ->
  memo_ok memo /\
  exists memo',
    factorialDivideConquer n memo =
      Some (wrapu64 (product_upto (Z.to_nat n)), memo') /\
    reachable memo' /\
    factorialBruteForce n = Some (wrapu64 (product_upto (Z.to_nat n))) /\
    (n <= 1 -> wrapu64 (product_upto (Z.to_nat n)) = 1).
Proof.
  intros Hreach Hn. assert (Hok := reachable_memo_ok memo Hreach).
  split; [done|].
  destruct (factorialDivideConquer_spec n memo Hok Hn) as (memo' & Hcall & _).
  exists memo'. split; [done|]. split; [by eapply reachable_call|].
  split; [|apply product_upto_le_1].
  apply factorialBruteForce_spec. unfold INT_MAX. lia.
Qed.

Lemma factorial_memo_invariant_witness :
  memo_ok memo_init /\
  exists memo',
    factorialDivideConquer 20 memo_init =
      Some (wrapu64 (product_upto (Z.to_nat 20)), memo') /\
    reachable memo' /\
    factorialBruteForce 20 = Some (wrapu64 (product_upto (Z.to_nat 20))) /\
    (20 <= 1 -> wrapu64 (product_upto (Z.to_nat 20)) = 1).
Proof.
  apply (factorial_memo_invariant memo_init 20).
  - apply reachable_init.
  - lia.
Defined.

(** * Verification of the prime-number program *)

#[global] Instance prime_decision (p : Z) : Decision (Z.prime p).
Proof. destruct (prime_dec p); [left|right]; by rewrite prime_alt. Defined.

Ltac int_lia :=
  unfold int, INT_MIN, INT_MAX in *; Z.div_mod_to_equations; lia.

(** The primes from [2] to [n]. *)
Definition primes_upto (n : Z) : list Z := filter Z.prime (seqZ 2 (n - 1)).

Lemma prime_no_divisor n :
  1 < n -> Z.prime n <-> forall d, 1 < d < n -> ~ (d | n).
Proof. intros Hn. unfold Z.prime. tauto. Qed.

Lemma rem_zero_divide n d : 0 < d -> Z.rem n d = 0 <-> (d | n).
Proof. intros Hd. apply Z.rem_divide. lia. Qed.

Lemma rem_mod n d : 0 <= n -> 0 < d -> Z.rem n d = n mod d.
Proof. intros. apply Z.rem_mod_nonneg; lia. Qed.

Lemma mod_zero_divide n d : 0 < d -> n mod d = 0 <-> (d | n).
Proof. intros Hd. apply Z.mod_divide. lia. Qed.

(** A proper divisor comes with one whose square is at most [n]. *)
Lemma small_divisor n d :
  1 < d < n -> (d | n) -> exists d', 1 < d' /\ d' * d' <= n /\ (d' | n).
Proof.
  intros Hd [q Hq]. assert (1 < q) by nia.
  destruct (decide (d <= q)).
  - exists d. split; [lia|]. split; [nia|]. by exists q.
  - exists q. split; [lia|]. split; [nia|]. exists d. lia.
Qed.

Lemma brute_force_loop_spec n i :
  int n -> 0 < i -> n mod 2 = 1 -> i mod 2 = 1 ->
  exists b, brute_force_loop n i = Some b /\
            (b = true <->
             forall d, i <= d < n -> d mod 2 = 1 -> Z.rem n d <> 0).
Proof.
  intros Hn. assert (Hk : (Z.to_nat (n - i) <= Z.to_nat (n - i))%nat) by lia.
  revert Hk. generalize (Z.to_nat (n - i)) at 2 as k. intros k. revert i.
  induction k as [|k IH]; intros i Hk Hi Hodd Hiodd;
    rewrite brute_force_loop_equation_1;
    destruct (decide (i < n)) as [Hlt|Hge]; try lia; cbn.
  - exists true. split; [done|]. split; [|done]. intros _ d Hd. lia.
  - destruct (decide (i = 0)); [lia|].
    destruct (decide (Z.rem n i = 0)) as [Hz|Hnz].
    { exists false. split; [done|]. split; [done|].
      intros Hall. destruct (Hall i); [lia|done..]. }
    destruct (decide (INT_MAX < i + 2)); [int_lia|].
    destruct (IH (i + 2)) as (b & -> & Hb); [lia|lia|done| |].
    { rewrite <- Zplus_mod_idemp_l, Hiodd. reflexivity. }
    exists b. split; [done|]. rewrite Hb. split.
    + intros Hall d Hd Hdodd. destruct (decide (d = i)) as [->|]; [done|].
      apply Hall; [|done]. clear Hall Hb IH. int_lia.
    + intros Hall d Hd Hdodd. apply Hall; [lia|done].
  - exists true. split; [done|]. split; [|done]. intros _ d Hd. lia.
Qed.

Lemma isPrimeBruteForce_spec n :
  int n -> exists b, isPrimeBruteForce n = Some b /\ (b = true <-> Z.prime n).
Proof.
  intros Hn. unfold isPrimeBruteForce.
  destruct (decide (n <= 1)) as [H1|H1].
  { exists false. split; [done|]. split; [done|]. intros [Hp _]. lia. }
  destruct (decide (n <= 3)) as [H3|H3].
  { exists true. split; [done|]. split; [|done]. intros _.
    assert (n = 2 \/ n = 3) as [->| ->] by lia; [apply Z.prime_2|apply Z.prime_3]. }
  rewrite !rem_mod by lia.
  destruct (decide (n mod 2 = 0 \/ n mod 3 = 0)) as [Hd|Hd].
  { exists false. split; [done|]. split; [done|].
    rewrite prime_no_divisor by lia. intros Hp. exfalso.
    destruct Hd as [Hd|Hd]; apply mod_zero_divide in Hd; try lia.
    - apply (Hp 2); [lia|done].
    - apply (Hp 3); [lia|done]. }
  destruct (brute_force_loop_spec n 5) as (b & -> & Hb); [done|lia|int_lia|done|].
  exists b. split; [done|]. rewrite Hb, prime_no_divisor by lia. split.
  - intros Hall d Hdn Hdiv.
    destruct (decide (d mod 2 = 0)) as [He|Ho].
    { apply Hd. left. apply mod_zero_divide; [lia|].
      apply mod_zero_divide in He; [|lia]. by eapply Z.divide_trans. }
    destruct (decide (d = 3)) as [->|].
    { apply Hd. right. by apply mod_zero_divide. }
    apply (Hall d); [int_lia|int_lia|]. by apply rem_zero_divide; [lia|].
  - intros Hp d Hdn Hdodd Hrem. apply (Hp d); [lia|].
    by apply rem_zero_divide; [lia|].
Qed.

Lemma divide_conquer_loop_spec n sqrtN i :
  0 < i -> sqrtN * sqrtN <= INT_MAX ->
  exists b, divide_conquer_loop n sqrtN i = Some b /\
            (b = true <->
             forall k, 0 <= k -> i + 6 * k <= sqrtN ->
               Z.rem n (i + 6 * k) <> 0 /\ Z.rem n (i + 6 * k + 2) <> 0).
Proof.
  intros Hi Hs.
  assert (Hk : (Z.to_nat (sqrtN + 1 - i) <= Z.to_nat (sqrtN + 1 - i))%nat) by lia.
  revert Hk Hi. generalize (Z.to_nat (sqrtN + 1 - i)) at 2 as m.
  intros m. revert i.
  induction m as [|m IH]; intros i Hm Hi;
    rewrite divide_conquer_loop_equation_1;
    destruct (decide (i <= sqrtN)) as [Hle|Hgt]; try lia; cbn.
  - exists true. split; [done|]. split; [|done]. intros _ k Hk. lia.
  - assert (i + 6 < INT_MAX) by (unfold INT_MAX in *; nia).
    destruct (decide (i = 0)); [lia|].
    destruct (decide (Z.rem n i = 0)) as [Hz|Hnz].
    { exists false. split; [done|]. split; [done|]. intros Hall.
      destruct (Hall 0) as [Hr _]; [lia|lia|].
      by rewrite Z.mul_0_r, Z.add_0_r in Hr. }
    destruct (decide (INT_MAX < i + 2)); [lia|].
    destruct (decide (i + 2 = 0)); [lia|].
    destruct (decide (Z.rem n (i + 2) = 0)) as [Hz2|Hnz2].
    { exists false. split; [done|]. split; [done|]. intros Hall.
      destruct (Hall 0) as [_ Hr]; [lia|lia|].
      by rewrite Z.mul_0_r, Z.add_0_r in Hr. }
    destruct (decide (INT_MAX < i + 6)); [lia|].
    destruct (IH (i + 6)) as (b & -> & Hb); [lia|lia|].
    exists b. split; [done|]. rewrite Hb. split.
    + intros Hall k Hk Hks. destruct (decide (k = 0)) as [->|Hk0].
      { by rewrite Z.mul_0_r, Z.add_0_r. }
      replace (i + 6 * k) with (i + 6 + 6 * (k - 1)) by lia.
      apply Hall; lia.
    + intros Hall k Hk Hks.
      replace (i + 6 + 6 * k) with (i + 6 * (k + 1)) by lia.
      apply Hall; lia.
  - exists true. split; [done|]. split; [|done]. intros _ k Hk. lia.
Qed.

Lemma isPrimeDivideConquer_spec n :
  int n -> exists b, isPrimeDivideConquer n = Some b /\ (b = true <-> Z.prime n).
Proof.
  intros Hn. unfold isPrimeDivideConquer.
  destruct (decide (n <= 1)) as [H1|H1].
  { exists false. split; [done|]. split; [done|]. intros [Hp _]. lia. }
  destruct (decide (n <= 3)) as [H3|H3].
  { exists true. split; [done|]. split; [|done]. intros _.
    assert (n = 2 \/ n = 3) as [->| ->] by lia; [apply Z.prime_2|apply Z.prime_3]. }
  rewrite !rem_mod by lia.
  destruct (decide (n mod 2 = 0 \/ n mod 3 = 0)) as [Hd|Hd].
  { exists false. split; [done|]. split; [done|].
    rewrite prime_no_divisor by lia. intros Hp. exfalso.
    destruct Hd as [Hd|Hd]; apply mod_zero_divide in Hd; try lia.
    - apply (Hp 2); [lia|done].
    - apply (Hp 3); [lia|done]. }
  cbv zeta. destruct (Z.sqrt_spec n) as [Hs1 Hs2]; [lia|].
  assert (Hs0 : 0 <= Z.sqrt n) by apply Z.sqrt_nonneg.
  set (s := Z.sqrt n) in *.
  destruct (divide_conquer_loop_spec n s 5) as (b & -> & Hb);
    [lia|unfold int in Hn; lia|].
  exists b. split; [done|]. rewrite Hb, prime_no_divisor by lia. split.
  - intros Hall d0 Hd0 Hdiv0.
    destruct (small_divisor n d0 Hd0 Hdiv0) as (d & Hd1 & Hdd & Hdiv).
    assert (Hds : d <= s) by nia.
    assert (H2 : d mod 2 <> 0).
    { intros He. apply Hd. left. apply mod_zero_divide; [lia|].
      apply mod_zero_divide in He; [|lia]. by eapply Z.divide_trans. }
    assert (H3' : d mod 3 <> 0).
    { intros He. apply Hd. right. apply mod_zero_divide; [lia|].
      apply mod_zero_divide in He; [|lia]. by eapply Z.divide_trans. }
    apply rem_zero_divide in Hdiv; [|lia].
    assert (Hcase : d mod 6 = 5 \/ d mod 6 = 1)
      by (clear Hall Hb; Z.div_mod_to_equations; lia).
    destruct Hcase as [H5|H7].
    + destruct (Hall ((d - 5) / 6)) as [Hr _].
      * clear Hall Hb. Z.div_mod_to_equations. lia.
      * clear Hall Hb. Z.div_mod_to_equations. lia.
      * apply Hr. rewrite <- Hdiv. f_equal.
        clear Hall Hb Hr. Z.div_mod_to_equations. lia.
    + destruct (Hall ((d - 7) / 6)) as [_ Hr].
      * clear Hall Hb. Z.div_mod_to_equations. lia.
      * clear Hall Hb. Z.div_mod_to_equations. lia.
      * apply Hr. rewrite <- Hdiv. f_equal.
        clear Hall Hb Hr. Z.div_mod_to_equations. lia.
  - intros Hp k Hk Hks. split; intros Hrem.
    + apply (Hp (5 + 6 * k)); [nia|]. by apply rem_zero_divide; [lia|].
    + apply (Hp (5 + 6 * k + 2)); [nia|]. by apply rem_zero_divide; [lia|].
Qed.

Lemma isPrime_decide isPrime n :
  (exists b, isPrime n = Some b /\ (b = true <-> Z.prime n)) ->
  isPrime n = Some (bool_decide (Z.prime n)).
Proof.
  intros (b & -> & Hb). f_equal. destruct b.
  - symmetry. apply bool_decide_eq_true. by apply Hb.
  - symmetry. apply bool_decide_eq_false. intros Hp. by apply Hb in Hp.
Qed.

(** Two tests that agree on the numbers met give the same count, or fail
    together. *)
Lemma count_loop_ext f g n i count :
  (forall k, i <= k <= n -> f k = g k) ->
  count_loop f n i count = count_loop g n i count.
Proof.
  remember (Z.to_nat (n + 1 - i)) as m eqn:Hm. revert i count Hm.
  induction m as [|m IH]; intros i count Hm Hfg;
    rewrite (count_loop_equation_1 f), (count_loop_equation_1 g);
    destruct (decide (i <= n)) as [Hle|Hgt]; try lia; try done.
  cbn. rewrite <- (Hfg i) by lia.
  destruct (f i) as [[|]|]; [| |done].
  - destruct (decide (INT_MAX < count + 1)); [done|].
    destruct (decide (INT_MAX < i + 1)); [done|].
    apply IH; [lia|]. intros k Hk. apply Hfg. lia.
  - destruct (decide (INT_MAX < i + 1)); [done|].
    apply IH; [lia|]. intros k Hk. apply Hfg. lia.
Qed.

Lemma primes_from_nil i n : n < i -> filter Z.prime (seqZ i (n + 1 - i)) = [].
Proof. intros Hi. by rewrite seqZ_nil by lia. Qed.

Lemma primes_from_cons i n :
  i <= n ->
  filter Z.prime (seqZ i (n + 1 - i)) =
  (if bool_decide (Z.prime i) then [i] else []) ++
  filter Z.prime (seqZ (i + 1) (n + 1 - (i + 1))).
Proof.
  intros Hi. rewrite seqZ_cons by lia. rewrite filter_cons.
  replace (Z.pred (n + 1 - i)) with (n + 1 - (i + 1)) by lia.
  replace (Z.succ i) with (i + 1) by lia.
  by destruct (decide (Z.prime i)) as [Hp|Hp];
    [rewrite bool_decide_eq_true_2|rewrite bool_decide_eq_false_2].
Qed.

Lemma count_loop_spec f n i count :
  (forall k, i <= k <= n -> f k = Some (bool_decide (Z.prime k))) ->
  n < INT_MAX -> 0 <= count < i ->
  count_loop f n i count =
  Some (count + Z.of_nat (length (filter Z.prime (seqZ i (n + 1 - i))))).
Proof.
  intros Hf Hn. remember (Z.to_nat (n + 1 - i)) as m eqn:Hm.
  revert i count Hm Hf.
  induction m as [|m IH]; intros i count Hm Hf Hc;
    rewrite count_loop_equation_1;
    destruct (decide (i <= n)) as [Hle|Hgt]; try lia; cbn.
  - rewrite primes_from_nil by lia. cbn. f_equal. lia.
  - rewrite Hf, primes_from_cons by lia.
    destruct (bool_decide (Z.prime i)).
    + destruct (decide (INT_MAX < count + 1)); [lia|].
      destruct (decide (INT_MAX < i + 1)); [lia|].
      rewrite IH; [|lia|intros k Hk; apply Hf; lia|lia].
      cbn [app length]. f_equal. lia.
    + destruct (decide (INT_MAX < i + 1)); [lia|].
      rewrite IH; [|lia|intros k Hk; apply Hf; lia|lia].
      cbn [app length]. f_equal.
Qed.

Example isPrime_8191 :
  isPrimeBruteForce 8191 = Some true /\ isPrimeDivideConquer 8191 = Some true /\
  isPrimeBruteForce 8051 = Some false /\ isPrimeDivideConquer 8051 = Some false.
Proof. repeat split; vm_compute; reflexivity. Qed.

Example countPrimes_100 :
  countPrimesBruteForce 100 = Some 25 /\
  countPrimesDivideConquer 100 = Some 25.
Proof. split; vm_compute; reflexivity. Qed.

(** C10: on every [int], [isPrimeBruteForce] and [isPrimeDivideConquer]
    return the same boolean, which is [true] exactly for the primes, so
    [false] for every [n <= 1]; hence the two counting functions behave the
    same on every [n]: for [n] below the largest [int] both return the
    number of primes from [2] to [n] (for the largest [int] the last
    [i++] of either loop overflows). *)
Theorem prime_tests_agree n :
  int n ->
  (exists b, isPrimeBruteForce n = Some b /\ isPrimeDivideConquer n = Some b /\
             (b = true <-> Z.prime n) /\ (n <= 1 -> b = false)) /\
  countPrimesBruteForce n = countPrimesDivideConquer n /\
  (n < INT_MAX ->
   countPrimesBruteForce n = Some (Z.of_nat (length (primes_upto n))) /\
   countPrimesDivideConquer n = Some (Z.of_nat (length (primes_upto n)))).
Proof.
  intros Hn.
  assert (Hbf : forall k, 2 <= k <= n ->
            isPrimeBruteForce k = Some (bool_decide (Z.prime k))).
  { intros k Hk. apply isPrime_decide, isPrimeBruteForce_spec. int_lia. }
  assert (Hdc : forall k, 2 <= k <= n ->
            isPrimeDivideConquer k = Some (bool_decide (Z.prime k))).
  { intros k Hk. apply isPrime_decide, isPrimeDivideConquer_spec. int_lia. }
  split; [|split].
  - destruct (isPrimeBruteForce_spec n Hn) as (b & Hb & Hiff).
    exists b. split; [done|]. split; [|split; [done|]].
    + rewrite (isPrime_decide _ n (isPrimeDivideConquer_spec n Hn)).
      rewrite <- Hb. symmetry. by apply isPrime_decide, isPrimeBruteForce_spec.
    + intros Hle. destruct b; [|done].
      destruct (proj1 Hiff eq_refl) as [Hp _]. lia.
  - apply count_loop_ext. intros k Hk. by rewrite Hbf, Hdc.
  - intros Hmax. unfold countPrimesBruteForce, countPrimesDivideConquer.
    rewrite !count_loop_spec by (done || lia). unfold primes_upto.
    by replace (n + 1 - 2) with (n - 1) by lia.
Qed.

Lemma prime_tests_agree_witness :
  (exists b, isPrimeBruteForce 97 = Some b /\ isPrimeDivideConquer 97 = Some b /\
             (b = true <-> Z.prime 97) /\ (97 <= 1 -> b = false)) /\
  countPrimesBruteForce 97 = countPrimesDivideConquer 97 /\
  (97 < INT_MAX ->
   countPrimesBruteForce 97 = Some (Z.of_nat (length (primes_upto 97))) /\
   countPrimesDivideConquer 97 = Some (Z.of_nat (length (primes_upto 97)))).
Proof.
  apply (prime_tests_agree 97). unfold int, INT_MIN, INT_MAX. lia.
Defined.

(** * More about matrix_multiply.cpp *)

Lemma initializeRandomMatrix_ok dis n h X :
  dest h X n ->
  exists h', initializeRandomMatrix dis X n h = Some (tt, h') /\
             pres nobody (win h X n) h h' /\
             rep h' X n (fun i j => dis (i * n + j)).
Proof.
  intros HX. apply (elementwise_spec n X h
    (fun i j => mwrite X i j (dis (i * n + j)))
    (fun i j => dis (i * n + j))); [done|].
  intros i j hk Hi Hj Hp. by apply (mwrite_in_dest h hk X n).
Qed.

Lemma bigsum_bound m f c :
  (forall k, 0 <= k < Z.of_nat m -> Z.abs (f k) <= c) ->
  Z.abs (bigsum m f) <= Z.of_nat m * c.
Proof.
  induction m as [|m IH]; intros Hf; [cbn; lia|]. cbn [bigsum].
  assert (Z.abs (bigsum m f) <= Z.of_nat m * c) by (apply IH; intros; apply Hf; lia).
  assert (Z.abs (f (Z.of_nat m)) <= c) by (apply Hf; lia). lia.
Qed.

Lemma mat_prod_bound n fa fb a b i j :
  0 <= i < n -> 0 <= j < n ->
  (forall i j, 0 <= i < n -> 0 <= j < n -> Z.abs (fa i j) <= a) ->
  (forall i j, 0 <= i < n -> 0 <= j < n -> Z.abs (fb i j) <= b) ->
  Z.abs (mat_prod n fa fb i j) <= n * (a * b).
Proof.
  intros Hi Hj Ha Hb. unfold mat_prod.
  replace n with (Z.of_nat (Z.to_nat n)) at 2 by lia.
  apply bigsum_bound. intros k Hk. rewrite Z.abs_mul.
  assert (Z.abs (fa i k) <= a) by (apply Ha; lia).
  assert (Z.abs (fb k j) <= b) by (apply Hb; lia). nia.
Qed.

(** X1: entries small enough for the size give the product itself: when [n * a
    * b] is below [2 ^ 63] for bounds [a] and [b] of the entries of the
    operands, no addition or multiplication of either function wraps around in
    the result. The entries from [1] to [10] of [initializeRandomMatrix] are
    small enough for every size. *)
Theorem small_entries_give_the_product n h A B C fa fb a b :
  (forall i j, 0 <= i < n -> 0 <= j < n -> Z.abs (fa i j) <= a) ->
  (forall i j, 0 <= i < n -> 0 <= j < n -> Z.abs (fb i j) <= b) ->
  n * (a * b) < 2 ^ 63 ->
  rep h A n fa -> rep h B n fb -> dest h C n -> sep h C A n -> sep h C B n ->
  (exists h1, matrixMultiplyBruteForce A B C n h = Some (tt, h1) /\
              rep h1 C n (mat_prod n fa fb)) /\
  (reducible n ->
   exists h2, matrixMultiplyDivideConquer A B C n h = Some (tt, h2) /\
              rep h2 C n (mat_prod n fa fb)).
Proof.
  intros Ha Hb Hfit HA HB HC HsA HsB.
  assert (Hex : forall i j, 0 <= i < n -> 0 <= j < n ->
            mmul n fa fb i j = mat_prod n fa fb i j).
  { intros i j Hi Hj. unfold mmul. apply wrap64_id.
    pose proof (mat_prod_bound n fa fb a b i j Hi Hj Ha Hb). unfold int64. lia. }
  split.
  - destruct (matrixMultiplyBruteForce_ok n h A B C fa fb) as (h1 & Hbf & _ & H1);
      [done..|].
    exists h1. split; [done|]. exact (rep_ext _ _ _ _ _ Hex H1).
  - intros Hred.
    destruct (matrixMultiplyDivideConquer_ok n Hred h A B C fa fb)
      as (h2 & Hdc & _ & H2); [done..|].
    exists h2. split; [done|]. exact (rep_ext _ _ _ _ _ Hex H2).
Qed.

Lemma small_entries_give_the_product_witness :
  (exists h1, matrixMultiplyBruteForce 1 2 3 4 sample4 = Some (tt, h1) /\
              rep h1 3 4 (mat_prod 4 counting4 counting4)) /\
  (reducible 4 ->
   exists h2, matrixMultiplyDivideConquer 1 2 3 4 sample4 = Some (tt, h2) /\
              rep h2 3 4 (mat_prod 4 counting4 counting4)).
Proof.
  apply (small_entries_give_the_product 4 sample4 1 2 3 counting4 counting4 16 16).
  - intros i j Hi Hj. unfold counting4. lia.
  - intros i j Hi Hj. unfold counting4. lia.
  - lia.
  - apply rep_check_sound. vm_compute. reflexivity.
  - apply rep_check_sound. vm_compute. reflexivity.
  - apply dest_check_sound. vm_compute. reflexivity.
  - apply sep_check_sound. vm_compute. reflexivity.
  - apply sep_check_sound. vm_compute. reflexivity.
Defined.

(** X2: [initializeRandomMatrix] returns on every matrix that can receive [n x
    n] entries, leaves an entry from [1] to [10] in every cell of it (the
    numbers drawn, row by row), and changes nothing else. *)
Theorem initializeRandomMatrix_fills_with_draws dis n h X :
  (forall k, 1 <= dis k <= 10) -> dest h X n ->
  exists h', initializeRandomMatrix dis X n h = Some (tt, h') /\
             pres nobody (win h X n) h h' /\
             (forall i j, 0 <= i < n -> 0 <= j < n ->
                cell h' X i j = Some (dis (i * n + j)) /\
                1 <= dis (i * n + j) <= 10).
Proof.
  intros Hdis HX.
  destruct (initializeRandomMatrix_ok dis n h X HX) as (h' & Hrun & Hp & Hrep).
  exists h'. split; [done|]. split; [done|]. intros i j Hi Hj.
  split; [by apply Hrep|apply Hdis].
Qed.

Lemma initializeRandomMatrix_fills_with_draws_witness :
  exists h', initializeRandomMatrix (fun k => k mod 10 + 1) 3 4 sample4 = Some (tt, h') /\
             pres nobody (win sample4 3 4) sample4 h' /\
             (forall i j, 0 <= i < 4 -> 0 <= j < 4 ->
                cell h' 3 i j = Some ((i * 4 + j) mod 10 + 1) /\
                1 <= (i * 4 + j) mod 10 + 1 <= 10).
Proof.
  apply (initializeRandomMatrix_fills_with_draws (fun k => k mod 10 + 1) 4 sample4 3).
  - intros k. pose proof (Z.mod_pos_bound k 10). lia.
  - apply dest_check_sound. vm_compute. reflexivity.
Defined.

(** A loop that finds what it looks for at [i0] does not run further. *)
Lemma for_ret_from_stop {R} (body : Z -> M (option R)) h (v : R) i0 cnt :
  forall lo,
    lo <= i0 < lo + Z.of_nat cnt ->
    (forall i, lo <= i < i0 -> body i h = Some (None, h)) ->
    body i0 h = Some (Some v, h) ->
    for_ret_from cnt lo body h = Some (Some v, h).
Proof.
  induction cnt as [|cnt IH]; intros lo Hlo Hbefore Hat; [lia|].
  cbn [for_ret_from]. destruct (decide (lo = i0)) as [->|Hne].
  - by rewrite (bind_Some _ _ _ _ _ Hat).
  - rewrite (bind_Some _ _ _ _ _ (Hbefore lo ltac:(lia))).
    apply IH; [lia| |done]. intros i Hi. apply Hbefore. lia.
Qed.

Lemma for_ret_from_none {R} (body : Z -> M (option R)) h cnt :
  forall lo,
    (forall i, lo <= i < lo + Z.of_nat cnt -> body i h = Some (None, h)) ->
    for_ret_from cnt lo body h = Some (None, h).
Proof.
  induction cnt as [|cnt IH]; intros lo Hall; [done|].
  cbn [for_ret_from]. rewrite (bind_Some _ _ _ _ _ (Hall lo ltac:(lia))).
  apply IH. intros i Hi. apply Hall. lia.
Qed.

(** X3: [verifyMatrices] answers [false] at the first pair of different
    elements, in the order of the rows: the elements before it must be
    readable, the elements after it are not read, and may be missing. *)
Theorem verifyMatrices_stops_at_first_difference n h A B i0 j0 a b :
  0 <= i0 < n -> 0 <= j0 < n ->
  (forall i j, 0 <= i < n -> 0 <= j < n -> i < i0 \/ (i = i0 /\ j < j0) ->
     exists v, cell h A i j = Some v /\ cell h B i j = Some v) ->
  cell h A i0 j0 = Some a -> cell h B i0 j0 = Some b -> a <> b ->
  verifyMatrices A B n h = Some (false, h).
Proof.
  intros Hi0 Hj0 Hbefore Ha Hb Hab. unfold verifyMatrices.
  set (inner := fun i j : Z =>
         do a <- mread A i j; do b <- mread B i j;
         if decide (a <> b) then ret (Some false) else ret None).
  assert (Hsame : forall i j, 0 <= i < n -> 0 <= j < n ->
            i < i0 \/ (i = i0 /\ j < j0) -> inner i j h = Some (None, h)).
  { intros i j Hi Hj Hlt. destruct (Hbefore i j Hi Hj Hlt) as (v & HvA & HvB).
    unfold inner.
    rewrite (bind_Some _ _ _ _ _ (mread_Some _ _ _ _ _ HvA)).
    rewrite (bind_Some _ _ _ _ _ (mread_Some _ _ _ _ _ HvB)).
    by destruct (decide (v <> v)). }
  assert (Hdiff : inner i0 j0 h = Some (Some false, h)).
  { unfold inner.
    rewrite (bind_Some _ _ _ _ _ (mread_Some _ _ _ _ _ Ha)).
    rewrite (bind_Some _ _ _ _ _ (mread_Some _ _ _ _ _ Hb)).
    by destruct (decide (a <> b)). }
  assert (Hrun : for_ret 0 n (fun i => for_ret 0 n (inner i)) h =
                 Some (Some false, h)).
  { unfold for_ret at 1. apply (for_ret_from_stop _ _ _ i0); [lia| |].
    - intros i Hi. unfold for_ret. apply for_ret_from_none.
      intros j Hj. apply Hsame; lia.
    - unfold for_ret. apply (for_ret_from_stop _ _ _ j0); [lia| |done].
      intros j Hj. apply Hsame; lia. }
  by rewrite (bind_Some _ _ _ _ _ Hrun).
Qed.

(** Two matrices with a first row that differs at the second element, and
    no other row. *)
Definition sample_first_row : heap :=
  Heap (list_to_map
          [(1%positive, [Some 10%positive; None]);
           (2%positive, [Some 20%positive; None])])
       (list_to_map
          [(10%positive, [Some 7; Some 8]);
           (20%positive, [Some 7; Some 9])]).

Lemma verifyMatrices_stops_at_first_difference_witness :
  verifyMatrices 1 2 2 sample_first_row = Some (false, sample_first_row).
Proof.
  apply (verifyMatrices_stops_at_first_difference 2 sample_first_row 1 2 0 1 8 9).
  - lia.
  - lia.
  - intros i j Hi Hj Hlt. assert (i = 0 /\ j = 0) as [-> ->] by lia.
    exists 7. split; reflexivity.
  - reflexivity.
  - reflexivity.
  - lia.
Defined.

(** X4: for a size [n <= 0] no function touches the heap or follows any of its
    pointer arguments, valid or not; [verifyMatrices] answers [true]. *)
Theorem empty_size_touches_nothing dis n h A B C :
  n <= 0 ->
  matrixMultiplyBruteForce A B C n h = Some (tt, h) /\
  matrixMultiplyDivideConquer A B C n h = Some (tt, h) /\
  addMatrix A B C n h = Some (tt, h) /\
  subtractMatrix A B C n h = Some (tt, h) /\
  initializeRandomMatrix dis C n h = Some (tt, h) /\
  verifyMatrices A B n h = Some (true, h).
Proof.
  intros Hn.
  assert (Hbf : matrixMultiplyBruteForce A B C n h = Some (tt, h))
    by (by apply for_empty).
  split; [done|]. split.
  { rewrite matrixMultiplyDivideConquer_unfold. unfold divide_conquer_step.
    by rewrite decide_True by lia. }
  split; [by apply for_empty|]. split; [by apply for_empty|].
  split; [by apply for_empty|].
  unfold verifyMatrices, for_ret.
  by replace (Z.to_nat (n - 0)) with 0%nat by lia.
Qed.

Lemma empty_size_touches_nothing_witness :
  matrixMultiplyBruteForce 7 8 9 0 sample4 = Some (tt, sample4) /\
  matrixMultiplyDivideConquer 7 8 9 0 sample4 = Some (tt, sample4) /\
  addMatrix 7 8 9 0 sample4 = Some (tt, sample4) /\
  subtractMatrix 7 8 9 0 sample4 = Some (tt, sample4) /\
  initializeRandomMatrix (fun _ => 1) 9 0 sample4 = Some (tt, sample4) /\
  verifyMatrices 7 8 0 sample4 = Some (true, sample4).
Proof. apply (empty_size_touches_nothing (fun _ => 1) 0 sample4 7 8 9). lia. Defined.








(** ** Operands that are also the destination *)

Lemma pointwise_in_place g n h A B C fa fb :
  rep h A n fa -> rep h B n fb -> dest h C n ->
  A = C \/ sep h C A n -> B = C \/ sep h C B n ->
  exists h', pointwise g A B C n h = Some (tt, h') /\
             pres nobody (win h C n) h h' /\
             rep h' C n (fun i j => g (fa i j) (fb i j)).
Proof.
  intros HA HB HC HsA HsB.
  set (v := fun i j => g (fa i j) (fb i j)).
  set (Inv := fun (i j : Z) (hk : heap) =>
    pres nobody (win h C n) h hk /\
    forall i' j', 0 <= i' < n -> 0 <= j' < n ->
      cell hk C i' j' =
      if decide (i' < i \/ (i' = i /\ j' < j)) then Some (v i' j')
      else cell h C i' j').
  assert (Hread : forall X f i j hk, rep h X n f -> X = C \/ sep h C X n ->
            0 <= i < n -> 0 <= j < n -> Inv i j hk ->
            cell hk X i j = Some (f i j)).
  { intros X f i j hk HX [->|Hs] Hi Hj [Hp Hcells].
    - rewrite Hcells by done. rewrite decide_False by lia. by apply HX.
    - by apply (rep_pres_sep nobody h hk C X n n f); [|intros []|lia|..]. }
  destruct (decide (0 < n)) as [Hn|Hn].
  2:{ exists h. split; [by apply for_empty; lia|]. split; [apply pres_refl|].
      intros i j Hi. lia. }
  assert (HCa : is_Some (ptrs h !! C)) by (by eapply dest_allocated).
  destruct (for_spec (fun i hk => Inv i 0 hk) 0 n
              (fun i => for_ 0 n (fun j =>
                 do a <- mread A i j; do b <- mread B i j;
                 mwrite C i j (g a b))) h) as (h' & Hrun & Hp & Hcells);
    [lia| | |].
  - split; [apply pres_refl|]. intros i' j' Hi' Hj'. by rewrite decide_False by lia.
  - intros i hk Hi HI.
    destruct (for_spec (fun j hx => Inv i j hx) 0 n
                (fun j => do a <- mread A i j; do b <- mread B i j;
                          mwrite C i j (g a b)) hk) as (hk' & Hrun & Hp & Hcells);
      [lia|done| |].
    + intros j hx Hj HIx. pose proof HIx as [Hpx Hcx].
      rewrite (bind_Some _ _ _ _ _
                 (mread_Some _ _ _ _ _ (Hread A fa i j hx HA HsA Hi Hj HIx))).
      rewrite (bind_Some _ _ _ _ _
                 (mread_Some _ _ _ _ _ (Hread B fb i j hx HB HsB Hi Hj HIx))).
      assert (HCx : dest hx C n) by (eapply dest_pres; [done|by intros []|done]).
      destruct (mwrite_dest hx C n i j (g (fa i j) (fb i j)) HCx Hi Hj)
        as (hx' & r & Hw & Hr & Hwr).
      exists hx'. split; [done|]. split.
      * eapply pres_trans; [done|]. eapply wrote_pres; [done|].
        split; [done|]. exists i. split; [done|].
        by rewrite <- (pres_row_of_eq _ _ _ _ _ _ Hpx); [|intros []|].
      * intros i' j' Hi' Hj'. rewrite (wrote_cell _ _ _ _ _ _ _ _ Hwr).
        destruct (decide (row_of hx C i' = Some r /\ j' = j)) as [[Hr' ->]|Hne].
        -- assert (i' = i) as -> by (by eapply (proj2 HCx i' i r)).
           rewrite decide_True by lia. done.
        -- rewrite Hcx by done.
           destruct (decide (i' < i \/ i' = i /\ j' < j)) as [Hd|Hd].
           ++ rewrite decide_True by lia. done.
           ++ rewrite decide_False; [done|]. intros [?|[-> ?]]; [lia|].
              apply Hne. split; [done|]. lia.
    + exists hk'. split; [done|]. split; [done|].
      intros i' j' Hi' Hj'. rewrite Hcells by done.
      destruct (decide (i' < i \/ i' = i /\ j' < n)) as [Hd|Hd].
      * rewrite decide_True by lia. done.
      * rewrite decide_False by lia. done.
  - exists h'. split; [done|]. split; [done|].
    intros i j Hi Hj. rewrite Hcells by done. rewrite decide_True by lia. done.
Qed.

(** X6: [addMatrix] and [subtractMatrix] may write over an operand: with the
    destination one of the two operands, or both, the destination receives the
    sums, or the differences, of what the operands held. *)
Theorem addMatrix_and_subtractMatrix_in_place n h A B C fa fb :
  rep h A n fa -> rep h B n fb -> dest h C n ->
  A = C \/ sep h C A n -> B = C \/ sep h C B n ->
  (exists h1, addMatrix A B C n h = Some (tt, h1) /\ rep h1 C n (madd fa fb)) /\
  (exists h2, subtractMatrix A B C n h = Some (tt, h2) /\ rep h2 C n (msub fa fb)).
Proof.
  intros HA HB HC HsA HsB. split.
  - destruct (pointwise_in_place (fun a b => wrap64 (a + b)) n h A B C fa fb)
      as (h1 & Hrun & _ & Hrep); [done..|]. by exists h1.
  - destruct (pointwise_in_place (fun a b => wrap64 (a - b)) n h A B C fa fb)
      as (h2 & Hrun & _ & Hrep); [done..|]. by exists h2.
Qed.

Lemma addMatrix_and_subtractMatrix_in_place_witness :
  (exists h1, addMatrix 1 2 1 4 sample4 = Some (tt, h1) /\
              rep h1 1 4 (madd counting4 counting4)) /\
  (exists h2, subtractMatrix 1 2 1 4 sample4 = Some (tt, h2) /\
              rep h2 1 4 (msub counting4 counting4)).
Proof.
  apply (addMatrix_and_subtractMatrix_in_place 4 sample4 1 2 1 counting4 counting4).
  - apply rep_check_sound. vm_compute. reflexivity.
  - apply rep_check_sound. vm_compute. reflexivity.
  - apply dest_check_sound. vm_compute. reflexivity.
  - by left.
  - right. apply sep_check_sound. vm_compute. reflexivity.
Defined.

(** ** What the multiplication reads *)

(** X7: [matrixMultiplyBruteForce] reads [B[k][j]] only after an element
    [A[i][k]] that is not zero: the rows [k] of [B] for which the column [k]
    of [A] is zero are never read, and need not be readable or even exist. The
    product is then that of [A] and any matrix that agrees with [B] where [B]
    is read. *)
Theorem brute_force_reads_B_after_nonzero_A n h A B C fa fb :
  rep h A n fa ->
  (forall k j, 0 <= k < n -> 0 <= j < n ->
     (exists i, 0 <= i < n /\ fa i k <> 0) -> cell h B k j = Some (fb k j)) ->
  dest h C n -> sep h C A n -> sep h C B n ->
  exists h', matrixMultiplyBruteForce A B C n h = Some (tt, h') /\
             pres nobody (win h C n) h h' /\ rep h' C n (mmul n fa fb).
Proof.
  intros HA HB HC HsA HsB. apply elementwise_spec; [done|].
  intros i j hk Hi Hj Hp.
  destruct (mwrite_in_dest h hk C n i j 0 HC Hp Hi Hj) as (h1 & Hw & Hp1 & Hc1).
  rewrite (bind_Some _ _ _ _ _ Hw).
  set (f := fun k => fa i k * fb k j).
  destruct (for_spec (fun k hx =>
              pres nobody (only h C i j) hk hx /\
              cell hx C i j = Some (wrap64 (bigsum (Z.to_nat k) f)))
              0 n (fun k =>
                do a <- mread A i k;
                if decide (a <> 0) then
                  do b <- mread B k j;
                  if decide (b <> 0) then
                    do c <- mread C i j;
                    mwrite C i j (wrap64 (c + wrap64 (a * b)))
                  else ret tt
                else ret tt) h1) as (h2 & Hf & Hp2 & Hc2);
    [lia|done| |].
  - intros k hx Hk [Hpx Hcx].
    assert (Hphx : pres nobody (win h C n) h hx).
    { eapply pres_trans; [done|]. eapply pres_mono; [done| |done].
      intros r j'. by apply only_win. }
    assert (HAx : rep hx A n fa)
      by (eapply rep_pres_sep; [done|by intros []|lia|done..]).
    rewrite (bind_Some _ _ _ _ _ (mread_Some _ _ _ _ _ (HAx i k Hi Hk))).
    destruct (decide (fa i k <> 0)) as [Ha|Ha].
    + assert (HBx : cell hx B k j = Some (fb k j)).
      { eapply pres_cell; [exact Hphx|by intros []| |apply HB; eauto].
        intros r Hr (_ & i' & Hi' & Hr'). by apply (HsB i' k r). }
      rewrite (bind_Some _ _ _ _ _ (mread_Some _ _ _ _ _ HBx)).
      destruct (decide (fb k j <> 0)) as [Hb|Hb].
      * rewrite (bind_Some _ _ _ _ _ (mread_Some _ _ _ _ _ Hcx)).
        rewrite wrap64_acc.
        destruct (mwrite_in_dest h hx C n i j
                    (wrap64 (bigsum (Z.to_nat k) f + fa i k * fb k j)) HC Hphx Hi Hj)
          as (hx' & Hw' & Hp' & Hc').
        exists hx'. split; [done|]. split; [by eapply pres_trans|].
        rewrite Hc'. by rewrite bigsum_succ by lia.
      * exists hx. split; [done|]. split; [done|].
        rewrite Hcx, bigsum_succ by lia. do 2 f_equal. unfold f. lia.
    + exists hx. split; [done|]. split; [done|].
      rewrite Hcx, bigsum_succ by lia. do 2 f_equal. unfold f. lia.
  - exists h2. by rewrite Hf.
Qed.

(** A 2 x 2 matrix of zeros at the address 1 and a matrix that was never
    written at the address 3; nothing at the address 2. *)
Definition sample_zero : heap :=
  Heap (list_to_map
          [(1%positive, Some <$> [10; 11]%positive);
           (3%positive, Some <$> [30; 31]%positive)])
       (list_to_map
          [(10%positive, Some <$> [0; 0]);
           (11%positive, Some <$> [0; 0]);
           (30%positive, replicate 2 None);
           (31%positive, replicate 2 None)]).

Lemma brute_force_reads_B_after_nonzero_A_witness :
  exists h', matrixMultiplyBruteForce 1 2 3 2 sample_zero = Some (tt, h') /\
             pres nobody (win sample_zero 3 2) sample_zero h' /\
             rep h' 3 2 (mmul 2 (fun _ _ => 0) (fun _ _ => 5)).
Proof.
  apply (brute_force_reads_B_after_nonzero_A 2 sample_zero 1 2 3
           (fun _ _ => 0) (fun _ _ => 5)).
  - apply rep_check_sound. vm_compute. reflexivity.
  - intros k j Hk Hj (i & Hi & Hne). contradiction Hne. reflexivity.
  - apply dest_check_sound. vm_compute. reflexivity.
  - apply sep_check_sound. vm_compute. reflexivity.
  - apply sep_check_sound. vm_compute. reflexivity.
Defined.


(** ** The blocks of the heap across a call *)

(** [h'] has the arrays of row pointers of [h], with their contents, and
    rows at the same addresses: nothing was allocated or released between
    the two, or whatever was has been undone. *)
Definition same_blocks (h h' : heap) : Prop :=
  ptrs h' = ptrs h /\ forall r, is_Some (ints h' !! r) <-> is_Some (ints h !! r).

Definition blocks_kept (op : loc -> loc -> loc -> Z -> M unit) : Prop :=
  forall n h A B C u h', op A B C n h = Some (u, h') -> same_blocks h h'.

Lemma same_blocks_refl h : same_blocks h h.
Proof. by split. Qed.

Lemma same_blocks_trans h1 h2 h3 :
  same_blocks h1 h2 -> same_blocks h2 h3 -> same_blocks h1 h3.
Proof.
  intros [Hp1 Hi1] [Hp2 Hi2]. split; [congruence|].
  intros r. by rewrite Hi2, Hi1.
Qed.

Lemma same_blocks_row_of h h' X i :
  same_blocks h h' -> row_of h' X i = row_of h X i.
Proof. intros [Hp _]. unfold row_of. by rewrite Hp. Qed.

Lemma is_Some_rowlen h r : is_Some (rowlen h r) <-> is_Some (ints h !! r).
Proof. unfold rowlen. by rewrite fmap_is_Some. Qed.

Lemma mwrite_same_blocks X i j v h u h' :
  mwrite X i j v h = Some (u, h') -> same_blocks h h'.
Proof.
  intros (r & len & _ & _ & _ & Hp & Hl & _)%mwrite_inv. split; [done|].
  intros r'. by rewrite <- !is_Some_rowlen, Hl.
Qed.

(** A loop of steps that keep the blocks keeps them. *)
Lemma for_same_blocks lo hi body h u h' :
  (forall i hk v hk', lo <= i < hi -> body i hk = Some (v, hk') ->
     same_blocks hk hk') ->
  for_ lo hi body h = Some (u, h') -> same_blocks h h'.
Proof.
  intros Hbody Hrun. destruct (decide (lo <= hi)) as [Hle|Hgt].
  - eapply (for_inv (fun _ hk => same_blocks h hk) lo hi);
      [done|exact Hrun|apply same_blocks_refl|].
    intros i hk v hk' Hi Hk Hb. eapply same_blocks_trans; [done|]. by eapply Hbody.
  - rewrite for_empty in Hrun by lia. injection Hrun as _ <-.
    apply same_blocks_refl.
Qed.

Lemma pointwise_blocks_kept g : blocks_kept (pointwise g).
Proof.
  intros n h A B C u h'. apply for_same_blocks. intros i hk v hk' _.
  apply for_same_blocks. intros j hx w hx' _ Hb. inv_reads Hb.
  by eapply mwrite_same_blocks.
Qed.

Lemma addMatrix_blocks_kept : blocks_kept addMatrix.
Proof. apply (pointwise_blocks_kept (fun a b => wrap64 (a + b))). Qed.

Lemma subtractMatrix_blocks_kept : blocks_kept subtractMatrix.
Proof. apply (pointwise_blocks_kept (fun a b => wrap64 (a - b))). Qed.

Lemma matrixMultiplyBruteForce_blocks_kept : blocks_kept matrixMultiplyBruteForce.
Proof.
  intros n h A B C u h'. apply for_same_blocks. intros i hk v hk' _.
  apply for_same_blocks. intros j hx w hx' _ Hb.
  apply bind_inv in Hb as (w1 & h1 & Hw & Hf).
  eapply same_blocks_trans; [by eapply mwrite_same_blocks|].
  revert Hf. apply for_same_blocks. intros k hy w2 hy' _ Hk.
  apply bind_inv in Hk as (a & hz & [_ ->]%mread_inv & Hk).
  destruct (decide (a <> 0)); [|apply ret_inv in Hk as [_ ->]; apply same_blocks_refl].
  apply bind_inv in Hk as (b & hz & [_ ->]%mread_inv & Hk).
  destruct (decide (b <> 0)); [|apply ret_inv in Hk as [_ ->]; apply same_blocks_refl].
  inv_reads Hk. by eapply mwrite_same_blocks.
Qed.

Lemma initializeRandomMatrix_same_blocks dis X n h u h' :
  initializeRandomMatrix dis X n h = Some (u, h') -> same_blocks h h'.
Proof.
  apply for_same_blocks. intros i hk v hk' _.
  apply for_same_blocks. intros j hx w hx' _ Hb. by eapply mwrite_same_blocks.
Qed.

(** [h] is the heap at the call, [hk] the heap now, [Xs] the matrices
    allocated since the call and [F] the row pointers that have been set:
    the arrays and rows of [h] are there, the other arrays are those of
    [Xs], and the other rows are those of the row pointers in [F]. *)
Record linv (h hk : heap) (Xs : list loc) (F : loc -> Z -> Prop) : Prop := {
  li_nodup : NoDup Xs;
  li_arr : forall X, X ∈ Xs -> ptrs h !! X = None /\ is_Some (ptrs hk !! X);
  li_in : forall X i, F X i -> X ∈ Xs;
  li_old_ptrs : forall X b, ptrs h !! X = Some b -> ptrs hk !! X = Some b;
  li_old_ints : forall r, is_Some (ints h !! r) -> is_Some (ints hk !! r);
  li_new_ptrs : forall X, ptrs h !! X = None -> is_Some (ptrs hk !! X) -> X ∈ Xs;
  li_new_ints : forall r, ints h !! r = None -> is_Some (ints hk !! r) ->
    exists X i, F X i /\ row_of hk X i = Some r;
  li_rows : forall X i r, F X i -> row_of hk X i = Some r -> ints h !! r = None
}.

Lemma linv_start h : linv h h [] nowhere.
Proof.
  split; try done.
  - constructor.
  - intros X HX. by apply elem_of_nil in HX.
  - intros X HX [b Hb]. congruence.
  - intros r Hr [b Hb]. congruence.
Qed.

Lemma linv_ext h hk Xs (F F' : loc -> Z -> Prop) :
  (forall X i, F X i <-> F' X i) -> linv h hk Xs F -> linv h hk Xs F'.
Proof.
  intros HF [H1 H2 H3 H4 H5 H6 H7 H8]. split; try done.
  - intros X i HX. by apply (H3 X i), HF.
  - intros r Hr Hs. destruct (H7 r Hr Hs) as (X & i & HX & Hrow).
    exists X, i. split; [by apply HF|done].
  - intros X i r HX. by apply H8, HF.
Qed.

Lemma linv_step h hk hk' Xs F :
  linv h hk Xs F -> same_blocks hk hk' -> linv h hk' Xs F.
Proof.
  intros [H1 H2 H3 H4 H5 H6 H7 H8] Hs. pose proof Hs as [Hp Hi]. split; try done.
  - intros X HX. rewrite Hp. by apply H2.
  - intros X b Hb. rewrite Hp. by apply H4.
  - intros r Hr. apply Hi. by apply H5.
  - intros X HX. rewrite Hp. by apply H6.
  - intros r Hr Hsome. apply Hi in Hsome.
    destruct (H7 r Hr Hsome) as (X & i & HX & Hrow).
    exists X, i. split; [done|]. by rewrite (same_blocks_row_of hk hk').
  - intros X i r HX. rewrite (same_blocks_row_of hk hk') by done. by apply H8.
Qed.

Lemma linv_new_rows h hk Xs F m X hk' :
  linv h hk Xs F -> new_rows m hk = Some (X, hk') -> linv h hk' (Xs ++ [X]) F.
Proof.
  intros [H1 H2 H3 H4 H5 H6 H7 H8] (Hm & HX & Hp & Hi)%new_rows_inv.
  assert (HXh : ptrs h !! X = None).
  { destruct (ptrs h !! X) as [b|] eqn:Hb; [|done]. apply H4 in Hb. congruence. }
  assert (HXs : X ∉ Xs).
  { intros HXin. destruct (H2 X HXin) as [_ [b Hb]]. congruence. }
  assert (Hrow : forall Y i r, row_of hk Y i = Some r -> row_of hk' Y i = Some r).
  { intros Y i r Hr. unfold row_of in *. rewrite Hp.
    unfold blk_read in *. rewrite lookup_insert_ne; [done|].
    intros <-. by rewrite HX in Hr. }
  assert (Hrow' : forall Y i r, Y ∈ Xs -> row_of hk' Y i = Some r ->
            row_of hk Y i = Some r).
  { intros Y i r HY Hr. unfold row_of in *. rewrite Hp in Hr.
    unfold blk_read in *. rewrite lookup_insert_ne in Hr; [done|].
    intros <-. done. }
  split.
  - apply NoDup_app. split; [done|]. split; [|apply NoDup_singleton].
    intros Y HY ->%list_elem_of_singleton. done.
  - intros Y [HY| ->%list_elem_of_singleton]%elem_of_app.
    + destruct (H2 Y HY) as [? [b Hb]]. split; [done|].
      rewrite Hp, lookup_insert_ne; [eauto|]. intros <-. done.
    + split; [done|]. rewrite Hp, lookup_insert_eq. eauto.
  - intros Y i HY. apply elem_of_app. left. by eapply H3.
  - intros Y b Hb. rewrite Hp, lookup_insert_ne; [by apply H4|]. congruence.
  - intros r Hr. rewrite Hi. by apply H5.
  - intros Y HY Hsome. apply elem_of_app. destruct (decide (Y = X)) as [->|Hne].
    + right. by apply list_elem_of_singleton.
    + left. apply H6; [done|]. by rewrite Hp, lookup_insert_ne in Hsome.
  - intros r Hr Hsome. rewrite Hi in Hsome.
    destruct (H7 r Hr Hsome) as (Y & i & HY & Hrow0). exists Y, i. eauto.
  - intros Y i r HY Hr. eapply H8; [done|]. apply Hrow'; [by eapply H3|done].
Qed.

Lemma linv_new_row h hk Xs F X i m u hk' :
  linv h hk Xs F -> X ∈ Xs -> ~ F X i ->
  new_row X i m hk = Some (u, hk') ->
  linv h hk' Xs (fun Y i' => F Y i' \/ (Y = X /\ i' = i)).
Proof.
  intros [H1 H2 H3 H4 H5 H6 H7 H8] HX HF Hrun.
  pose proof Hrun as (r & b & Hm & Hr & Hb & Hi & Hints & Hptrs)%new_row_inv.
  pose proof Hrun as (r0 & Hr0 & Hrow & _)%new_row_obs.
  assert (r0 = r) as ->.
  { specialize (Hrow X i). rewrite decide_True in Hrow by done.
    unfold row_of in Hrow. rewrite Hptrs in Hrow.
    unfold blk_read in Hrow. rewrite lookup_insert_eq in Hrow. cbn in Hrow.
    rewrite zidx_zupd_eq in Hrow by done. cbn in Hrow. congruence. }
  assert (Hrh : ints h !! r = None).
  { destruct (ints h !! r) as [c|] eqn:Hc; [|done].
    destruct (H5 r) as [? ?]; [eauto|congruence]. }
  split; try done.
  - intros Y HY. destruct (H2 Y HY) as [? [c Hc]]. split; [done|].
    rewrite Hptrs. destruct (decide (Y = X)) as [->|].
    + rewrite lookup_insert_eq. eauto.
    + rewrite lookup_insert_ne by done. eauto.
  - intros Y i' [HY|[-> _]]; [by eapply H3|done].
  - intros Y c Hc. rewrite Hptrs, lookup_insert_ne; [by apply H4|].
    intros <-. destruct (H2 X HX) as [? _]. congruence.
  - intros r' Hr'. rewrite Hints. destruct (decide (r' = r)) as [->|].
    + rewrite lookup_insert_eq. eauto.
    + rewrite lookup_insert_ne by done. by apply H5.
  - intros Y HY Hsome. destruct (decide (Y = X)) as [->|Hne]; [done|].
    apply H6; [done|]. by rewrite Hptrs, lookup_insert_ne in Hsome.
  - intros r' Hr' Hsome. destruct (decide (r' = r)) as [->|Hne].
    + exists X, i. split; [by right|]. rewrite Hrow. by rewrite decide_True.
    + rewrite Hints, lookup_insert_ne in Hsome by done.
      destruct (H7 r' Hr' Hsome) as (Y & i' & HY & Hrow0).
      exists Y, i'. split; [by left|]. rewrite Hrow.
      rewrite decide_False; [done|]. intros [-> ->]. done.
  - intros Y i' r' [HY|[-> ->]] Hr'.
    + rewrite Hrow in Hr'. rewrite decide_False in Hr'; [by eapply H8|].
      intros [-> ->]. done.
    + rewrite Hrow, decide_True in Hr' by done. by injection Hr' as <-.
Qed.

Lemma linv_new_row_each h Xs i m Ys : forall hk F u hk',
  linv h hk Xs F -> NoDup Ys -> (forall Y, Y ∈ Ys -> Y ∈ Xs /\ ~ F Y i) ->
  new_row_each Ys i m hk = Some (u, hk') ->
  linv h hk' Xs (fun Y i' => F Y i' \/ (Y ∈ Ys /\ i' = i)).
Proof.
  induction Ys as [|Y Ys IH]; intros hk F u hk' HL Hnd HYs Hrun.
  - apply ret_inv in Hrun as [_ ->]. eapply linv_ext; [|done].
    intros X i'. split; [by left|]. intros [?|[HX _]]; [done|].
    by apply elem_of_nil in HX.
  - cbn [new_row_each] in Hrun.
    apply bind_inv in Hrun as (w & h1 & Hnew & Hrest).
    apply NoDup_cons in Hnd as [HY Hnd].
    destruct (HYs Y) as [HYin HYF]; [by left|].
    pose proof (linv_new_row h hk Xs F Y i m w h1 HL HYin HYF Hnew) as HL1.
    eapply linv_ext; [|eapply (IH h1 _ u hk' HL1 Hnd); [|done]].
    + intros X i'. cbv beta. rewrite elem_of_cons. split.
      * intros [[?|[-> ->]]|[? ->]]; [by left|right|right]; (split; [|done]);
          [by left|by right].
      * intros [?|[[->|?] ->]]; [by left; left|by left; right|by right].
    + intros Z HZ. destruct (HYs Z) as [? ?]; [by right|]. split; [done|].
      intros [?|[-> _]]; done.
Qed.

Lemma linv_fill h hk Xs F half Ys u hk' :
  linv h hk Xs F -> NoDup Ys ->
  (forall Y, Y ∈ Ys -> Y ∈ Xs /\ forall i, ~ F Y i) ->
  for_ 0 half (fun i => new_row_each Ys i half) hk = Some (u, hk') ->
  linv h hk' Xs (fun Y i => F Y i \/ (Y ∈ Ys /\ 0 <= i < half)).
Proof.
  intros HL Hnd HYs Hrun. destruct (decide (0 <= half)) as [Hh|Hh].
  - eapply linv_ext;
      [|eapply (for_inv (fun i hx =>
          linv h hx Xs (fun Y i' => F Y i' \/ (Y ∈ Ys /\ 0 <= i' < i))) 0 half);
        [done|exact Hrun| |]].
    + done.
    + eapply linv_ext; [|done]. intros X i. split; [by left|].
      intros [?|[_ ?]]; [done|lia].
    + intros i hx v hx' Hi HLx Hb. cbv beta in Hb.
      eapply linv_ext; [|eapply linv_new_row_each; [exact HLx|done| |exact Hb]].
      * intros X i'. cbv beta. split.
        -- intros [[?|[? ?]]|[? ->]]; [by left|right|right]; (split; [done|lia]).
        -- intros [?|[? ?]]; [by left; left|].
           destruct (decide (i' = i)) as [->|]; [by right|].
           left. right. split; [done|lia].
      * intros Y HY. destruct (HYs Y HY) as [? HF]. split; [done|].
        intros [?|[_ ?]]; [by eapply HF|lia].
  - rewrite for_empty in Hrun by lia. injection Hrun as _ <-.
    eapply linv_ext; [|done]. intros X i. split; [by left|].
    intros [?|[_ ?]]; [done|lia].
Qed.

(** What the release of the rows number [i] leaves. *)
Lemma delete_row_each_inv i Ys : forall hx u hx',
  delete_row_each Ys i hx = Some (u, hx') ->
  ptrs hx' = ptrs hx /\
  (forall r, ints hx' !! r = ints hx !! r \/
             (ints hx' !! r = None /\ exists Y, Y ∈ Ys /\ row_of hx Y i = Some r)) /\
  (forall Y r, Y ∈ Ys -> row_of hx Y i = Some r -> ints hx' !! r = None).
Proof.
  induction Ys as [|Y Ys IH]; intros hx u hx' Hrun.
  - apply ret_inv in Hrun as [_ ->]. split; [done|]. split; [by left|].
    intros Y r HY. by apply elem_of_nil in HY.
  - cbn [delete_row_each] in Hrun.
    apply bind_inv in Hrun as (w & h1 & Hdel & Hrest).
    apply bind_inv in Hdel as (r0 & h0 & Hget & Hdel).
    rewrite get_row_eq in Hget. destruct (row_of hx Y i) as [r1|] eqn:Hrow; [|done].
    injection Hget as <- <-.
    apply delete_cells_inv in Hdel as (_ & Hints & Hptrs).
    destruct (IH h1 u hx' Hrest) as (Hp & Hkeep & Hgone).
    assert (Hrow1 : forall Z, row_of h1 Z i = row_of hx Z i).
    { intros Z. unfold row_of. by rewrite Hptrs. }
    split; [congruence|]. split.
    + intros r. destruct (Hkeep r) as [Heq|(Hn & Z & HZ & HrZ)].
      * rewrite Heq, Hints. destruct (decide (r = r1)) as [->|].
        -- right. rewrite lookup_delete_eq. split; [done|]. exists Y.
           split; [by left|done].
        -- left. by rewrite lookup_delete_ne.
      * right. split; [done|]. exists Z. split; [by right|]. by rewrite <- Hrow1.
    + intros Z r [->|HZ]%elem_of_cons HrZ.
      * assert (r = r1) as -> by congruence.
        destruct (Hkeep r1) as [Heq|[? _]]; [|done].
        by rewrite Heq, Hints, lookup_delete_eq.
      * apply (Hgone Z r HZ). by rewrite Hrow1.
Qed.

Lemma delete_rows_each_inv Ys : forall hx u hx',
  delete_rows_each Ys hx = Some (u, hx') ->
  ints hx' = ints hx /\
  forall X, ptrs hx' !! X = if decide (X ∈ Ys) then None else ptrs hx !! X.
Proof.
  induction Ys as [|Y Ys IH]; intros hx u hx' Hrun.
  - apply ret_inv in Hrun as [_ ->]. split; [done|]. intros X.
    rewrite decide_False; [done|]. by intros ?%elem_of_nil.
  - cbn [delete_rows_each] in Hrun.
    apply bind_inv in Hrun as (w & h1 & Hdel & Hrest).
    apply delete_rows_inv in Hdel as (_ & Hptrs & Hints).
    destruct (IH h1 u hx' Hrest) as (Hi & Hp). split; [congruence|].
    intros X. rewrite Hp. destruct (decide (X ∈ Ys)) as [HX|HX].
    + rewrite decide_True; [done|by right].
    + rewrite Hptrs. destruct (decide (X = Y)) as [->|Hne].
      * rewrite lookup_delete_eq. rewrite decide_True; [done|by left].
      * rewrite lookup_delete_ne by done. rewrite decide_False; [done|].
        by intros [?|?]%elem_of_cons.
Qed.

(** The release of every row and every array of [Ys], the matrices
    allocated since the call, gives the blocks of the call back. *)
Lemma linv_release h hk Xs Ys half u h' :
  linv h hk Xs (full Xs half) -> (forall X, X ∈ Xs <-> X ∈ Ys) ->
  (for_ 0 half (fun i => delete_row_each Ys i);; delete_rows_each Ys) hk
    = Some (u, h') ->
  same_blocks h h'.
Proof.
  intros [H1 H2 H3 H4 H5 H6 H7 H8] HYs Hrun.
  apply bind_inv in Hrun as (w & h1 & Hrows & Harrs).
  apply delete_rows_each_inv in Harrs as (Hi1 & Hp1).
  assert (Hloop : ptrs h1 = ptrs hk /\
    (forall r, ints h1 !! r = ints hk !! r \/
       (ints h1 !! r = None /\
        exists Y i, Y ∈ Ys /\ 0 <= i < half /\ row_of hk Y i = Some r)) /\
    (forall Y i r, Y ∈ Ys -> 0 <= i < half -> row_of hk Y i = Some r ->
       ints h1 !! r = None)).
  { destruct (decide (0 <= half)) as [Hh|Hh].
    2:{ rewrite for_empty in Hrows by lia. injection Hrows as _ <-.
        split; [done|]. split; [by left|]. intros; lia. }
    eapply (for_inv (fun i hx => ptrs hx = ptrs hk /\
      (forall r, ints hx !! r = ints hk !! r \/
         (ints hx !! r = None /\
          exists Y i', Y ∈ Ys /\ 0 <= i' < half /\ row_of hk Y i' = Some r)) /\
      (forall Y i' r, Y ∈ Ys -> 0 <= i' < i -> row_of hk Y i' = Some r ->
         ints hx !! r = None)) 0 half); [done|exact Hrows| |].
    - split; [done|]. split; [by left|]. intros; lia.
    - intros i hx v hx' Hi (Hp & Hkeep & Hgone) Hb.
      apply delete_row_each_inv in Hb as (Hp' & Hkeep' & Hgone').
      assert (Hrow : forall Z i', row_of hx Z i' = row_of hk Z i').
      { intros Z i'. unfold row_of. by rewrite Hp. }
      split; [congruence|]. split.
      + intros r. destruct (Hkeep' r) as [Heq|(Hn & Y & HY & Hr)].
        * rewrite Heq. apply Hkeep.
        * right. split; [done|]. exists Y, i. rewrite <- Hrow. done.
      + intros Y i' r HY Hi' Hr. destruct (decide (i' = i)) as [->|Hne].
        * apply (Hgone' Y r HY). by rewrite Hrow.
        * destruct (Hkeep' r) as [Heq|[? _]]; [|done]. rewrite Heq.
          apply (Hgone Y i' r HY); [lia|done]. }
  destruct Hloop as (Hp & Hkeep & Hgone). split.
  - apply map_eq. intros X. rewrite Hp1, Hp.
    destruct (decide (X ∈ Ys)) as [HX|HX].
    + apply HYs in HX. destruct (H2 X HX) as [-> _]. done.
    + destruct (ptrs h !! X) as [b|] eqn:Hb; [by apply H4|].
      destruct (ptrs hk !! X) as [c|] eqn:Hc; [|done].
      destruct HX. apply HYs. apply H6; eauto.
  - intros r. rewrite Hi1. split.
    + intros Hsome. destruct (ints h !! r) as [b|] eqn:Hb; [eauto|]. exfalso.
      assert (Hk : is_Some (ints hk !! r)).
      { destruct (Hkeep r) as [Heq|[Hn _]]; [by rewrite <- Heq|].
        rewrite Hn in Hsome. by destruct Hsome. }
      destruct (H7 r Hb Hk) as (X & i & [HX Hi] & Hr).
      rewrite (Hgone X i r) in Hsome; [by destruct Hsome|by apply HYs|done..].
    + intros Hsome. destruct (Hkeep r) as [Heq|(_ & Y & i & HY & Hi & Hr)].
      * rewrite Heq. by apply H5.
      * rewrite (H8 Y i r) in Hsome; [by destruct Hsome| |done].
        split; [by apply HYs|done].
Qed.

Ltac new_rows_step HL Hrun X :=
  let hk := fresh "hk" in
  let Hn := fresh "Hn" in
  apply bind_inv in Hrun as (X & hk & Hn & Hrun);
  apply (fun H => linv_new_rows _ _ _ _ _ _ _ H Hn) in HL; clear Hn;
  simpl app in HL.

Ltac kept_step HL Hrun Hop :=
  let hk := fresh "hk" in
  let Hs := fresh "Hs" in
  let u := fresh "u" in
  apply bind_inv in Hrun as (u & hk & Hs & Hrun);
  apply Hop in Hs; apply (fun H => linv_step _ _ _ _ _ H Hs) in HL; clear Hs.

Ltac copy_stmt Hb :=
  let Hs := fresh "Hs" in
  let w := fresh "w" in
  let hy := fresh "hy" in
  apply bind_inv in Hb as (w & hy & Hs & Hb); inv_reads Hs;
  apply mwrite_same_blocks in Hs;
  eapply same_blocks_trans; [exact Hs|]; clear Hs.

Lemma divide_conquer_step_blocks_kept self :
  blocks_kept self -> blocks_kept (divide_conquer_step self).
Proof.
  intros Hself n h A B C u h' Hrun. unfold divide_conquer_step in Hrun.
  destruct (decide (n <= 2)) as [Hn|Hn];
    [by eapply matrixMultiplyBruteForce_blocks_kept|].
  cbv zeta in Hrun. set (half := n ÷ 2) in *.
  pose proof (linv_start h) as HL.
  new_rows_step HL Hrun A11. new_rows_step HL Hrun A12.
  new_rows_step HL Hrun A21. new_rows_step HL Hrun A22.
  new_rows_step HL Hrun B11. new_rows_step HL Hrun B12.
  new_rows_step HL Hrun B21. new_rows_step HL Hrun B22.
  set (Xs := [A11; A12; A21; A22; B11; B12; B21; B22]) in *.
  apply bind_inv in Hrun as (u1 & hf & Hfill & Hrun).
  apply (linv_fill _ _ _ _ _ _ _ _ HL) in Hfill;
    [|apply (li_nodup _ _ _ _ HL)|intros Y HY; split; [done|by intros i []]].
  clear HL.
  assert (HL : linv h hf Xs (full Xs half)).
  { eapply linv_ext; [|exact Hfill]. intros X i. split; [by intros [[]|?]|by right]. }
  clear Hfill.
  apply bind_inv in Hrun as (u2 & hs & Hsplit & Hrun).
  assert (Hs : same_blocks hf hs).
  { revert Hsplit. apply for_same_blocks. intros i hx w hx' _.
    apply for_same_blocks. intros j hy w' hy' _ Hb.
    do 7 copy_stmt Hb. inv_reads Hb. by eapply mwrite_same_blocks. }
  apply (fun H => linv_step _ _ _ _ _ H Hs) in HL. clear Hs Hsplit.
  subst Xs.
  new_rows_step HL Hrun temp1. new_rows_step HL Hrun temp2.
  new_rows_step HL Hrun P1. new_rows_step HL Hrun P2.
  new_rows_step HL Hrun P3. new_rows_step HL Hrun P4.
  new_rows_step HL Hrun P5. new_rows_step HL Hrun P6.
  new_rows_step HL Hrun P7.
  set (Xs := [A11; A12; A21; A22; B11; B12; B21; B22]) in *.
  set (Ys := [temp1; temp2; P1; P2; P3; P4; P5; P6; P7]) in *.
  change (linv h hk15 (Xs ++ Ys) (full Xs half)) in HL.
  pose proof (li_nodup _ _ _ _ HL) as Hnd.
  apply NoDup_app in Hnd as (_ & Hdis & HndY).
  apply bind_inv in Hrun as (u3 & hf2 & Hfill & Hrun).
  apply (linv_fill _ _ _ _ _ _ _ _ HL) in Hfill; [|done|].
  2:{ intros Y HY. split; [apply elem_of_app; by right|].
      intros i [HX _]. by apply (Hdis Y). }
  clear HL.
  assert (HL : linv h hf2 (Xs ++ Ys) (full (Xs ++ Ys) half)).
  { eapply linv_ext; [|exact Hfill]. intros X i. unfold full.
    rewrite elem_of_app. tauto. }
  clear Hfill Hdis HndY.
  pose proof subtractMatrix_blocks_kept as Hsub.
  pose proof addMatrix_blocks_kept as Hadd.
  kept_step HL Hrun Hsub. kept_step HL Hrun Hself.
  kept_step HL Hrun Hadd. kept_step HL Hrun Hself.
  kept_step HL Hrun Hadd. kept_step HL Hrun Hself.
  kept_step HL Hrun Hsub. kept_step HL Hrun Hself.
  kept_step HL Hrun Hadd. kept_step HL Hrun Hadd. kept_step HL Hrun Hself.
  kept_step HL Hrun Hsub. kept_step HL Hrun Hadd. kept_step HL Hrun Hself.
  kept_step HL Hrun Hsub. kept_step HL Hrun Hadd. kept_step HL Hrun Hself.
  apply bind_inv in Hrun as (uc & hc & Hcomb & Hrun).
  assert (Hs : same_blocks hk32 hc).
  { revert Hcomb. apply for_same_blocks. intros i hx w hx' _.
    apply for_same_blocks. intros j hy w' hy' _ Hb.
    do 3 copy_stmt Hb. inv_reads Hb. by eapply mwrite_same_blocks. }
  apply (fun H => linv_step _ _ _ _ _ H Hs) in HL. clear Hs Hcomb.
  by eapply (linv_release h hc (Xs ++ Ys) (Xs ++ Ys) half).
Qed.

Lemma divide_conquer_rec_blocks_kept depth : blocks_kept (divide_conquer_rec depth).
Proof.
  induction depth as [|d IH]; [apply matrixMultiplyBruteForce_blocks_kept|].
  by apply divide_conquer_step_blocks_kept.
Qed.

Lemma matrixMultiplyDivideConquer_blocks_kept :
  blocks_kept matrixMultiplyDivideConquer.
Proof.
  intros n h A B C u h'. unfold matrixMultiplyDivideConquer.
  apply divide_conquer_rec_blocks_kept.
Qed.

(** *** The blocks when new arrays hold values *)

Section junk_blocks.
Variable junk : heap -> Z -> Z.

Lemma linv_new_row_junk h hk Xs F X i m u hk' :
  linv h hk Xs F -> X ∈ Xs -> ~ F X i ->
  new_row_junk junk X i m hk = Some (u, hk') ->
  linv h hk' Xs (fun Y i' => F Y i' \/ (Y = X /\ i' = i)).
Proof.
  intros [H1 H2 H3 H4 H5 H6 H7 H8] HX HF Hrun.
  pose proof Hrun as (r & b & Hm & Hr & Hb & Hi & Hints & Hptrs)%new_row_junk_inv.
  pose proof Hrun as (r0 & Hr0 & Hrow & _)%new_row_junk_obs.
  assert (r0 = r) as ->.
  { specialize (Hrow X i). rewrite decide_True in Hrow by done.
    unfold row_of in Hrow. rewrite Hptrs in Hrow.
    unfold blk_read in Hrow. rewrite lookup_insert_eq in Hrow. cbn in Hrow.
    rewrite zidx_zupd_eq in Hrow by done. cbn in Hrow. congruence. }
  assert (Hrh : ints h !! r = None).
  { destruct (ints h !! r) as [c|] eqn:Hc; [|done].
    destruct (H5 r) as [? ?]; [eauto|congruence]. }
  split; try done.
  - intros Y HY. destruct (H2 Y HY) as [? [c Hc]]. split; [done|].
    rewrite Hptrs. destruct (decide (Y = X)) as [->|].
    + rewrite lookup_insert_eq. eauto.
    + rewrite lookup_insert_ne by done. eauto.
  - intros Y i' [HY|[-> _]]; [by eapply H3|done].
  - intros Y c Hc. rewrite Hptrs, lookup_insert_ne; [by apply H4|].
    intros <-. destruct (H2 X HX) as [? _]. congruence.
  - intros r' Hr'. rewrite Hints. destruct (decide (r' = r)) as [->|].
    + rewrite lookup_insert_eq. eauto.
    + rewrite lookup_insert_ne by done. by apply H5.
  - intros Y HY Hsome. destruct (decide (Y = X)) as [->|Hne]; [done|].
    apply H6; [done|]. by rewrite Hptrs, lookup_insert_ne in Hsome.
  - intros r' Hr' Hsome. destruct (decide (r' = r)) as [->|Hne].
    + exists X, i. split; [by right|]. rewrite Hrow. by rewrite decide_True.
    + rewrite Hints, lookup_insert_ne in Hsome by done.
      destruct (H7 r' Hr' Hsome) as (Y & i' & HY & Hrow0).
      exists Y, i'. split; [by left|]. rewrite Hrow.
      rewrite decide_False; [done|]. intros [-> ->]. done.
  - intros Y i' r' [HY|[-> ->]] Hr'.
    + rewrite Hrow in Hr'. rewrite decide_False in Hr'; [by eapply H8|].
      intros [-> ->]. done.
    + rewrite Hrow, decide_True in Hr' by done. by injection Hr' as <-.
Qed.

Lemma linv_new_row_each_junk h Xs i m Ys : forall hk F u hk',
  linv h hk Xs F -> NoDup Ys -> (forall Y, Y ∈ Ys -> Y ∈ Xs /\ ~ F Y i) ->
  new_row_each_junk junk Ys i m hk = Some (u, hk') ->
  linv h hk' Xs (fun Y i' => F Y i' \/ (Y ∈ Ys /\ i' = i)).
Proof.
  induction Ys as [|Y Ys IH]; intros hk F u hk' HL Hnd HYs Hrun.
  - apply ret_inv in Hrun as [_ ->]. eapply linv_ext; [|done].
    intros X i'. split; [by left|]. intros [?|[HX _]]; [done|].
    by apply elem_of_nil in HX.
  - cbn [new_row_each_junk] in Hrun.
    apply bind_inv in Hrun as (w & h1 & Hnew & Hrest).
    apply NoDup_cons in Hnd as [HY Hnd].
    destruct (HYs Y) as [HYin HYF]; [by left|].
    pose proof (linv_new_row_junk h hk Xs F Y i m w h1 HL HYin HYF Hnew) as HL1.
    eapply linv_ext; [|eapply (IH h1 _ u hk' HL1 Hnd); [|done]].
    + intros X i'. cbv beta. rewrite elem_of_cons. split.
      * intros [[?|[-> ->]]|[? ->]]; [by left|right|right]; (split; [|done]);
          [by left|by right].
      * intros [?|[[->|?] ->]]; [by left; left|by left; right|by right].
    + intros Z HZ. destruct (HYs Z) as [? ?]; [by right|]. split; [done|].
      intros [?|[-> _]]; done.
Qed.

Lemma linv_fill_junk h hk Xs F half Ys u hk' :
  linv h hk Xs F -> NoDup Ys ->
  (forall Y, Y ∈ Ys -> Y ∈ Xs /\ forall i, ~ F Y i) ->
  for_ 0 half (fun i => new_row_each_junk junk Ys i half) hk = Some (u, hk') ->
  linv h hk' Xs (fun Y i => F Y i \/ (Y ∈ Ys /\ 0 <= i < half)).
Proof.
  intros HL Hnd HYs Hrun. destruct (decide (0 <= half)) as [Hh|Hh].
  - eapply linv_ext;
      [|eapply (for_inv (fun i hx =>
          linv h hx Xs (fun Y i' => F Y i' \/ (Y ∈ Ys /\ 0 <= i' < i))) 0 half);
        [done|exact Hrun| |]].
    + done.
    + eapply linv_ext; [|done]. intros X i. split; [by left|].
      intros [?|[_ ?]]; [done|lia].
    + intros i hx v hx' Hi HLx Hb. cbv beta in Hb.
      eapply linv_ext; [|eapply linv_new_row_each_junk; [exact HLx|done| |exact Hb]].
      * intros X i'. cbv beta. split.
        -- intros [[?|[? ?]]|[? ->]]; [by left|right|right]; (split; [done|lia]).
        -- intros [?|[? ?]]; [by left; left|].
           destruct (decide (i' = i)) as [->|]; [by right|].
           left. right. split; [done|lia].
      * intros Y HY. destruct (HYs Y HY) as [? HF]. split; [done|].
        intros [?|[_ ?]]; [by eapply HF|lia].
  - rewrite for_empty in Hrun by lia. injection Hrun as _ <-.
    eapply linv_ext; [|done]. intros X i. split; [by left|].
    intros [?|[_ ?]]; [done|lia].
Qed.

Lemma divide_conquer_step_junk_blocks_kept self :
  blocks_kept self -> blocks_kept (divide_conquer_step_junk junk self).
Proof.
  intros Hself n h A B C u h' Hrun. unfold divide_conquer_step_junk in Hrun.
  destruct (decide (n <= 2)) as [Hn|Hn];
    [by eapply matrixMultiplyBruteForce_blocks_kept|].
  cbv zeta in Hrun. set (half := n ÷ 2) in *.
  pose proof (linv_start h) as HL.
  new_rows_step HL Hrun A11. new_rows_step HL Hrun A12.
  new_rows_step HL Hrun A21. new_rows_step HL Hrun A22.
  new_rows_step HL Hrun B11. new_rows_step HL Hrun B12.
  new_rows_step HL Hrun B21. new_rows_step HL Hrun B22.
  set (Xs := [A11; A12; A21; A22; B11; B12; B21; B22]) in *.
  apply bind_inv in Hrun as (u1 & hf & Hfill & Hrun).
  apply (linv_fill_junk _ _ _ _ _ _ _ _ HL) in Hfill;
    [|apply (li_nodup _ _ _ _ HL)|intros Y HY; split; [done|by intros i []]].
  clear HL.
  assert (HL : linv h hf Xs (full Xs half)).
  { eapply linv_ext; [|exact Hfill]. intros X i. split; [by intros [[]|?]|by right]. }
  clear Hfill.
  apply bind_inv in Hrun as (u2 & hs & Hsplit & Hrun).
  assert (Hs : same_blocks hf hs).
  { revert Hsplit. apply for_same_blocks. intros i hx w hx' _.
    apply for_same_blocks. intros j hy w' hy' _ Hb.
    do 7 copy_stmt Hb. inv_reads Hb. by eapply mwrite_same_blocks. }
  apply (fun H => linv_step _ _ _ _ _ H Hs) in HL. clear Hs Hsplit.
  subst Xs.
  new_rows_step HL Hrun temp1. new_rows_step HL Hrun temp2.
  new_rows_step HL Hrun P1. new_rows_step HL Hrun P2.
  new_rows_step HL Hrun P3. new_rows_step HL Hrun P4.
  new_rows_step HL Hrun P5. new_rows_step HL Hrun P6.
  new_rows_step HL Hrun P7.
  set (Xs := [A11; A12; A21; A22; B11; B12; B21; B22]) in *.
  set (Ys := [temp1; temp2; P1; P2; P3; P4; P5; P6; P7]) in *.
  change (linv h hk15 (Xs ++ Ys) (full Xs half)) in HL.
  pose proof (li_nodup _ _ _ _ HL) as Hnd.
  apply NoDup_app in Hnd as (_ & Hdis & HndY).
  apply bind_inv in Hrun as (u3 & hf2 & Hfill & Hrun).
  apply (linv_fill_junk _ _ _ _ _ _ _ _ HL) in Hfill; [|done|].
  2:{ intros Y HY. split; [apply elem_of_app; by right|].
      intros i [HX _]. by apply (Hdis Y). }
  clear HL.
  assert (HL : linv h hf2 (Xs ++ Ys) (full (Xs ++ Ys) half)).
  { eapply linv_ext; [|exact Hfill]. intros X i. unfold full.
    rewrite elem_of_app. tauto. }
  clear Hfill Hdis HndY.
  pose proof subtractMatrix_blocks_kept as Hsub.
  pose proof addMatrix_blocks_kept as Hadd.
  kept_step HL Hrun Hsub. kept_step HL Hrun Hself.
  kept_step HL Hrun Hadd. kept_step HL Hrun Hself.
  kept_step HL Hrun Hadd. kept_step HL Hrun Hself.
  kept_step HL Hrun Hsub. kept_step HL Hrun Hself.
  kept_step HL Hrun Hadd. kept_step HL Hrun Hadd. kept_step HL Hrun Hself.
  kept_step HL Hrun Hsub. kept_step HL Hrun Hadd. kept_step HL Hrun Hself.
  kept_step HL Hrun Hsub. kept_step HL Hrun Hadd. kept_step HL Hrun Hself.
  apply bind_inv in Hrun as (uc & hc & Hcomb & Hrun).
  assert (Hs : same_blocks hk32 hc).
  { revert Hcomb. apply for_same_blocks. intros i hx w hx' _.
    apply for_same_blocks. intros j hy w' hy' _ Hb.
    do 3 copy_stmt Hb. inv_reads Hb. by eapply mwrite_same_blocks. }
  apply (fun H => linv_step _ _ _ _ _ H Hs) in HL. clear Hs Hcomb.
  by eapply (linv_release h hc (Xs ++ Ys) (Xs ++ Ys) half).
Qed.

Lemma divide_conquer_rec_junk_blocks_kept depth :
  blocks_kept (divide_conquer_rec_junk junk depth).
Proof.
  induction depth as [|d IH]; [apply matrixMultiplyBruteForce_blocks_kept|].
  by apply divide_conquer_step_junk_blocks_kept.
Qed.

Lemma matrixMultiplyDivideConquer_junk_blocks_kept :
  blocks_kept (matrixMultiplyDivideConquer_junk junk).
Proof.
  intros n h A B C u h'. unfold matrixMultiplyDivideConquer_junk.
  apply divide_conquer_rec_junk_blocks_kept.
Qed.
End junk_blocks.

(** X8: a call of [matrixMultiplyDivideConquer] releases what it allocated
    and nothing else.  Whenever it returns, whatever the size and the
    arguments, the heap has the arrays of row pointers it had, with the same
    contents, and rows at the same addresses: every array and every row that
    the call and its recursive calls allocated has been released.  The same
    holds when new cells hold values ([matrixMultiplyDivideConquer_junk]),
    and read that way the call does return, for every size, on operands
    that can be read and a destination separate from them. *)
Theorem divide_conquer_releases_what_it_allocates n h A B C :
  (forall u h', matrixMultiplyDivideConquer A B C n h = Some (u, h') ->
     ptrs h' = ptrs h /\ dom (ints h') = dom (ints h)) /\
  (forall junk u h',
     matrixMultiplyDivideConquer_junk junk A B C n h = Some (u, h') ->
     ptrs h' = ptrs h /\ dom (ints h') = dom (ints h)) /\
  (forall junk fa fb,
     rep h A n fa -> rep h B n fb -> dest h C n -> sep h C A n -> sep h C B n ->
     exists h', matrixMultiplyDivideConquer_junk junk A B C n h = Some (tt, h') /\
                ptrs h' = ptrs h /\ dom (ints h') = dom (ints h)).
Proof.
  assert (Hdom : forall h', same_blocks h h' ->
            ptrs h' = ptrs h /\ dom (ints h') = dom (ints h)).
  { intros h' [Hp Hi]. split; [done|].
    apply set_eq. intros r. by rewrite !elem_of_dom. }
  split; [|split].
  - intros u h' Hrun. by apply Hdom, (matrixMultiplyDivideConquer_blocks_kept _ _ _ _ _ _ _ Hrun).
  - intros junk u h' Hrun.
    by apply Hdom, (matrixMultiplyDivideConquer_junk_blocks_kept junk _ _ _ _ _ _ _ Hrun).
  - intros junk fa fb HA HB HC HsA HsB.
    destruct (matrixMultiplyDivideConquer_junk_safe junk n h A B C fa fb)
      as (h' & Hrun & _); [done..|].
    exists h'. split; [done|].
    by apply Hdom, (matrixMultiplyDivideConquer_junk_blocks_kept junk _ _ _ _ _ _ _ Hrun).
Qed.

Lemma divide_conquer_releases_what_it_allocates_witness :
  exists h',
    matrixMultiplyDivideConquer_junk (fun _ j => j) 1 2 3 6 sample6 = Some (tt, h') /\
    ptrs h' = ptrs sample6 /\ dom (ints h') = dom (ints sample6).
Proof.
  apply (proj2 (proj2 (divide_conquer_releases_what_it_allocates 6 sample6 1 2 3))
           (fun _ j => j) counting6 counting6).
  - apply rep_check_sound. vm_compute. reflexivity.
  - apply rep_check_sound. vm_compute. reflexivity.
  - apply dest_check_sound. vm_compute. reflexivity.
  - apply sep_check_sound. vm_compute. reflexivity.
  - apply sep_check_sound. vm_compute. reflexivity.
Defined.

(** ** A test case of [main] *)

Lemma rep_allocated h X n f : 0 < n -> rep h X n f -> is_Some (ptrs h !! X).
Proof.
  intros Hn HX. assert (Hc : cell h X 0 0 = Some (f 0 0)) by (apply HX; lia).
  apply cell_Some in Hc as (r & Hr & _). by eapply row_of_Some_ptrs.
Qed.

Lemma win_same_rows W h hk X n r j :
  pres nobody W h hk -> dest h X n -> win hk X n r j -> win h X n r j.
Proof.
  intros Hp HX (Hj & i & Hi & Hr). split; [done|]. exists i. split; [done|].
  rewrite <- (pres_row_of_eq _ _ _ _ _ _ Hp); [done|intros []|].
  apply (dest_allocated h X n); [lia|done].
Qed.

Lemma sep_keep W h hk X Y n f :
  pres nobody W h hk -> dest h X n -> rep h Y n f -> sep h X Y n -> sep hk X Y n.
Proof.
  intros Hp HX HY Hs. destruct (decide (0 < n)) as [Hn|Hn].
  - eapply sep_pres; [done|by intros []..| | |done].
    + by eapply dest_allocated.
    + by eapply rep_allocated.
  - intros i i' r Hi. lia.
Qed.

(** An operation run several times in a row, as in the timing loops, does
    what one run does. *)
Lemma binop_ok_repeat op F n iterations :
  0 < iterations -> binop_ok op F n ->
  binop_ok (fun A B C n => for_ 0 iterations (fun iter => op A B C n)) F n.
Proof.
  intros Hit Hop h A B C fa fb HA HB HC HsA HsB.
  destruct (for_spec (fun i hk => pres nobody (win h C n) h hk /\
                                  (0 < i -> rep hk C n (F fa fb)))
              0 iterations (fun _ => op A B C n) h) as (h' & Hrun & Hp & Hrep);
    [lia|split; [apply pres_refl|lia]| |].
  - intros i hk Hi [Hp _].
    destruct (Hop hk A B C fa fb) as (hk' & Hrun & Hp' & Hrep).
    + eapply rep_pres_sep; [done|by intros []|lia|done..].
    + eapply rep_pres_sep; [done|by intros []|lia|done..].
    + eapply dest_pres; [done|by intros []|done].
    + by eapply sep_keep.
    + by eapply sep_keep.
    + exists hk'. split; [done|]. split; [|done].
      eapply pres_trans; [done|]. eapply pres_mono; [done| |done].
      intros r j. by apply win_same_rows with (W := win h C n).
  - exists h'. split; [done|]. split; [done|]. apply Hrep. lia.
Qed.

(** A statement that fills the temporary number [d]. *)
Lemma tstate_fill (fill : M unit) f h hk Xs half vals d D :
  (dest hk D half ->
   exists hk', fill hk = Some (tt, hk') /\
               pres nobody (win hk D half) hk hk' /\ rep hk' D half f) ->
  tstate h hk Xs half vals -> Xs !! d = Some D -> (d < length vals)%nat ->
  exists hk', fill hk = Some (tt, hk') /\
              tstate h hk' Xs half (<[d := Some f]> vals).
Proof.
  intros Hfill [[Hp Hts] Henv] Hd Hlen.
  pose proof (ts_nodup _ _ _ _ _ Hts) as Hnd.
  assert (HD : D ∈ Xs) by by eapply list_elem_of_lookup_2.
  assert (Hother : forall a X, Xs !! a = Some X -> a <> d -> X <> D).
  { intros a X Ha Hne ->. apply Hne. by eapply NoDup_lookup. }
  destruct Hfill as (hk' & Hrun & Hp' & HD'); [by eapply tshape_dest|].
  exists hk'. split; [done|]. split; [split|].
  - eapply pres_new_window; [done..|]. intros r j. by eapply tshape_win_new.
  - by eapply tshape_pres.
  - apply Forall2_same_length_lookup_2.
    { rewrite length_insert. by eapply Forall2_length. }
    intros a X v Ha Hv. destruct (decide (a = d)) as [->|Hne].
    + apply list_lookup_insert_Some in Hv as [(_ & <- & _)|[? _]]; [|done].
      rewrite Hd in Ha. by injection Ha as <-.
    + rewrite list_lookup_insert_ne in Hv by done.
      pose proof (Forall2_lookup_lr _ _ _ _ _ _ Henv Ha Hv) as HX.
      destruct v as [g|]; [|done]. simpl in *.
      eapply rep_pres_sep; [done|by intros []|lia| |done].
      eapply tshape_sep; eauto; [by eapply list_elem_of_lookup_2|].
      intros ->. by eapply (Hother a X).
Qed.

(** Two heaps with the same arrays of row pointers and the same rows are
    the same heap. *)
Lemma heap_ext h h' :
  ptrs h' = ptrs h ->
  (forall r, rowlen h' r = rowlen h r) ->
  (forall r j, rd h' r j = rd h r j) ->
  h' = h.
Proof.
  intros Hptrs Hlen Hrd.
  destruct h as [p i], h' as [p' i']. cbn in *. subst p'. f_equal.
  apply map_eq. intros r. specialize (Hlen r). unfold rowlen in Hlen. cbn in Hlen.
  destruct (i !! r) as [b|] eqn:Hb, (i' !! r) as [b'|] eqn:Hb'; try done.
  f_equal. cbn in Hlen.
  apply list_eq_same_length with (length b); [done|injection Hlen; lia|].
  intros k x y Hk Hx Hy.
  specialize (Hrd r (Z.of_nat k)). unfold rd, blk_read in Hrd.
  cbn in Hrd. rewrite Hb, Hb' in Hrd. cbn in Hrd. unfold zidx in Hrd.
  rewrite !decide_True in Hrd by lia. by rewrite Nat2Z.id, Hx, Hy in Hrd.
Qed.

Lemma same_blocks_rowlen W h h' r :
  same_blocks h h' -> pres nobody W h h' -> rowlen h' r = rowlen h r.
Proof.
  intros [_ Hints] (_ & Hlen & _). destruct (rowlen h r) as [len|] eqn:Hl.
  - by apply Hlen.
  - apply rowlen_None. apply rowlen_None in Hl.
    destruct (ints h' !! r) as [b|] eqn:Hb; [|done].
    destruct (Hints r) as [[? ?] _]; [eauto|congruence].
Qed.

Lemma same_blocks_rd W h h' r j :
  same_blocks h h' -> pres nobody W h h' -> ~ W r j -> rd h' r j = rd h r j.
Proof.
  intros Hs Hp HW. pose proof (same_blocks_rowlen W h h' r Hs Hp) as Hl.
  destruct Hp as (_ & _ & Hrd). destruct (rowlen h r) as [len|] eqn:Hlen.
  - apply Hrd; [eauto|done].
  - apply rowlen_None in Hl, Hlen. unfold rd, blk_read. by rewrite Hl, Hlen.
Qed.

(** Two heaps with the same blocks and the same contents are the same. *)
Lemma same_blocks_same_heap h h' :
  same_blocks h h' -> pres nobody nothing h h' -> h' = h.
Proof.
  intros Hs Hp. apply heap_ext.
  - by destruct Hs.
  - intros r. by eapply same_blocks_rowlen.
  - intros r j. eapply same_blocks_rd; [done..|]. by intros [].
Qed.

Lemma matrix_test_ok iterations disA disB n h :
  0 < iterations -> 0 <= n -> reducible n ->
  exists h', matrix_test iterations disA disB n h = Some (true, h') /\
             pres nobody nothing h h'.
Proof.
  intros Hit Hn Hred. unfold matrix_test.
  pose proof (conj (pres_refl nobody nothing h) (tshape_init h n)) as Hst.
  change (astate h h [] n nowhere) in Hst.
  alloc_rows Hst A h1. alloc_rows Hst B h2.
  alloc_rows Hst C1 h3. alloc_rows Hst C2 h4.
  destruct (fill_rows_spec h h4 _ n nowhere _ Hn (fun Y H => H) Hst)
    as (h5 & Hfill & [Hp5 Hts5] & _).
  rewrite (bind_Some _ _ _ _ _ Hfill). clear Hfill Hst h1 h2 h3 h4.
  set (Xs := [A; B; C1; C2]) in *.
  assert (Hst : tstate h h5 Xs n [None; None; None; None]).
  { split; [split; [done|]|apply (tenv_nothing h5 Xs n)].
    eapply tshape_ext; [|done]. intros X i HF. by right. }
  clear Hp5 Hts5.
  set (fa := fun i j : Z => disA (i * n + j)).
  set (fb := fun i j : Z => disB (i * n + j)).
  destruct (tstate_fill (initializeRandomMatrix disA A n) fa h h5 Xs n
              [None; None; None; None] 0%nat A)
    as (h6 & Hrun6 & Hst6); [intros HD; by apply initializeRandomMatrix_ok|
                             exact Hst|done|cbn; lia|].
  rewrite (bind_Some _ _ _ _ _ Hrun6). clear Hrun6 Hst.
  cbn [insert list_insert] in Hst6.
  destruct (tstate_fill (initializeRandomMatrix disB B n) fb h h6 Xs n
              [Some fa; None; None; None] 1%nat B)
    as (h7 & Hrun7 & Hst7); [intros HD; by apply initializeRandomMatrix_ok|
                             exact Hst6|done|cbn; lia|].
  rewrite (bind_Some _ _ _ _ _ Hrun7). clear Hrun7 Hst6.
  cbn [insert list_insert] in Hst7.
  destruct (tstate_op
              (fun A B C n => for_ 0 iterations
                                (fun iter => matrixMultiplyBruteForce A B C n))
              (mmul n) h h7 Xs n [Some fa; Some fb; None; None]
              2%nat 0%nat 1%nat C1 A B fa fb
              (binop_ok_repeat _ _ _ _ Hit (matrixMultiplyBruteForce_ok n)) Hst7)
    as (h8 & Hrun8 & Hst8); [done..|].
  cbv beta in Hrun8. rewrite (bind_Some _ _ _ _ _ Hrun8). clear Hrun8 Hst7.
  cbn [insert list_insert] in Hst8.
  destruct (tstate_op
              (fun A B C n => for_ 0 iterations
                                (fun iter => matrixMultiplyDivideConquer A B C n))
              (mmul n) h h8 Xs n [Some fa; Some fb; Some (mmul n fa fb); None]
              3%nat 0%nat 1%nat C2 A B fa fb
              (binop_ok_repeat _ _ _ _ Hit (matrixMultiplyDivideConquer_ok n Hred))
              Hst8)
    as (h9 & Hrun9 & Hst9); [done..|].
  cbv beta in Hrun9. rewrite (bind_Some _ _ _ _ _ Hrun9). clear Hrun9 Hst8.
  cbn [insert list_insert] in Hst9.
  destruct Hst9 as [[Hp9 Hts9] Henv].
  pose proof (Forall2_lookup_lr _ _ _ 2%nat C1 _ Henv eq_refl eq_refl) as HC1.
  pose proof (Forall2_lookup_lr _ _ _ 3%nat C2 _ Henv eq_refl eq_refl) as HC2.
  cbn [holds] in HC1, HC2.
  destruct (verifyMatrices_spec h9 C1 C2 n _ _ HC1 HC2) as (b & Hver & Hb).
  rewrite (bind_Some _ _ _ _ _ Hver).
  assert (b = true) as -> by (by apply Hb).
  destruct (release_spec h h9 Xs n Hn Hts9) as (h' & Hrel & Hagree).
  exists h'. split.
  - apply bind_inv in Hrel as (w & hx & Hrows & Harrs).
    rewrite (bind_Some _ _ _ _ _ Hrows). by rewrite (bind_Some _ _ _ _ _ Harrs).
  - by eapply agree_old_pres.
Qed.

Lemma for_ret_from_same_heap {R} (body : Z -> M (option R)) cnt :
  (forall i hk r hk', body i hk = Some (r, hk') -> hk' = hk) ->
  forall lo h r h', for_ret_from cnt lo body h = Some (r, h') -> h' = h.
Proof.
  intros Hbody. induction cnt as [|cnt IH]; intros lo h r h' Hrun.
  - by apply ret_inv in Hrun as [_ ->].
  - cbn [for_ret_from] in Hrun. apply bind_inv in Hrun as (o & hx & Hb & Hrun).
    apply Hbody in Hb as ->.
    destruct o; [by apply ret_inv in Hrun as [_ ->]|by eapply IH].
Qed.

(** [verifyMatrices] only reads. *)
Lemma verifyMatrices_same_heap A B n h b h' :
  verifyMatrices A B n h = Some (b, h') -> h' = h.
Proof.
  unfold verifyMatrices. intros (o & hx & Hloop & Hret)%bind_inv.
  assert (hx = h) as ->.
  { revert Hloop. unfold for_ret. apply for_ret_from_same_heap.
    intros i hk r hk'. apply for_ret_from_same_heap.
    intros j hy r' hy' Hb. inv_reads Hb.
    destruct (decide (v <> v0)); by apply ret_inv in Hb as [_ ->]. }
  destruct o; by apply ret_inv in Hret as [_ ->].
Qed.

Lemma matrix_test_blocks iterations disA disB n h b h' :
  matrix_test iterations disA disB n h = Some (b, h') -> same_blocks h h'.
Proof.
  intros Hrun. unfold matrix_test in Hrun.
  pose proof (linv_start h) as HL.
  new_rows_step HL Hrun A. new_rows_step HL Hrun B.
  new_rows_step HL Hrun C1. new_rows_step HL Hrun C2.
  set (Xs := [A; B; C1; C2]) in *.
  apply bind_inv in Hrun as (u1 & hf & Hfill & Hrun).
  apply (linv_fill _ _ _ _ _ _ _ _ HL) in Hfill;
    [|apply (li_nodup _ _ _ _ HL)|intros Y HY; split; [done|by intros i []]].
  clear HL.
  assert (HL : linv h hf Xs (full Xs n)).
  { eapply linv_ext; [|exact Hfill]. intros X i. split; [by intros [[]|?]|by right]. }
  clear Hfill.
  kept_step HL Hrun (initializeRandomMatrix_same_blocks disA A n).
  kept_step HL Hrun (initializeRandomMatrix_same_blocks disB B n).
  apply bind_inv in Hrun as (u2 & h2 & Hbf & Hrun).
  assert (Hs : same_blocks hk4 h2).
  { revert Hbf. apply for_same_blocks. intros i hx w hx' _.
    apply matrixMultiplyBruteForce_blocks_kept. }
  apply (fun H => linv_step _ _ _ _ _ H Hs) in HL. clear Hs Hbf.
  apply bind_inv in Hrun as (u3 & h3 & Hdc & Hrun).
  assert (Hs : same_blocks h2 h3).
  { revert Hdc. apply for_same_blocks. intros i hx w hx' _.
    apply matrixMultiplyDivideConquer_blocks_kept. }
  apply (fun H => linv_step _ _ _ _ _ H Hs) in HL. clear Hs Hdc.
  apply bind_inv in Hrun as (r & h4 & Hver & Hrun).
  apply verifyMatrices_same_heap in Hver as ->.
  apply bind_inv in Hrun as (u4 & h5 & Hrows & Hrun).
  apply bind_inv in Hrun as (u5 & h6 & Harrs & Hret).
  apply ret_inv in Hret as [_ ->].
  eapply (linv_release h h3 Xs Xs n); [done|done|].
  by rewrite (bind_Some _ _ _ _ _ Hrows).
Qed.

(** X9: for the sizes that halve exactly down to the base case, the two
    multiplications leave the very same heap: the same product in the
    destination, nothing else changed, and no block more or less. *)
Theorem divide_conquer_leaves_the_heap_of_brute_force n h A B C fa fb :
  reducible n ->
  rep h A n fa -> rep h B n fb -> dest h C n -> sep h C A n -> sep h C B n ->
  exists h',
    matrixMultiplyBruteForce A B C n h = Some (tt, h') /\
    matrixMultiplyDivideConquer A B C n h = Some (tt, h').
Proof.
  intros Hred HA HB HC HsA HsB.
  destruct (matrixMultiplyBruteForce_ok n h A B C fa fb)
    as (h1 & Hbf & Hp1 & Hrep1); [done..|].
  destruct (matrixMultiplyDivideConquer_ok n Hred h A B C fa fb)
    as (h2 & Hdc & Hp2 & Hrep2); [done..|].
  pose proof (matrixMultiplyBruteForce_blocks_kept _ _ _ _ _ _ _ Hbf) as Hs1.
  pose proof (matrixMultiplyDivideConquer_blocks_kept _ _ _ _ _ _ _ Hdc) as Hs2.
  exists h1. split; [done|]. rewrite Hdc. do 2 f_equal. apply heap_ext.
  - destruct Hs1 as [-> _]. by destruct Hs2.
  - intros r. rewrite (same_blocks_rowlen _ h h1 r Hs1 Hp1).
    by rewrite (same_blocks_rowlen _ h h2 r Hs2 Hp2).
  - intros r j.
    assert (Hwin : win h C n r j -> rd h2 r j = rd h1 r j).
    { intros (Hj & i & Hi & Hr).
      assert (HCa : is_Some (ptrs h !! C)) by (apply (dest_allocated h C n); [lia|done]).
      pose proof (Hrep1 i j Hi Hj) as H1. pose proof (Hrep2 i j Hi Hj) as H2.
      unfold cell in H1, H2.
      rewrite (pres_row_of_eq _ _ _ _ _ _ Hp1), Hr in H1; [|by intros []|done].
      rewrite (pres_row_of_eq _ _ _ _ _ _ Hp2), Hr in H2; [|by intros []|done].
      cbn in H1, H2. congruence. }
    destruct (decide (rd h2 r j = rd h1 r j)) as [|Hne]; [done|]. exfalso.
    assert (HW : ~ win h C n r j) by (intros HW; by apply Hne, Hwin).
    apply Hne.
    rewrite (same_blocks_rd _ h h1 r j Hs1 Hp1 HW).
    by rewrite (same_blocks_rd _ h h2 r j Hs2 Hp2 HW).
Qed.

Lemma divide_conquer_leaves_the_heap_of_brute_force_witness :
  exists h',
    matrixMultiplyBruteForce 1 2 3 4 sample4 = Some (tt, h') /\
    matrixMultiplyDivideConquer 1 2 3 4 sample4 = Some (tt, h').
Proof.
  apply (divide_conquer_leaves_the_heap_of_brute_force 4 sample4 1 2 3
           counting4 counting4).
  - exact (reducible_pow2 2).
  - apply rep_check_sound. vm_compute. reflexivity.
  - apply rep_check_sound. vm_compute. reflexivity.
  - apply dest_check_sound. vm_compute. reflexivity.
  - apply sep_check_sound. vm_compute. reflexivity.
  - apply sep_check_sound. vm_compute. reflexivity.
Defined.

(** ** A multiplication made again *)

Lemma binop_again op F n h A B C fa fb :
  binop_ok op F n -> blocks_kept op ->
  rep h A n fa -> rep h B n fb -> dest h C n -> sep h C A n -> sep h C B n ->
  exists h', op A B C n h = Some (tt, h') /\ op A B C n h' = Some (tt, h').
Proof.
  intros Hop Hkept HA HB HC HsA HsB.
  destruct (Hop h A B C fa fb) as (h1 & Hrun1 & Hp1 & Hrep1); [done..|].
  exists h1. split; [done|].
  assert (HA1 : rep h1 A n fa)
    by (eapply rep_pres_sep; [done|by intros []|lia|done..]).
  assert (HB1 : rep h1 B n fb)
    by (eapply rep_pres_sep; [done|by intros []|lia|done..]).
  assert (HC1 : dest h1 C n) by (eapply dest_pres; [done|by intros []|done]).
  destruct (Hop h1 A B C fa fb) as (h2 & Hrun2 & Hp2 & Hrep2);
    [done|done|done|by eapply sep_keep|by eapply sep_keep|].
  rewrite Hrun2. do 2 f_equal.
  pose proof (Hkept _ _ _ _ _ _ _ Hrun2) as Hs2.
  apply heap_ext.
  - by destruct Hs2.
  - intros r. by eapply same_blocks_rowlen.
  - intros r j.
    assert (Hwin : win h1 C n r j -> rd h2 r j = rd h1 r j).
    { intros (Hj & i & Hi & Hr).
      assert (HCa : is_Some (ptrs h1 !! C))
        by (apply (dest_allocated h1 C n); [lia|done]).
      pose proof (Hrep1 i j Hi Hj) as H1. pose proof (Hrep2 i j Hi Hj) as H2.
      unfold cell in H1, H2. rewrite Hr in H1.
      rewrite (pres_row_of_eq _ _ _ _ _ _ Hp2), Hr in H2; [|by intros []|done].
      cbn in H1, H2. congruence. }
    destruct (decide (rd h2 r j = rd h1 r j)) as [|Hne]; [done|]. exfalso.
    assert (HW : ~ win h1 C n r j) by (intros HW; by apply Hne, Hwin).
    apply Hne. by eapply same_blocks_rd.
Qed.

(** X10: either multiplication made again with the same arguments changes
    nothing: the second call returns and leaves the heap of the first, as the
    timing loops of [main] expect. *)
Theorem multiplication_again n h A B C fa fb :
  rep h A n fa -> rep h B n fb -> dest h C n -> sep h C A n -> sep h C B n ->
  (exists h1, matrixMultiplyBruteForce A B C n h = Some (tt, h1) /\
              matrixMultiplyBruteForce A B C n h1 = Some (tt, h1)) /\
  (reducible n ->
   exists h2, matrixMultiplyDivideConquer A B C n h = Some (tt, h2) /\
              matrixMultiplyDivideConquer A B C n h2 = Some (tt, h2)).
Proof.
  intros HA HB HC HsA HsB. split.
  - eapply (binop_again _ (mmul n)); try done.
    + apply matrixMultiplyBruteForce_ok.
    + apply matrixMultiplyBruteForce_blocks_kept.
  - intros Hred. eapply (binop_again _ (mmul n)); try done.
    + by apply matrixMultiplyDivideConquer_ok.
    + apply matrixMultiplyDivideConquer_blocks_kept.
Qed.

Lemma multiplication_again_witness :
  (exists h1, matrixMultiplyBruteForce 1 2 3 4 sample4 = Some (tt, h1) /\
              matrixMultiplyBruteForce 1 2 3 4 h1 = Some (tt, h1)) /\
  (reducible 4 ->
   exists h2, matrixMultiplyDivideConquer 1 2 3 4 sample4 = Some (tt, h2) /\
              matrixMultiplyDivideConquer 1 2 3 4 h2 = Some (tt, h2)).
Proof.
  apply (multiplication_again 4 sample4 1 2 3 counting4 counting4).
  - apply rep_check_sound. vm_compute. reflexivity.
  - apply rep_check_sound. vm_compute. reflexivity.
  - apply dest_check_sound. vm_compute. reflexivity.
  - apply sep_check_sound. vm_compute. reflexivity.
  - apply sep_check_sound. vm_compute. reflexivity.
Defined.

Lemma matrix_test_spec iterations disA disB n h :
  0 < iterations -> 0 <= n -> reducible n ->
  matrix_test iterations disA disB n h = Some (true, h).
Proof.
  intros Hit Hn Hred.
  destruct (matrix_test_ok iterations disA disB n h Hit Hn Hred) as (h' & Hrun & Hp).
  rewrite Hrun. do 2 f_equal. apply same_blocks_same_heap; [|done].
  by eapply matrix_test_blocks.
Qed.

(** X11: [main] of matrix_multiply.cpp: whatever the numbers drawn and the
    number of iterations, at least one, every test size that halves exactly
    down to the base case reports that the two results match, and leaves the
    heap as it found it; so do the four sizes of the program. *)
Theorem matrix_tests_results_match iterations testSizes draws call h :
  0 < iterations -> Forall (fun n => 0 <= n /\ reducible n) testSizes ->
  matrix_tests iterations testSizes draws call h =
  Some ((fun _ => true) <$> testSizes, h).
Proof.
  intros Hit Hall. revert call.
  induction Hall as [|n rest [Hn Hred] _ IH]; intros call; [done|].
  cbn [matrix_tests fmap list_fmap].
  rewrite (bind_Some _ _ _ _ _ (matrix_test_spec _ _ _ n h Hit Hn Hred)).
  by rewrite (bind_Some _ _ _ _ _ (IH _)).
Qed.

Lemma matrix_tests_results_match_witness :
  matrix_main (fun call k => (k + Z.of_nat call) mod 10 + 1) sample4 =
  Some ((fun _ => true) <$> [2; 4; 8; 128], sample4).
Proof.
  apply (matrix_tests_results_match 10 [2; 4; 8; 128]
           (fun call k => (k + Z.of_nat call) mod 10 + 1) 0%nat sample4).
  - lia.
  - constructor; [split; [lia|exact (reducible_pow2 1)]|].
    constructor; [split; [lia|exact (reducible_pow2 2)]|].
    constructor; [split; [lia|exact (reducible_pow2 3)]|].
    constructor; [split; [lia|exact (reducible_pow2 7)]|].
    constructor.
Defined.


(** * More about factorial.cpp *)

Lemma product_upto_pos k : 0 < product_upto k.
Proof. induction k as [|k IH]; [done|]. cbn [product_upto]. lia. Qed.

Lemma product_upto_mono k m : (k <= m)%nat -> product_upto k <= product_upto m.
Proof.
  induction 1 as [|m _ IH]; [done|]. cbn [product_upto].
  pose proof (product_upto_pos m). nia.
Qed.

Lemma wrapu64_range x : 0 <= wrapu64 x < 2 ^ 64.
Proof. unfold wrapu64. apply Z.mod_pos_bound. lia. Qed.

(** The factorial fits in 64 bits exactly up to [20!]. *)
Lemma product_upto_fits k :
  wrapu64 (product_upto k) = product_upto k <-> (k <= 20)%nat.
Proof.
  split.
  - intros Heq. destruct (decide (k <= 20)%nat) as [|Hk]; [done|].
    pose proof (wrapu64_range (product_upto k)) as Hr. rewrite Heq in Hr.
    pose proof (product_upto_mono 21 k ltac:(lia)) as Hm.
    assert (2 ^ 64 < product_upto 21) by (vm_compute; reflexivity). lia.
  - intros Hk. unfold wrapu64. apply Z.mod_small.
    pose proof (product_upto_pos k).
    pose proof (product_upto_mono k 20 Hk) as Hm.
    assert (product_upto 20 < 2 ^ 64) by (vm_compute; reflexivity). lia.
Qed.

(** From [66!] on, the factorial is a multiple of [2 ^ 64]; before, it is
    not. *)
Lemma product_upto_zero k : wrapu64 (product_upto k) = 0 <-> (66 <= k)%nat.
Proof.
  split.
  - intros Hz. destruct (decide (66 <= k)%nat) as [|Hk]; [done|]. exfalso.
    assert (Hall : forallb (fun k => negb (wrapu64 (product_upto k) =? 0))
                     (seq 0 66) = true) by (vm_compute; reflexivity).
    rewrite forallb_forall in Hall.
    assert (Hin : In k (seq 0 66)) by (apply in_seq; lia).
    apply Hall in Hin. by rewrite Hz in Hin.
  - induction 1 as [|k _ IH]; [vm_compute; reflexivity|].
    cbn [product_upto]. unfold wrapu64 in *.
    by rewrite <- Z.mul_mod_idemp_l, IH by lia.
Qed.

Lemma factorialBruteForce_overflow : factorialBruteForce INT_MAX = None.
Proof.
  unfold factorialBruteForce. destruct (decide (INT_MAX <= 1)) as [H|_].
  { unfold INT_MAX in H. lia. }
  assert (Hloop : forall k i r, Z.to_nat (INT_MAX - i) = k -> i <= INT_MAX ->
            factorial_loop INT_MAX i r = None).
  { induction k as [|k IH]; intros i r Hk Hi;
      rewrite factorial_loop_equation_1;
      (destruct (decide (i <= INT_MAX)); [|lia]); cbn.
    - rewrite decide_True by lia. done.
    - rewrite decide_False by lia. apply IH; lia. }
  apply (Hloop _ 2 1 eq_refl). unfold INT_MAX. lia.
Qed.

Lemma factorialDivideConquer_small n memo :
  n <= 1 -> factorialDivideConquer n memo = Some (1, memo).
Proof.
  intros Hn. rewrite factorialDivideConquer_equation_1.
  by destruct (decide (n <= 1)).
Qed.

Lemma factorialDivideConquer_hit n memo v :
  1 < n -> memo_get memo n = Some v -> v <> 0 ->
  factorialDivideConquer n memo = Some (v, memo).
Proof.
  intros Hn Hv Hnz. rewrite factorialDivideConquer_equation_1.
  destruct (decide (n <= 1)); [lia|]. cbn. rewrite Hv.
  by destruct (decide (v <> 0)).
Qed.

Lemma factorialDivideConquer_miss n memo r memo1 memo2 v :
  1 < n -> memo_get memo n = Some 0 ->
  factorialDivideConquer (n - 1) memo = Some (r, memo1) ->
  memo_set memo1 n (wrapu64 (n * r)) = Some memo2 ->
  memo_get memo2 n = Some v ->
  factorialDivideConquer n memo = Some (v, memo2).
Proof.
  intros Hn Hz Hrec Hset Hget. rewrite factorialDivideConquer_equation_1.
  destruct (decide (n <= 1)); [lia|]. cbn. rewrite Hz.
  destruct (decide (0 <> 0)); [done|]. by rewrite Hrec, Hset, Hget.
Qed.

(** What a call changes in the array, and what the same call does next. *)
Lemma factorialDivideConquer_effect n memo :
  memo_ok memo -> n <= 99 ->
  exists memo',
    factorialDivideConquer n memo =
      Some (wrapu64 (product_upto (Z.to_nat n)), memo') /\
    memo_ok memo' /\
    (forall k w, memo !! k = Some w ->
       memo' !! k = Some w \/
       (w = 0 /\ 2 <= Z.of_nat k <= n /\
        memo' !! k = Some (wrapu64 (product_upto k)))) /\
    factorialDivideConquer n memo' =
      Some (wrapu64 (product_upto (Z.to_nat n)), memo').
Proof.
  generalize (@eq_refl _ (Z.to_nat n)). generalize (Z.to_nat n) at 1 as m.
  intros m. revert n memo.
  induction m as [|m IH]; intros n memo Hm Hok Hn;
    destruct (decide (n <= 1)) as [Hle|Hgt]; try lia.
  - exists memo. rewrite product_upto_le_1 by done.
    rewrite factorialDivideConquer_small by done. eauto.
  - exists memo. rewrite product_upto_le_1 by done.
    rewrite factorialDivideConquer_small by done. eauto.
  - set (f := wrapu64 (product_upto (Z.to_nat n))).
    destruct (memo_get_Some memo n Hok) as [v Hv]; [lia|].
    assert (Hv' : memo !! Z.to_nat n = Some v).
    { unfold memo_get in Hv. by rewrite decide_True in Hv by lia. }
    destruct (decide (v = 0)) as [->|Hnz].
    + destruct (IH (n - 1) memo) as (memo1 & Hcall & Hok1 & Hfr & Hagain);
        [lia|done|lia|].
      destruct (memo_set_ok memo1 n Hok1) as (memo2 & Hset & Hok2 & Hget); [lia|].
      cbv zeta in Hset, Hget. fold f in Hset, Hget.
      assert (Hprod : wrapu64 (n * wrapu64 (product_upto (Z.to_nat (n - 1)))) = f).
      { rewrite Z.mul_comm. by apply wrapu64_step; lia. }
      assert (Hm2 : memo2 = <[Z.to_nat n := f]> memo1).
      { unfold memo_set in Hset. destruct (decide _) in Hset; [|done].
        by injection Hset. }
      exists memo2. split; [|split; [done|split]].
      * eapply factorialDivideConquer_miss; [lia|done|done| |done].
        by rewrite Hprod.
      * intros k w Hk. destruct (decide (k = Z.to_nat n)) as [->|Hkn].
        -- right. rewrite Hv' in Hk. injection Hk as <-.
           split; [done|]. split; [lia|].
           unfold memo_get in Hget. by rewrite decide_True in Hget by lia.
        -- rewrite Hm2, list_lookup_insert_ne by done.
           destruct (Hfr k w Hk) as [?|(-> & ? & ?)]; [by left|right].
           split; [done|]. split; [lia|done].
      * destruct (decide (f = 0)) as [Hz|Hnz].
        -- assert (Hsame : memo2 = memo1).
           { rewrite Hm2. apply list_insert_id. rewrite Hz.
             destruct (Hfr (Z.to_nat n) 0 Hv') as [H1|(_ & ? & _)]; [done|lia]. }
           eapply factorialDivideConquer_miss; [lia| | | |done].
           ++ by rewrite Hget, Hz.
           ++ rewrite Hsame. exact Hagain.
           ++ rewrite Hprod, <- Hset. by rewrite Hsame.
        -- by apply factorialDivideConquer_hit; [lia|..].
    + assert (v = f) as ->.
      { destruct Hok as [_ Hok]. by destruct (Hok _ _ Hv'). }
      exists memo. split; [by apply factorialDivideConquer_hit; [lia|..]|].
      split; [done|]. split; [eauto|].
      by apply factorialDivideConquer_hit; [lia|..].
Qed.

Lemma factorial_repeat_fixed cnt f v memo result :
  f memo = Some (v, memo) ->
  factorial_repeat (S cnt) f result memo = Some (v, memo).
Proof.
  intros Hf. cbn [factorial_repeat]. rewrite Hf. clear result.
  induction cnt as [|cnt IH]; [done|]. cbn [factorial_repeat]. by rewrite Hf.
Qed.

Lemma factorial_test_spec iterations n memo :
  0 < iterations -> n <= 99 -> reachable memo ->
  exists memo',
    factorial_test iterations n memo =
      Some ((wrapu64 (product_upto (Z.to_nat n)),
             wrapu64 (product_upto (Z.to_nat n))), memo') /\
    reachable memo'.
Proof.
  intros Hit Hn Hreach. unfold factorial_test.
  replace (Z.to_nat iterations) with (S (Z.to_nat (iterations - 1))) by lia.
  rewrite (factorial_repeat_fixed _ _ (wrapu64 (product_upto (Z.to_nat n))) memo).
  2:{ rewrite factorialBruteForce_spec; [done|]. unfold INT_MAX. lia. }
  destruct (factorialDivideConquer_effect n memo) as (memo' & Hcall & _ & _ & Hagain);
    [by apply reachable_memo_ok|done|].
  cbn [factorial_repeat]. rewrite Hcall.
  destruct (Z.to_nat (iterations - 1)) as [|c].
  - exists memo'. split; [done|]. by eapply reachable_call.
  - rewrite (factorial_repeat_fixed _ _ _ _ _ Hagain).
    exists memo'. split; [done|]. by eapply reachable_call.
Qed.

(** X12: both functions return the factorial itself, not only its remainder
    modulo [2 ^ 64], exactly for [n <= 20]. *)
Theorem factorial_exact_up_to_20 memo n :
  reachable memo -> n <= 99 ->
  exists v memo',
    factorialBruteForce n = Some v /\
    factorialDivideConquer n memo = Some (v, memo') /\
    (v = product_upto (Z.to_nat n) <-> n <= 20).
Proof.
  intros Hreach Hn.
  destruct (factorialDivideConquer_spec n memo) as (memo' & Hcall & _);
    [by apply reachable_memo_ok|done|].
  exists (wrapu64 (product_upto (Z.to_nat n))), memo'.
  split; [apply factorialBruteForce_spec; unfold INT_MAX; lia|].
  split; [done|]. rewrite product_upto_fits. lia.
Qed.

Lemma factorial_exact_up_to_20_witness :
  exists v memo',
    factorialBruteForce 20 = Some v /\
    factorialDivideConquer 20 memo_init = Some (v, memo') /\
    (v = product_upto (Z.to_nat 20) <-> 20 <= 20).
Proof.
  apply (factorial_exact_up_to_20 memo_init 20); [apply reachable_init|lia].
Defined.

(** X13: both functions return [0] exactly from [n = 66] on, where the
    factorial becomes a multiple of [2 ^ 64]. *)
Theorem factorial_zero_from_66 memo n :
  reachable memo -> n <= 99 ->
  exists v memo',
    factorialBruteForce n = Some v /\
    factorialDivideConquer n memo = Some (v, memo') /\
    (v = 0 <-> 66 <= n).
Proof.
  intros Hreach Hn.
  destruct (factorialDivideConquer_spec n memo) as (memo' & Hcall & _);
    [by apply reachable_memo_ok|done|].
  exists (wrapu64 (product_upto (Z.to_nat n))), memo'.
  split; [apply factorialBruteForce_spec; unfold INT_MAX; lia|].
  split; [done|]. rewrite product_upto_zero. lia.
Qed.

Lemma factorial_zero_from_66_witness :
  exists v memo',
    factorialBruteForce 70 = Some v /\
    factorialDivideConquer 70 memo_init = Some (v, memo') /\
    (v = 0 <-> 66 <= 70).
Proof.
  apply (factorial_zero_from_66 memo_init 70); [apply reachable_init|lia].
Defined.

(** X14: from [n = 100] on, [factorialDivideConquer] reads outside its array
    of 100 elements, while [factorialBruteForce] goes on returning [0]. *)
Theorem factorialDivideConquer_outside_array memo n :
  reachable memo -> 100 <= n < INT_MAX ->
  factorialDivideConquer n memo = None /\ factorialBruteForce n = Some 0.
Proof.
  intros Hreach Hn. split.
  - apply factorialDivideConquer_beyond; [by apply reachable_memo_ok|lia].
  - rewrite factorialBruteForce_spec by lia. f_equal.
    apply product_upto_zero. lia.
Qed.

Lemma factorialDivideConquer_outside_array_witness :
  factorialDivideConquer 100 memo_init = None /\
  factorialBruteForce 100 = Some 0.
Proof.
  apply (factorialDivideConquer_outside_array memo_init 100).
  - apply reachable_init.
  - unfold INT_MAX. lia.
Defined.

(** X15: [factorialBruteForce] returns for every [int] but the largest, where
    the last [i++] of its loop overflows. *)
Theorem factorialBruteForce_fails_only_at_INT_MAX n :
  int n -> factorialBruteForce n = None <-> n = INT_MAX.
Proof.
  intros Hn. split.
  - intros Hnone. destruct (decide (n = INT_MAX)) as [|Hne]; [done|].
    rewrite factorialBruteForce_spec in Hnone; [done|]. unfold int in Hn. lia.
  - intros ->. apply factorialBruteForce_overflow.
Qed.

Lemma factorialBruteForce_fails_only_at_INT_MAX_witness :
  factorialBruteForce INT_MAX = None <-> INT_MAX = INT_MAX.
Proof.
  apply (factorialBruteForce_fails_only_at_INT_MAX INT_MAX).
  unfold int, INT_MIN, INT_MAX. lia.
Defined.

(** X16: a call of [factorialDivideConquer] leaves every element of the array
    as it was, except elements that were [0] with an index from [2] to [n],
    which may receive the factorial of their index. *)
Theorem factorialDivideConquer_fills_only_empty_elements memo n v memo' :
  reachable memo -> factorialDivideConquer n memo = Some (v, memo') ->
  length memo' = length memo /\
  forall k w, memo !! k = Some w ->
    memo' !! k = Some w \/
    (w = 0 /\ 2 <= Z.of_nat k <= n /\
     memo' !! k = Some (wrapu64 (product_upto k))).
Proof.
  intros Hreach Hcall. assert (Hok := reachable_memo_ok memo Hreach).
  destruct (decide (n <= 99)) as [Hn|Hn].
  - destruct (factorialDivideConquer_effect n memo Hok Hn)
      as (m & Hm & Hokm & Hfr & _).
    rewrite Hm in Hcall. injection Hcall as _ <-. split; [|done].
    destruct Hok as [-> _]. by destruct Hokm as [-> _].
  - rewrite factorialDivideConquer_beyond in Hcall by (done || lia). done.
Qed.

Lemma factorialDivideConquer_fills_only_empty_elements_witness :
  length (<[2%nat := 2]> memo_init) = length memo_init /\
  forall k w, memo_init !! k = Some w ->
    <[2%nat := 2]> memo_init !! k = Some w \/
    (w = 0 /\ 2 <= Z.of_nat k <= 2 /\
     <[2%nat := 2]> memo_init !! k = Some (wrapu64 (product_upto k))).
Proof.
  apply (factorialDivideConquer_fills_only_empty_elements memo_init 2 2).
  - apply reachable_init.
  - vm_compute. reflexivity.
Defined.

(** X17: the same call made again returns the same value and leaves the array
    as the first call left it. *)
Theorem factorialDivideConquer_again memo n :
  reachable memo -> n <= 99 ->
  exists v memo',
    factorialDivideConquer n memo = Some (v, memo') /\
    factorialDivideConquer n memo' = Some (v, memo').
Proof.
  intros Hreach Hn.
  destruct (factorialDivideConquer_effect n memo) as (memo' & Hcall & _ & _ & Hagain);
    [by apply reachable_memo_ok|done|]. eauto.
Qed.

Lemma factorialDivideConquer_again_witness :
  exists v memo',
    factorialDivideConquer 70 memo_init = Some (v, memo') /\
    factorialDivideConquer 70 memo' = Some (v, memo').
Proof.
  apply (factorialDivideConquer_again memo_init 70); [apply reachable_init|lia].
Defined.

(** ** The states of the array *)









(** X19: [main] of factorial.cpp: whatever the number of iterations, at least
    one, every test case up to [20] prints twice the factorial of the test
    case, as do the four test cases of the program. *)
Theorem factorial_tests_print_factorials iterations testCases memo :
  0 < iterations -> Forall (fun n => n <= 20) testCases -> reachable memo ->
  exists memo',
    factorial_tests iterations testCases memo =
      Some ((fun n => (product_upto (Z.to_nat n), product_upto (Z.to_nat n)))
              <$> testCases, memo') /\
    reachable memo'.
Proof.
  intros Hit Hall. revert memo.
  induction Hall as [|n rest Hn _ IH]; intros memo Hreach.
  - exists memo. done.
  - destruct (factorial_test_spec iterations n memo) as (memo1 & Ht & Hr1);
      [done|lia|done|].
    destruct (IH memo1 Hr1) as (memo2 & Hts & Hr2).
    exists memo2. split; [|done]. cbn [factorial_tests fmap list_fmap].
    rewrite Ht, Hts. do 3 f_equal.
    assert (Hfit := proj2 (product_upto_fits (Z.to_nat n)) ltac:(lia)).
    by rewrite Hfit.
Qed.

Lemma factorial_tests_print_factorials_witness :
  exists memo',
    factorial_main =
      Some ((fun n => (product_upto (Z.to_nat n), product_upto (Z.to_nat n)))
              <$> [5; 10; 15; 20], memo') /\
    reachable memo'.
Proof.
  apply (factorial_tests_print_factorials 1000000 [5; 10; 15; 20] memo_init).
  - lia.
  - repeat constructor; lia.
  - apply reachable_init.
Defined.


(** * More about the prime-number program *)

Lemma count_loop_overflow f i count :
  (forall k, i <= k <= INT_MAX -> is_Some (f k)) ->
  i <= INT_MAX -> count_loop f INT_MAX i count = None.
Proof.
  intros Hf. remember (Z.to_nat (INT_MAX - i)) as m eqn:Hm.
  revert i count Hm Hf.
  induction m as [|m IH]; intros i count Hm Hf Hi;
    rewrite count_loop_equation_1;
    (destruct (decide (i <= INT_MAX)); [|lia]); cbn;
    destruct (Hf i ltac:(lia)) as [b ->].
  - destruct b; rewrite ?(decide_True (P := INT_MAX < i + 1)) by lia;
      [by destruct (decide _)|done].
  - destruct b.
    + destruct (decide (INT_MAX < count + 1)); [done|].
      rewrite decide_False by lia. apply IH; [lia| |lia].
      intros k Hk. apply Hf. lia.
    + rewrite decide_False by lia. apply IH; [lia| |lia].
      intros k Hk. apply Hf. lia.
Qed.

Lemma countPrimes_spec n :
  int n -> n < INT_MAX ->
  countPrimesBruteForce n = Some (Z.of_nat (length (primes_upto n))) /\
  countPrimesDivideConquer n = Some (Z.of_nat (length (primes_upto n))).
Proof.
  intros Hn Hmax. unfold countPrimesBruteForce, countPrimesDivideConquer.
  rewrite !count_loop_spec; try done; try lia.
  - unfold primes_upto. by replace (n + 1 - 2) with (n - 1) by lia.
  - intros k Hk. apply isPrime_decide, isPrimeDivideConquer_spec. int_lia.
  - intros k Hk. apply isPrime_decide, isPrimeBruteForce_spec. int_lia.
Qed.

Lemma primes_upto_succ n :
  1 <= n ->
  primes_upto (n + 1) =
  primes_upto n ++ (if bool_decide (Z.prime (n + 1)) then [n + 1] else []).
Proof.
  intros Hn. unfold primes_upto.
  replace (n + 1 - 1) with ((n - 1) + 1) by lia.
  rewrite seqZ_app by lia. rewrite filter_app. f_equal.
  replace (2 + (n - 1)) with (n + 1) by lia.
  change (seqZ (n + 1) 1) with [n + 1]. rewrite filter_cons, filter_nil.
  by destruct (decide (Z.prime (n + 1)));
    [rewrite bool_decide_eq_true_2|rewrite bool_decide_eq_false_2].
Qed.

Lemma primes_upto_small n : n <= 1 -> primes_upto n = [].
Proof. intros Hn. unfold primes_upto. by rewrite seqZ_nil by lia. Qed.

(** X20: either counting function returns for every [int] but the largest,
    where the last [i++] of its loop overflows. *)
Theorem countPrimes_fail_only_at_INT_MAX n :
  int n ->
  (countPrimesBruteForce n = None <-> n = INT_MAX) /\
  (countPrimesDivideConquer n = None <-> n = INT_MAX).
Proof.
  intros Hn. split; split.
  - intros Hnone. destruct (decide (n = INT_MAX)) as [|Hne]; [done|].
    destruct (countPrimes_spec n) as [H _]; [done|unfold int in Hn; lia|].
    by rewrite H in Hnone.
  - intros ->. apply count_loop_overflow; [|unfold INT_MAX; lia].
    intros k Hk. destruct (isPrimeBruteForce_spec k) as (b & -> & _); [|done].
    unfold int, INT_MIN, INT_MAX in *. lia.
  - intros Hnone. destruct (decide (n = INT_MAX)) as [|Hne]; [done|].
    destruct (countPrimes_spec n) as [_ H]; [done|unfold int in Hn; lia|].
    by rewrite H in Hnone.
  - intros ->. apply count_loop_overflow; [|unfold INT_MAX; lia].
    intros k Hk. destruct (isPrimeDivideConquer_spec k) as (b & -> & _); [|done].
    unfold int, INT_MIN, INT_MAX in *. lia.
Qed.

Lemma countPrimes_fail_only_at_INT_MAX_witness :
  (countPrimesBruteForce INT_MAX = None <-> INT_MAX = INT_MAX) /\
  (countPrimesDivideConquer INT_MAX = None <-> INT_MAX = INT_MAX).
Proof.
  apply (countPrimes_fail_only_at_INT_MAX INT_MAX).
  unfold int, INT_MIN, INT_MAX. lia.
Defined.

(** X21: the count is [0] up to [n = 1], negative [n] included, and from a
    number to the next it grows by one exactly when the next number is prime.
    *)
Theorem countPrimes_step n :
  int n -> n + 1 < INT_MAX ->
  exists c,
    countPrimesBruteForce n = Some c /\ countPrimesDivideConquer n = Some c /\
    (n <= 1 -> c = 0) /\
    countPrimesBruteForce (n + 1) =
      Some (if bool_decide (Z.prime (n + 1)) then c + 1 else c) /\
    countPrimesDivideConquer (n + 1) =
      Some (if bool_decide (Z.prime (n + 1)) then c + 1 else c).
Proof.
  intros Hn Hmax.
  destruct (countPrimes_spec n) as [Hbf Hdc]; [done|lia|].
  destruct (countPrimes_spec (n + 1)) as [Hbf' Hdc']; [int_lia|lia|].
  exists (Z.of_nat (length (primes_upto n))).
  split; [done|]. split; [done|]. split.
  { intros Hle. by rewrite primes_upto_small. }
  assert (Hlen : Z.of_nat (length (primes_upto (n + 1))) =
                 if bool_decide (Z.prime (n + 1))
                 then Z.of_nat (length (primes_upto n)) + 1
                 else Z.of_nat (length (primes_upto n))).
  { destruct (decide (1 <= n)) as [H1|H1].
    - rewrite primes_upto_succ, length_app by done.
      destruct (bool_decide (Z.prime (n + 1))); cbn [length]; lia.
    - rewrite (primes_upto_small n), (primes_upto_small (n + 1)) by lia.
      rewrite bool_decide_eq_false_2; [done|]. intros [Hp _]. lia. }
  by rewrite Hbf', Hdc', Hlen.
Qed.

Lemma countPrimes_step_witness :
  exists c,
    countPrimesBruteForce 12 = Some c /\ countPrimesDivideConquer 12 = Some c /\
    (12 <= 1 -> c = 0) /\
    countPrimesBruteForce (12 + 1) =
      Some (if bool_decide (Z.prime (12 + 1)) then c + 1 else c) /\
    countPrimesDivideConquer (12 + 1) =
      Some (if bool_decide (Z.prime (12 + 1)) then c + 1 else c).
Proof.
  apply (countPrimes_step 12); unfold int, INT_MIN, INT_MAX; lia.
Defined.

Lemma count_repeat_fixed cnt v count :
  count_repeat (S cnt) (Some v) count = Some v.
Proof.
  cbn [count_repeat]. clear count. induction cnt as [|cnt IH]; [done|]. exact IH.
Qed.

(** X22: [main] of the prime-number program: whatever the number of
    iterations, at least one, every range below the largest [int] prints twice
    the number of primes up to the range, as do the three ranges of the
    program. *)
Theorem prime_tests_print_counts iterations testRanges :
  0 < iterations -> Forall (fun range => int range /\ range < INT_MAX) testRanges ->
  prime_tests iterations testRanges =
  Some ((fun range => (Z.of_nat (length (primes_upto range)),
                       Z.of_nat (length (primes_upto range)))) <$> testRanges).
Proof.
  intros Hit Hall. induction Hall as [|range rest [Hr Hmax] _ IH]; [done|].
  cbn [prime_tests fmap list_fmap]. rewrite IH. unfold prime_test.
  destruct (countPrimes_spec range Hr Hmax) as [-> ->].
  replace (Z.to_nat iterations) with (S (Z.to_nat (iterations - 1))) by lia.
  by rewrite !count_repeat_fixed.
Qed.

Lemma prime_tests_print_counts_witness :
  prime_main =
  Some ((fun range => (Z.of_nat (length (primes_upto range)),
                       Z.of_nat (length (primes_upto range))))
          <$> [1000; 5000; 10000]).
Proof.
  apply (prime_tests_print_counts 10 [1000; 5000; 10000]).
  - lia.
  - repeat constructor; unfold int, INT_MIN, INT_MAX; lia.
Defined.
